(** * OpenRCT2: the tick scheduler of [Context.cpp] and the game-action contract

    A shallow embedding of the scheduling code of [src/openrct2/Context.cpp]
    (the members of [class Context] that drive the game loop) and of the
    interface declared in [src/openrct2/actions/StaffSetOrdersAction.h].

    Conventions of the embedding.

    - A C++ [float] is read in two ways.  In the sections that follow
      the state, it is an exact rational ([Q]): sums, products and
      comparisons are those of the source, without rounding, infinities or
      NaN, and equalities between accumulators are stated with [==].  This
      is the reading of what does not depend on rounding: the clamp, the
      order of the phases, the selection of the frame mode, the real-time
      counter, the termination flag.  In module [Machine] it is an IEEE 754
      binary32 value (module [Binary32]): every operation is rounded to
      nearest, ties to even, and may yield an infinity or a NaN.  This is
      the reading of what does depend on rounding: the number of logical
      ticks, the length of the sleep, and the stored time scale.
    - Unsigned machine integers are [Z] with the reduction modulo [2^w]
      written at every assignment.
    - Calls into other modules (window manager, tweener, drawing engine,
      game state ...) are not interpreted: each call is appended, in program
      order, to a log of [Event]s.  The increment of the shared counter
      [gCurrentRealTimeTicks] is logged as well.
    - The flags that other modules own and that the scheduler only reads are
      gathered in [Env]; they are fixed during one poll and may change from
      one poll to the next.
    - A [while] loop takes a fuel argument; running out of fuel yields
      [None].  The theorems give the fuel that is enough. *)

From stdpp Require Import gmap.
From Stdlib Require Import QArith Qround Qabs Qpower Lqa Lia String SpecFloat.

Local Open Scope Q_scope.

(** ** Constants and build switches *)

(** Modelled from the spec: [Game.h] and [OpenRCT2.h], which define the
    constants below, are not among the sources.  The spec calls them "fixed
    tick duration", "maximum accumulator threshold" and "time-scale bounds";
    the code only names them, so they are parameters of the development.
    The two preprocessor switches of [Context.cpp] are parameters too. *)
Class Build : Type := {
  kGameUpdateTimeMS : Q;
  kGameUpdateMaxThreshold : Q;
  kGameMinTimeScale : Q;
  kGameMaxTimeScale : Q;
  SCREEN_FLAGS_TITLE_DEMO : Z;
  ENABLE_SCRIPTING : bool;
  ENABLE_DISCORD : bool
}.

(** ** Machine arithmetic *)

Definition wrap (w : Z) (x : Z) : Z := (x mod 2 ^ w)%Z.

(** [a < b] on floats, as a boolean. *)
Definition Qltb (a b : Q) : bool := negb (Qle_bool b a).

(** [std::min(a, b)] is [(b < a) ? b : a]. *)
Definition std_min (a b : Q) : Q := if Qltb b a then b else a.

(** [std::clamp(v, lo, hi)] is [(v < lo) ? lo : (hi < v) ? hi : v]. *)
Definition std_clamp (v lo hi : Q) : Q :=
  if Qltb v lo then lo else if Qltb hi v then hi else v.

(** The integer part of a rational, rounding toward zero. *)
Definition Qtruncate (x : Q) : Z := Z.quot (Qnum x) (Zpos (Qden x)).

(** [static_cast<uintN_t>(x)] of a float discards the fractional part.  The
    conversion is undefined in C++ when the truncated value does not fit the
    target type; the model reduces it modulo [2^w] there. *)
Definition static_cast_uint (w : Z) (x : Q) : Z := wrap w (Qtruncate x).

(** ** State *)

Inductive IntroState : Type :=
| IntroState_None
| IntroState_PublisherBegin
| IntroState_Other (n : nat).

(** The flags read, but never written, by the scheduler. *)
Record Env : Type := mkEnv {
  gOpenRCT2Headless : bool;
  IsMinimised : bool;             (* _uiContext->IsMinimised() *)
  UncapFPS : bool;                (* gConfigGeneral.UncapFPS *)
  gGameSpeed : Z;
  gIntroState : IntroState;
  gScreenFlags : Z;
  GameIsNotPaused : bool
}.

(** The members of [Context] used by the game loop, and the globals the
    loop writes. *)
Record World : Type := mkWorld {
  _initialised : bool;
  _ticksAccumulator : Q;
  _realtimeAccumulator : Q;
  _timeScale : Q;
  _variableFrame : bool;
  _finished : bool;
  _discordService : bool;         (* _discordService != nullptr *)
  gCurrentRealTimeTicks : Z;      (* uint32_t *)
  gCurrentDeltaTime : Z;          (* uint16_t *)
  gPaletteEffectFrame : Z         (* uint32_t *)
}.

Definition set_initialised (v : bool) (w : World) : World :=
  mkWorld v (_ticksAccumulator w) (_realtimeAccumulator w) (_timeScale w)
    (_variableFrame w) (_finished w) (_discordService w)
    (gCurrentRealTimeTicks w) (gCurrentDeltaTime w) (gPaletteEffectFrame w).

Definition set_ticksAccumulator (v : Q) (w : World) : World :=
  mkWorld (_initialised w) v (_realtimeAccumulator w) (_timeScale w)
    (_variableFrame w) (_finished w) (_discordService w)
    (gCurrentRealTimeTicks w) (gCurrentDeltaTime w) (gPaletteEffectFrame w).

Definition set_realtimeAccumulator (v : Q) (w : World) : World :=
  mkWorld (_initialised w) (_ticksAccumulator w) v (_timeScale w)
    (_variableFrame w) (_finished w) (_discordService w)
    (gCurrentRealTimeTicks w) (gCurrentDeltaTime w) (gPaletteEffectFrame w).

Definition set_timeScale (v : Q) (w : World) : World :=
  mkWorld (_initialised w) (_ticksAccumulator w) (_realtimeAccumulator w) v
    (_variableFrame w) (_finished w) (_discordService w)
    (gCurrentRealTimeTicks w) (gCurrentDeltaTime w) (gPaletteEffectFrame w).

Definition set_variableFrame (v : bool) (w : World) : World :=
  mkWorld (_initialised w) (_ticksAccumulator w) (_realtimeAccumulator w)
    (_timeScale w) v (_finished w) (_discordService w)
    (gCurrentRealTimeTicks w) (gCurrentDeltaTime w) (gPaletteEffectFrame w).

Definition set_finished (v : bool) (w : World) : World :=
  mkWorld (_initialised w) (_ticksAccumulator w) (_realtimeAccumulator w)
    (_timeScale w) (_variableFrame w) v (_discordService w)
    (gCurrentRealTimeTicks w) (gCurrentDeltaTime w) (gPaletteEffectFrame w).

Definition set_discordService (v : bool) (w : World) : World :=
  mkWorld (_initialised w) (_ticksAccumulator w) (_realtimeAccumulator w)
    (_timeScale w) (_variableFrame w) (_finished w) v
    (gCurrentRealTimeTicks w) (gCurrentDeltaTime w) (gPaletteEffectFrame w).

Definition set_gCurrentRealTimeTicks (v : Z) (w : World) : World :=
  mkWorld (_initialised w) (_ticksAccumulator w) (_realtimeAccumulator w)
    (_timeScale w) (_variableFrame w) (_finished w) (_discordService w)
    v (gCurrentDeltaTime w) (gPaletteEffectFrame w).

Definition set_gCurrentDeltaTime (v : Z) (w : World) : World :=
  mkWorld (_initialised w) (_ticksAccumulator w) (_realtimeAccumulator w)
    (_timeScale w) (_variableFrame w) (_finished w) (_discordService w)
    (gCurrentRealTimeTicks w) v (gPaletteEffectFrame w).

Definition set_gPaletteEffectFrame (v : Z) (w : World) : World :=
  mkWorld (_initialised w) (_ticksAccumulator w) (_realtimeAccumulator w)
    (_timeScale w) (_variableFrame w) (_finished w) (_discordService w)
    (gCurrentRealTimeTicks w) (gCurrentDeltaTime w) v.

(** The state of a freshly constructed [Context] (the member initialisers
    of the class) with zeroed globals. *)
Definition newContext : World :=
  mkWorld false 0 0 1 false false false 0 0 0.

(** ** Log of observable actions *)

(** Calls made by one logical tick. *)
Inductive TickCall : Type :=
| DateUpdateRealTimeOfDay
| IntroUpdate
| TitleScreenTick
| GameStateTick
| DiscordServiceTick
| ChatUpdate
| ScriptEngineTick
| ProcessEvalQueue
| UiContextTick.

Inductive Event : Type :=
| TweenerRestore
| TweenerReset
| TweenerPreTick
| TweenerPostTick
| TweenerTween (alpha : Q)
| RealTimeTick                    (* gCurrentRealTimeTicks++ *)
| ProcessMessages
| Sleep (ms : Z)                  (* Platform::Sleep(ms) *)
| LogicalTick (calls : list TickCall)
| ContextHandleInput
| WindowUpdateAll
| BeginDraw
| Paint
| EndDraw.

(** ** The monad of the scheduler: state, log, and fuel exhaustion *)

Definition M (A : Type) : Type := World -> option (A * World * list Event).

Definition ret {A : Type} (a : A) : M A := fun w => Some (a, w, []).

Definition bind {A B : Type} (m : M A) (k : A -> M B) : M B :=
  fun w =>
    match m w with
    | None => None
    | Some (a, w1, t1) =>
        match k a w1 with
        | None => None
        | Some (b, w2, t2) => Some (b, w2, t1 ++ t2)
        end
    end.

Definition emit (e : Event) : M unit := fun w => Some (tt, w, [e]).
Definition gets {A : Type} (f : World -> A) : M A := fun w => Some (f w, w, []).
Definition modify (f : World -> World) : M unit := fun w => Some (tt, f w, []).
Definition when (b : bool) (m : M unit) : M unit := if b then m else ret tt.

(** The state and the log a computation that returns leaves behind. *)
Definition execM {A : Type} (m : M A) (w : World) : World :=
  match m w with Some (_, w', _) => w' | None => w end.
Definition logM {A : Type} (m : M A) (w : World) : list Event :=
  match m w with Some (_, _, log) => log | None => [] end.

Declare Scope sched_scope.
Delimit Scope sched_scope with sched.
Notation "x <- m ;; k" := (bind m (fun x => k))
  (at level 100, m at next level, right associativity) : sched_scope.
Notation "m ;; k" := (bind m (fun _ => k))
  (at level 100, right associativity) : sched_scope.
Local Open Scope sched_scope.

(** [while (cond) body]: [None] when the fuel does not reach the exit. *)
Fixpoint while (fuel : nat) (cond : World -> bool) (body : M unit) : M unit :=
  match fuel with
  | O => fun _ => None
  | S fuel' =>
      b <- gets cond ;;
      if b then body ;; while fuel' cond body else ret tt
  end.

(** [preserves f m]: whenever [m] returns, the observation [f] of the state
    is what it was. *)
Definition preserves {A X : Type} (f : World -> X) (m : M A) : Prop :=
  forall w a w' log, m w = Some (a, w', log) -> f w' = f w.

(** [logs P m]: whenever [m] returns, every entry of its log satisfies
    [P]. *)
Definition logs {A : Type} (P : Event -> Prop) (m : M A) : Prop :=
  forall w a w' log, m w = Some (a, w', log) -> Forall P log.

(** [untouched f]: the observation [f] does not depend on the accumulators
    nor on the globals that a frame assigns. *)
Definition untouched {X : Type} (f : World -> X) : Prop :=
  forall w,
    (forall v, f (set_ticksAccumulator v w) = f w) /\
    (forall v, f (set_realtimeAccumulator v w) = f w) /\
    (forall v, f (set_gCurrentRealTimeTicks v w) = f w) /\
    (forall v, f (set_gCurrentDeltaTime v w) = f w) /\
    (forall v, f (set_gPaletteEffectFrame v w) = f w).

(** ** The scheduler of [Context.cpp] *)

Section Scheduler.
Context {build : Build}.

Definition isIntroNone (s : IntroState) : bool :=
  match s with IntroState_None => true | _ => false end.

(** [Context::Tick] (lines 1171-1212).  The calls of one logical tick, in
    program order, and the two globals it assigns. *)
Definition Tick (env : Env) (w : World) : World * list TickCall :=
  let w1 :=
    set_gCurrentDeltaTime (static_cast_uint 16 (kGameUpdateTimeMS * 1000)) w in
  let w2 :=
    if GameIsNotPaused env
    then set_gPaletteEffectFrame
           (wrap 32 (gPaletteEffectFrame w1 + gCurrentDeltaTime w1)) w1
    else w1 in
  (w2,
   [DateUpdateRealTimeOfDay]
   ++ [if negb (isIntroNone (gIntroState env)) then IntroUpdate
       else if negb (Z.land (gScreenFlags env) SCREEN_FLAGS_TITLE_DEMO =? 0)%Z
               && negb (gOpenRCT2Headless env)
       then TitleScreenTick
       else GameStateTick]
   ++ (if ENABLE_DISCORD && _discordService w2 then [DiscordServiceTick] else [])
   ++ [ChatUpdate]
   ++ (if ENABLE_SCRIPTING then [ScriptEngineTick] else [])
   ++ [ProcessEvalQueue; UiContextTick]).

(** A call of [Tick()] from a frame: one [LogicalTick] entry of the log. *)
Definition callTick (env : Env) : M unit :=
  fun w => Some (tt, fst (Tick env w), [LogicalTick (snd (Tick env w))]).

(** [Context::ShouldDraw] (lines 1004-1011). *)
Definition ShouldDraw (env : Env) : bool :=
  if gOpenRCT2Headless env then false
  else if IsMinimised env then false
  else true.

(** [Context::ShouldRunVariableFrame] (lines 1013-1022). *)
Definition ShouldRunVariableFrame (env : Env) : bool :=
  if negb (ShouldDraw env) then false
  else if negb (UncapFPS env) then false
  else if (4 <? gGameSpeed env)%Z then false
  else true.

(** [Context::Finish] (lines 321-324). *)
Definition Finish (w : World) : World := set_finished true w.

(** [Context::SetTimeScale] (lines 1332-1335). *)
Definition SetTimeScale (newScale : Q) (w : World) : World :=
  set_timeScale (std_clamp newScale kGameMinTimeScale kGameMaxTimeScale) w.

(** [Context::GetTimeScale] (lines 1337-1340). *)
Definition GetTimeScale (w : World) : Q := _timeScale w.

(** [gCurrentRealTimeTicks++]. *)
Definition incRealTimeTicks : M unit :=
  emit RealTimeTick ;;
  modify (fun w =>
    set_gCurrentRealTimeTicks (wrap 32 (gCurrentRealTimeTicks w + 1)) w).

(** The body of the loop of lines 1090-1094. *)
Definition realTimeStep : M unit :=
  incRealTimeTicks ;;
  modify (fun w =>
    set_realtimeAccumulator (_realtimeAccumulator w - kGameUpdateTimeMS) w).

(** [Context::UpdateTimeAccumulators] (lines 1082-1095). *)
Definition UpdateTimeAccumulators (fuel : nat) (deltaTime : Q) : M unit :=
  (* Ticks *)
  timeScale <- gets _timeScale ;;
  let scaledDeltaTime := deltaTime * timeScale in
  modify (fun w =>
    set_ticksAccumulator
      (std_min (_ticksAccumulator w + scaledDeltaTime) kGameUpdateMaxThreshold) w) ;;
  (* Real Time. *)
  modify (fun w =>
    set_realtimeAccumulator
      (std_min (_realtimeAccumulator w + deltaTime) kGameUpdateMaxThreshold) w) ;;
  while fuel (fun w => Qle_bool kGameUpdateTimeMS (_realtimeAccumulator w))
    realTimeStep.

(** [Context::Draw] (lines 1162-1169). *)
Definition Draw : M unit :=
  emit BeginDraw ;; emit Paint ;; emit EndDraw.

(** [_ticksAccumulator -= kGameUpdateTimeMS]. *)
Definition consumeTick : M unit :=
  modify (fun w =>
    set_ticksAccumulator (_ticksAccumulator w - kGameUpdateTimeMS) w).

(** The body of the loop of lines 1110-1115. *)
Definition fixedTickStep (env : Env) : M unit :=
  callTick env ;;
  consumeTick.

(** The body of the loop of lines 1135-1148. *)
Definition variableTickStep (env : Env) : M unit :=
  (* Get the original position of each sprite *)
  when (ShouldDraw env) (emit TweenerPreTick) ;;
  callTick env ;;
  consumeTick ;;
  (* Get the next position of each sprite *)
  when (ShouldDraw env) (emit TweenerPostTick).

(** [Context::RunFixedFrame] (lines 1097-1124). *)
Definition RunFixedFrame (fuel : nat) (env : Env) (deltaTime : Q) : M unit :=
  emit ProcessMessages ;;
  acc <- gets _ticksAccumulator ;;
  if Qltb acc kGameUpdateTimeMS then
    let sleepTimeSec := kGameUpdateTimeMS - acc in
    emit (Sleep (static_cast_uint 32 (sleepTimeSec * 1000)))
  else
    while fuel (fun w => Qle_bool kGameUpdateTimeMS (_ticksAccumulator w))
      (fixedTickStep env) ;;
    emit ContextHandleInput ;;
    emit WindowUpdateAll ;;
    when (ShouldDraw env) Draw.

(** [Context::RunVariableFrame] (lines 1126-1160). *)
Definition RunVariableFrame (fuel : nat) (env : Env) (deltaTime : Q) : M unit :=
  let shouldDraw := ShouldDraw env in
  emit ProcessMessages ;;
  while fuel (fun w => Qle_bool kGameUpdateTimeMS (_ticksAccumulator w))
    (variableTickStep env) ;;
  emit ContextHandleInput ;;
  emit WindowUpdateAll ;;
  when shouldDraw
    (acc <- gets _ticksAccumulator ;;
     let alpha := std_min (acc / kGameUpdateTimeMS) 1 in
     emit (TweenerTween alpha) ;;
     Draw).

(** [Context::RunFrame] (lines 1051-1080).  [deltaTime] is the reading of
    [_timer.GetElapsedTimeAndRestart()]. *)
Definition RunFrame (fuel : nat) (env : Env) (deltaTime : Q) : M unit :=
  (* Make sure we catch the state change and reset it. *)
  let useVariableFrame := ShouldRunVariableFrame env in
  variableFrame <- gets _variableFrame ;;
  when (negb (Bool.eqb variableFrame useVariableFrame))
    (modify (set_variableFrame useVariableFrame) ;;
     emit TweenerRestore ;;
     emit TweenerReset) ;;
  UpdateTimeAccumulators fuel deltaTime ;;
  if useVariableFrame
  then RunVariableFrame fuel env deltaTime
  else RunFixedFrame fuel env deltaTime.

(** What the environment supplies to one poll: the flags in force, the
    reading of the timer, and whether some callee invoked [Finish()]
    while the frame ran. *)
Record Poll : Type := mkPoll {
  p_env : Env;
  p_deltaTime : Q;
  p_finish : bool
}.

(** Consecutive calls of [RunFrame], one per poll. *)
Fixpoint RunFrames (fuel : nat) (polls : list Poll) : M unit :=
  match polls with
  | [] => ret tt
  | p :: rest =>
      RunFrame fuel (p_env p) (p_deltaTime p) ;;
      RunFrames fuel rest
  end.

(** How a run of the game loop over a finite list of polls ends: the
    loop condition failed, or the polls ran out with the loop still
    going. *)
Inductive LoopStatus : Type := Exited | Running.

(** [do { RunFrame(); } while (!_finished);] (lines 1036-1039).  The flag
    is only read by the loop condition, so a [Finish()] issued anywhere
    inside the frame is applied when the frame returns. *)
Fixpoint doWhileNotFinished (fuel : nat) (polls : list Poll) : M LoopStatus :=
  match polls with
  | [] => ret Running
  | p :: rest =>
      RunFrame fuel (p_env p) (p_deltaTime p) ;;
      when (p_finish p) (modify Finish) ;;
      finished <- gets _finished ;;
      if negb finished then doWhileNotFinished fuel rest else ret Exited
  end.

(** [Context::RunGameLoop] (lines 1027-1049), the branch compiled without
    [__EMSCRIPTEN__].  [env0] holds the flags at the time of the call. *)
Definition RunGameLoop (fuel : nat) (env0 : Env) (polls : list Poll)
  : M LoopStatus :=
  modify (set_finished false) ;;
  modify (set_variableFrame (ShouldRunVariableFrame env0)) ;;
  doWhileNotFinished fuel polls.

(** *** Observations on a log *)

(** The number of logical ticks a log contains. *)
Fixpoint countTicks (log : list Event) : nat :=
  match log with
  | [] => 0
  | LogicalTick _ :: rest => S (countTicks rest)
  | _ :: rest => countTicks rest
  end.

(** The number of increments of [gCurrentRealTimeTicks] a log contains. *)
Fixpoint countRealTimeTicks (log : list Event) : nat :=
  match log with
  | [] => 0
  | RealTimeTick :: rest => S (countRealTimeTicks rest)
  | _ :: rest => countRealTimeTicks rest
  end.

(** The call of a tick that advances the intro, the title sequence or
    the simulation. *)
Definition isBranchCall (c : TickCall) : bool :=
  match c with
  | IntroUpdate | TitleScreenTick | GameStateTick => true
  | _ => false
  end.

(** The per-tick housekeeping calls. *)
Definition isHousekeepingCall (c : TickCall) : bool :=
  match c with
  | DiscordServiceTick | ChatUpdate | ScriptEngineTick | ProcessEvalQueue
  | UiContextTick => true
  | _ => false
  end.

Definition isTweenerCall (e : Event) : bool :=
  match e with
  | TweenerRestore | TweenerReset | TweenerPreTick | TweenerPostTick
  | TweenerTween _ => true
  | _ => false
  end.

(** Neither of the two calls of the tween discontinuity reset. *)
Definition notReset (e : Event) : Prop :=
  e <> TweenerRestore /\ e <> TweenerReset.

(** The wall-clock time covered by a list of polls. *)
Definition sumDeltas (polls : list Poll) : Q :=
  fold_right (fun p acc => p_deltaTime p + acc) 0 polls.

(** The number of whole tick durations an accumulator holds. *)
Definition pendingTicks (a : Q) : nat :=
  Z.to_nat (Qfloor (a / kGameUpdateTimeMS)).

(** Fuel that lets every loop of a poll reach its exit: an accumulator
    is at most [kGameUpdateMaxThreshold] when a loop starts. *)
Definition enoughFuel (fuel : nat) : Prop :=
  (pendingTicks kGameUpdateMaxThreshold < fuel)%nat.

(** [runs n a]: a loop guarded by [kGameUpdateTimeMS <= a] whose body
    subtracts [kGameUpdateTimeMS] iterates exactly [n] times from [a]. *)
Fixpoint runs (n : nat) (a : Q) : Prop :=
  match n with
  | O => a < kGameUpdateTimeMS
  | S k => kGameUpdateTimeMS <= a /\ runs k (a - kGameUpdateTimeMS)
  end.

(** An accumulator after [n] subtractions of [kGameUpdateTimeMS]. *)
Fixpoint drain (n : nat) (a : Q) : Q :=
  match n with
  | O => a
  | S k => drain k (a - kGameUpdateTimeMS)
  end.


(** The state and the log after [n] iterations of a loop body. *)
Fixpoint iterSt (body : M unit) (n : nat) (w : World) : World :=
  match n with
  | O => w
  | S k => iterSt body k (execM body w)
  end.

Fixpoint iterLog (body : M unit) (n : nat) (w : World) : list Event :=
  match n with
  | O => []
  | S k => logM body w ++ iterLog body k (execM body w)
  end.

(** *** The pieces of one poll, for stating what [RunFrame] computes *)

(** The log of the drawing phase of a fixed frame. *)
Definition drawLog (env : Env) : list Event :=
  if ShouldDraw env then [BeginDraw; Paint; EndDraw] else [].

(** The log of the drawing phase of a variable frame that ends in [w]. *)
Definition tweenLog (env : Env) (w : World) : list Event :=
  if ShouldDraw env
  then [TweenerTween (std_min (_ticksAccumulator w / kGameUpdateTimeMS) 1);
        BeginDraw; Paint; EndDraw]
  else [].

(** Whether a poll under [env] finds the render mode changed. *)
Definition modeChanged (env : Env) (w : World) : bool :=
  negb (Bool.eqb (_variableFrame w) (ShouldRunVariableFrame env)).

Definition switchMode (env : Env) (w : World) : World :=
  if modeChanged env w
  then set_variableFrame (ShouldRunVariableFrame env) w
  else w.

Definition switchLog (env : Env) (w : World) : list Event :=
  if modeChanged env w then [TweenerRestore; TweenerReset] else [].

(** The two accumulators after the clamped additions of lines 1085-1089. *)
Definition accumulate (deltaTime : Q) (w : World) : World :=
  set_realtimeAccumulator
    (std_min (_realtimeAccumulator w + deltaTime) kGameUpdateMaxThreshold)
    (set_ticksAccumulator
       (std_min (_ticksAccumulator w + deltaTime * _timeScale w)
          kGameUpdateMaxThreshold) w).

(** The loop body of the frame that [env] selects. *)
Definition tickStep (env : Env) : M unit :=
  if ShouldRunVariableFrame env then variableTickStep env else fixedTickStep env.

(** The log of the frame that [env] selects, entered in state [w] and
    running [n] ticks. *)
Definition frameLog (env : Env) (n : nat) (w : World) : list Event :=
  if ShouldRunVariableFrame env
  then [ProcessMessages]
       ++ iterLog (variableTickStep env) n w
       ++ [ContextHandleInput] ++ [WindowUpdateAll]
       ++ tweenLog env (iterSt (variableTickStep env) n w)
  else if Qltb (_ticksAccumulator w) kGameUpdateTimeMS
  then [ProcessMessages;
        Sleep (static_cast_uint 32
                 ((kGameUpdateTimeMS - _ticksAccumulator w) * 1000))]
  else [ProcessMessages]
       ++ iterLog (fixedTickStep env) n w
       ++ [ContextHandleInput] ++ [WindowUpdateAll] ++ drawLog env.

End Scheduler.

(** ** A concrete configuration *)

(** Modelled from the spec: the values of the constants are in headers that
    are not among the sources.  These are the values of the spec's
    examples: a "tick duration = 25 ms" and a threshold of "1 second"
    (spec 8); the title-demo flag is taken to be bit 0. *)
Definition exampleBuild : Build := {|
  kGameUpdateTimeMS := 25 # 1000;
  kGameUpdateMaxThreshold := 1;
  kGameMinTimeScale := 1 # 10;
  kGameMaxTimeScale := 5;
  SCREEN_FLAGS_TITLE_DEMO := 1;
  ENABLE_SCRIPTING := true;
  ENABLE_DISCORD := true
|}.

(** A visible window in game, with the frame rate capped ... *)
Definition fixedEnv : Env :=
  mkEnv false false false 1 IntroState_None 0 true.

(** ... and with the frame rate uncapped. *)
Definition variableEnv : Env :=
  mkEnv false false true 1 IntroState_None 0 true.

(** Three polls of 10 ms each (the scenario of spec 8), in either mode. *)
Definition threePolls (env : Env) : list Poll :=
  [mkPoll env (10 # 1000) false; mkPoll env (10 # 1000) false;
   mkPoll env (10 # 1000) false].

(** ** [Context::Initialise] *)

(** How a C++ call ends: it returns a value or leaves by an exception. *)
Inductive Outcome (A : Type) : Type :=
| Returned (a : A)
| Threw (what : string).
Arguments Returned {A} a.
Arguments Threw {A} what.

(** The answers of the platform that decide the path through
    [Initialise]. *)
Record InitEnv : Type := mkInitEnv {
  ie_headless : bool;               (* gOpenRCT2Headless *)
  ie_noGraphics : bool;             (* gOpenRCT2NoGraphics *)
  ie_lastRunVersionIsCurrent : bool;
  ie_openLanguageThrows : bool;     (* OpenLanguage(gConfigGeneral.Language) *)
  ie_openFallbackThrows : bool;     (* OpenLanguage(LANGUAGE_ENGLISH_UK) *)
  ie_rct2PathEmpty : bool;          (* GetOrPromptRCT2Path().empty() *)
  ie_processIsElevated : bool;
  ie_isRunningInWine : bool;
  ie_loadBaseGraphics : bool        (* result of LoadBaseGraphics() *)
}.

(** The initialisation work, one entry per call. *)
Inductive InitCall : Type :=
| CrashInit
| SetShowChangelog (b : bool)
| ConfigSaveDefault
| OpenLanguageConfigured
| OpenLanguageEnglishUK
| ShowMessageBox
| ConsoleErrorWriteLine
| GetOrPromptRCT2Path
| SetBasePath
| CreateAssetPackManager
| CreateDiscordService
| CreateWindow
| EnsureUserContentDirectoriesExist
| ObjectRepositoryLoadOrConstruct
| AssetPacksScanLoadReload
| TrackDesignRepositoryScan
| ScenarioRepositoryScan
| TitleSequenceManagerScan
| AudioInit
| ChatInit
| CopyOriginalUserFilesOver
| LoadBaseGraphics
| LightFXInit
| InputResetPlaceObjModifier
| ViewportInitAll
| GameStateInitAll
| ScriptEngineInitialise
| UiContextInitialise.

Section Initialise.
Context {build : Build}.

Definition warn (ie : InitEnv) : list InitCall :=
  if ie_headless ie then [ConsoleErrorWriteLine] else [ShowMessageBox].

(** The part of [Initialise] after the language has been opened
    (lines 379-484). *)
Definition initialiseServices (ie : InitEnv) (w : World)
  : Outcome bool * World * list InitCall :=
  let headless := ie_headless ie in
  if negb headless && ie_rct2PathEmpty ie
  then (Returned false, w, [GetOrPromptRCT2Path])
  else
    let w1 :=
      if ENABLE_DISCORD && negb headless then set_discordService true w else w in
    let log :=
      (if negb headless then [GetOrPromptRCT2Path; SetBasePath] else [])
      ++ (if negb headless then [CreateAssetPackManager] else [])
      ++ (if ENABLE_DISCORD && negb headless then [CreateDiscordService] else [])
      ++ (if ie_processIsElevated ie then warn ie else [])
      ++ (if ie_isRunningInWine ie then warn ie else [])
      ++ (if negb headless then [CreateWindow] else [])
      ++ [EnsureUserContentDirectoriesExist; ObjectRepositoryLoadOrConstruct]
      ++ (if negb headless then [AssetPacksScanLoadReload] else [])
      ++ [TrackDesignRepositoryScan; ScenarioRepositoryScan;
          TitleSequenceManagerScan]
      ++ (if negb headless then [AudioInit] else [])
      ++ [ChatInit; CopyOriginalUserFilesOver] in
    if negb (ie_noGraphics ie) && negb (ie_loadBaseGraphics ie)
    then (Returned false, w1, log ++ [LoadBaseGraphics])
    else
      (Returned true, w1,
       log
       ++ (if negb (ie_noGraphics ie) then [LoadBaseGraphics; LightFXInit] else [])
       ++ [InputResetPlaceObjModifier; ViewportInitAll; GameStateInitAll]
       ++ (if ENABLE_SCRIPTING then [ScriptEngineInitialise] else [])
       ++ [UiContextInitialise]).

(** [Context::Initialise] (lines 332-485). *)
Definition Initialise (ie : InitEnv) (w : World)
  : Outcome bool * World * list InitCall :=
  if _initialised w
  then (Threw "Context already initialised.", w, [])
  else
    let w1 := set_initialised true w in
    let log1 :=
      [CrashInit]
      ++ (if ie_lastRunVersionIsCurrent ie
          then [SetShowChangelog false]
          else [SetShowChangelog true; ConfigSaveDefault])
      ++ [OpenLanguageConfigured] in
    if ie_openLanguageThrows ie
    then
      if ie_openFallbackThrows ie
      then (Returned false, w1, log1 ++ [OpenLanguageEnglishUK; ShowMessageBox])
      else
        let '(r, w2, log2) := initialiseServices ie w1 in
        (r, w2, log1 ++ [OpenLanguageEnglishUK] ++ log2)
    else
      let '(r, w2, log2) := initialiseServices ie w1 in
      (r, w2, log1 ++ log2).

End Initialise.

(** A start with a window, graphics and a working installation. *)
Definition exampleInitEnv : InitEnv :=
  mkInitEnv false false true false false false false false true.

(** ** The entity tweener *)

Module EntityTweener.

Record CoordsXYZ : Type := mkCoords { x : Z; y : Z; z : Z }.

(** Modelled from the spec: [entity/EntityTweener.cpp] and the entity
    types are not among the sources.  An entity has an authoritative
    simulation position and a "render-only position field" (spec 4.3). *)
Record Entity : Type := mkEntity {
  position : CoordsXYZ;
  renderPosition : CoordsXYZ
}.

(** Modelled from the spec: the tweener is absent from the sources.  Its
    state is, per entity, the "pre-tick position" ("from") and the
    "post-tick position" ("to") of spec 3, TweenState. *)
Record Tweener : Type := mkTweener {
  PrePos : gmap N CoordsXYZ;
  PostPos : gmap N CoordsXYZ
}.

(** The entities of the game state together with the tweener. *)
Record State : Type := mkState {
  entities : gmap N Entity;
  tweener : Tweener
}.

(** Modelled from the spec: "Reset() clears all recorded position
    pairs." *)
Definition Reset (s : State) : State :=
  mkState (entities s) (mkTweener ∅ ∅).

(** Modelled from the spec: "PreTick() snapshots current positions of all
    live entities as 'from'." *)
Definition PreTick (s : State) : State :=
  mkState (entities s)
    (mkTweener (position <$> entities s) (PostPos (tweener s))).

(** Modelled from the spec: "PostTick() snapshots current positions as
    'to'." *)
Definition PostTick (s : State) : State :=
  mkState (entities s)
    (mkTweener (PrePos (tweener s)) (position <$> entities s)).

(** Modelled from the spec: "Restore() writes the 'to' (authoritative)
    position back into the render-only field, discarding interpolation";
    an entity without a "to" sample is left alone. *)
Definition Restore (s : State) : State :=
  mkState
    (map_imap
       (fun id e =>
          match PostPos (tweener s) !! id with
          | Some to => Some (mkEntity (position e) to)
          | None => Some e
          end)
       (entities s))
    (tweener s).

End EntityTweener.

(** ** Game actions *)

Module GameActions.

(** Modelled from the spec: [GameAction.h] is not among the sources.  An
    action result is "success ... or failure (with an error
    classification and human-readable detail)" (spec 3); the
    classifications are the ones the spec names. *)
Inductive ErrorClass : Type :=
| NotPermitted
| TargetNotFound
| InvariantViolated
| SimulationPaused.

Inductive Result : Type :=
| Success
| Failure (e : ErrorClass) (detail : string).

Definition isFailure (r : Result) : bool :=
  match r with Success => false | Failure _ _ => true end.

(** Modelled from the spec: the staff types are not among the sources.
    The part of a staff member that an order-setting action touches. *)
Record Staff : Type := mkStaff {
  StaffOrders : Z                 (* uint8_t *)
}.

(** Modelled from the spec: "the single mutable aggregate all actions
    operate on" (spec 3), reduced to the staff registry and the pause
    state. *)
Record GameState : Type := mkGameState {
  staff : gmap N Staff;
  paused : bool
}.

(** The virtual members declared for an action in
    [StaffSetOrdersAction.h] (lines 26-30), on an explicit game state.
    [allowedWhilePaused] reads the pause-exemption bit of
    [GetActionFlags()]. *)
Class GameAction (A : Type) : Type := {
  allowedWhilePaused : A -> bool;
  Query : A -> GameState -> Result;
  Execute : A -> GameState -> Result * GameState
}.

(** The fields of [StaffSetOrdersAction] (lines 17-18). *)
Record StaffSetOrdersAction : Type := mkStaffSetOrdersAction {
  _spriteIndex : N;               (* EntityId *)
  _ordersId : Z                   (* uint8_t *)
}.

(** Modelled from the spec: [StaffSetOrdersAction.cpp] is not among the
    sources.  Query "checks referential validity (does the target
    entity/object exist ...)" and "an order-setting action targeting a
    non-existent staff identifier fails Query with a 'target not found'
    classification". *)
Definition StaffSetOrders_Query (a : StaffSetOrdersAction) (s : GameState)
  : Result :=
  match staff s !! _spriteIndex a with
  | None => Failure TargetNotFound "staff member does not exist"
  | Some _ => Success
  end.

(** Modelled from the spec: Execute "performs the mutation, returns the
    same result shape". *)
Definition StaffSetOrders_Execute (a : StaffSetOrdersAction) (s : GameState)
  : Result * GameState :=
  match staff s !! _spriteIndex a with
  | None => (Failure TargetNotFound "staff member does not exist", s)
  | Some _ =>
      (Success,
       mkGameState
         (<[_spriteIndex a := mkStaff (wrap 8 (_ordersId a))]> (staff s))
         (paused s))
  end.

#[global] Instance StaffSetOrders_GameAction : GameAction StaffSetOrdersAction := {
  allowedWhilePaused := fun _ => false;
  Query := StaffSetOrders_Query;
  Execute := StaffSetOrders_Execute
}.

(** What the dispatcher does with an action, in order. *)
Inductive Call : Type :=
| CallQuery
| CallExecute
| Broadcast
| SendToHost.

Inductive NetworkMode : Type := Standalone | Host | Peer.
Inductive Origin : Type := Local | FromHost.

(** Modelled from the spec: the dispatcher ([GameAction.cpp]) is not among
    the sources.  Spec 4.5: while paused, an action without the
    pause-exemption flag is "rejected with a 'simulation paused'
    failure"; a local session does "Query then immediately Execute"; a
    host does "Query locally; on success, Execute locally, then
    broadcast"; on a peer a local action is "sent to the host", one that
    arrives from the host gets "Query then Execute locally". *)
Definition Enqueue {A : Type} `{GameAction A}
    (mode : NetworkMode) (origin : Origin) (a : A) (s : GameState)
  : Result * GameState * list Call :=
  if paused s && negb (allowedWhilePaused a)
  then (Failure SimulationPaused "simulation paused", s, [])
  else
    match mode, origin with
    | Peer, Local => (Success, s, [SendToHost])
    | _, _ =>
        match Query a s with
        | Failure e d => (Failure e d, s, [CallQuery])
        | Success =>
            let '(r, s') := Execute a s in
            (r, s', [CallQuery; CallExecute]
                    ++ match mode with Host => [Broadcast] | _ => [] end)
        end
    end.

(** A registry with one handyman, and an order for a staff member that
    does not exist. *)
Definition exampleState : GameState :=
  mkGameState {[ 1%N := mkStaff 0 ]} false.

Definition exampleAction : StaffSetOrdersAction :=
  mkStaffSetOrdersAction 7 1.

End GameActions.

(** * More of [Context.cpp] *)

(** ** Further observations on a poll *)

(** A call of the drawing engine or of the painter. *)
Definition isDrawCall (e : Event) : bool :=
  match e with BeginDraw | Paint | EndDraw => true | _ => false end.

(** A tweener call made by a frame (not by the mode switch). *)
Definition isFrameTweenerCall (e : Event) : bool :=
  match e with
  | TweenerPreTick | TweenerPostTick | TweenerTween _ => true
  | _ => false
  end.

(** The logical ticks of a log, each with its calls, in order. *)
Fixpoint ticksOf (log : list Event) : list (list TickCall) :=
  match log with
  | [] => []
  | LogicalTick calls :: rest => calls :: ticksOf rest
  | _ :: rest => ticksOf rest
  end.

(** A state with the render mode forgotten. *)
Definition forgetMode (w : World) : World := set_variableFrame false w.

(** Two environments that a logical tick cannot tell apart: they differ at
    most in the window being minimised, the frame-rate cap and the game
    speed. *)
Definition sameSimulation (e1 e2 : Env) : Prop :=
  gOpenRCT2Headless e1 = gOpenRCT2Headless e2 /\
  gIntroState e1 = gIntroState e2 /\
  gScreenFlags e1 = gScreenFlags e2 /\
  GameIsNotPaused e1 = GameIsNotPaused e2.

(** Two lists of polls with the same timer readings whose environments a
    logical tick cannot tell apart. *)
Definition samePolls (ps1 ps2 : list Poll) : Prop :=
  Forall2 (fun p1 p2 => p_deltaTime p1 = p_deltaTime p2 /\
                        sameSimulation (p_env p1) (p_env p2)) ps1 ps2.


(** Neither a call of the drawing engine nor a tweener call of a frame. *)
Definition notRendering (e : Event) : Prop :=
  isDrawCall e = false /\ isFrameTweenerCall e = false.

(** A dedicated server: no window at all. *)
Definition headlessEnv : Env :=
  mkEnv true false true 1 IntroState_None 0 true.

(** ** [Context::HasObjectsThatUseFallbackImages] *)

Module Objects.

(** Modelled from the spec: the object types are declared in headers that
    are not among the sources.  Of a loaded object the code only asks
    [UsesFallbackImages()]. *)
Record LoadedObject : Type := mkLoadedObject {
  UsesFallbackImages : bool
}.

Section Fallback.
(** [getAllObjectTypes()] and [getObjectEntryGroupCount(objectType)] are
    defined elsewhere; [loaded] is what
    [_objectManager->GetLoadedObject(objectType, i)] answers, a missing key
    standing for [nullptr]. *)
Variable getAllObjectTypes : list N.
Variable getObjectEntryGroupCount : N -> N.
Variable loaded : gmap (N * N) LoadedObject.

(** The inner loop of lines 806-814, entered with index [i] and
    [remaining] iterations to go.  The index is an [ObjectEntryIndex]
    ([uint16_t]); it stays below [maxObjectsOfType <= 65535] and cannot
    wrap. *)
Fixpoint scanGroup (objectType : N) (i : N) (remaining : nat) : bool :=
  match remaining with
  | O => false
  | S k =>
      match loaded !! (objectType, i) with
      | Some obj =>
          if UsesFallbackImages obj then true
          else scanGroup objectType (i + 1) k
      | None => scanGroup objectType (i + 1) k
      end
  end.

(** [static_cast<ObjectEntryIndex>(getObjectEntryGroupCount(objectType))]. *)
Definition maxObjectsOfType (objectType : N) : N :=
  (getObjectEntryGroupCount objectType mod 2 ^ 16)%N.

(** The outer loop of lines 803-815. *)
Fixpoint scanTypes (types : list N) : bool :=
  match types with
  | [] => false
  | objectType :: rest =>
      if scanGroup objectType 0 (N.to_nat (maxObjectsOfType objectType))
      then true
      else scanTypes rest
  end.

(** [Context::HasObjectsThatUseFallbackImages] (lines 801-817). *)
Definition HasObjectsThatUseFallbackImages : bool :=
  scanTypes getAllObjectTypes.

End Fallback.

(** Two object types with room for four and two objects; an object with
    fallback images sits in the second group, another one beyond the end of
    the first. *)
Definition exampleTypes : list N := [0%N; 1%N].
Definition exampleGroupCount (objectType : N) : N :=
  if (objectType =? 0)%N then 4%N else 2%N.
Definition exampleLoaded : gmap (N * N) LoadedObject :=
  {[ (0%N, 0%N) := mkLoadedObject false;
     (0%N, 9%N) := mkLoadedObject true;
     (1%N, 1%N) := mkLoadedObject true ]}.

End Objects.

(** ** [Context::GetOrPromptRCT2Path] *)

Module InstallPath.

(** What the function reads and what the platform answers. *)
Record PathEnv : Type := mkPathEnv {
  gCustomRCT2DataPath : string;
  RCT2Path : string;                          (* gConfigGeneral.RCT2Path *)
  OriginalGameDataExists : string -> bool;    (* Platform::... *)
  ConfigFindOrBrowseInstallDirectory : bool;  (* its return value *)
  RCT2PathAfterBrowse : string                (* gConfigGeneral.RCT2Path then *)
}.

Inductive PathCall : Type :=
| CallOriginalGameDataExists (path : string)
| CallConfigFindOrBrowseInstallDirectory
| ErrorInstallDirectoryMustBeSpecified.

Definition isEmpty (s : string) : bool :=
  match s with EmptyString => true | _ => false end.

(** [Context::GetOrPromptRCT2Path] (lines 819-844): the path returned and
    the calls made.  [ConfigGetDefaultPath()] only supplies the file name
    printed in the error message. *)
Definition GetOrPromptRCT2Path (e : PathEnv) : string * list PathCall :=
  if isEmpty (gCustomRCT2DataPath e) then
    (* Check install directory *)
    if isEmpty (RCT2Path e) then
      if negb (ConfigFindOrBrowseInstallDirectory e)
      then (EmptyString,
            [CallConfigFindOrBrowseInstallDirectory;
             ErrorInstallDirectoryMustBeSpecified])
      else (RCT2PathAfterBrowse e, [CallConfigFindOrBrowseInstallDirectory])
    else if negb (OriginalGameDataExists e (RCT2Path e)) then
      if negb (ConfigFindOrBrowseInstallDirectory e)
      then (EmptyString,
            [CallOriginalGameDataExists (RCT2Path e);
             CallConfigFindOrBrowseInstallDirectory;
             ErrorInstallDirectoryMustBeSpecified])
      else (RCT2PathAfterBrowse e,
            [CallOriginalGameDataExists (RCT2Path e);
             CallConfigFindOrBrowseInstallDirectory])
    else (RCT2Path e, [CallOriginalGameDataExists (RCT2Path e)])
  else (gCustomRCT2DataPath e, []).

(** No custom path, a configured directory without the game data, and a
    user who then picks a directory. *)
Definition exampleEnv : PathEnv :=
  mkPathEnv EmptyString "/old" (fun _ => false) true "/games/rct2".

End InstallPath.

(** ** [Context::EnsureDirectoriesExist] and [CopyOriginalUserFilesOver] *)

Module UserFiles.

Inductive DIRBASE : Type := DIRBASE_RCT2 | DIRBASE_USER | DIRBASE_Other (n : nat).

Inductive DIRID : Type :=
| DIRID_OBJECT | DIRID_SAVE | DIRID_SCENARIO | DIRID_TRACK | DIRID_LANDSCAPE
| DIRID_HEIGHTMAP | DIRID_PLUGIN | DIRID_THEME | DIRID_SEQUENCE | DIRID_REPLAY
| DIRID_LOG_DESYNCS | DIRID_CRASH | DIRID_Other (n : nat).

(** One result of the directory scanner, with what the platform answers
    while the loop body handles it. *)
Record ScanEntry : Type := mkScanEntry {
  se_path : string;              (* scanner->GetPath() *)
  se_pathRelative : string;      (* scanner->GetPathRelative() *)
  se_createDirectory : bool;     (* Path::CreateDirectory(dstDirectory) *)
  se_exists : bool;              (* File::Exists(dst) *)
  se_copy : bool                 (* File::Copy(src, dst, false) *)
}.

Inductive FileCall : Type :=
| CreateDirectory (path : string)
| LogErrorUnableToCreateDirectory (path : string)
| ErrorCouldNotCreateDirectory (path : string)
| FileExists (path : string)
| WriteLineCopying (src dst : string)
| FileCopy (src dst : string) (overwrite : bool)
| ErrorFailedToCopy (src dst : string).

Section Files.
(** [Path::Combine], [Path::GetDirectory], [_env->GetDirectoryPath],
    [Path::CreateDirectory] and [Path::ScanDirectory] belong to other
    modules. *)
Variable PathCombine : string -> string -> string.
Variable PathGetDirectory : string -> string.
Variable GetDirectoryPath : DIRBASE -> DIRID -> string.
Variable PathCreateDirectory : string -> bool.
Variable PathScanDirectory : string -> list ScanEntry.

(** [Context::EnsureDirectoriesExist] (lines 1237-1245). *)
Fixpoint EnsureDirectoriesExist (dirBase : DIRBASE) (dirIds : list DIRID)
  : list FileCall :=
  match dirIds with
  | [] => []
  | dirId :: rest =>
      let path := GetDirectoryPath dirBase dirId in
      [CreateDirectory path]
      ++ (if negb (PathCreateDirectory path)
          then [LogErrorUnableToCreateDirectory path] else [])
      ++ EnsureDirectoriesExist dirBase rest
  end.

(** [Context::EnsureUserContentDirectoriesExist] (lines 1217-1235). *)
Definition EnsureUserContentDirectoriesExist : list FileCall :=
  EnsureDirectoriesExist DIRBASE_USER
    [DIRID_OBJECT; DIRID_SAVE; DIRID_SCENARIO; DIRID_TRACK; DIRID_LANDSCAPE;
     DIRID_HEIGHTMAP; DIRID_PLUGIN; DIRID_THEME; DIRID_SEQUENCE; DIRID_REPLAY;
     DIRID_LOG_DESYNCS; DIRID_CRASH].

(** The loop of lines 1269-1291 over the results of the scanner. *)
Fixpoint copyLoop (dstRoot : string) (entries : list ScanEntry) : list FileCall :=
  match entries with
  | [] => []
  | entry :: rest =>
      let src := se_path entry in
      let dst := PathCombine dstRoot (se_pathRelative entry) in
      let dstDirectory := PathGetDirectory dst in
      (* Create the directory if necessary *)
      if negb (se_createDirectory entry)
      then [CreateDirectory dstDirectory;
            ErrorCouldNotCreateDirectory dstDirectory]        (* break *)
      else
        [CreateDirectory dstDirectory; FileExists dst]
        (* Only copy the file if it doesn't already exist *)
        ++ (if negb (se_exists entry)
            then [WriteLineCopying src dst; FileCopy src dst false]
                 ++ (if negb (se_copy entry)
                     then [ErrorFailedToCopy src dst] else [])
            else [])
        ++ copyLoop dstRoot rest
  end.

(** [CopyOriginalUserFilesOver(srcRoot, dstRoot, pattern)]
    (lines 1263-1292). *)
Definition CopyOriginalUserFilesOver_roots
    (srcRoot dstRoot pattern : string) : list FileCall :=
  let scanPattern := PathCombine srcRoot pattern in
  copyLoop dstRoot (PathScanDirectory scanPattern).

(** [CopyOriginalUserFilesOver(dirid, pattern)] (lines 1256-1261). *)
Definition CopyOriginalUserFilesOver_dirid (dirid : DIRID) (pattern : string)
  : list FileCall :=
  let src := GetDirectoryPath DIRBASE_RCT2 dirid in
  let dst := GetDirectoryPath DIRBASE_USER dirid in
  CopyOriginalUserFilesOver_roots src dst pattern.

(** [CopyOriginalUserFilesOver()] (lines 1250-1254). *)
Definition CopyOriginalUserFilesOver : list FileCall :=
  CopyOriginalUserFilesOver_dirid DIRID_SAVE "*.sv6"
  ++ CopyOriginalUserFilesOver_dirid DIRID_LANDSCAPE "*.sc6".

End Files.

(** The copies a log attempts: source, destination, overwrite flag. *)
Fixpoint copiesOf (log : list FileCall) : list (string * string * bool) :=
  match log with
  | [] => []
  | FileCopy src dst overwrite :: rest => (src, dst, overwrite) :: copiesOf rest
  | _ :: rest => copiesOf rest
  end.

(** The directories a log tries to create. *)
Fixpoint createdOf (log : list FileCall) : list string :=
  match log with
  | [] => []
  | CreateDirectory path :: rest => path :: createdOf rest
  | _ :: rest => createdOf rest
  end.

(** The directories a log reports as impossible to create. *)
Fixpoint failedOf (log : list FileCall) : list string :=
  match log with
  | [] => []
  | LogErrorUnableToCreateDirectory path :: rest => path :: failedOf rest
  | _ :: rest => failedOf rest
  end.

(** The longest prefix whose elements satisfy [p]. *)
Fixpoint takeWhile {A : Type} (p : A -> bool) (l : list A) : list A :=
  match l with
  | [] => []
  | x :: rest => if p x then x :: takeWhile p rest else []
  end.

(** A toy platform: paths are joined with a slash, every file lives
    directly in its root. *)
Definition exampleCombine (a b : string) : string := (a ++ "/" ++ b)%string.
Definition exampleGetDirectory (p : string) : string := "user/save".
Definition exampleEntries : list ScanEntry :=
  [mkScanEntry "rct2/save/a.sv6" "a.sv6" true false true;
   mkScanEntry "rct2/save/b.sv6" "b.sv6" true true true;
   mkScanEntry "rct2/save/c.sv6" "c.sv6" false false true;
   mkScanEntry "rct2/save/d.sv6" "d.sv6" true false true].

End UserFiles.


(** ** [Context::LoadParkFromStream] and [Context::LoadParkFromFile] *)

Module ParkLoad.

(** Modelled from the spec: the file classifier, the park importers, the
    network, the string ids and the exception classes are declared in
    headers that are not among the sources.  Of each enumeration the
    constants that [Context.cpp] names are constructors here and all the
    others are gathered in one more constructor. *)
Inductive FILE_TYPE : Type :=
| FILE_TYPE_PARK
| FILE_TYPE_SAVED_GAME
| FILE_TYPE_SCENARIO
| FILE_TYPE_Other (n : nat).

Inductive NETWORK_MODE : Type :=
| NETWORK_MODE_NONE
| NETWORK_MODE_CLIENT
| NETWORK_MODE_SERVER
| NETWORK_MODE_Other (n : nat).

Definition isPark (t : FILE_TYPE) : bool :=
  match t with FILE_TYPE_PARK => true | _ => false end.
Definition isSavedGame (t : FILE_TYPE) : bool :=
  match t with FILE_TYPE_SAVED_GAME => true | _ => false end.
Definition isScenario (t : FILE_TYPE) : bool :=
  match t with FILE_TYPE_SCENARIO => true | _ => false end.
Definition isClient (m : NETWORK_MODE) : bool :=
  match m with NETWORK_MODE_CLIENT => true | _ => false end.
Definition isServer (m : NETWORK_MODE) : bool :=
  match m with NETWORK_MODE_SERVER => true | _ => false end.
Definition isNone (m : NETWORK_MODE) : bool :=
  match m with NETWORK_MODE_NONE => true | _ => false end.

(** [ClassifiedFileInfo], as far as the code reads it. *)
Record ClassifiedFileInfo : Type := mkClassifiedFileInfo {
  info_Type : FILE_TYPE;
  info_Version : Z
}.

(** The result of [IParkImporter::LoadFromStream], as far as the code reads
    it. *)
Record ParkLoadResult : Type := mkParkLoadResult {
  RequiredObjects : list N;
  SemiCompatibleVersion : bool;
  TargetVersion : Z
}.

(** The exceptions the two functions tell apart.  The three park exceptions
    are [std::exception]s; [ForeignException] stands for anything thrown
    that is not one, which no handler of the two functions catches. *)
Inductive ExceptionKind : Type :=
| ObjectLoadException (MissingObjects : list N)
| UnsupportedRideTypeException
| UnsupportedVersionException (MinVersion TargetVersion : Z)
| OtherStdException
| ForeignException.

Record Exception : Type := mkException {
  kind : ExceptionKind;
  what : string
}.

Definition runtime_error (msg : string) : Exception :=
  mkException OtherStdException msg.

Definition isStdException (e : Exception) : bool :=
  match kind e with ForeignException => false | _ => true end.

Inductive StringId : Type :=
| STR_NONE
| STR_EMPTY
| STR_FAILED_TO_LOAD_FILE_CONTAINS_INVALID_DATA
| STR_WARNING_PARK_VERSION_TITLE
| STR_WARNING_PARK_VERSION_MESSAGE
| STR_PARK_USES_FALLBACK_IMAGES_WARNING
| STR_FILE_CONTAINS_UNSUPPORTED_RIDE_TYPES
| STR_ERROR_PARK_VERSION_TITLE
| STR_ERROR_PARK_VERSION_TOO_NEW_MESSAGE_2
| STR_ERROR_PARK_VERSION_TOO_NEW_MESSAGE.

(** The startup actions [Launch] tells apart. *)
Inductive StartupAction : Type :=
| StartupAction_None
| StartupAction_Intro
| StartupAction_Title
| StartupAction_Open
| StartupAction_Edit
| StartupAction_Other (n : nat).

(** The stream handed to [LoadParkFromStream]. *)
Inductive Stream : Type :=
| FileStream (path : string)
| MemoryStream (data : list Z).

(** The calls into other modules and the assignments to globals, in the
    order of the program.  [_uiContext->GetWindowManager()] and
    [::GetGameState()] are plain getters and are not recorded, and neither
    is [LOG_VERBOSE]. *)
Inductive Call : Type :=
| TryClassifyFile (stream : Stream)
| ParkImporter_CreateParkFile
| ParkImporter_CreateS4
| ParkImporter_CreateS6
| LoadFromStream (stream : Stream) (isScenario skipObjectCheck : bool)
    (path : string)
| GameUnloadScripts
| LoadObjects (required : list N)
| Import
| Assign_gScenarioSavePath (path : string)
| Assign_gCurrentLoadedPath (path : string)
| Assign_gFirstTimeSaving (b : bool)
| GameFixSaveVars
| MapAnimationAutoCreate
| EntityTweenerReset
| Assign_gScreenAge (v : Z)
| Assign_gLastAutoSaveUpdate (v : Z)
| NetworkClose
| GameLoadInit
| ScenarioBegin
| PeepUpdateNames (realNames : bool)
| ServerSendMap
| StartSilentRecord
| ShowError (title message : StringId) (args : list Z)
| ConsoleErrorWriteLine (text : string)
| TitleLoad
| OpenIntentObjectLoadError (path : string) (missing : list N) (count : Z)
| CrashRegisterAdditionalFile (name path : string)
| CrashUnregisterAdditionalFile (name : string)
| DecryptSea (path : string)
| OpenFileStream (path : string)
(* the calls and assignments of [Launch] and [DownloadPark] *)
| AsyncVersionCheck
| HttpDo (url : string)
| Assign_gIntroState (state : IntroState)
| Assign_gOpenRCT2StartupAction (action : StartupAction)
| Assign_gScreenFlags (v : Z)
| Assign_gNetworkStartPort (port : Z)
| Assign_gNetworkStartAddress (address : string)
| NetworkSetPassword (password : string)
| NetworkBeginServer (port : Z) (address : string)
| NetworkBeginClient (host : string) (port : Z)
| GameLoadScripts
| GameNotifyMapChanged
| EditorLoad
| EditorLoadLandscape (path : string)
| StdInOutConsoleStart
| RunGameLoopCall.

(** The preprocessor switches and the constants the two functions name. *)
Record Config : Type := mkConfig {
  DISABLE_NETWORK : bool;
  USE_BREAKPAD : bool;
  kFileTypeS4Cutoff : Z;
  kAutosavePause : Z;
  PARK_FILE_CURRENT_VERSION : Z
}.

(** What the other modules answer.  Whether a call throws, and what the
    network mode is, may depend on everything that happened before: both
    are functions of the calls made so far. *)
Record Oracle : Type := mkOracle {
  throws : list Call -> Call -> option Exception;
  classified : Stream -> option ClassifiedFileInfo; (* [None]: returns false *)
  loadResult : ParkLoadResult;
  networkMode : list Call -> NETWORK_MODE;          (* [_network.GetMode()] *)
  ShowRealNamesOfGuests : bool;                     (* [gConfigGeneral...] *)
  getAllObjectTypes : list N;
  getObjectEntryGroupCount : N -> N;
  loadedObjects : gmap (N * N) Objects.LoadedObject;
  hasSeaExtension : string -> bool; (* IEquals(GetExtension(path), ".sea") *)
  seaData : string -> list Z                        (* what DecryptSea returns *)
}.

(** The calls made so far and the local [loadTitleScreenFirstOnFail], which
    the body of [LoadParkFromStream] writes and its handlers read. *)
Record St : Type := mkSt {
  hist : list Call;
  loadTitleScreenFirstOnFail : bool
}.

Inductive Outcome (A : Type) : Type :=
| Normal (a : A)
| Thrown (e : Exception).
Arguments Normal {A} a.
Arguments Thrown {A} e.

(** Computations that call out, may throw and may catch. *)
Definition L (A : Type) : Type := St -> Outcome A * St.

Definition ret {A : Type} (a : A) : L A := fun s => (Normal a, s).

Definition bind {A B : Type} (m : L A) (k : A -> L B) : L B :=
  fun s =>
    match m s with
    | (Normal a, s') => k a s'
    | (Thrown e, s') => (Thrown e, s')
    end.

Definition throw {A : Type} (e : Exception) : L A := fun s => (Thrown e, s).

Definition record (c : Call) (s : St) : St :=
  mkSt (hist s ++ [c]) (loadTitleScreenFirstOnFail s).

(** An assignment to a global, or a destructor: recorded, never throws. *)
Definition emit (c : Call) : L unit := fun s => (Normal tt, record c s).

Definition getFlag : L bool :=
  fun s => (Normal (loadTitleScreenFirstOnFail s), s).

Definition setFlag (b : bool) : L unit :=
  fun s => (Normal tt, mkSt (hist s) b).

Definition when (b : bool) (m : L unit) : L unit := if b then m else ret tt.

(** [try { m } catch (e) { h e }]: the handler runs in the state the
    exception left behind. *)
Definition tryCatch {A : Type} (m : L A) (h : Exception -> L A) : L A :=
  fun s =>
    match m s with
    | (Thrown e, s') => h e s'
    | r => r
    end.

(** A destructor that runs however the scope is left. *)
Definition finally {A : Type} (m : L A) (c : Call) : L A :=
  fun s => let (r, s') := m s in (r, record c s').

Declare Scope load_scope.
Delimit Scope load_scope with load.
Notation "x <- m ;; k" := (bind m (fun x => k))
  (at level 100, m at next level, right associativity) : load_scope.
Notation "m ;; k" := (bind m (fun _ => k))
  (at level 100, right associativity) : load_scope.
Local Open Scope string_scope.
Local Open Scope Z_scope.
Local Open Scope load_scope.

Section Load.
Variable cfg : Config.
Variable o : Oracle.

(** A call into another module: recorded, and it throws if the oracle says
    so. *)
Definition call (c : Call) : L unit :=
  fun s =>
    match throws o (hist s) c with
    | Some e => (Thrown e, record c s)
    | None => (Normal tt, record c s)
    end.

Definition getMode : L NETWORK_MODE :=
  fun s => (Normal (networkMode o (hist s)), s).

(** Lines 610-641: classify the file, pick the importer, read the file. *)
Definition classifyAndRead (stream : Stream) (path : string)
  : L (ClassifiedFileInfo * ParkLoadResult) :=
  call (TryClassifyFile stream) ;;
  match classified o stream with
  | None => throw (runtime_error "Unable to detect file type")
  | Some info =>
      if negb (isPark (info_Type info))
         && negb (isSavedGame (info_Type info))
         && negb (isScenario (info_Type info))
      then throw (runtime_error "Invalid file type.")
      else
        (if isPark (info_Type info)
         then call ParkImporter_CreateParkFile
         else if info_Version info <=? kFileTypeS4Cutoff cfg
         then call ParkImporter_CreateS4    (* Save is an S4 (RCT1 format) *)
         else call ParkImporter_CreateS6) ;; (* Save is an S6 (RCT2 format) *)
        call (LoadFromStream stream (isScenario (info_Type info)) false path) ;;
        ret (info, loadResult o)
  end.

(** Lines 647-662: load the objects, import, set the globals. *)
Definition importPark (path : string) (result : ParkLoadResult) : L unit :=
  call GameUnloadScripts ;;
  call (LoadObjects (RequiredObjects result)) ;;
  call Import ;;
  emit (Assign_gScenarioSavePath path) ;;
  emit (Assign_gCurrentLoadedPath path) ;;
  emit (Assign_gFirstTimeSaving true) ;;
  call GameFixSaveVars ;;
  call MapAnimationAutoCreate ;;
  call EntityTweenerReset ;;
  emit (Assign_gScreenAge 0) ;;
  emit (Assign_gLastAutoSaveUpdate (kAutosavePause cfg)).

(** Lines 664-696: start the park as a saved game or as a scenario; the
    value is the local [sendMap]. *)
Definition startPark (asScenario : bool) (info : ClassifiedFileInfo) : L bool :=
  if negb asScenario
     && (isPark (info_Type info) || isSavedGame (info_Type info))
  then
    (if DISABLE_NETWORK cfg then ret tt
     else mode <- getMode ;; when (isClient mode) (call NetworkClose)) ;;
    call GameLoadInit ;;
    (if DISABLE_NETWORK cfg then ret false
     else mode <- getMode ;; ret (isServer mode))
  else
    call ScenarioBegin ;;
    (if DISABLE_NETWORK cfg then ret false
     else
       mode <- getMode ;;
       let sendMap := isServer mode in
       mode' <- getMode ;;
       when (isClient mode') (call NetworkClose) ;;
       ret sendMap).

(** Lines 697-726: names, map, crash recorder, warnings. *)
Definition finishLoad (result : ParkLoadResult) (sendMap : bool) : L unit :=
  call (PeepUpdateNames (ShowRealNamesOfGuests o)) ;;
  when (negb (DISABLE_NETWORK cfg) && sendMap) (call ServerSendMap) ;;
  when (USE_BREAKPAD cfg)
    (mode <- getMode ;; when (isNone mode) (call StartSilentRecord)) ;;
  if SemiCompatibleVersion result then
    call (ShowError STR_WARNING_PARK_VERSION_TITLE
            STR_WARNING_PARK_VERSION_MESSAGE
            [wrap 32 (TargetVersion result);
             wrap 32 (PARK_FILE_CURRENT_VERSION cfg)])
  else if Objects.HasObjectsThatUseFallbackImages (getAllObjectTypes o)
            (getObjectEntryGroupCount o) (loadedObjects o)
  then
    call (ConsoleErrorWriteLine
            "Park has objects which require RCT1 linked. Fallback images will be used.") ;;
    call (ShowError STR_PARK_USES_FALLBACK_IMAGES_WARNING STR_EMPTY [])
  else ret tt.

(** The [try] block of [LoadParkFromStream] (lines 609-728). *)
Definition loadBody (stream : Stream) (path : string) (asScenario : bool)
  : L bool :=
  r <- classifyAndRead stream path ;;
  (* From this point onwards the currently loaded park will be corrupted if
     loading fails so reload the title screen if that happens. *)
  setFlag true ;;
  importPark path (snd r) ;;
  sendMap <- startPark asScenario (fst r) ;;
  finishLoad (snd r) sendMap ;;
  ret true.

Definition titleLoadIfRequested : L unit :=
  flag <- getFlag ;; when flag (call TitleLoad).

(** The four [catch] clauses of [LoadParkFromStream] (lines 729-794), in
    their order; what none of them catches goes on. *)
Definition loadHandlers (path : string) (e : Exception) : L unit :=
  match kind e with
  | ObjectLoadException MissingObjects =>
      call (ConsoleErrorWriteLine "Unable to open park: missing objects") ;;
      titleLoadIfRequested ;;
      call (OpenIntentObjectLoadError path MissingObjects
              (wrap 32 (Z.of_nat (List.length MissingObjects))))
  | UnsupportedRideTypeException =>
      call (ConsoleErrorWriteLine
              "Unable to open park: unsupported ride types") ;;
      titleLoadIfRequested ;;
      call (ShowError STR_FILE_CONTAINS_UNSUPPORTED_RIDE_TYPES STR_NONE [])
  | UnsupportedVersionException MinVersion TargetVersion =>
      call (ConsoleErrorWriteLine
              "Unable to open park: unsupported park version") ;;
      titleLoadIfRequested ;;
      if MinVersion =? TargetVersion then
        call (ShowError STR_ERROR_PARK_VERSION_TITLE
                STR_ERROR_PARK_VERSION_TOO_NEW_MESSAGE_2
                [wrap 32 TargetVersion;
                 wrap 32 (PARK_FILE_CURRENT_VERSION cfg)])
      else
        call (ShowError STR_ERROR_PARK_VERSION_TITLE
                STR_ERROR_PARK_VERSION_TOO_NEW_MESSAGE
                [wrap 32 TargetVersion; wrap 32 MinVersion;
                 wrap 32 (PARK_FILE_CURRENT_VERSION cfg)])
  | OtherStdException =>
      titleLoadIfRequested ;;
      call (ConsoleErrorWriteLine (what e))
  | ForeignException => throw e
  end.

(** [Context::LoadParkFromStream] (lines 603-798). *)
Definition LoadParkFromStream (stream : Stream) (path : string)
    (loadTitleScreenFirstOnFail asScenario : bool) : L bool :=
  setFlag loadTitleScreenFirstOnFail ;;
  tryCatch (loadBody stream path asScenario)
    (fun e => loadHandlers path e ;; ret false).

(** [Context::LoadParkFromFile] (lines 552-601).  The registration for the
    crash report is the constructor of a local object, its removal the
    destructor. *)
Definition LoadParkFromFile (path : string)
    (loadTitleScreenOnFail asScenario : bool) : L bool :=
  call (CrashRegisterAdditionalFile "load_park" path) ;;
  finally
    (tryCatch
       (if hasSeaExtension o path then
          call (DecryptSea path) ;;
          loaded <- LoadParkFromStream (MemoryStream (seaData o path)) path
                      loadTitleScreenOnFail asScenario ;;
          if negb loaded
          then throw (runtime_error ".sea file may have been renamed.")
          else ret true
        else
          call (OpenFileStream path) ;;
          loaded <- LoadParkFromStream (FileStream path) path
                      loadTitleScreenOnFail asScenario ;;
          if negb loaded then ret false else ret true)
       (fun e =>
          if isStdException e then
            call (ConsoleErrorWriteLine (what e)) ;;
            when loadTitleScreenOnFail (call TitleLoad) ;;
            call (ShowError STR_FAILED_TO_LOAD_FILE_CONTAINS_INVALID_DATA
                    STR_NONE []) ;;
            ret false
          else throw e))
    (CrashUnregisterAdditionalFile "load_park").

End Load.

(** Whether the classifier recognises the stream as a park, a saved game
    or a scenario (the two tests of lines 612-620). *)
Definition accepted (o : Oracle) (stream : Stream) : bool :=
  match classified o stream with
  | None => false
  | Some info =>
      isPark (info_Type info) || isSavedGame (info_Type info)
      || isScenario (info_Type info)
  end.

(** The text of the [runtime_error] with which the body rejects a stream
    (lines 612-620). *)
Definition rejection (o : Oracle) (stream : Stream) : string :=
  match classified o stream with
  | None => "Unable to detect file type"
  | Some _ => "Invalid file type."
  end.

(** The stream [LoadParkFromFile] hands to [LoadParkFromStream]. *)
Definition streamOf (o : Oracle) (path : string) : Stream :=
  if hasSeaExtension o path then MemoryStream (seaData o path)
  else FileStream path.

(** [m] only adds calls that satisfy [P] to the calls made before. *)
Definition adds (P : Call -> Prop) {A : Type} (m : L A) : Prop :=
  forall s, exists evs, hist (snd (m s)) = (hist s ++ evs)%list /\ Forall P evs.

(** [guarded cfg o h evs]: the calls [evs], made after the calls [h], touch
    the network as the mode allows.  [NetworkClose] is called with
    networking compiled in and the mode, read where the call is made, being
    CLIENT; [ServerSendMap] is called with networking compiled in and after
    a point of this run at which the mode was SERVER. *)
Definition guarded (cfg : Config) (o : Oracle) (h evs : list Call) : Prop :=
  (forall pre post, evs = (pre ++ NetworkClose :: post)%list ->
     DISABLE_NETWORK cfg = false /\
     networkMode o (h ++ pre)%list = NETWORK_MODE_CLIENT) /\
  (forall pre post, evs = (pre ++ ServerSendMap :: post)%list ->
     DISABLE_NETWORK cfg = false /\
     exists before after, pre = (before ++ after)%list /\
       networkMode o (h ++ before)%list = NETWORK_MODE_SERVER).

(** [m] only adds guarded calls to the calls made before. *)
Definition addsGuarded (cfg : Config) (o : Oracle) {A : Type} (m : L A)
  : Prop :=
  forall s, exists evs,
    hist (snd (m s)) = (hist s ++ evs)%list /\ guarded cfg o (hist s) evs.

(** Neither of the two calls into the network. *)
Definition notNetwork (c : Call) : Prop :=
  c <> NetworkClose /\ c <> ServerSendMap.

(** [m] leaves the local [loadTitleScreenFirstOnFail] as it is. *)
Definition keeps {A : Type} (m : L A) : Prop :=
  forall s,
    loadTitleScreenFirstOnFail (snd (m s)) = loadTitleScreenFirstOnFail s.

(** Every exception that leaves [m] satisfies [Q]. *)
Definition throwsOnly (Q : Exception -> Prop) {A : Type} (m : L A) : Prop :=
  forall s e, fst (m s) = Thrown e -> Q e.

(** Every value [m] returns satisfies [R]. *)
Definition yields {A : Type} (R : A -> Prop) (m : L A) : Prop :=
  forall s a, fst (m s) = Normal a -> R a.

(** The calls made between two states of one run. *)
Definition since (s s' : St) : list Call :=
  skipn (List.length (hist s)) (hist s').

(** A fresh start: no call made yet. *)
Definition start : St := mkSt [] false.

(** The calls with which a failure is reported. *)
Definition isReport (c : Call) : bool :=
  match c with
  | ConsoleErrorWriteLine _ | TitleLoad | ShowError _ _ _
  | OpenIntentObjectLoadError _ _ _ => true
  | _ => false
  end.

(** The calls that create an importer, read or import a park, or assign a
    global. *)
Definition touchesPark (c : Call) : bool :=
  match c with
  | ParkImporter_CreateParkFile | ParkImporter_CreateS4
  | ParkImporter_CreateS6 | LoadFromStream _ _ _ _ | GameUnloadScripts
  | LoadObjects _ | Import | Assign_gScenarioSavePath _
  | Assign_gCurrentLoadedPath _ | Assign_gFirstTimeSaving _
  | GameFixSaveVars | MapAnimationAutoCreate | EntityTweenerReset
  | Assign_gScreenAge _ | Assign_gLastAutoSaveUpdate _ | NetworkClose
  | GameLoadInit | ScenarioBegin | PeepUpdateNames _ | ServerSendMap
  | StartSilentRecord => true
  | _ => false
  end.

(** The calls [LoadParkFromStream] can make. *)
Definition isStreamCall (c : Call) : bool :=
  match c with
  | TryClassifyFile _ => true
  | _ => touchesPark c || isReport c
  end.

(** The calls that belong to [LoadParkFromFile] itself. *)
Definition isFileCall (c : Call) : bool :=
  match c with
  | CrashRegisterAdditionalFile _ _ | CrashUnregisterAdditionalFile _
  | DecryptSea _ | OpenFileStream _ => true
  | _ => false
  end.

(** The importer the code picks for a classified file. *)
Definition importerFor (cfg : Config) (info : ClassifiedFileInfo) : Call :=
  if isPark (info_Type info) then ParkImporter_CreateParkFile
  else if info_Version info <=? kFileTypeS4Cutoff cfg
  then ParkImporter_CreateS4 else ParkImporter_CreateS6.

(** A build with the network, without the crash recorder. *)
Definition exampleConfig : Config := mkConfig false false 1 0 20.

(** Nothing throws, the file is a saved game of the RCT2 format, the game
    runs as a server. *)
Definition quietOracle : Oracle :=
  mkOracle (fun _ _ => None)
    (fun _ => Some (mkClassifiedFileInfo FILE_TYPE_SAVED_GAME 2))
    (mkParkLoadResult [] false 20)
    (fun _ => NETWORK_MODE_SERVER) true [] (fun _ => 0%N) ∅
    (fun _ => false) (fun _ => []).

(** As [quietOracle], but some required objects are missing. *)
Definition missingObjectsOracle : Oracle :=
  mkOracle
    (fun _ c =>
       match c with
       | LoadObjects _ =>
           Some (mkException (ObjectLoadException [7%N]) "missing objects")
       | _ => None
       end)
    (fun _ => Some (mkClassifiedFileInfo FILE_TYPE_SAVED_GAME 2))
    (mkParkLoadResult [7%N] false 20)
    (fun _ => NETWORK_MODE_NONE) true [] (fun _ => 0%N) ∅
    (fun _ => false) (fun _ => []).

(** Nothing throws, but the classifier does not recognise the file, which
    has the extension of an encrypted park. *)
Definition unknownSeaOracle : Oracle :=
  mkOracle (fun _ _ => None) (fun _ => None) (mkParkLoadResult [] false 20)
    (fun _ => NETWORK_MODE_NONE) true [] (fun _ => 0%N) ∅
    (fun _ => true) (fun _ => [1; 2; 3]).

End ParkLoad.

(** ** [Context::Launch] and [Context::DownloadPark] *)

Module Launcher.
Import ParkLoad.
Local Open Scope string_scope.
Local Open Scope Z_scope.
Local Open Scope load_scope.

Definition isOpen (a : StartupAction) : bool :=
  match a with StartupAction_Open => true | _ => false end.
Definition isTitle (a : StartupAction) : bool :=
  match a with StartupAction_Title => true | _ => false end.

Definition isEmpty (s : string) : bool :=
  match s with EmptyString => true | _ => false end.

Definition isNil {A : Type} (l : list A) : bool :=
  match l with [] => true | _ => false end.

(** [strstr(hay, needle) != nullptr]. *)
Fixpoint contains (needle hay : string) : bool :=
  match hay with
  | EmptyString => prefix needle hay
  | String _ rest => prefix needle hay || contains needle rest
  end.

(** What [Launch] reads: the members and globals as they are when it is
    entered, the preprocessor switch and constant it names, and the answers
    of the HTTP client and of the editor.  The callees are taken not to
    write the globals [Launch] reads back. *)
Record LaunchEnv : Type := mkLaunchEnv {
  versionCheckFutureValid : bool;       (* [_versionCheckFuture.valid()] *)
  gOpenRCT2Headless : bool;
  gOpenRCT2StartupAction : StartupAction;
  PlayIntro : bool;                     (* [gConfigGeneral.PlayIntro] *)
  gOpenRCT2StartupActionPath : string;
  gNetworkStart : NETWORK_MODE;
  gNetworkStartPort : Z;
  DefaultPort : Z;                      (* [gConfigNetwork.DefaultPort] *)
  gNetworkStartAddress : string;
  ListenAddress : string;               (* [gConfigNetwork.ListenAddress] *)
  gCustomPassword : string;
  DefaultPassword : string;             (* [gConfigNetwork.DefaultPassword] *)
  gNetworkStartHost : string;
  DISABLE_HTTP : bool;
  SCREEN_FLAGS_PLAYING : Z;
  httpStatusOk : string -> bool;        (* [res.status == Http::Status::Ok] *)
  httpBody : string -> list Z;          (* [res.body] *)
  EditorLoadLandscapeResult : string -> bool
}.

Section Launch.
Variable cfg : Config.
Variable o : Oracle.
Variable g : LaunchEnv.

(** [Context::DownloadPark] (lines 1295-1319). *)
Definition DownloadPark (url : string) : L (list Z) :=
  downloaded <-
    tryCatch
      (call o (HttpDo url) ;;
       if negb (httpStatusOk g url)
       then throw (runtime_error "bad http status")
       else ret true)
      (fun e =>
         if isStdException e then
           call o (ConsoleErrorWriteLine
                     ("Failed to download '" ++ url ++ "', cause " ++ what e)) ;;
           ret false
         else throw e) ;;
  if downloaded then ret (httpBody g url) else ret [].

(** Lines 876-890: the startup action that the [switch] sees. *)
Definition startupAction : L StartupAction :=
  if gOpenRCT2Headless g then
    (* NONE or OPEN are the only allowed actions for headless mode *)
    if negb (isOpen (gOpenRCT2StartupAction g)) then
      emit (Assign_gOpenRCT2StartupAction StartupAction_None) ;;
      ret StartupAction_None
    else ret (gOpenRCT2StartupAction g)
  else if isTitle (gOpenRCT2StartupAction g) && PlayIntro g then
    emit (Assign_gOpenRCT2StartupAction StartupAction_Intro) ;;
    ret StartupAction_Intro
  else ret (gOpenRCT2StartupAction g).

(** [gNetworkStartPort] with its default (lines 949-952 and 993-996); the
    value is the port afterwards. *)
Definition defaultPort (port : Z) : L Z :=
  if port =? 0 then
    emit (Assign_gNetworkStartPort (DefaultPort g)) ;; ret (DefaultPort g)
  else ret port.

(** Lines 942-972: the park is loaded.  The value is [gNetworkStartPort]
    afterwards. *)
Definition startLoadedPark (port : Z) : L Z :=
  emit (Assign_gScreenFlags (SCREEN_FLAGS_PLAYING g)) ;;
  if negb (DISABLE_NETWORK cfg) && isServer (gNetworkStart g) then
    port' <- defaultPort port ;;
    address <-
      (if isEmpty (gNetworkStartAddress g) then
         emit (Assign_gNetworkStartAddress (ListenAddress g)) ;;
         ret (ListenAddress g)
       else ret (gNetworkStartAddress g)) ;;
    (if isEmpty (gCustomPassword g)
     then call o (NetworkSetPassword (DefaultPassword g))
     else call o (NetworkSetPassword (gCustomPassword g))) ;;
    call o (NetworkBeginServer port' address) ;;
    ret port'
  else
    call o GameLoadScripts ;;
    call o GameNotifyMapChanged ;;
    ret port.

(** [case StartupAction::Open] (lines 899-973). *)
Definition openPark (port : Z) : L Z :=
  let path := gOpenRCT2StartupActionPath g in
  (* A path that includes "://" is illegal with all common filesystems, so
     it is almost certainly a URL *)
  if contains "://" path then
    if DISABLE_HTTP g then startLoadedPark port
    else
      (* Download park and open it using its temporary filename *)
      data <- DownloadPark path ;;
      if isNil data then call o TitleLoad ;; ret port
      else
        loaded <- LoadParkFromStream cfg o (MemoryStream data) path true
                    false ;;
        if negb loaded then
          call o (ConsoleErrorWriteLine ("Failed to load '" ++ path ++ "'")) ;;
          call o TitleLoad ;;
          ret port
        else startLoadedPark port
  else
    loaded <-
      tryCatch (LoadParkFromFile cfg o path true false)
        (fun e =>
           if isStdException e then
             call o (ConsoleErrorWriteLine
                       ("Failed to load '" ++ path ++ "'")) ;;
             call o (ConsoleErrorWriteLine (what e)) ;;
             call o TitleLoad ;;
             ret false
           else throw e) ;;
    if negb loaded then ret port else startLoadedPark port.

(** The [switch] of lines 892-985.  The value is [gNetworkStartPort]
    afterwards. *)
Definition runStartupAction (action : StartupAction) : L Z :=
  match action with
  | StartupAction_Intro =>
      emit (Assign_gIntroState IntroState_PublisherBegin) ;;
      call o TitleLoad ;;
      ret (gNetworkStartPort g)
  | StartupAction_Title =>
      call o TitleLoad ;;
      ret (gNetworkStartPort g)
  | StartupAction_Open => openPark (gNetworkStartPort g)
  | StartupAction_Edit =>
      (if isEmpty (gOpenRCT2StartupActionPath g) then call o EditorLoad
       else
         call o (EditorLoadLandscape (gOpenRCT2StartupActionPath g)) ;;
         if negb (EditorLoadLandscapeResult g (gOpenRCT2StartupActionPath g))
         then call o TitleLoad
         else ret tt) ;;
      ret (gNetworkStartPort g)
  | _ => ret (gNetworkStartPort g)
  end.

(** Lines 987-997. *)
Definition connectClient (port : Z) : L unit :=
  if negb (DISABLE_NETWORK cfg) && isClient (gNetworkStart g) then
    port' <- defaultPort port ;;
    call o (NetworkBeginClient (gNetworkStartHost g) port')
  else ret tt.

(** [Context::Launch] (lines 861-1002).  The task started with
    [std::async] runs beside the launch and is not followed; the game loop
    is one call here. *)
Definition Launch : L unit :=
  when (negb (versionCheckFutureValid g)) (call o AsyncVersionCheck) ;;
  emit (Assign_gIntroState IntroState_None) ;;
  action <- startupAction ;;
  port <- runStartupAction action ;;
  connectClient port ;;
  call o StdInOutConsoleStart ;;
  call o RunGameLoopCall.

End Launch.

(** The startup action the [switch] of [Launch] sees. *)
Definition normalisedAction (g : LaunchEnv) : StartupAction :=
  if gOpenRCT2Headless g then
    if isOpen (gOpenRCT2StartupAction g) then StartupAction_Open
    else StartupAction_None
  else if isTitle (gOpenRCT2StartupAction g) && PlayIntro g
  then StartupAction_Intro
  else gOpenRCT2StartupAction g.

(** What [Launch] does before the [switch], when nothing throws. *)
Definition launchPrologue (g : LaunchEnv) : list Call :=
  ((if versionCheckFutureValid g then [] else [AsyncVersionCheck])
   ++ [Assign_gIntroState IntroState_None]
   ++ (if gOpenRCT2Headless g then
         if isOpen (gOpenRCT2StartupAction g) then []
         else [Assign_gOpenRCT2StartupAction StartupAction_None]
       else if isTitle (gOpenRCT2StartupAction g) && PlayIntro g
       then [Assign_gOpenRCT2StartupAction StartupAction_Intro]
       else []))%list.

(** What the [switch] does for the actions that load no park, when
    nothing throws. *)
Definition simpleAction (g : LaunchEnv) (action : StartupAction) : list Call :=
  match action with
  | StartupAction_Intro =>
      [Assign_gIntroState IntroState_PublisherBegin; TitleLoad]
  | StartupAction_Title => [TitleLoad]
  | StartupAction_Edit =>
      if isEmpty (gOpenRCT2StartupActionPath g) then [EditorLoad]
      else (EditorLoadLandscape (gOpenRCT2StartupActionPath g)
            :: (if EditorLoadLandscapeResult g (gOpenRCT2StartupActionPath g)
                then [] else [TitleLoad]))%list
  | _ => []
  end.

(** What [Launch] does after the [switch], when nothing throws. *)
Definition launchEpilogue (cfg : Config) (g : LaunchEnv) : list Call :=
  ((if negb (DISABLE_NETWORK cfg) && isClient (gNetworkStart g) then
      (if gNetworkStartPort g =? 0
       then [Assign_gNetworkStartPort (DefaultPort g)] else [])
      ++ [NetworkBeginClient (gNetworkStartHost g)
            (if gNetworkStartPort g =? 0 then DefaultPort g
             else gNetworkStartPort g)]
    else [])
   ++ [StdInOutConsoleStart; RunGameLoopCall])%list.

(** The calls of [case StartupAction::Open] once the park is loaded. *)
Definition isStartCall (c : Call) : bool :=
  match c with
  | Assign_gScreenFlags _ | Assign_gNetworkStartPort _
  | Assign_gNetworkStartAddress _ | NetworkSetPassword _
  | NetworkBeginServer _ _ | GameLoadScripts | GameNotifyMapChanged => true
  | _ => false
  end.

(** The calls with which [Launch] ends. *)
Definition isEpilogueCall (c : Call) : bool :=
  match c with
  | NetworkBeginClient _ _ | StdInOutConsoleStart | RunGameLoopCall => true
  | _ => false
  end.

(** A headless server that opens a saved game. *)
Definition serverEnv : LaunchEnv :=
  mkLaunchEnv false true StartupAction_Open true "a.sv6"
    NETWORK_MODE_SERVER 0 11753 EmptyString "0.0.0.0" EmptyString "secret"
    EmptyString false 0 (fun _ => true) (fun _ => []) (fun _ => true).

(** A desktop game that starts with the title screen and plays the intro. *)
Definition desktopEnv : LaunchEnv :=
  mkLaunchEnv false false StartupAction_Title true EmptyString
    NETWORK_MODE_NONE 0 11753 EmptyString "0.0.0.0" EmptyString "secret"
    EmptyString false 0 (fun _ => true) (fun _ => []) (fun _ => true).

End Launcher.

(** ** [Context::InitialiseDrawingEngine] *)

Module Drawing.

(** Modelled from the spec: the enumeration is declared in a header that
    is not among the sources; the code names [Software] and [None]. *)
Inductive DrawingEngine : Type :=
| DrawingEngine_None
| DrawingEngine_Software
| DrawingEngine_Other (n : nat).

Definition isSoftware (e : DrawingEngine) : bool :=
  match e with DrawingEngine_Software => true | _ => false end.

(** What the function writes. *)
Record DrawState : Type := mkDrawState {
  _drawingEngineType : DrawingEngine;
  _drawingEngine : bool;              (* whether the pointer is set *)
  gConfigGeneral_DrawingEngine : DrawingEngine
}.

Inductive DrawCall : Type :=
| FactoryCreate (type : DrawingEngine)
| EngineInitialise
| EngineSetVSync (vsync : bool)
| LogError (text : string)
| LogFatal (text : string)
| Exit (code : Z)
| ConfigSaveDefault
| DrawingEngineInit
| WindowCheckAllValidZoom.

Inductive DrawOutcome : Type :=
| Returned
| Exited
| AssertionFailed
| Thrown.                             (* an exception leaves the function *)

(** What the function reads and what the other modules answer.  The
    factory is taken not to throw, and the engine to throw nothing but
    [std::exception]s.

    Modelled from the spec: [DrawingEngineInit()] is defined in a file that
    is not among the sources, so what it does is an answer of the
    environment: given the three variables as they are when it is called,
    whether it returns, exits, fails an assertion or throws, and what it
    leaves in them.  An exception it throws is not caught: the first call
    is outside the [try], the second inside a handler. *)
Record DrawEnv : Type := mkDrawEnv {
  NDEBUG : bool;                      (* whether [assert] is compiled out *)
  UseVSync : bool;                    (* [gConfigGeneral.UseVSync] *)
  Create : DrawingEngine -> bool;     (* whether the factory returns an engine *)
  InitialiseThrows : option string;   (* [what()] of the [std::exception] *)
  SetVSyncThrows : option string;
  onDrawingEngineInit : DrawState -> DrawOutcome * DrawState
}.

(** The variables when [DrawingEngineInit()] is called: the engine type is
    the one that failed, no engine has been stored, and the configuration
    names the software engine. *)
Definition fallbackState (type : DrawingEngine) (st : DrawState) : DrawState :=
  mkDrawState type (_drawingEngine st) DrawingEngine_Software.

(** The two branches that give up on the configured engine (lines 499-512
    and 523-540), after the messages [before].  The call of
    [WindowCheckAllValidZoom] that ends the function is reached only if
    [DrawingEngineInit()] returns. *)
Definition giveUp (env : DrawEnv) (type : DrawingEngine) (st : DrawState)
    (before : list DrawCall) (fatal fallback : string)
  : DrawOutcome * DrawState * list DrawCall :=
  if isSoftware type then
    (Exited,
     mkDrawState DrawingEngine_None (_drawingEngine st)
       (gConfigGeneral_DrawingEngine st),
     before ++ [LogFatal fatal; Exit (-1)])
  else
    (* Fallback to software *)
    match onDrawingEngineInit env (fallbackState type st) with
    | (Returned, st') =>
        (Returned, st',
         before ++ [LogError fallback; ConfigSaveDefault; DrawingEngineInit;
                    WindowCheckAllValidZoom])
    | (out, st') =>
        (out, st',
         before ++ [LogError fallback; ConfigSaveDefault; DrawingEngineInit])
    end.

(** [Context::InitialiseDrawingEngine] (lines 487-545). *)
Definition InitialiseDrawingEngine (env : DrawEnv) (st : DrawState)
  : DrawOutcome * DrawState * list DrawCall :=
  if negb (NDEBUG env) && _drawingEngine st then (AssertionFailed, st, [])
  else
    let type := gConfigGeneral_DrawingEngine st in
    if negb (Create env type) then
      giveUp env type st [FactoryCreate type]
        "Unable to create a drawing engine."
        "Unable to create drawing engine. Falling back to software."
    else
      match InitialiseThrows env with
      | Some what =>
          giveUp env type st [FactoryCreate type; EngineInitialise; LogError what]
            "Unable to initialise a drawing engine."
            "Unable to initialise drawing engine. Falling back to software."
      | None =>
          match SetVSyncThrows env with
          | Some what =>
              giveUp env type st
                [FactoryCreate type; EngineInitialise;
                 EngineSetVSync (UseVSync env); LogError what]
                "Unable to initialise a drawing engine."
                "Unable to initialise drawing engine. Falling back to software."
          | None =>
              (Returned,
               mkDrawState type true (gConfigGeneral_DrawingEngine st),
               [FactoryCreate type; EngineInitialise;
                EngineSetVSync (UseVSync env); WindowCheckAllValidZoom])
          end
      end.

(** Whether the configured engine can be created and initialised. *)
Definition usable (env : DrawEnv) (type : DrawingEngine) : bool :=
  Create env type
  && match InitialiseThrows env with Some _ => false | None => true end
  && match SetVSyncThrows env with Some _ => false | None => true end.

End Drawing.

(** * IEEE 754 binary32 *)

(** The [float] of the target: IEEE 754 binary32 with the default rounding
    (to nearest, ties to even), every operation rounded once.  A finite
    value is the rational it stands for; the sign of a zero is not kept:
    the two zeros compare equal, and the only operation that tells them
    apart, a division by zero, treats the divisor as [+0].  The scheduler
    divides by [kGameUpdateTimeMS] only.

    The functions are the work of this file; [agree] compares them with
    [SpecFloat], the Standard Library's specification of IEEE 754
    arithmetic, at precision 24 and maximal exponent 128. *)
Module Binary32.

Inductive float : Type :=
| NaN
| Inf (negative : bool)
| Fin (q : Q).

(** [2^e], for any integer [e]. *)
Definition pow2 (e : Z) : Q := 2 ^ e.

(** For [q > 0], the integer [l] with [2^l <= q < 2^(l+1)]. *)
Definition Qlog2 (q : Q) : Z :=
  let l := (Z.log2 (Qnum q) - Z.log2 (Zpos (Qden q)))%Z in
  if Qle_bool (pow2 l) q then l else (l - 1)%Z.

(** The nearest integer, a tie going to the even one. *)
Definition nearest_even (y : Q) : Z :=
  let f := Qfloor y in
  match Qcompare (y - inject_Z f) (1 # 2) with
  | Lt => f
  | Gt => (f + 1)%Z
  | Eq => if Z.even f then f else (f + 1)%Z
  end.

(** The exponent of the unit in the last place of a 24-bit significand
    for [q]; [-149] is that of the subnormal numbers. *)
Definition ulp_exponent (q : Q) : Z := Z.max (Qlog2 (Qabs q) - 23) (-149).

(** The nearest multiple of the unit in the last place, exponent range
    unbounded above. *)
Definition rounded (q : Q) : Q :=
  inject_Z (nearest_even (q / pow2 (ulp_exponent q))) * pow2 (ulp_exponent q).

(** Rounding to nearest, ties to even; a result of magnitude [2^128] or more
    overflows to an infinity. *)
Definition round (q : Q) : float :=
  if Qeq_bool q 0 then Fin 0
  else
    let r := Qred (rounded q) in
    if Qle_bool (pow2 128) (Qabs r) then Inf (Qltb r 0) else Fin r.

Definition fopp (x : float) : float :=
  match x with
  | NaN => NaN
  | Inf s => Inf (negb s)
  | Fin q => Fin (- q)
  end.

Definition fadd (x y : float) : float :=
  match x, y with
  | NaN, _ | _, NaN => NaN
  | Inf a, Inf b => if Bool.eqb a b then Inf a else NaN
  | Inf a, Fin _ => Inf a
  | Fin _, Inf b => Inf b
  | Fin a, Fin b => round (a + b)
  end.

Definition fsub (x y : float) : float := fadd x (fopp y).

Definition fmul (x y : float) : float :=
  match x, y with
  | NaN, _ | _, NaN => NaN
  | Inf a, Inf b => Inf (xorb a b)
  | Inf a, Fin q | Fin q, Inf a =>
      if Qeq_bool q 0 then NaN else Inf (xorb a (Qltb q 0))
  | Fin a, Fin b => round (a * b)
  end.

Definition fdiv (x y : float) : float :=
  match x, y with
  | NaN, _ | _, NaN => NaN
  | Inf _, Inf _ => NaN
  | Inf a, Fin q => Inf (xorb a (Qltb q 0))
  | Fin _, Inf _ => Fin 0
  | Fin a, Fin b =>
      if Qeq_bool b 0
      then (if Qeq_bool a 0 then NaN else Inf (Qltb a 0))
      else round (a / b)
  end.

(** [x < y] and [x <= y]: false when an operand is a NaN. *)
Definition flt (x y : float) : bool :=
  match x, y with
  | NaN, _ | _, NaN => false
  | Inf a, Inf b => a && negb b
  | Inf a, Fin _ => a
  | Fin _, Inf b => negb b
  | Fin a, Fin b => Qltb a b
  end.

Definition fle (x y : float) : bool :=
  match x, y with
  | NaN, _ | _, NaN => false
  | Inf a, Inf b => a || negb b
  | Inf a, Fin _ => a
  | Fin _, Inf b => negb b
  | Fin a, Fin b => Qle_bool a b
  end.

(** [std::min(a, b)] is [(b < a) ? b : a]. *)
Definition std_min (a b : float) : float := if flt b a then b else a.
(** [std::clamp(v, lo, hi)] is [(v < lo) ? lo : (hi < v) ? hi : v]. *)
Definition std_clamp (v lo hi : float) : float :=
  if flt v lo then lo else if flt hi v then hi else v.

(** [static_cast<uintN_t>(x)] discards the fractional part.  The conversion
    is undefined in C++ when the truncated value does not fit the target
    type, and for an infinity or a NaN; the model reduces modulo [2^w] in
    the first case and yields 0 in the second. *)
Definition static_cast_uint (w : Z) (x : float) : Z :=
  match x with
  | Fin q => wrap w (Qtruncate q)
  | _ => 0%Z
  end.

(** The value of a [spec_float]. *)
Definition ofSpec (x : spec_float) : float :=
  match x with
  | S754_zero _ => Fin 0
  | S754_infinity s => Inf s
  | S754_nan => NaN
  | S754_finite s m e =>
      Fin (Qred ((if s then - inject_Z (Zpos m) else inject_Z (Zpos m)) * pow2 e))
  end.

(** Equality of two values, a NaN being equal to a NaN. *)
Definition eqb (x y : float) : bool :=
  match x, y with
  | NaN, NaN => true
  | Inf a, Inf b => Bool.eqb a b
  | Fin a, Fin b => Qeq_bool a b
  | _, _ => false
  end.

(** Whether the operations of this module and those of [SpecFloat] agree on
    a pair of operands; a division by a zero is left out. *)
Definition agree (p : spec_float * spec_float) : bool :=
  let (x, y) := p in
  eqb (ofSpec (SFadd 24 128 x y)) (fadd (ofSpec x) (ofSpec y))
  && eqb (ofSpec (SFsub 24 128 x y)) (fsub (ofSpec x) (ofSpec y))
  && eqb (ofSpec (SFmul 24 128 x y)) (fmul (ofSpec x) (ofSpec y))
  && match y with
     | S754_zero _ => true
     | _ => eqb (ofSpec (SFdiv 24 128 x y)) (fdiv (ofSpec x) (ofSpec y))
     end
  && Bool.eqb (SFltb x y) (flt (ofSpec x) (ofSpec y))
  && Bool.eqb (SFleb x y) (fle (ofSpec x) (ofSpec y)).

(** [m * 2^e] as a binary32 [spec_float]. *)
Definition norm (m e : Z) : spec_float := binary_normalize 24 128 m e false.

(** Operands on which the two are compared: normal and subnormal numbers,
    zeros, infinities, NaN, values close to the overflow threshold, pairs
    that cancel, and the values of the scheduler's examples. *)
Definition samples : list (spec_float * spec_float) :=
  [(norm (15969096) (5), norm (-11486694) (56));
   (norm (-9967737) (-3), norm (-9091243) (-10));
   (norm (-8640278) (63), norm (-8986762) (-36));
   (norm (-16172136) (-66), norm (-12308531) (-23));
   (norm (-16061330) (-25), norm (-12649932) (-20));
   (norm (8887762) (-52), norm (-15106202) (-47));
   (norm (9509770) (96), S754_zero false);
   (norm (-11907082) (-54), norm (15431539) (-51));
   (norm (-12914691) (-17), S754_infinity false);
   (S754_zero false, norm (-10646762) (-29));
   (norm (-9393452) (-1), norm (-11549191) (-3));
   (norm (-15422128) (-11), norm (8305161) (-149));
   (norm (13491316) (104), norm (10071912) (104));
   (norm (-15796448) (-83), S754_zero false);
   (norm (14867464) (-51), S754_infinity true);
   (norm (-8648807) (-13), norm (10523023) (1));
   (norm (-14866241) (-103), norm (12220245) (-29));
   (norm (-11686837) (-11), norm (-15459486) (-137));
   (S754_nan, S754_zero false);
   (norm (-14958749) (-84), norm (13311636) (6));
   (norm (-1060322) (-149), norm (-13089909) (103));
   (norm (-8666686) (-132), norm (12567209) (104));
   (S754_zero false, norm (-9935335) (100));
   (norm (8224975) (-149), norm (-8977161) (-58));
   (norm (13619822) (-56), S754_zero false);
   (norm (9517220) (-21), norm (-9651309) (-3));
   (norm (-10562003) (-17), norm (9691682) (-7));
   (norm (-16775968) (-3), S754_zero false);
   (norm (8597436) (-51), S754_infinity true);
   (norm (13927603) (-50), norm (15779349) (-31));
   (norm (-8888398) (-70), norm (8762583) (-31));
   (norm (-16731088) (50), norm (12680726) (-59));
   (norm (-11787242) (6), norm (5536398) (-149));
   (norm (12440032) (-66), norm (11718982) (-5));
   (norm (-11982107) (-51), norm (11910020) (103));
   (norm (7022067) (-149), norm (-9464682) (94));
   (norm (-10281570) (-34), norm (-15334120) (-12));
   (norm (13679666) (-3), norm (-13054749) (-55));
   (norm (14331344) (-21), norm (-10668315) (-9));
   (norm (-12858268) (-30), norm (-10323102) (-3));
   (norm (10217663) (0), norm (10217666) (0));
   (norm (9696700) (-28), norm (9696698) (-28));
   (norm (11386463) (-40), norm (11386465) (-41));
   (norm (11393387) (-26), norm (11393386) (-25));
   (norm (11059412) (-15), norm (-11059410) (-14));
   (norm (14897701) (-32), norm (-14897703) (-31));
   (norm (8501461) (-16), norm (8501464) (-15));
   (norm (14144830) (-11), norm (14144830) (-12));
   (norm (10048959) (-33), norm (-10048957) (-33));
   (norm (9862358) (-21), norm (9862361) (-21));
   (norm (12782278) (-39), norm (12782278) (-40));
   (norm (15785702) (-19), norm (-15785705) (-19));
   (norm (1) (-2), norm (13421773) (-29));
   (norm (1) (-3), norm (13421773) (-29));
   (norm (13421773) (-26), norm (13421773) (-29));
   (norm (5452595) (-23), norm (13421773) (-29));
   (norm (13421773) (-29), norm (10737419) (-30));
   (norm (16106127) (-30), norm (1000) (0));
   (norm (5368709) (-29), norm (5368709) (-28));
   (norm (16106127) (-29), norm (13421773) (-29));
   (norm (13421773) (-29), norm (825439) (-25));
   (norm (214749) (-29), norm (1000) (0))]%Z.

End Binary32.

(** * The scheduler in binary32 *)

(** The scheduler of [Context.cpp] once more, with every [float] a binary32
    value and every [float] operation rounded: the definitions follow the
    same lines of the source as those of section "The scheduler of
    [Context.cpp]" and differ from them in the arithmetic only.  Each
    operation of the source is one rounded operation: no product and sum
    are fused, and nothing is kept in a wider format. *)
Module Machine.
Import Binary32.

(** Modelled from the spec: the constants of [Game.h], here as the
    [float] values the compiler gives them. *)
Class Build : Type := {
  kGameUpdateTimeMS : float;
  kGameUpdateMaxThreshold : float;
  kGameMinTimeScale : float;
  kGameMaxTimeScale : float;
  SCREEN_FLAGS_TITLE_DEMO : Z;
  ENABLE_SCRIPTING : bool;
  ENABLE_DISCORD : bool
}.

Record World : Type := mkWorld {
  _initialised : bool;
  _ticksAccumulator : float;
  _realtimeAccumulator : float;
  _timeScale : float;
  _variableFrame : bool;
  _finished : bool;
  _discordService : bool;         (* _discordService != nullptr *)
  gCurrentRealTimeTicks : Z;      (* uint32_t *)
  gCurrentDeltaTime : Z;          (* uint16_t *)
  gPaletteEffectFrame : Z         (* uint32_t *)
}.

Definition set_ticksAccumulator (v : float) (w : World) : World :=
  mkWorld (_initialised w) v (_realtimeAccumulator w) (_timeScale w)
    (_variableFrame w) (_finished w) (_discordService w)
    (gCurrentRealTimeTicks w) (gCurrentDeltaTime w) (gPaletteEffectFrame w).

Definition set_realtimeAccumulator (v : float) (w : World) : World :=
  mkWorld (_initialised w) (_ticksAccumulator w) v (_timeScale w)
    (_variableFrame w) (_finished w) (_discordService w)
    (gCurrentRealTimeTicks w) (gCurrentDeltaTime w) (gPaletteEffectFrame w).

Definition set_timeScale (v : float) (w : World) : World :=
  mkWorld (_initialised w) (_ticksAccumulator w) (_realtimeAccumulator w) v
    (_variableFrame w) (_finished w) (_discordService w)
    (gCurrentRealTimeTicks w) (gCurrentDeltaTime w) (gPaletteEffectFrame w).

Definition set_variableFrame (v : bool) (w : World) : World :=
  mkWorld (_initialised w) (_ticksAccumulator w) (_realtimeAccumulator w)
    (_timeScale w) v (_finished w) (_discordService w)
    (gCurrentRealTimeTicks w) (gCurrentDeltaTime w) (gPaletteEffectFrame w).

Definition set_gCurrentRealTimeTicks (v : Z) (w : World) : World :=
  mkWorld (_initialised w) (_ticksAccumulator w) (_realtimeAccumulator w)
    (_timeScale w) (_variableFrame w) (_finished w) (_discordService w)
    v (gCurrentDeltaTime w) (gPaletteEffectFrame w).

Definition set_gCurrentDeltaTime (v : Z) (w : World) : World :=
  mkWorld (_initialised w) (_ticksAccumulator w) (_realtimeAccumulator w)
    (_timeScale w) (_variableFrame w) (_finished w) (_discordService w)
    (gCurrentRealTimeTicks w) v (gPaletteEffectFrame w).

Definition set_gPaletteEffectFrame (v : Z) (w : World) : World :=
  mkWorld (_initialised w) (_ticksAccumulator w) (_realtimeAccumulator w)
    (_timeScale w) (_variableFrame w) (_finished w) (_discordService w)
    (gCurrentRealTimeTicks w) (gCurrentDeltaTime w) v.

(** The member initialisers of the class: [_ticksAccumulator = 0.0f],
    [_realtimeAccumulator = 0.0f], [_timeScale = 1.0f]. *)
Definition newContext : World :=
  mkWorld false (Fin 0) (Fin 0) (Fin 1) false false false 0 0 0.

Inductive Event : Type :=
| TweenerRestore
| TweenerReset
| TweenerPreTick
| TweenerPostTick
| TweenerTween (alpha : float)
| RealTimeTick                    (* gCurrentRealTimeTicks++ *)
| ProcessMessages
| Sleep (ms : Z)                  (* Platform::Sleep(ms) *)
| LogicalTick (calls : list TickCall)
| ContextHandleInput
| WindowUpdateAll
| BeginDraw
| Paint
| EndDraw.

Definition M (A : Type) : Type := World -> option (A * World * list Event).

Definition ret {A : Type} (a : A) : M A := fun w => Some (a, w, []).

Definition bind {A B : Type} (m : M A) (k : A -> M B) : M B :=
  fun w =>
    match m w with
    | None => None
    | Some (a, w1, t1) =>
        match k a w1 with
        | None => None
        | Some (b, w2, t2) => Some (b, w2, t1 ++ t2)
        end
    end.

Definition emit (e : Event) : M unit := fun w => Some (tt, w, [e]).
Definition gets {A : Type} (f : World -> A) : M A := fun w => Some (f w, w, []).
Definition modify (f : World -> World) : M unit := fun w => Some (tt, f w, []).
Definition when (b : bool) (m : M unit) : M unit := if b then m else ret tt.

Definition execM {A : Type} (m : M A) (w : World) : World :=
  match m w with Some (_, w', _) => w' | None => w end.

Declare Scope machine_scope.
Delimit Scope machine_scope with machine.
Notation "x <- m ;; k" := (bind m (fun x => k))
  (at level 100, m at next level, right associativity) : machine_scope.
Notation "m ;; k" := (bind m (fun _ => k))
  (at level 100, right associativity) : machine_scope.
Local Open Scope machine_scope.

(** [while (cond) body]: [None] when the fuel does not reach the exit. *)
Fixpoint while (fuel : nat) (cond : World -> bool) (body : M unit) : M unit :=
  match fuel with
  | O => fun _ => None
  | S fuel' =>
      b <- gets cond ;;
      if b then body ;; while fuel' cond body else ret tt
  end.

Section Scheduler.
Context {build : Build}.

(** [Context::Tick] (lines 1171-1212). *)
Definition Tick (env : Env) (w : World) : World * list TickCall :=
  let w1 :=
    set_gCurrentDeltaTime
      (static_cast_uint 16 (fmul kGameUpdateTimeMS (Fin 1000))) w in
  let w2 :=
    if GameIsNotPaused env
    then set_gPaletteEffectFrame
           (wrap 32 (gPaletteEffectFrame w1 + gCurrentDeltaTime w1)) w1
    else w1 in
  (w2,
   [DateUpdateRealTimeOfDay]
   ++ [if negb (isIntroNone (gIntroState env)) then IntroUpdate
       else if negb (Z.land (gScreenFlags env) SCREEN_FLAGS_TITLE_DEMO =? 0)%Z
               && negb (gOpenRCT2Headless env)
       then TitleScreenTick
       else GameStateTick]
   ++ (if ENABLE_DISCORD && _discordService w2 then [DiscordServiceTick] else [])
   ++ [ChatUpdate]
   ++ (if ENABLE_SCRIPTING then [ScriptEngineTick] else [])
   ++ [ProcessEvalQueue; UiContextTick]).

Definition callTick (env : Env) : M unit :=
  fun w => Some (tt, fst (Tick env w), [LogicalTick (snd (Tick env w))]).

(** [Context::SetTimeScale] (lines 1332-1335). *)
Definition SetTimeScale (newScale : float) (w : World) : World :=
  set_timeScale (std_clamp newScale kGameMinTimeScale kGameMaxTimeScale) w.

(** [Context::GetTimeScale] (lines 1337-1340). *)
Definition GetTimeScale (w : World) : float := _timeScale w.

(** [gCurrentRealTimeTicks++]. *)
Definition incRealTimeTicks : M unit :=
  emit RealTimeTick ;;
  modify (fun w =>
    set_gCurrentRealTimeTicks (wrap 32 (gCurrentRealTimeTicks w + 1)) w).

(** The body of the loop of lines 1090-1094. *)
Definition realTimeStep : M unit :=
  incRealTimeTicks ;;
  modify (fun w =>
    set_realtimeAccumulator
      (fsub (_realtimeAccumulator w) kGameUpdateTimeMS) w).

(** [Context::UpdateTimeAccumulators] (lines 1082-1095).  [a >= b] is
    [b <= a]. *)
Definition UpdateTimeAccumulators (fuel : nat) (deltaTime : float) : M unit :=
  (* Ticks *)
  timeScale <- gets _timeScale ;;
  let scaledDeltaTime := fmul deltaTime timeScale in
  modify (fun w =>
    set_ticksAccumulator
      (std_min (fadd (_ticksAccumulator w) scaledDeltaTime)
         kGameUpdateMaxThreshold) w) ;;
  (* Real Time. *)
  modify (fun w =>
    set_realtimeAccumulator
      (std_min (fadd (_realtimeAccumulator w) deltaTime)
         kGameUpdateMaxThreshold) w) ;;
  while fuel (fun w => fle kGameUpdateTimeMS (_realtimeAccumulator w))
    realTimeStep.

(** [Context::Draw] (lines 1162-1169). *)
Definition Draw : M unit :=
  emit BeginDraw ;; emit Paint ;; emit EndDraw.

(** [_ticksAccumulator -= kGameUpdateTimeMS]. *)
Definition consumeTick : M unit :=
  modify (fun w =>
    set_ticksAccumulator (fsub (_ticksAccumulator w) kGameUpdateTimeMS) w).

(** The body of the loop of lines 1110-1115. *)
Definition fixedTickStep (env : Env) : M unit :=
  callTick env ;;
  consumeTick.

(** The body of the loop of lines 1135-1148. *)
Definition variableTickStep (env : Env) : M unit :=
  (* Get the original position of each sprite *)
  when (ShouldDraw env) (emit TweenerPreTick) ;;
  callTick env ;;
  consumeTick ;;
  (* Get the next position of each sprite *)
  when (ShouldDraw env) (emit TweenerPostTick).

(** [Context::RunFixedFrame] (lines 1097-1124).  [1000.f] is the binary32
    value 1000. *)
Definition RunFixedFrame (fuel : nat) (env : Env) (deltaTime : float) : M unit :=
  emit ProcessMessages ;;
  acc <- gets _ticksAccumulator ;;
  if flt acc kGameUpdateTimeMS then
    let sleepTimeSec := fsub kGameUpdateTimeMS acc in
    emit (Sleep (static_cast_uint 32 (fmul sleepTimeSec (Fin 1000))))
  else
    while fuel (fun w => fle kGameUpdateTimeMS (_ticksAccumulator w))
      (fixedTickStep env) ;;
    emit ContextHandleInput ;;
    emit WindowUpdateAll ;;
    when (ShouldDraw env) Draw.

(** [Context::RunVariableFrame] (lines 1126-1160). *)
Definition RunVariableFrame (fuel : nat) (env : Env) (deltaTime : float)
  : M unit :=
  let shouldDraw := ShouldDraw env in
  emit ProcessMessages ;;
  while fuel (fun w => fle kGameUpdateTimeMS (_ticksAccumulator w))
    (variableTickStep env) ;;
  emit ContextHandleInput ;;
  emit WindowUpdateAll ;;
  when shouldDraw
    (acc <- gets _ticksAccumulator ;;
     let alpha := std_min (fdiv acc kGameUpdateTimeMS) (Fin 1) in
     emit (TweenerTween alpha) ;;
     Draw).

(** [Context::RunFrame] (lines 1051-1080). *)
Definition RunFrame (fuel : nat) (env : Env) (deltaTime : float) : M unit :=
  (* Make sure we catch the state change and reset it. *)
  let useVariableFrame := ShouldRunVariableFrame env in
  variableFrame <- gets _variableFrame ;;
  when (negb (Bool.eqb variableFrame useVariableFrame))
    (modify (set_variableFrame useVariableFrame) ;;
     emit TweenerRestore ;;
     emit TweenerReset) ;;
  UpdateTimeAccumulators fuel deltaTime ;;
  if useVariableFrame
  then RunVariableFrame fuel env deltaTime
  else RunFixedFrame fuel env deltaTime.

(** One poll: the flags in force and the reading of the timer. *)
Record Poll : Type := mkPoll {
  p_env : Env;
  p_deltaTime : float
}.

(** Consecutive calls of [RunFrame], one per poll. *)
Fixpoint RunFrames (fuel : nat) (polls : list Poll) : M unit :=
  match polls with
  | [] => ret tt
  | p :: rest =>
      RunFrame fuel (p_env p) (p_deltaTime p) ;;
      RunFrames fuel rest
  end.

(** *** Observations *)

(** The number of logical ticks a log contains. *)
Fixpoint countTicks (log : list Event) : nat :=
  match log with
  | [] => 0
  | LogicalTick _ :: rest => S (countTicks rest)
  | _ :: rest => countTicks rest
  end.

(** A finite non-negative reading of the timer. *)
Definition nonnegative (x : float) : Prop :=
  match x with Fin q => 0 <= q | _ => False end.

(** The rational a finite binary32 value stands for. *)
Definition valueOf (x : float) : Q :=
  match x with Fin q => q | _ => 0 end.

(** The wall-clock time covered by a list of polls, summed exactly. *)
Definition sumDeltas (polls : list Poll) : Q :=
  fold_right (fun p acc => valueOf (p_deltaTime p) + acc) 0 polls.

(** [drained t u w w' log]: a frame entered in [w] with a finite ticks
    accumulator [a] leaves in [w'] less than one tick duration [t]: [a]
    minus the ticks of [log], give or take [u] a tick. *)
Definition drained (t u : Q) (w w' : World) (log : list Event) : Prop :=
  forall a, _ticksAccumulator w = Fin a ->
    exists a', _ticksAccumulator w' = Fin a' /\ a' < t /\
      (0 <= a -> 0 <= a') /\ a' <= a /\
      a' <= a - inject_Z (Z.of_nat (countTicks log)) * t
            + inject_Z (Z.of_nat (countTicks log)) * u /\
      a - inject_Z (Z.of_nat (countTicks log)) * t
        - inject_Z (Z.of_nat (countTicks log)) * u <= a'.

(** [clamped deltaTime w]: the [std::min] of line 1086 returns the
    threshold, not the sum. *)
Definition clamped (deltaTime : float) (w : World) : bool :=
  flt kGameUpdateMaxThreshold
    (fadd (_ticksAccumulator w) (fmul deltaTime (_timeScale w))).

(** No poll of the run is clamped. *)
Fixpoint unclamped (fuel : nat) (polls : list Poll) (w : World) : bool :=
  match polls with
  | [] => true
  | p :: rest =>
      negb (clamped (p_deltaTime p) w)
      && unclamped fuel rest (execM (RunFrame fuel (p_env p) (p_deltaTime p)) w)
  end.

End Scheduler.

(** The configuration of the spec's examples, each constant the binary32
    value of its decimal: [0.025f], [1.0f], [0.1f] and [5.0f]. *)
Definition exampleBuild : Build := {|
  kGameUpdateTimeMS := Fin (13421773 # 536870912);
  kGameUpdateMaxThreshold := Fin 1;
  kGameMinTimeScale := Fin (13421773 # 134217728);
  kGameMaxTimeScale := Fin 5;
  SCREEN_FLAGS_TITLE_DEMO := 1;
  ENABLE_SCRIPTING := true;
  ENABLE_DISCORD := true
|}.

(** Three polls of [0.01f] seconds each (the scenario of spec 8). *)
Definition threePolls (env : Env) : list Poll :=
  [mkPoll env (Fin (5368709 # 536870912));
   mkPoll env (Fin (5368709 # 536870912));
   mkPoll env (Fin (5368709 # 536870912))].

End Machine.

(** * Facts *)

(** ** Comparisons, [std::min] and the integer part *)

Lemma Qltb_lt (a b : Q) : Qltb a b = true <-> a < b.
Proof.
  unfold Qltb. rewrite negb_true_iff.
  destruct (Qle_bool b a) eqn:E.
  - apply Qle_bool_iff in E. split; [discriminate | intros H; exfalso; lra].
  - split; [intros _ | reflexivity].
    apply Qnot_le_lt. intros H. apply Qle_bool_iff in H. congruence.
Qed.

Lemma Qltb_ge (a b : Q) : Qltb a b = false <-> b <= a.
Proof.
  unfold Qltb. rewrite negb_false_iff. apply Qle_bool_iff.
Qed.

Lemma Qle_bool_lt (a b : Q) : Qle_bool a b = false <-> b < a.
Proof.
  rewrite <- Qltb_lt. unfold Qltb. rewrite negb_true_iff. reflexivity.
Qed.

Lemma std_min_le_r (a b : Q) : std_min a b <= b.
Proof.
  unfold std_min. destruct (Qltb b a) eqn:E; [lra | apply Qltb_ge in E; exact E].
Qed.

Lemma std_min_le_l (a b : Q) : std_min a b <= a.
Proof.
  unfold std_min. destruct (Qltb b a) eqn:E; [apply Qltb_lt in E; lra | lra].
Qed.

Lemma std_min_l (a b : Q) : a <= b -> std_min a b = a.
Proof.
  intros H. unfold std_min. destruct (Qltb b a) eqn:E; [|reflexivity].
  apply Qltb_lt in E. exfalso; lra.
Qed.

Lemma Qfloor_unique (x : Q) (n : Z) :
  inject_Z n <= x -> x < inject_Z (n + 1) -> Qfloor x = n.
Proof.
  intros Hlo Hhi.
  pose proof (Qfloor_le x) as H1. pose proof (Qlt_floor x) as H2.
  assert (inject_Z n < inject_Z (Qfloor x + 1)) as A by lra.
  assert (inject_Z (Qfloor x) < inject_Z (n + 1)) as B by lra.
  rewrite <- Zlt_Qlt in A, B. lia.
Qed.

Lemma Qtruncate_nonneg (x : Q) : 0 <= x -> Qtruncate x = Qfloor x.
Proof.
  destruct x as [n d]. unfold Qle, Qtruncate, Qfloor. simpl. intros H.
  apply Z.quot_div_nonneg; lia.
Qed.

(** ** Loops that drain an accumulator *)

Section Drain.
Context {build : Build}.
Hypothesis Tpos : 0 < kGameUpdateTimeMS.

Lemma pendingTicks_small (a : Q) :
  a < kGameUpdateTimeMS -> pendingTicks a = O.
Proof.
  intros H. unfold pendingTicks.
  assert (a / kGameUpdateTimeMS < 1) as H1.
  { apply Qlt_shift_div_r; lra. }
  pose proof (Qfloor_le (a / kGameUpdateTimeMS)) as H2.
  assert (inject_Z (Qfloor (a / kGameUpdateTimeMS)) < inject_Z 1) as H3
    by (change (inject_Z 1) with 1; lra).
  rewrite <- Zlt_Qlt in H3. lia.
Qed.

Lemma pendingTicks_step (a : Q) :
  kGameUpdateTimeMS <= a ->
  pendingTicks a = S (pendingTicks (a - kGameUpdateTimeMS)).
Proof.
  intros H. unfold pendingTicks.
  set (x := (a - kGameUpdateTimeMS) / kGameUpdateTimeMS).
  assert (a / kGameUpdateTimeMS == x + 1) as E.
  { unfold x. field. lra. }
  assert (0 <= x) as Hx.
  { unfold x. apply Qle_shift_div_l; lra. }
  assert (0 <= Qfloor x)%Z as Hf.
  { change 0%Z with (Qfloor 0). apply Qfloor_resp_le. exact Hx. }
  rewrite (Qfloor_comp _ _ E).
  rewrite (Qfloor_unique (x + 1) (Qfloor x + 1)).
  - rewrite Z2Nat.inj_add by lia. simpl. lia.
  - rewrite inject_Z_plus. pose proof (Qfloor_le x). change (inject_Z 1) with 1. lra.
  - pose proof (Qlt_floor x) as L.
    rewrite !inject_Z_plus. rewrite inject_Z_plus in L.
    change (inject_Z 1) with 1 in *. lra.
Qed.

Lemma runs_pendingTicks (a : Q) : runs (pendingTicks a) a.
Proof.
  remember (pendingTicks a) as n eqn:E. revert a E.
  induction n as [|n IH]; intros a E; simpl.
  - destruct (Qlt_le_dec a kGameUpdateTimeMS) as [L|L]; [exact L|].
    rewrite (pendingTicks_step a L) in E. discriminate.
  - destruct (Qlt_le_dec a kGameUpdateTimeMS) as [L|L].
    + rewrite (pendingTicks_small a L) in E. discriminate.
    + split; [exact L|]. apply IH.
      rewrite (pendingTicks_step a L) in E. congruence.
Qed.

Lemma pendingTicks_mono (a b : Q) :
  a <= b -> (pendingTicks a <= pendingTicks b)%nat.
Proof.
  intros H. unfold pendingTicks.
  assert (Qfloor (a / kGameUpdateTimeMS) <= Qfloor (b / kGameUpdateTimeMS))%Z.
  { apply Qfloor_resp_le. apply Qmult_le_compat_r; [exact H|].
    apply Qlt_le_weak, Qinv_lt_0_compat, Tpos. }
  lia.
Qed.

(** The value left by [n] iterations, and its bounds. *)
Lemma runs_bounds (n : nat) (a : Q) :
  runs n a ->
  a - inject_Z (Z.of_nat n) * kGameUpdateTimeMS < kGameUpdateTimeMS /\
  (n <> O -> inject_Z (Z.of_nat n) * kGameUpdateTimeMS <= a).
Proof.
  revert a. induction n as [|n IH]; intros a H.
  - simpl in H. change (inject_Z (Z.of_nat 0)) with 0.
    split; [lra | congruence].
  - destruct H as [H1 H2]. destruct (IH _ H2) as [B1 B2].
    rewrite Nat2Z.inj_succ. unfold Z.succ. rewrite inject_Z_plus.
    change (inject_Z 1) with 1.
    split; [lra | intros _].
    destruct n as [|n]; [change (inject_Z (Z.of_nat 0)) with 0; lra |].
    specialize (B2 ltac:(congruence)). lra.
Qed.

Variable acc : World -> Q.
Variable body : M unit.
Hypothesis body_eq : forall w, body w = Some (tt, execM body w, logM body w).
Hypothesis step_acc :
  forall w, acc (execM body w) = acc w - kGameUpdateTimeMS.

Lemma while_runs (n fuel : nat) (w : World) :
  (n < fuel)%nat ->
  runs n (acc w) ->
  while fuel (fun w => Qle_bool kGameUpdateTimeMS (acc w)) body w
  = Some (tt, iterSt body n w, iterLog body n w).
Proof.
  revert fuel w. induction n as [|n IH]; intros fuel w Hf Hr.
  - destruct fuel as [|fuel]; [lia|]. simpl in *.
    unfold bind, gets. apply Qle_bool_lt in Hr. rewrite Hr. reflexivity.
  - destruct fuel as [|fuel]; [lia|]. simpl in *. destruct Hr as [H1 H2].
    unfold bind at 1. unfold gets. apply Qle_bool_iff in H1. rewrite H1.
    unfold bind. rewrite body_eq. rewrite IH; [reflexivity | lia |].
    rewrite step_acc. exact H2.
Qed.

Lemma iterSt_acc (n : nat) (w : World) :
  acc (iterSt body n w) == acc w - inject_Z (Z.of_nat n) * kGameUpdateTimeMS.
Proof.
  revert w. induction n as [|n IH]; intros w.
  - change (inject_Z (Z.of_nat 0)) with 0. cbn [iterSt]. lra.
  - cbn [iterSt]. rewrite IH, step_acc.
    rewrite Nat2Z.inj_succ. unfold Z.succ. rewrite inject_Z_plus.
    change (inject_Z 1) with 1. lra.
Qed.

Lemma iterSt_preserves {X : Type} (f : World -> X) (n : nat) (w : World) :
  (forall w, f (execM body w) = f w) -> f (iterSt body n w) = f w.
Proof.
  intros H. revert w. induction n as [|n IH]; intros w; simpl; [reflexivity|].
  rewrite IH. apply H.
Qed.

End Drain.

(** ** The monad *)

Lemma option_eta {A : Type} (x : option (A * World * list Event)) :
  match x with
  | Some (b, w2, t2) => Some (b, w2, [] ++ t2)
  | None => None
  end = x.
Proof. destruct x as [[[b w2] t2]|]; reflexivity. Qed.

Lemma bind_gets {A B : Type} (f : World -> A) (k : A -> M B) (w : World) :
  bind (gets f) k w = k (f w) w.
Proof. unfold bind, gets. apply option_eta. Qed.

Lemma bind_modify {B : Type} (f : World -> World) (k : unit -> M B) (w : World) :
  bind (modify f) k w = k tt (f w).
Proof. unfold bind, modify. apply option_eta. Qed.

Lemma bind_ret {A B : Type} (a : A) (k : A -> M B) (w : World) :
  bind (ret a) k w = k a w.
Proof. unfold bind, ret. apply option_eta. Qed.

Lemma bind_Some {A B : Type} (m : M A) (k : A -> M B) (w w1 w2 : World)
    (a : A) (b : B) (t1 t2 : list Event) :
  m w = Some (a, w1, t1) ->
  k a w1 = Some (b, w2, t2) ->
  bind m k w = Some (b, w2, t1 ++ t2).
Proof. intros H1 H2. unfold bind. rewrite H1, H2. reflexivity. Qed.

Lemma bind_inv {A B : Type} (m : M A) (k : A -> M B) (w w2 : World)
    (b : B) (t : list Event) :
  bind m k w = Some (b, w2, t) ->
  exists a w1 t1 t2,
    m w = Some (a, w1, t1) /\ k a w1 = Some (b, w2, t2) /\ t = t1 ++ t2.
Proof.
  unfold bind. destruct (m w) as [[[a w1] t1]|]; [|discriminate].
  destruct (k a w1) as [[[b' w2'] t2]|] eqn:E; [|discriminate].
  intros H. injection H as -> -> <-. exists a, w1, t1, t2. auto.
Qed.

Section Preservation.
Context {X : Type} (f : World -> X).

Lemma preserves_ret {A : Type} (a : A) : preserves f (ret a).
Proof. intros w a' w' log H. injection H as _ <- _. reflexivity. Qed.

Lemma preserves_emit (e : Event) : preserves f (emit e).
Proof. intros w a' w' log H. injection H as _ <- _. reflexivity. Qed.

Lemma preserves_gets {A : Type} (g : World -> A) : preserves f (gets g).
Proof. intros w a' w' log H. injection H as _ <- _. reflexivity. Qed.

Lemma preserves_modify (g : World -> World) :
  (forall w, f (g w) = f w) -> preserves f (modify g).
Proof. intros Hg w a' w' log H. injection H as _ <- _. apply Hg. Qed.

Lemma preserves_bind {A B : Type} (m : M A) (k : A -> M B) :
  preserves f m -> (forall a, preserves f (k a)) -> preserves f (bind m k).
Proof.
  intros Hm Hk w b w2 t H.
  destruct (bind_inv _ _ _ _ _ _ H) as (a & w1 & t1 & t2 & H1 & H2 & _).
  rewrite (Hk _ _ _ _ _ H2). exact (Hm _ _ _ _ H1).
Qed.

Lemma preserves_when (b : bool) (m : M unit) :
  preserves f m -> preserves f (when b m).
Proof. intros Hm. destruct b; [exact Hm | apply preserves_ret]. Qed.

Lemma preserves_while (fuel : nat) (cond : World -> bool) (body : M unit) :
  preserves f body -> preserves f (while fuel cond body).
Proof.
  intros Hb. induction fuel as [|fuel IH]; [discriminate 1|].
  cbn [while]. apply preserves_bind; [apply preserves_gets|].
  intros [|]; [|apply preserves_ret].
  apply preserves_bind; [exact Hb | intros _; exact IH].
Qed.
End Preservation.

Section Logs.
Context (P : Event -> Prop).

Lemma logs_ret {A : Type} (a : A) : logs P (ret a).
Proof. intros w a' w' log H. injection H as _ _ <-. constructor. Qed.

Lemma logs_gets {A : Type} (g : World -> A) : logs P (gets g).
Proof. intros w a' w' log H. injection H as _ _ <-. constructor. Qed.

Lemma logs_modify (g : World -> World) : logs P (modify g).
Proof. intros w a' w' log H. injection H as _ _ <-. constructor. Qed.

Lemma logs_emit (e : Event) : P e -> logs P (emit e).
Proof.
  intros He w a' w' log H. injection H as _ _ <-. repeat constructor. exact He.
Qed.

Lemma logs_bind {A B : Type} (m : M A) (k : A -> M B) :
  logs P m -> (forall a, logs P (k a)) -> logs P (bind m k).
Proof.
  intros Hm Hk w b w2 t H.
  destruct (bind_inv _ _ _ _ _ _ H) as (a & w1 & t1 & t2 & H1 & H2 & ->).
  apply Forall_app. split; [exact (Hm _ _ _ _ H1) | exact (Hk _ _ _ _ _ H2)].
Qed.

Lemma logs_when (b : bool) (m : M unit) : logs P m -> logs P (when b m).
Proof. intros Hm. destruct b; [exact Hm | apply logs_ret]. Qed.

Lemma logs_while (fuel : nat) (cond : World -> bool) (body : M unit) :
  logs P body -> logs P (while fuel cond body).
Proof.
  intros Hb. induction fuel as [|fuel IH]; [discriminate 1|].
  cbn [while]. apply logs_bind; [apply logs_gets|].
  intros [|]; [|apply logs_ret].
  apply logs_bind; [exact Hb | intros _; exact IH].
Qed.
End Logs.

(** ** One poll *)

Section Frames.
Context {build : Build}.
Hypothesis Tpos : 0 < kGameUpdateTimeMS.

Lemma realTimeStep_eq (w : World) :
  realTimeStep w = Some (tt, execM realTimeStep w, logM realTimeStep w).
Proof. reflexivity. Qed.

Lemma fixedTickStep_eq (env : Env) (w : World) :
  fixedTickStep env w
  = Some (tt, execM (fixedTickStep env) w, logM (fixedTickStep env) w).
Proof. reflexivity. Qed.

Lemma variableTickStep_eq (env : Env) (w : World) :
  variableTickStep env w
  = Some (tt, execM (variableTickStep env) w, logM (variableTickStep env) w).
Proof.
  unfold execM, logM, variableTickStep. destruct (ShouldDraw env); reflexivity.
Qed.

Lemma Tick_ticksAccumulator (env : Env) (w : World) :
  _ticksAccumulator (fst (Tick env w)) = _ticksAccumulator w.
Proof. unfold Tick. simpl. destruct (GameIsNotPaused env); reflexivity. Qed.

Lemma realTimeStep_acc (w : World) :
  _realtimeAccumulator (execM realTimeStep w)
  = _realtimeAccumulator w - kGameUpdateTimeMS.
Proof. reflexivity. Qed.

Lemma fixedTickStep_acc (env : Env) (w : World) :
  _ticksAccumulator (execM (fixedTickStep env) w)
  = _ticksAccumulator w - kGameUpdateTimeMS.
Proof.
  unfold execM, fixedTickStep. simpl.
  destruct (GameIsNotPaused env); reflexivity.
Qed.

Lemma variableTickStep_acc (env : Env) (w : World) :
  _ticksAccumulator (execM (variableTickStep env) w)
  = _ticksAccumulator w - kGameUpdateTimeMS.
Proof.
  unfold execM, variableTickStep.
  destruct (ShouldDraw env); simpl;
    destruct (GameIsNotPaused env); reflexivity.
Qed.

(** [UpdateTimeAccumulators], evaluated. *)
Lemma UpdateTimeAccumulators_eval (fuel : nat) (deltaTime : Q) (w : World) :
  let w1 :=
    set_realtimeAccumulator
      (std_min (_realtimeAccumulator w + deltaTime) kGameUpdateMaxThreshold)
      (set_ticksAccumulator
         (std_min (_ticksAccumulator w + deltaTime * _timeScale w)
            kGameUpdateMaxThreshold) w) in
  let n := pendingTicks (_realtimeAccumulator w1) in
  (n < fuel)%nat ->
  UpdateTimeAccumulators fuel deltaTime w
  = Some (tt, iterSt realTimeStep n w1, iterLog realTimeStep n w1).
Proof.
  intros w1 n Hf.
  pose proof (while_runs _realtimeAccumulator realTimeStep
                realTimeStep_eq realTimeStep_acc n fuel w1 Hf
                (runs_pendingTicks Tpos _)) as H.
  unfold UpdateTimeAccumulators.
  rewrite bind_gets, !bind_modify. exact H.
Qed.

Ltac mstep := eapply bind_Some; [reflexivity|].

(** [RunFixedFrame] below one tick duration: messages, a sleep, and
    nothing else. *)
Lemma RunFixedFrame_sleep (fuel : nat) (env : Env) (deltaTime : Q) (w : World) :
  _ticksAccumulator w < kGameUpdateTimeMS ->
  RunFixedFrame fuel env deltaTime w
  = Some (tt, w,
          [ProcessMessages;
           Sleep (static_cast_uint 32
                    ((kGameUpdateTimeMS - _ticksAccumulator w) * 1000))]).
Proof.
  intros H. apply Qltb_lt in H. unfold RunFixedFrame.
  change [ProcessMessages;
          Sleep (static_cast_uint 32
                   ((kGameUpdateTimeMS - _ticksAccumulator w) * 1000))]
    with ([ProcessMessages]
          ++ [Sleep (static_cast_uint 32
                       ((kGameUpdateTimeMS - _ticksAccumulator w) * 1000))]).
  mstep. rewrite bind_gets, H. reflexivity.
Qed.

(** [RunFixedFrame] with at least one tick pending. *)
Lemma RunFixedFrame_ticks (fuel : nat) (env : Env) (deltaTime : Q) (w : World) :
  let n := pendingTicks (_ticksAccumulator w) in
  kGameUpdateTimeMS <= _ticksAccumulator w ->
  (n < fuel)%nat ->
  RunFixedFrame fuel env deltaTime w
  = Some (tt, iterSt (fixedTickStep env) n w,
          [ProcessMessages]
          ++ iterLog (fixedTickStep env) n w
          ++ [ContextHandleInput] ++ [WindowUpdateAll] ++ drawLog env).
Proof.
  intros n H Hf. apply Qltb_ge in H. unfold RunFixedFrame.
  mstep. rewrite bind_gets, H.
  eapply bind_Some.
  - apply (while_runs _ticksAccumulator (fixedTickStep env)
             (fixedTickStep_eq env) (fixedTickStep_acc env) n fuel w Hf).
    apply (runs_pendingTicks Tpos).
  - mstep. mstep. unfold drawLog. destruct (ShouldDraw env); reflexivity.
Qed.

(** [RunVariableFrame], evaluated. *)
Lemma RunVariableFrame_eval (fuel : nat) (env : Env) (deltaTime : Q) (w : World) :
  let n := pendingTicks (_ticksAccumulator w) in
  let w' := iterSt (variableTickStep env) n w in
  (n < fuel)%nat ->
  RunVariableFrame fuel env deltaTime w
  = Some (tt, w',
          [ProcessMessages]
          ++ iterLog (variableTickStep env) n w
          ++ [ContextHandleInput] ++ [WindowUpdateAll] ++ tweenLog env w').
Proof.
  intros n w' Hf. unfold RunVariableFrame.
  mstep.
  eapply bind_Some.
  - apply (while_runs _ticksAccumulator (variableTickStep env)
             (variableTickStep_eq env) (variableTickStep_acc env) n fuel w Hf).
    apply (runs_pendingTicks Tpos).
  - mstep. mstep. unfold tweenLog. destruct (ShouldDraw env); reflexivity.
Qed.

End Frames.

Section Poll.
Context {build : Build}.
Hypothesis Tpos : 0 < kGameUpdateTimeMS.

Lemma realTimeStep_ticksAccumulator (w : World) :
  _ticksAccumulator (execM realTimeStep w) = _ticksAccumulator w.
Proof. reflexivity. Qed.

Lemma tickStep_eq (env : Env) (w : World) :
  tickStep env w = Some (tt, execM (tickStep env) w, logM (tickStep env) w).
Proof.
  unfold tickStep. destruct (ShouldRunVariableFrame env);
    [apply variableTickStep_eq | apply fixedTickStep_eq].
Qed.

Lemma tickStep_acc (env : Env) (w : World) :
  _ticksAccumulator (execM (tickStep env) w)
  = _ticksAccumulator w - kGameUpdateTimeMS.
Proof.
  unfold tickStep. destruct (ShouldRunVariableFrame env);
    [apply variableTickStep_acc | apply fixedTickStep_acc].
Qed.

Lemma accumulate_ticks_le (deltaTime : Q) (w : World) :
  _ticksAccumulator (accumulate deltaTime w) <= kGameUpdateMaxThreshold.
Proof. apply std_min_le_r. Qed.

Lemma accumulate_realtime_le (deltaTime : Q) (w : World) :
  _realtimeAccumulator (accumulate deltaTime w) <= kGameUpdateMaxThreshold.
Proof. apply std_min_le_r. Qed.

(** [RunFrame], evaluated: the mode switch, the accumulators, the
    real-time units, then the selected frame. *)
Lemma RunFrame_eval (fuel : nat) (env : Env) (deltaTime : Q) (w : World) :
  let w1 := accumulate deltaTime (switchMode env w) in
  let nr := pendingTicks (_realtimeAccumulator w1) in
  let w2 := iterSt realTimeStep nr w1 in
  let n := pendingTicks (_ticksAccumulator w2) in
  enoughFuel fuel ->
  RunFrame fuel env deltaTime w
  = Some (tt, iterSt (tickStep env) n w2,
          switchLog env w ++ iterLog realTimeStep nr w1 ++ frameLog env n w2).
Proof.
  intros w1 nr w2 n Hf. unfold enoughFuel in Hf.
  assert (nr < fuel)%nat as Hnr.
  { pose proof (pendingTicks_mono Tpos _ _
                  (accumulate_realtime_le deltaTime (switchMode env w))).
    unfold nr, w1. lia. }
  assert (_ticksAccumulator w2 = _ticksAccumulator w1) as Ew2.
  { unfold w2. apply (iterSt_preserves realTimeStep _ticksAccumulator).
    apply realTimeStep_ticksAccumulator. }
  assert (n < fuel)%nat as Hn.
  { pose proof (pendingTicks_mono Tpos _ _
                  (accumulate_ticks_le deltaTime (switchMode env w))).
    unfold n. rewrite Ew2. unfold w1. lia. }
  unfold RunFrame. rewrite bind_gets.
  eapply bind_Some with (w1 := switchMode env w).
  { unfold switchMode, switchLog, modeChanged.
    destruct (negb (Bool.eqb (_variableFrame w) (ShouldRunVariableFrame env)));
      reflexivity. }
  eapply bind_Some.
  { apply (UpdateTimeAccumulators_eval Tpos). exact Hnr. }
  fold w1. fold nr. fold w2.
  unfold tickStep, frameLog.
  destruct (ShouldRunVariableFrame env).
  - apply (RunVariableFrame_eval Tpos). exact Hn.
  - destruct (Qltb (_ticksAccumulator w2) kGameUpdateTimeMS) eqn:E.
    + apply Qltb_lt in E.
      replace n with O by (symmetry; apply (pendingTicks_small Tpos); exact E).
      apply RunFixedFrame_sleep. exact E.
    + apply Qltb_ge in E. apply (RunFixedFrame_ticks Tpos); assumption.
Qed.
End Poll.

(** ** What a frame leaves alone *)

Section Untouched.
Context {build : Build} {X : Type} (f : World -> X).
Hypothesis Hf : untouched f.

Lemma preserves_callTick (env : Env) : preserves f (callTick env).
Proof.
  intros w a w' log H. injection H as _ <- _. unfold Tick. cbn [fst].
  destruct (GameIsNotPaused env).
  - destruct (Hf (set_gCurrentDeltaTime
                    (static_cast_uint 16 (kGameUpdateTimeMS * 1000)) w))
      as (_ & _ & _ & _ & ->).
    destruct (Hf w) as (_ & _ & _ & -> & _). reflexivity.
  - destruct (Hf w) as (_ & _ & _ & -> & _). reflexivity.
Qed.

Lemma preserves_consumeTick : preserves f consumeTick.
Proof. apply preserves_modify. intros w. destruct (Hf w) as (-> & _). reflexivity. Qed.

Lemma preserves_fixedTickStep (env : Env) : preserves f (fixedTickStep env).
Proof.
  apply preserves_bind; [apply preserves_callTick|].
  intros _. apply preserves_consumeTick.
Qed.

Lemma preserves_variableTickStep (env : Env) :
  preserves f (variableTickStep env).
Proof.
  apply preserves_bind; [apply preserves_when, preserves_emit|]. intros _.
  apply preserves_bind; [apply preserves_callTick|]. intros _.
  apply preserves_bind; [apply preserves_consumeTick|]. intros _.
  apply preserves_when, preserves_emit.
Qed.

Lemma preserves_realTimeStep : preserves f realTimeStep.
Proof.
  apply preserves_bind.
  - apply preserves_bind; [apply preserves_emit|]. intros _.
    apply preserves_modify. intros w. destruct (Hf w) as (_ & _ & -> & _).
    reflexivity.
  - intros _. apply preserves_modify. intros w.
    destruct (Hf w) as (_ & -> & _). reflexivity.
Qed.

Lemma preserves_UpdateTimeAccumulators (fuel : nat) (deltaTime : Q) :
  preserves f (UpdateTimeAccumulators fuel deltaTime).
Proof.
  apply preserves_bind; [apply preserves_gets|]. intros timeScale.
  apply preserves_bind.
  { apply preserves_modify. intros w. destruct (Hf w) as (-> & _). reflexivity. }
  intros _. apply preserves_bind.
  { apply preserves_modify. intros w. destruct (Hf w) as (_ & -> & _). reflexivity. }
  intros _. apply preserves_while, preserves_realTimeStep.
Qed.

Lemma preserves_Draw : preserves f Draw.
Proof.
  apply preserves_bind; [apply preserves_emit|]. intros _.
  apply preserves_bind; [apply preserves_emit|]. intros _. apply preserves_emit.
Qed.

Lemma preserves_RunFixedFrame (fuel : nat) (env : Env) (deltaTime : Q) :
  preserves f (RunFixedFrame fuel env deltaTime).
Proof.
  apply preserves_bind; [apply preserves_emit|]. intros _.
  apply preserves_bind; [apply preserves_gets|]. intros acc.
  destruct (Qltb acc kGameUpdateTimeMS); [apply preserves_emit|].
  apply preserves_bind; [apply preserves_while, preserves_fixedTickStep|].
  intros _. apply preserves_bind; [apply preserves_emit|]. intros _.
  apply preserves_bind; [apply preserves_emit|]. intros _.
  apply preserves_when, preserves_Draw.
Qed.

Lemma preserves_RunVariableFrame (fuel : nat) (env : Env) (deltaTime : Q) :
  preserves f (RunVariableFrame fuel env deltaTime).
Proof.
  apply preserves_bind; [apply preserves_emit|]. intros _.
  apply preserves_bind; [apply preserves_while, preserves_variableTickStep|].
  intros _. apply preserves_bind; [apply preserves_emit|]. intros _.
  apply preserves_bind; [apply preserves_emit|]. intros _.
  apply preserves_when.
  apply preserves_bind; [apply preserves_gets|]. intros acc.
  apply preserves_bind; [apply preserves_emit|]. intros _. apply preserves_Draw.
Qed.

(** From the accumulator update to the end of the poll. *)
Lemma preserves_frame (fuel : nat) (env : Env) (deltaTime : Q) :
  preserves f
    (UpdateTimeAccumulators fuel deltaTime ;;
     if ShouldRunVariableFrame env
     then RunVariableFrame fuel env deltaTime
     else RunFixedFrame fuel env deltaTime).
Proof.
  apply preserves_bind; [apply preserves_UpdateTimeAccumulators|]. intros _.
  destruct (ShouldRunVariableFrame env);
    [apply preserves_RunVariableFrame | apply preserves_RunFixedFrame].
Qed.

Hypothesis Hv : forall v w, f (set_variableFrame v w) = f w.

Lemma preserves_RunFrame (fuel : nat) (env : Env) (deltaTime : Q) :
  preserves f (RunFrame fuel env deltaTime).
Proof.
  apply preserves_bind; [apply preserves_gets|]. intros variableFrame.
  apply preserves_bind; [|intros _; apply preserves_frame].
  apply preserves_when.
  apply preserves_bind; [apply preserves_modify; intros w; apply Hv|]. intros _.
  apply preserves_bind; [apply preserves_emit|]. intros _. apply preserves_emit.
Qed.
End Untouched.

Lemma untouched_variableFrame : untouched _variableFrame.
Proof. intros w. repeat split. Qed.

Lemma untouched_finished : untouched _finished.
Proof. intros w. repeat split. Qed.

Lemma untouched_timeScale : untouched _timeScale.
Proof. intros w. repeat split. Qed.

Lemma untouched_initialised : untouched _initialised.
Proof. intros w. repeat split. Qed.

(** ** Counting in a log *)

Lemma countTicks_app {build : Build} (l1 l2 : list Event) :
  countTicks (l1 ++ l2) = (countTicks l1 + countTicks l2)%nat.
Proof.
  induction l1 as [|e l1 IH]; [reflexivity|].
  destruct e; cbn [countTicks app]; rewrite IH; reflexivity.
Qed.


Section Counting.
Context {build : Build}.

Lemma iterLog_count (cnt : list Event -> nat) (body : M unit) (c : nat) :
  (forall l1 l2, cnt (l1 ++ l2) = (cnt l1 + cnt l2)%nat) ->
  cnt [] = O ->
  (forall w, cnt (logM body w) = c) ->
  forall n w, cnt (iterLog body n w) = (n * c)%nat.
Proof.
  intros Happ Hnil Hc. induction n as [|n IH]; intros w; cbn [iterLog].
  - exact Hnil.
  - rewrite Happ, Hc, IH. reflexivity.
Qed.


Lemma countTicks_tickStep (env : Env) (w : World) :
  countTicks (logM (tickStep env) w) = 1%nat.
Proof.
  unfold tickStep, logM, variableTickStep.
  destruct (ShouldRunVariableFrame env); [|reflexivity].
  destruct (ShouldDraw env); reflexivity.
Qed.

Lemma countTicks_iter_tickStep (env : Env) (n : nat) (w : World) :
  countTicks (iterLog (tickStep env) n w) = n.
Proof.
  rewrite (iterLog_count countTicks (tickStep env) 1 countTicks_app eq_refl
             (countTicks_tickStep env)). lia.
Qed.

Lemma countTicks_iter_realTimeStep (n : nat) (w : World) :
  countTicks (iterLog realTimeStep n w) = O.
Proof.
  rewrite (iterLog_count countTicks realTimeStep 0 countTicks_app eq_refl
             (fun _ => eq_refl)). lia.
Qed.




Lemma countTicks_switchLog (env : Env) (w : World) :
  countTicks (switchLog env w) = O.
Proof. unfold switchLog. destruct (modeChanged env w); reflexivity. Qed.


Lemma frameLog_tickStep (env : Env) (n : nat) (w : World) :
  (_ticksAccumulator w < kGameUpdateTimeMS -> n = O) ->
  exists l1 l2,
    frameLog env n w = l1 ++ iterLog (tickStep env) n w ++ l2 /\
    countTicks l1 = O /\ countTicks l2 = O /\
    countRealTimeTicks l1 = O /\ countRealTimeTicks l2 = O.
Proof.
  intros Hn. unfold frameLog, tickStep.
  destruct (ShouldRunVariableFrame env).
  - eexists [ProcessMessages], _. split; [reflexivity|].
    unfold tweenLog. destruct (ShouldDraw env); repeat split.
  - destruct (Qltb (_ticksAccumulator w) kGameUpdateTimeMS) eqn:E.
    + apply Qltb_lt in E. rewrite (Hn E).
      eexists [ProcessMessages], [Sleep _]. repeat split.
    + eexists [ProcessMessages], _. split; [reflexivity|].
      unfold drawLog. destruct (ShouldDraw env); repeat split.
Qed.

Lemma iterSt_realTimeStep_realtime (n : nat) (w : World) :
  _realtimeAccumulator (iterSt realTimeStep n w)
  = drain n (_realtimeAccumulator w).
Proof.
  revert w. induction n as [|n IH]; intros w; [reflexivity|].
  cbn [iterSt drain]. rewrite IH. reflexivity.
Qed.


Lemma drain_eq (n : nat) (a : Q) :
  drain n a == a - inject_Z (Z.of_nat n) * kGameUpdateTimeMS.
Proof.
  revert a. induction n as [|n IH]; intros a.
  - change (inject_Z (Z.of_nat 0)) with 0. cbn [drain]. lra.
  - cbn [drain]. rewrite IH, Nat2Z.inj_succ. unfold Z.succ.
    rewrite inject_Z_plus. change (inject_Z 1) with 1. lra.
Qed.



Lemma tickStep_timeScale (env : Env) (w : World) :
  _timeScale (execM (tickStep env) w) = _timeScale w.
Proof.
  unfold tickStep, execM, variableTickStep.
  destruct (ShouldRunVariableFrame env); [destruct (ShouldDraw env)|];
    cbn; destruct (GameIsNotPaused env); reflexivity.
Qed.

Lemma switchMode_fields (env : Env) (w : World) :
  _ticksAccumulator (switchMode env w) = _ticksAccumulator w /\
  _realtimeAccumulator (switchMode env w) = _realtimeAccumulator w /\
  _timeScale (switchMode env w) = _timeScale w /\
  gCurrentRealTimeTicks (switchMode env w) = gCurrentRealTimeTicks w.
Proof. unfold switchMode. destruct (modeChanged env w); repeat split. Qed.

End Counting.

(** ** The accumulators across one poll *)

Section PollFacts.
Context {build : Build}.
Hypothesis Tpos : 0 < kGameUpdateTimeMS.

(** The logical ticks of a poll. *)
Lemma RunFrame_ticks (fuel : nat) (env : Env) (deltaTime : Q) (w : World) :
  enoughFuel fuel ->
  exists w' log,
    RunFrame fuel env deltaTime w = Some (tt, w', log) /\
    let a1 := std_min (_ticksAccumulator w + deltaTime * _timeScale w)
                kGameUpdateMaxThreshold in
    let n := pendingTicks a1 in
    countTicks log = n /\
    _ticksAccumulator w' == a1 - inject_Z (Z.of_nat n) * kGameUpdateTimeMS /\
    _ticksAccumulator w' < kGameUpdateTimeMS /\
    (n <> O -> inject_Z (Z.of_nat n) * kGameUpdateTimeMS <= a1) /\
    _timeScale w' = _timeScale w.
Proof.
  intros Hf. eexists _, _. split; [apply (RunFrame_eval Tpos); exact Hf|].
  destruct (switchMode_fields env w) as (Ea & Er & Es & Ec).
  set (w1 := accumulate deltaTime (switchMode env w)).
  set (nr := pendingTicks (_realtimeAccumulator w1)).
  set (w2 := iterSt realTimeStep nr w1).
  assert (_ticksAccumulator w2
          = std_min (_ticksAccumulator w + deltaTime * _timeScale w)
              kGameUpdateMaxThreshold) as E2.
  { unfold w2. rewrite (iterSt_preserves realTimeStep _ticksAccumulator)
      by apply realTimeStep_ticksAccumulator.
    unfold w1, accumulate. cbn. rewrite Ea, Es. reflexivity. }
  cbv zeta. rewrite <- E2.
  set (n := pendingTicks (_ticksAccumulator w2)).
  pose proof (runs_bounds n _ (runs_pendingTicks Tpos (_ticksAccumulator w2)))
    as [B1 B2].
  pose proof (iterSt_acc _ticksAccumulator (tickStep env) (tickStep_acc env) n w2)
    as E3.
  split; [|split; [exact E3 | split; [rewrite E3; exact B1 | split; [exact B2|]]]].
  - destruct (frameLog_tickStep env n w2) as (l1 & l2 & -> & C1 & C2 & _).
    { intros H. apply (pendingTicks_small Tpos). exact H. }
    rewrite !countTicks_app, countTicks_switchLog, countTicks_iter_realTimeStep,
      countTicks_iter_tickStep, C1, C2. lia.
  - rewrite (iterSt_preserves (tickStep env) _timeScale)
      by apply tickStep_timeScale.
    unfold w2. rewrite (iterSt_preserves realTimeStep _timeScale)
      by reflexivity.
    unfold w1, accumulate. cbn. exact Es.
Qed.


End PollFacts.

(** ** Selection of the frame mode *)

(** What [RunFrame] is made of: the mode switch, then the rest of the
    poll, which leaves [_variableFrame] alone. *)
Lemma variable_frame_selected_aux {build : Build}
    (fuel : nat) (env : Env) (deltaTime : Q) (w w' : World) (log : list Event) :
  RunFrame fuel env deltaTime w = Some (tt, w', log) ->
  _variableFrame w' = ShouldRunVariableFrame env /\
  exists w1 t1 t2,
    when (negb (Bool.eqb (_variableFrame w) (ShouldRunVariableFrame env)))
      (modify (set_variableFrame (ShouldRunVariableFrame env)) ;;
       emit TweenerRestore ;;
       emit TweenerReset) w
    = Some (tt, w1, t1) /\
    (UpdateTimeAccumulators fuel deltaTime ;;
     if ShouldRunVariableFrame env
     then RunVariableFrame fuel env deltaTime
     else RunFixedFrame fuel env deltaTime) w1
    = Some (tt, w', t2) /\
    log = t1 ++ t2.
Proof.
  intros H. unfold RunFrame in H. rewrite bind_gets in H.
  destruct (bind_inv _ _ _ _ _ _ H) as ([] & w1 & t1 & t2 & H1 & H2 & E).
  split; [|exists w1, t1, t2; auto].
  assert (_variableFrame w1 = ShouldRunVariableFrame env) as E1.
  { destruct (Bool.eqb (_variableFrame w) (ShouldRunVariableFrame env)) eqn:Eb;
      cbn [negb when] in H1.
    - injection H1 as <- _. apply Bool.eqb_prop. exact Eb.
    - injection H1 as <- _. reflexivity. }
  rewrite <- E1.
  exact (preserves_frame _variableFrame untouched_variableFrame
           fuel env deltaTime _ _ _ _ H2).
Qed.

(** C8.  On every poll the variable frame is selected exactly when the game
    is not headless, the window is not minimised, the frame rate is
    uncapped and the game speed is at most 4; [RunFrame] records that
    choice in [_variableFrame]. *)
Theorem variable_frame_selected_iff {build : Build} (env : Env) :
  (ShouldRunVariableFrame env = true <->
   gOpenRCT2Headless env = false /\ IsMinimised env = false /\
   UncapFPS env = true /\ (gGameSpeed env <= 4)%Z) /\
  (forall fuel deltaTime w w' log,
     RunFrame fuel env deltaTime w = Some (tt, w', log) ->
     _variableFrame w' = ShouldRunVariableFrame env).
Proof.
  split.
  - unfold ShouldRunVariableFrame, ShouldDraw.
    destruct (gOpenRCT2Headless env), (IsMinimised env), (UncapFPS env);
      cbn [negb]; try (split; [discriminate | intros (? & ? & ? & ?); discriminate]).
    destruct (Z.ltb_spec 4 (gGameSpeed env)).
    + split; [discriminate | intros (_ & _ & _ & ?); lia].
    + split; [intros _; repeat split; lia | reflexivity].
  - intros fuel deltaTime w w' log H.
    apply (variable_frame_selected_aux fuel env deltaTime w w' log H).
Qed.

(** ** One logical tick *)

(** C3.  The calls of a logical tick are, in this order: the real-time-of-day
    update; exactly one of [IntroUpdate] (when an intro state is active),
    [TitleScreenTick] (when the title demo is on screen and the game is not
    headless) and [GameStateTick] (otherwise, one simulation step); then only
    housekeeping calls: the Discord service when compiled in and present,
    the chat update, the script engine when compiled in, the console queue
    and the tick of the UI context. *)
Theorem tick_phase_order {build : Build} (env : Env) (w : World) :
  exists b post,
    snd (Tick env w) = [DateUpdateRealTimeOfDay] ++ b :: post /\
    isBranchCall b = true /\
    (b = IntroUpdate <-> gIntroState env <> IntroState_None) /\
    (b = TitleScreenTick <->
     gIntroState env = IntroState_None /\
     Z.land (gScreenFlags env) SCREEN_FLAGS_TITLE_DEMO <> 0%Z /\
     gOpenRCT2Headless env = false) /\
    (b = GameStateTick <->
     gIntroState env = IntroState_None /\
     ~ (Z.land (gScreenFlags env) SCREEN_FLAGS_TITLE_DEMO <> 0%Z /\
        gOpenRCT2Headless env = false)) /\
    Forall (fun c => isHousekeepingCall c = true /\ isBranchCall c = false) post /\
    In ChatUpdate post /\
    In ProcessEvalQueue post /\
    (ENABLE_SCRIPTING = true -> In ScriptEngineTick post) /\
    (ENABLE_DISCORD = true -> _discordService w = true ->
     In DiscordServiceTick post) /\
    post = (if ENABLE_DISCORD && _discordService w
            then [DiscordServiceTick] else [])
           ++ [ChatUpdate]
           ++ (if ENABLE_SCRIPTING then [ScriptEngineTick] else [])
           ++ [ProcessEvalQueue; UiContextTick].
Proof.
  unfold Tick. cbn [snd app].
  eexists. eexists. split; [reflexivity|].
  assert (_discordService
            (if GameIsNotPaused env
             then set_gPaletteEffectFrame
                    (wrap 32
                       (gPaletteEffectFrame
                          (set_gCurrentDeltaTime
                             (static_cast_uint 16 (kGameUpdateTimeMS * 1000)) w)
                        + gCurrentDeltaTime
                            (set_gCurrentDeltaTime
                               (static_cast_uint 16 (kGameUpdateTimeMS * 1000)) w)))
                    (set_gCurrentDeltaTime
                       (static_cast_uint 16 (kGameUpdateTimeMS * 1000)) w)
             else set_gCurrentDeltaTime
                    (static_cast_uint 16 (kGameUpdateTimeMS * 1000)) w)
          = _discordService w) as ->
    by (destruct (GameIsNotPaused env); reflexivity).
  assert (isIntroNone (gIntroState env) = true
          <-> gIntroState env = IntroState_None) as HI
    by (destruct (gIntroState env); cbn; split; congruence).
  destruct (isIntroNone (gIntroState env));
    destruct (Z.eqb_spec (Z.land (gScreenFlags env) SCREEN_FLAGS_TITLE_DEMO) 0)
      as [HT|HT];
    destruct (gOpenRCT2Headless env); cbn [negb andb];
    (split; [reflexivity|]);
    (split; [intuition (congruence || discriminate)|]);
    (split; [intuition (congruence || discriminate)|]);
    (split; [intuition (congruence || discriminate)|]).
  all: split; [|split; [|split; [|split; [|split; [|reflexivity]]]]].
  all: try (destruct (ENABLE_DISCORD && _discordService w), ENABLE_SCRIPTING;
            cbn [app]; repeat constructor; fail).
  all: try (destruct (ENABLE_DISCORD && _discordService w), ENABLE_SCRIPTING;
            cbn; auto 8; fail).
  all: try (intros ->; destruct (ENABLE_DISCORD && _discordService w);
            cbn; auto 8; fail).
  all: intros -> ->; cbn; auto.
Qed.

(** ** The clamp *)

(** C2.  After the accumulator update of a poll, whatever the elapsed time,
    neither accumulator exceeds [kGameUpdateMaxThreshold], and the ticks
    accumulator holds no more pending ticks than the threshold does.  The
    update returns: the given fuel lets the real-time loop reach its
    exit. *)
Theorem accumulators_clamped {build : Build}
    (fuel : nat) (deltaTime : Q) (w : World) :
  0 < kGameUpdateTimeMS ->
  enoughFuel fuel ->
  exists w' log,
    UpdateTimeAccumulators fuel deltaTime w = Some (tt, w', log) /\
    _ticksAccumulator w' <= kGameUpdateMaxThreshold /\
    _realtimeAccumulator w' <= kGameUpdateMaxThreshold /\
    (pendingTicks (_ticksAccumulator w') <= pendingTicks kGameUpdateMaxThreshold)%nat.
Proof.
  intros Tpos Hf. unfold enoughFuel in Hf.
  pose proof (accumulate_realtime_le deltaTime w) as Hr.
  pose proof (accumulate_ticks_le deltaTime w) as Ht.
  pose proof (pendingTicks_mono Tpos _ _ Hr) as Hn.
  eexists _, _. split.
  { apply (UpdateTimeAccumulators_eval Tpos). unfold accumulate in Hn. lia. }
  fold (accumulate deltaTime w).
  set (n := pendingTicks (_realtimeAccumulator (accumulate deltaTime w))).
  assert (_ticksAccumulator (iterSt realTimeStep n (accumulate deltaTime w))
          = _ticksAccumulator (accumulate deltaTime w)) as Et
    by (apply (iterSt_preserves realTimeStep _ticksAccumulator);
        apply realTimeStep_ticksAccumulator).
  rewrite Et. split; [exact Ht | split].
  - rewrite iterSt_realTimeStep_realtime, drain_eq.
    assert (0 <= inject_Z (Z.of_nat n) * kGameUpdateTimeMS).
    { apply Qmult_le_0_compat; [|lra].
      change 0 with (inject_Z 0). rewrite <- Zle_Qle. lia. }
    lra.
  - apply (pendingTicks_mono Tpos). exact Ht.
Qed.

(** A stall of ten seconds against a threshold of one second. *)
Lemma accumulators_clamped_witness :
  exists w' log,
    UpdateTimeAccumulators (build := exampleBuild) 41 10 newContext
    = Some (tt, w', log) /\
    _ticksAccumulator w' <= 1 /\
    _realtimeAccumulator w' <= 1 /\
    (pendingTicks (build := exampleBuild) (_ticksAccumulator w') <= 40)%nat.
Proof.
  apply (accumulators_clamped (build := exampleBuild) 41 10 newContext).
  - reflexivity.
  - unfold enoughFuel. vm_compute. lia.
Defined.

(** ** Real time does not depend on the time scale *)

Section RealTime.
Context {build : Build}.
Hypothesis Tpos : 0 < kGameUpdateTimeMS.

End RealTime.



(** ** The number of logical ticks *)

Section TickCount.
Context {build : Build}.
Hypothesis Tpos : 0 < kGameUpdateTimeMS.

Lemma sumDeltas_nonneg (polls : list Poll) :
  Forall (fun p => 0 <= p_deltaTime p) polls -> 0 <= sumDeltas polls.
Proof.
  induction 1 as [|p rest Hp _ IH]; cbn [sumDeltas fold_right]; [lra|].
  fold (sumDeltas rest). lra.
Qed.

(** Ticks never outrun the scaled time: with [u] an upper bound of the
    ticks accumulator at the start. *)
Lemma RunFrames_ticks_le (fuel : nat) (polls : list Poll) :
  enoughFuel fuel ->
  Forall (fun p => 0 <= p_deltaTime p) polls ->
  forall w u,
    0 <= _timeScale w ->
    0 <= u -> _ticksAccumulator w <= u ->
    exists w' log,
      RunFrames fuel polls w = Some (tt, w', log) /\
      inject_Z (Z.of_nat (countTicks log)) * kGameUpdateTimeMS
      <= u + sumDeltas polls * _timeScale w.
Proof.
  intros Hf Hd. induction Hd as [|p rest Hp _ IH]; intros w u Hs Hu Ha.
  - exists w, []. split; [reflexivity|].
    cbn [countTicks sumDeltas fold_right].
    change (inject_Z (Z.of_nat 0)) with 0. lra.
  - destruct (RunFrame_ticks Tpos fuel (p_env p) (p_deltaTime p) w Hf)
      as (w1 & l1 & R1 & C1 & A1 & L1 & N1 & S1).
    cbv zeta in *.
    set (a1 := std_min (_ticksAccumulator w + p_deltaTime p * _timeScale w)
                 kGameUpdateMaxThreshold) in *.
    set (n1 := pendingTicks a1) in *.
    pose proof (std_min_le_l (_ticksAccumulator w + p_deltaTime p * _timeScale w)
                  kGameUpdateMaxThreshold) as Hmin. fold a1 in Hmin.
    assert (0 <= p_deltaTime p * _timeScale w) as Hds
      by (apply Qmult_le_0_compat; assumption).
    set (u1 := u + p_deltaTime p * _timeScale w
               - inject_Z (Z.of_nat n1) * kGameUpdateTimeMS).
    assert (0 <= u1) as Hu1.
    { unfold u1. destruct (Nat.eq_dec n1 0%nat) as [E|E].
      - rewrite E. change (inject_Z (Z.of_nat 0)) with 0. lra.
      - specialize (N1 E). lra. }
    assert (_ticksAccumulator w1 <= u1) as Ha1 by (unfold u1; lra).
    destruct (IH w1 u1) as (w' & l2 & R2 & C2);
      [rewrite S1; exact Hs | exact Hu1 | exact Ha1 |].
    exists w', (l1 ++ l2). cbn [RunFrames].
    split; [exact (bind_Some _ _ _ _ _ _ _ _ _ R1 R2)|].
    rewrite countTicks_app, C1, Nat2Z.inj_add, inject_Z_plus.
    cbn [sumDeltas fold_right]. fold (sumDeltas rest).
    rewrite S1 in C2. unfold u1 in C2. fold n1. lra.
Qed.

(** Without clamping nothing is lost: the accumulator and the ticks run
    account for all of the scaled time. *)
Lemma RunFrames_ticks_exact (fuel : nat) (polls : list Poll) (s : Q) :
  enoughFuel fuel ->
  0 <= s ->
  Forall (fun p => 0 <= p_deltaTime p /\
                   p_deltaTime p * s
                   <= kGameUpdateMaxThreshold - kGameUpdateTimeMS) polls ->
  forall w,
    _timeScale w = s ->
    0 <= _ticksAccumulator w -> _ticksAccumulator w < kGameUpdateTimeMS ->
    exists w' log,
      RunFrames fuel polls w = Some (tt, w', log) /\
      _ticksAccumulator w'
      + inject_Z (Z.of_nat (countTicks log)) * kGameUpdateTimeMS
      == _ticksAccumulator w + sumDeltas polls * s /\
      0 <= _ticksAccumulator w' /\ _ticksAccumulator w' < kGameUpdateTimeMS.
Proof.
  intros Hf Hs Hd. induction Hd as [|p rest [Hp Hc] _ IH]; intros w Es H0 HT.
  - exists w, []. split; [reflexivity|].
    cbn [countTicks sumDeltas fold_right].
    change (inject_Z (Z.of_nat 0)) with 0. repeat split; lra.
  - destruct (RunFrame_ticks Tpos fuel (p_env p) (p_deltaTime p) w Hf)
      as (w1 & l1 & R1 & C1 & A1 & L1 & N1 & S1).
    cbv zeta in *. rewrite Es in *.
    assert (0 <= p_deltaTime p * s) as Hds
      by (apply Qmult_le_0_compat; assumption).
    rewrite (std_min_l (_ticksAccumulator w + p_deltaTime p * s)
               kGameUpdateMaxThreshold) in * by lra.
    set (a1 := _ticksAccumulator w + p_deltaTime p * s) in *.
    set (n1 := pendingTicks a1) in *.
    assert (0 <= _ticksAccumulator w1) as H1.
    { destruct (Nat.eq_dec n1 0%nat) as [E|E].
      - rewrite E in A1. change (inject_Z (Z.of_nat 0)) with 0 in A1.
        unfold a1 in A1. lra.
      - specialize (N1 E). lra. }
    destruct (IH w1 S1 H1 L1) as (w' & l2 & R2 & A2 & H2 & L2).
    exists w', (l1 ++ l2). cbn [RunFrames].
    split; [exact (bind_Some _ _ _ _ _ _ _ _ _ R1 R2)|].
    rewrite countTicks_app, C1, Nat2Z.inj_add, inject_Z_plus.
    cbn [sumDeltas fold_right]. fold (sumDeltas rest). fold n1.
    unfold a1 in A1. repeat split; lra.
Qed.

Lemma floor_of_bounds (x : Q) (n : nat) :
  inject_Z (Z.of_nat n) * kGameUpdateTimeMS <= x ->
  (n <= Z.to_nat (Qfloor (x / kGameUpdateTimeMS)))%nat.
Proof.
  intros H.
  assert (inject_Z (Z.of_nat n) <= x / kGameUpdateTimeMS) as H1
    by (apply Qle_shift_div_l; assumption).
  apply Qfloor_resp_le in H1. rewrite Qfloor_Z in H1. lia.
Qed.

Lemma floor_of_remainder (x r : Q) (n : nat) :
  r + inject_Z (Z.of_nat n) * kGameUpdateTimeMS == x ->
  0 <= r -> r < kGameUpdateTimeMS ->
  Z.to_nat (Qfloor (x / kGameUpdateTimeMS)) = n.
Proof.
  intros E H0 HT.
  rewrite (Qfloor_unique (x / kGameUpdateTimeMS) (Z.of_nat n)); [lia | |].
  - apply Qle_shift_div_l; [assumption | lra].
  - apply Qlt_shift_div_r; [assumption|].
    rewrite inject_Z_plus. change (inject_Z 1) with 1. lra.
Qed.

End TickCount.

(** ** The termination flag *)

Section GameLoop.
Context {build : Build}.
Hypothesis Tpos : 0 < kGameUpdateTimeMS.

Lemma RunFrame_returns (fuel : nat) (env : Env) (deltaTime : Q) (w : World) :
  enoughFuel fuel ->
  exists w' log,
    RunFrame fuel env deltaTime w = Some (tt, w', log) /\
    _finished w' = _finished w.
Proof.
  intros Hf.
  pose proof (RunFrame_eval Tpos fuel env deltaTime w Hf) as H. cbv zeta in H.
  eexists _, _. split; [exact H|].
  exact (preserves_RunFrame _finished untouched_finished (fun _ _ => eq_refl)
           fuel env deltaTime _ _ _ _ H).
Qed.

Lemma doWhileNotFinished_continue (fuel : nat) (p : Poll) (rest : list Poll)
    (w w1 w2 : World) (l1 l2 : list Event) (st : LoopStatus) :
  RunFrame fuel (p_env p) (p_deltaTime p) w = Some (tt, w1, l1) ->
  p_finish p = false ->
  _finished w1 = false ->
  doWhileNotFinished fuel rest w1 = Some (st, w2, l2) ->
  doWhileNotFinished fuel (p :: rest) w = Some (st, w2, l1 ++ l2).
Proof.
  intros R Hp Hfin Hrest. cbn [doWhileNotFinished].
  eapply bind_Some; [exact R|].
  rewrite Hp. cbn [when]. rewrite bind_ret, bind_gets, Hfin. exact Hrest.
Qed.

Lemma doWhileNotFinished_exit (fuel : nat) (p : Poll) (rest : list Poll)
    (w w1 : World) (l1 : list Event) :
  RunFrame fuel (p_env p) (p_deltaTime p) w = Some (tt, w1, l1) ->
  p_finish p = true ->
  doWhileNotFinished fuel (p :: rest) w = Some (Exited, Finish w1, l1 ++ []).
Proof.
  intros R Hp. cbn [doWhileNotFinished].
  eapply bind_Some; [exact R|].
  rewrite Hp. cbn [when]. rewrite bind_modify, bind_gets. reflexivity.
Qed.

(** While nobody calls [Finish()], the game loop is [RunFrames]. *)
Lemma doWhileNotFinished_RunFrames (fuel : nat) (polls : list Poll) :
  Forall (fun q => p_finish q = false) polls ->
  forall w w' log,
    _finished w = false ->
    RunFrames fuel polls w = Some (tt, w', log) ->
    doWhileNotFinished fuel polls w = Some (Running, w', log).
Proof.
  induction 1 as [|q rest Hq _ IH]; intros w w' log Hw R.
  - injection R as <- <-. reflexivity.
  - cbn [RunFrames] in R.
    destruct (bind_inv _ _ _ _ _ _ R) as ([] & w1 & l1 & l2 & R1 & R2 & ->).
    assert (_finished w1 = false) as Hw1.
    { rewrite <- Hw.
      exact (preserves_RunFrame _finished untouched_finished (fun _ _ => eq_refl)
               fuel (p_env q) (p_deltaTime q) _ _ _ _ R1). }
    apply (doWhileNotFinished_continue fuel q rest w w1 w' l1 l2 Running);
      [exact R1 | exact Hq | exact Hw1 | apply IH; assumption].
Qed.

Lemma doWhileNotFinished_running (fuel : nat) (pre : list Poll) :
  enoughFuel fuel ->
  Forall (fun q => p_finish q = false) pre ->
  forall w, _finished w = false ->
  exists w' log,
    doWhileNotFinished fuel pre w = Some (Running, w', log) /\
    _finished w' = false.
Proof.
  intros Hf Hpre. induction Hpre as [|q pre Hq _ IH]; intros w Hw.
  - exists w, []. split; [reflexivity | exact Hw].
  - destruct (RunFrame_returns fuel (p_env q) (p_deltaTime q) w Hf)
      as (w1 & l1 & R & E).
    rewrite Hw in E.
    destruct (IH w1 E) as (w' & l2 & R' & E').
    exists w', (l1 ++ l2). split; [|exact E'].
    apply (doWhileNotFinished_continue fuel q pre w w1 w' l1 l2 Running);
      assumption.
Qed.

Lemma doWhileNotFinished_finish (fuel : nat) (pre : list Poll) (p : Poll)
    (post : list Poll) :
  enoughFuel fuel ->
  Forall (fun q => p_finish q = false) pre ->
  p_finish p = true ->
  forall w, _finished w = false ->
  exists w' log,
    doWhileNotFinished fuel (pre ++ p :: post) w = Some (Exited, w', log) /\
    doWhileNotFinished fuel (pre ++ [p]) w = Some (Exited, w', log) /\
    _finished w' = true.
Proof.
  intros Hf Hpre Hp. induction Hpre as [|q pre Hq _ IH]; intros w Hw.
  - destruct (RunFrame_returns fuel (p_env p) (p_deltaTime p) w Hf)
      as (w1 & l1 & R & _).
    exists (Finish w1), (l1 ++ []). cbn [app].
    repeat split; apply doWhileNotFinished_exit; assumption.
  - destruct (RunFrame_returns fuel (p_env q) (p_deltaTime q) w Hf)
      as (w1 & l1 & R & E).
    rewrite Hw in E.
    destruct (IH w1 E) as (w' & l2 & R1 & R2 & E').
    exists w', (l1 ++ l2). cbn [app].
    repeat split; try exact E';
      apply (doWhileNotFinished_continue fuel q _ w w1 w' l1 l2 Exited);
      assumption.
Qed.
End GameLoop.

(** X7.  Inside the game loop the flag is write-once.  No frame writes it; as
    long as no callee invokes [Finish()] the loop keeps running with the
    flag unset, and the frame during which [Finish()] is invoked is the last
    one: the loop exits with the flag set and later polls never happen. *)
Theorem finished_flag_ends_loop {build : Build}
    (fuel : nat) (env0 : Env) (pre : list Poll) (p : Poll) (post : list Poll)
    (w : World) :
  0 < kGameUpdateTimeMS ->
  enoughFuel fuel ->
  Forall (fun q => p_finish q = false) pre ->
  p_finish p = true ->
  (forall env deltaTime u u' log,
     RunFrame fuel env deltaTime u = Some (tt, u', log) ->
     _finished u' = _finished u) /\
  (exists w0 log0,
     RunGameLoop fuel env0 pre w = Some (Running, w0, log0) /\
     _finished w0 = false) /\
  (exists w' log,
     RunGameLoop fuel env0 (pre ++ p :: post) w = Some (Exited, w', log) /\
     RunGameLoop fuel env0 (pre ++ [p]) w = Some (Exited, w', log) /\
     _finished w' = true).
Proof.
  intros Tpos Hf Hpre Hp. split; [|split].
  - intros env deltaTime u u' log H.
    exact (preserves_RunFrame _finished untouched_finished (fun _ _ => eq_refl)
             fuel env deltaTime u tt u' log H).
  - unfold RunGameLoop. rewrite !bind_modify.
    apply (doWhileNotFinished_running Tpos fuel pre Hf Hpre). reflexivity.
  - unfold RunGameLoop. rewrite !bind_modify.
    apply (doWhileNotFinished_finish Tpos fuel pre p post Hf Hpre Hp). reflexivity.
Qed.

(** [Finish()] during the second of three polls: the third never runs. *)
Lemma finished_flag_ends_loop_witness :
  exists w' log,
    RunGameLoop (build := exampleBuild) 41 fixedEnv
      ([mkPoll fixedEnv (10 # 1000) false]
       ++ mkPoll fixedEnv (10 # 1000) true :: [mkPoll fixedEnv (10 # 1000) false])
      newContext
    = Some (Exited, w', log) /\
    RunGameLoop (build := exampleBuild) 41 fixedEnv
      ([mkPoll fixedEnv (10 # 1000) false] ++ [mkPoll fixedEnv (10 # 1000) true])
      newContext
    = Some (Exited, w', log) /\
    _finished w' = true.
Proof.
  apply (finished_flag_ends_loop (build := exampleBuild) 41 fixedEnv
           [mkPoll fixedEnv (10 # 1000) false]
           (mkPoll fixedEnv (10 # 1000) true)
           [mkPoll fixedEnv (10 # 1000) false] newContext).
  - reflexivity.
  - unfold enoughFuel. vm_compute. lia.
  - repeat constructor.
  - reflexivity.
Defined.

(** C6.  The flag is documented as one that "can not be set back to false"
    (lines 140-141), and no frame clears it.  [RunGameLoop] however assigns
    [false] when it is entered (line 1032): a [Finish()] that precedes the
    loop is undone, and the loop runs on with the flag unset. *)
Lemma finished_flag_cleared_on_entry :
  _finished (Finish newContext) = true /\
  exists w' log,
    RunGameLoop (build := exampleBuild) 41 fixedEnv
      [mkPoll fixedEnv (10 # 1000) false] (Finish newContext)
    = Some (Running, w', log) /\
    _finished w' = false.
Proof.
  split; [reflexivity|]. eexists _, _. split; [vm_compute; reflexivity | reflexivity].
Qed.

(** ** The tween reset on a mode switch *)

Section LogShape.
Context {build : Build}.

(** Closes [logs P m] for the computations of a frame once [P] holds of
    every event they emit. *)
Ltac logs_tac :=
  repeat first
    [ apply logs_bind; [|intros ?]
    | apply logs_when
    | apply logs_while
    | apply logs_gets
    | apply logs_modify
    | apply logs_ret
    | apply logs_emit; cbn; try split; congruence ].

Lemma logs_callTick (P : Event -> Prop) (env : Env) :
  (forall calls, P (LogicalTick calls)) -> logs P (callTick env).
Proof.
  intros HP w a w' log H. injection H as _ _ <-. repeat constructor. apply HP.
Qed.

Lemma logs_frame_notReset (fuel : nat) (env : Env) (deltaTime : Q) :
  logs notReset
    (UpdateTimeAccumulators fuel deltaTime ;;
     if ShouldRunVariableFrame env
     then RunVariableFrame fuel env deltaTime
     else RunFixedFrame fuel env deltaTime).
Proof.
  assert (forall env, logs notReset (callTick env)) as HT
    by (intros e; apply logs_callTick; intros; split; congruence).
  unfold notReset in *.
  apply logs_bind.
  { unfold UpdateTimeAccumulators, realTimeStep, incRealTimeTicks. logs_tac. }
  intros _. destruct (ShouldRunVariableFrame env).
  - unfold RunVariableFrame, variableTickStep, consumeTick, Draw.
    logs_tac; apply HT.
  - unfold RunFixedFrame.
    apply logs_bind; [logs_tac|]. intros _.
    apply logs_bind; [logs_tac|]. intros acc.
    destruct (Qltb acc kGameUpdateTimeMS);
      unfold fixedTickStep, consumeTick, Draw; logs_tac; apply HT.
Qed.

Lemma logs_fixed_frame_noTweener (fuel : nat) (env : Env) (deltaTime : Q) :
  logs (fun e => isTweenerCall e = false)
    (UpdateTimeAccumulators fuel deltaTime ;;
     RunFixedFrame fuel env deltaTime).
Proof.
  assert (forall env, logs (fun e => isTweenerCall e = false) (callTick env))
    as HT by (intros e; apply logs_callTick; reflexivity).
  apply logs_bind.
  { unfold UpdateTimeAccumulators, realTimeStep, incRealTimeTicks. logs_tac. }
  intros _. unfold RunFixedFrame.
  apply logs_bind; [logs_tac|]. intros _.
  apply logs_bind; [logs_tac|]. intros acc.
  destruct (Qltb acc kGameUpdateTimeMS);
    unfold fixedTickStep, consumeTick, Draw; logs_tac; apply HT.
Qed.
End LogShape.

(** C4.  A poll that finds the render mode changed, in either direction,
    records the new mode and starts with the tween discontinuity reset,
    [Restore] then [Reset], and issues neither call again; after a switch
    to fixed frames the rest of the poll makes no tweener call at all.  A
    poll that finds the mode unchanged issues neither call.  The reset
    (modelled from the spec) leaves every entity that has a recorded
    post-tick position with that position in its render field, every other
    entity and every authoritative position as they were, and no recorded
    position. *)
Theorem mode_switch_resets_tweener {build : Build}
    (fuel : nat) (env : Env) (deltaTime : Q) (w : World) :
  0 < kGameUpdateTimeMS ->
  enoughFuel fuel ->
  (exists w' log,
     RunFrame fuel env deltaTime w = Some (tt, w', log) /\
     _variableFrame w' = ShouldRunVariableFrame env /\
     (_variableFrame w <> ShouldRunVariableFrame env ->
      exists rest,
        log = TweenerRestore :: TweenerReset :: rest /\
        Forall notReset rest /\
        (ShouldRunVariableFrame env = false ->
         Forall (fun e => isTweenerCall e = false) rest)) /\
     (_variableFrame w = ShouldRunVariableFrame env -> Forall notReset log)) /\
  (forall st : EntityTweener.State,
     let st' := EntityTweener.Reset (EntityTweener.Restore st) in
     EntityTweener.PrePos (EntityTweener.tweener st') = ∅ /\
     EntityTweener.PostPos (EntityTweener.tweener st') = ∅ /\
     forall (id : N) (e : EntityTweener.Entity),
       EntityTweener.entities st !! id = Some e ->
       match EntityTweener.PostPos (EntityTweener.tweener st) !! id with
       | Some to =>
           EntityTweener.entities st' !! id
           = Some (EntityTweener.mkEntity (EntityTweener.position e) to)
       | None => EntityTweener.entities st' !! id = Some e
       end).
Proof.
  intros Tpos Hf. split.
  - pose proof (RunFrame_eval Tpos fuel env deltaTime w Hf) as R. cbv zeta in R.
    eexists _, _. split; [exact R|].
    destruct (variable_frame_selected_aux fuel env deltaTime w _ _ R)
      as (Ev & w1 & t1 & t2 & H1 & H2 & Elog).
    rewrite Elog. split; [exact Ev|].
    pose proof (logs_frame_notReset fuel env deltaTime _ _ _ _ H2) as Hnr.
    split.
    + intros Hne.
      assert (Bool.eqb (_variableFrame w) (ShouldRunVariableFrame env) = false)
        as E by (apply Bool.eqb_false_iff; exact Hne).
      rewrite E in H1. cbn in H1. injection H1 as _ <-.
      exists t2. split; [reflexivity | split; [exact Hnr|]].
      intros Efix. rewrite Efix in H2.
      exact (logs_fixed_frame_noTweener fuel env deltaTime _ _ _ _ H2).
    + intros Heq.
      assert (Bool.eqb (_variableFrame w) (ShouldRunVariableFrame env) = true)
        as E by (apply Bool.eqb_true_iff; exact Heq).
      rewrite E in H1. cbn in H1. injection H1 as _ <-. exact Hnr.
  - intros st st'. split; [reflexivity | split; [reflexivity|]].
    intros id e He. unfold st', EntityTweener.Reset, EntityTweener.Restore.
    cbn [EntityTweener.entities EntityTweener.tweener].
    rewrite map_lookup_imap, He. cbn.
    destruct (EntityTweener.PostPos (EntityTweener.tweener st) !! id); reflexivity.
Qed.

(** Capped to uncapped on the first poll of a fresh context. *)
Lemma mode_switch_resets_tweener_witness :
  exists w' log,
    RunFrame (build := exampleBuild) 41 variableEnv (10 # 1000) newContext
    = Some (tt, w', log) /\
    _variableFrame w' = true /\
    exists rest,
      log = TweenerRestore :: TweenerReset :: rest /\
      Forall notReset rest.
Proof.
  destruct (mode_switch_resets_tweener (build := exampleBuild) 41 variableEnv
              (10 # 1000) newContext)
    as [(w' & log & R & Ev & Hc & _) _].
  - reflexivity.
  - unfold enoughFuel. vm_compute. lia.
  - exists w', log. split; [exact R | split; [exact Ev|]].
    destruct Hc as (rest & E & Hn & _); [discriminate|].
    exists rest. split; assumption.
Defined.

(** ** Initialisation happens once *)

Lemma initialiseServices_initialised {build : Build} (ie : InitEnv) (w : World) :
  _initialised (snd (fst (initialiseServices ie w))) = _initialised w.
Proof.
  unfold initialiseServices.
  destruct (negb (ie_headless ie) && ie_rct2PathEmpty ie); [reflexivity|].
  destruct (negb (ie_noGraphics ie) && negb (ie_loadBaseGraphics ie));
    cbn [fst snd]; destruct (ENABLE_DISCORD && negb (ie_headless ie)); reflexivity.
Qed.

(** C10.  [Initialise] on a context that is already initialised throws
    "Context already initialised." without doing any initialisation work or
    changing the context.  Any call of [Initialise], whatever its outcome,
    leaves the context initialised, so every later call is rejected: the
    initialisation sequence runs at most once. *)
Theorem initialise_at_most_once {build : Build} (ie : InitEnv) (w : World) :
  (_initialised w = true ->
   Initialise ie w = (Threw "Context already initialised.", w, [])) /\
  (_initialised w = false -> exists r w' rest,
     Initialise ie w = (Returned r, w', CrashInit :: rest)) /\
  let w' := snd (fst (Initialise ie w)) in
  _initialised w' = true /\
  forall ie', Initialise ie' w' = (Threw "Context already initialised.", w', []).
Proof.
  assert (forall ie0 w0, _initialised w0 = true ->
            Initialise ie0 w0 = (Threw "Context already initialised.", w0, []))
    as Hguard by (intros ie0 w0 H; unfold Initialise; rewrite H; reflexivity).
  split; [apply Hguard | split].
  - intros Hw. unfold Initialise. rewrite Hw.
    destruct (ie_openLanguageThrows ie); [destruct (ie_openFallbackThrows ie)|].
    + eexists _, _, _. reflexivity.
    + destruct (initialiseServices ie (set_initialised true w))
        as [[r w2] log2] eqn:E.
      assert (exists b, r = Returned b) as [b ->].
      { unfold initialiseServices in E.
        destruct (negb (ie_headless ie) && ie_rct2PathEmpty ie);
          [injection E as <- _ _; eauto|].
        destruct (negb (ie_noGraphics ie) && negb (ie_loadBaseGraphics ie));
          injection E as <- _ _; eauto. }
      eexists _, _, _. reflexivity.
    + destruct (initialiseServices ie (set_initialised true w))
        as [[r w2] log2] eqn:E.
      assert (exists b, r = Returned b) as [b ->].
      { unfold initialiseServices in E.
        destruct (negb (ie_headless ie) && ie_rct2PathEmpty ie);
          [injection E as <- _ _; eauto|].
        destruct (negb (ie_noGraphics ie) && negb (ie_loadBaseGraphics ie));
          injection E as <- _ _; eauto. }
      eexists _, _, _. reflexivity.
  - intros w'.
    assert (_initialised w' = true) as Hw'.
    { unfold w', Initialise. destruct (_initialised w) eqn:Hw; [exact Hw|].
      pose proof (initialiseServices_initialised ie (set_initialised true w)) as Hs.
      destruct (ie_openLanguageThrows ie); [destruct (ie_openFallbackThrows ie)|];
        try reflexivity;
        destruct (initialiseServices ie (set_initialised true w)) as [[r w2] log2];
        exact Hs. }
    split; [exact Hw' | intros ie'; apply Hguard; exact Hw'].
Qed.

(** A second call on the context that a first call has initialised. *)
Lemma initialise_at_most_once_witness :
  _initialised
    (snd (fst (Initialise (build := exampleBuild) exampleInitEnv newContext)))
  = true /\
  Initialise (build := exampleBuild) exampleInitEnv
    (snd (fst (Initialise (build := exampleBuild) exampleInitEnv newContext)))
  = (Threw "Context already initialised.",
     snd (fst (Initialise (build := exampleBuild) exampleInitEnv newContext)),
     []).
Proof.
  split; [reflexivity|].
  exact (proj1 (initialise_at_most_once (build := exampleBuild) exampleInitEnv
                  (snd (fst (Initialise (build := exampleBuild) exampleInitEnv
                               newContext))))
           eq_refl).
Defined.

(** ** A failed query *)

(** C5.  Whatever the action, the network mode and the origin: when the
    action's [Query] fails on the current game state, the dispatcher does
    not call [Execute], returns a failure and leaves the game state as it
    was.  A [StaffSetOrdersAction] whose target is not in the staff registry
    fails [Query] with the classification "target not found". *)
Theorem failed_query_never_executes :
  (forall (A : Type) (H : GameActions.GameAction A)
          (mode : GameActions.NetworkMode) (origin : GameActions.Origin)
          (a : A) (s : GameActions.GameState),
     GameActions.isFailure (GameActions.Query a s) = true ->
     let '(r, s', calls) := GameActions.Enqueue mode origin a s in
     s' = s /\ ~ In GameActions.CallExecute calls /\
     (In GameActions.CallQuery calls ->
      r = GameActions.Query a s /\ GameActions.isFailure r = true)) /\
  (forall (a : GameActions.StaffSetOrdersAction) (s : GameActions.GameState),
     GameActions.staff s !! GameActions._spriteIndex a = None ->
     (exists detail,
        GameActions.Query a s
        = GameActions.Failure GameActions.TargetNotFound detail) /\
     (GameActions.paused s = false ->
      exists detail,
        GameActions.Enqueue GameActions.Standalone GameActions.Local a s
        = (GameActions.Failure GameActions.TargetNotFound detail, s,
           [GameActions.CallQuery]))).
Proof.
  split.
  - intros A H mode origin a s Hq. unfold GameActions.Enqueue.
    destruct (GameActions.paused s && negb (GameActions.allowedWhilePaused a)).
    { split; [reflexivity | split; [intros []|intros []]]. }
    destruct (GameActions.Query a s) as [|e d] eqn:E; [discriminate|].
    destruct mode, origin; cbn;
      (split; [reflexivity|]);
      (split; [intros [?|[]]; discriminate|]);
      try (intros _; split; reflexivity);
      intros [?|[]]; discriminate.
  - intros a s Hnone. split.
    + cbn. unfold GameActions.StaffSetOrders_Query. rewrite Hnone. eauto.
    + intros Hp. unfold GameActions.Enqueue. rewrite Hp. cbn.
      unfold GameActions.StaffSetOrders_Query. rewrite Hnone. eauto.
Qed.

(** An order for staff member 7 in a registry that only holds member 1. *)
Lemma failed_query_never_executes_witness :
  exists detail,
    GameActions.Enqueue GameActions.Standalone GameActions.Local
      GameActions.exampleAction GameActions.exampleState
    = (GameActions.Failure GameActions.TargetNotFound detail,
       GameActions.exampleState, [GameActions.CallQuery]).
Proof.
  apply (proj2 failed_query_never_executes
           GameActions.exampleAction GameActions.exampleState).
  - reflexivity.
  - reflexivity.
Defined.

(** * Binary32 arithmetic *)

Section Binary32Facts.
Import Binary32.

Lemma pow2_pos (e : Z) : 0 < pow2 e.
Proof. apply Qpower_0_lt. reflexivity. Qed.

Lemma pow2_add (a b : Z) : pow2 (a + b) == pow2 a * pow2 b.
Proof. apply Qpower_plus. discriminate. Qed.

Lemma pow2_sub (a b : Z) : pow2 (a - b) == pow2 a / pow2 b.
Proof. apply Qpower_minus. discriminate. Qed.

Lemma pow2_le (a b : Z) : (a <= b)%Z -> pow2 a <= pow2 b.
Proof. intros H. apply Qpower_le_compat_l; [exact H | discriminate]. Qed.

Lemma pow2_lt (a b : Z) : (a < b)%Z -> pow2 a < pow2 b.
Proof. intros H. apply Qpower_lt_compat_l; [exact H | reflexivity]. Qed.

Lemma pow2_lt_inv (a b : Z) : pow2 a < pow2 b -> (a < b)%Z.
Proof. intros H. apply (Qpower_lt_compat_l_inv 2); [exact H | reflexivity]. Qed.

Lemma pow2_succ (e : Z) : pow2 (e + 1) == 2 * pow2 e.
Proof. rewrite pow2_add. change (pow2 1) with 2. ring. Qed.

Lemma pow2_half (e : Z) : pow2 (e - 1) == pow2 e * (1 # 2).
Proof.
  assert (pow2 e == pow2 (e - 1 + 1)) as -> by (replace (e - 1 + 1)%Z with e by lia; reflexivity).
  rewrite pow2_succ. ring.
Qed.

Lemma pow2_Z (n : Z) : (0 <= n)%Z -> pow2 n == inject_Z (2 ^ n).
Proof. intros H. unfold pow2. rewrite (Zpower_Qpower 2 n H). reflexivity. Qed.

Lemma Qdiv_lt_cross (x y a b : Q) :
  0 < y -> 0 < b -> x * b < a * y -> x / y < a / b.
Proof.
  intros Hy Hb H.
  apply Qlt_shift_div_r; [exact Hy|].
  assert (a / b * y == a * y / b) as -> by (field; lra).
  apply Qlt_shift_div_l; [exact Hb | exact H].
Qed.

Lemma Qlog2_spec (q : Q) :
  0 < q -> pow2 (Qlog2 q) <= q /\ q < pow2 (Qlog2 q + 1).
Proof.
  intros Hq. destruct q as [n d].
  assert (0 < n)%Z as Hn by (unfold Qlt in Hq; simpl in Hq; lia).
  unfold Qlog2. cbn [Qnum Qden].
  set (a := Z.log2 n). set (b := Z.log2 (Z.pos d)).
  pose proof (Z.log2_spec n Hn) as [A1 A2]. fold a in A1, A2.
  pose proof (Z.log2_spec (Z.pos d) eq_refl) as [B1 B2]. fold b in B1, B2.
  pose proof (Z.log2_nonneg n) as Na. fold a in Na.
  pose proof (Z.log2_nonneg (Z.pos d)) as Nb. fold b in Nb.
  assert (n # d == inject_Z n / inject_Z (Z.pos d)) as E by apply Qmake_Qdiv.
  assert (0 < inject_Z (Z.pos d)) as Pd by reflexivity.
  assert (0 < inject_Z n) as Pn by (rewrite <- (Zlt_Qlt 0); exact Hn).
  assert (n # d < pow2 (a - b + 1)) as Up.
  { replace (a - b + 1)%Z with ((a + 1) - b)%Z by lia.
    rewrite pow2_sub, E, (pow2_Z (a + 1)), (pow2_Z b) by lia.
    apply Qdiv_lt_cross; [exact Pd | |].
    - rewrite <- (Zlt_Qlt 0). lia.
    - rewrite <- !inject_Z_mult, <- Zlt_Qlt.
      change (Z.succ a) with (a + 1)%Z in A2. change (Z.succ b) with (b + 1)%Z in B2.
      nia. }
  assert (pow2 (a - b - 1) < n # d) as Lo.
  { replace (a - b - 1)%Z with (a - (b + 1))%Z by lia.
    rewrite pow2_sub, E, (pow2_Z a), (pow2_Z (b + 1)) by lia.
    apply Qdiv_lt_cross; [ | exact Pd |].
    - rewrite <- (Zlt_Qlt 0). lia.
    - rewrite <- !inject_Z_mult, <- Zlt_Qlt.
      change (Z.succ a) with (a + 1)%Z in A2. change (Z.succ b) with (b + 1)%Z in B2.
      nia. }
  destruct (Qle_bool (pow2 (a - b)) (n # d)) eqn:C.
  - apply Qle_bool_iff in C. split; [exact C | exact Up].
  - split; [apply Qlt_le_weak; exact Lo|].
    replace (a - b - 1 + 1)%Z with (a - b)%Z by lia.
    apply Qnot_le_lt. intros H. apply Qle_bool_iff in H. congruence.
Qed.

Lemma nearest_even_error (y : Q) :
  Qabs (inject_Z (nearest_even y) - y) <= 1 # 2.
Proof.
  unfold nearest_even.
  pose proof (Qfloor_le y) as L. pose proof (Qlt_floor y) as U.
  rewrite inject_Z_plus in U. change (inject_Z 1) with 1 in U.
  apply Qabs_Qle_condition.
  destruct (Qcompare_spec (y - inject_Z (Qfloor y)) (1 # 2)) as [E|E|E].
  - destruct (Z.even (Qfloor y));
      [|rewrite inject_Z_plus; change (inject_Z 1) with 1]; split; lra.
  - split; lra.
  - rewrite inject_Z_plus. change (inject_Z 1) with 1. split; lra.
Qed.

Lemma nearest_even_ge (y : Q) (n : Z) :
  inject_Z n <= y -> (n <= nearest_even y)%Z.
Proof.
  intros H. assert (n <= Qfloor y)%Z as F.
  { rewrite <- (Qfloor_Z n). apply Qfloor_resp_le. exact H. }
  unfold nearest_even.
  destruct (Qcompare _ _); [destruct (Z.even _)| |]; lia.
Qed.

Lemma nearest_even_le (y : Q) (n : Z) :
  y <= inject_Z n -> (nearest_even y <= n)%Z.
Proof.
  intros H. assert (Qfloor y <= n)%Z as F.
  { rewrite <- (Qfloor_Z n). apply Qfloor_resp_le. exact H. }
  destruct (Z.eq_dec (Qfloor y) n) as [E|E].
  - pose proof (Qfloor_le y) as L. rewrite E in L.
    unfold nearest_even. rewrite E.
    destruct (Qcompare_spec (y - inject_Z n) (1 # 2)) as [C|C|C]; [lra | lia | lra].
  - unfold nearest_even.
    destruct (Qcompare _ _); [destruct (Z.even _)| |]; lia.
Qed.


Lemma round_unfold (q : Q) :
  ~ q == 0 ->
  round q = if Qle_bool (pow2 128) (Qabs (Qred (rounded q)))
            then Inf (Qltb (Qred (rounded q)) 0)
            else Fin (Qred (rounded q)).
Proof.
  intros H. unfold round.
  destruct (Qeq_bool q 0) eqn:E; [apply Qeq_bool_iff in E; contradiction|].
  reflexivity.
Qed.

Lemma rounded_error (q : Q) :
  Qabs (rounded q - q) <= pow2 (ulp_exponent q - 1).
Proof.
  unfold rounded. set (ex := ulp_exponent q).
  pose proof (pow2_pos ex) as P.
  set (m := nearest_even (q / pow2 ex)).
  assert (inject_Z m * pow2 ex - q == (inject_Z m - q / pow2 ex) * pow2 ex) as ->
    by (field; lra).
  rewrite Qabs_Qmult, (Qabs_pos (pow2 ex)) by lra.
  rewrite pow2_half, (Qmult_comm (pow2 ex)).
  apply Qmult_le_compat_r; [apply nearest_even_error | lra].
Qed.

Lemma Qlog2_lt (q : Q) (j : Z) :
  0 < q -> q < pow2 j -> (Qlog2 q < j)%Z.
Proof.
  intros H0 H. apply pow2_lt_inv.
  destruct (Qlog2_spec q H0) as [L _]. lra.
Qed.

Lemma Qlog2_ge (q : Q) (j : Z) :
  0 < q -> pow2 j <= q -> (j <= Qlog2 q)%Z.
Proof.
  intros H0 H.
  destruct (Qlog2_spec q H0) as [_ U].
  assert (pow2 j < pow2 (Qlog2 q + 1)) as L by lra.
  apply pow2_lt_inv in L. lia.
Qed.

Lemma Qabs_pos_lt (q : Q) : ~ q == 0 -> 0 < Qabs q.
Proof.
  intros H. destruct (Qlt_le_dec 0 (Qabs q)) as [L|L]; [exact L|].
  pose proof (Qabs_nonneg q) as N.
  assert (Qabs q == 0) as E by lra.
  exfalso. apply H. 
  destruct (Qabs_Qle_condition q 0) as [F _].
  destruct F as [F1 F2]; [lra|]. lra.
Qed.

Lemma ulp_exponent_le (q : Q) (j : Z) :
  ~ q == 0 -> Qabs q < pow2 j -> (-125 <= j)%Z ->
  (ulp_exponent q <= j - 24)%Z.
Proof.
  intros H0 H Hj. unfold ulp_exponent.
  pose proof (Qlog2_lt (Qabs q) j (Qabs_pos_lt q H0) H). lia.
Qed.

Lemma scaled_bounds (q : Q) (ex i : Z) :
  (ex <= i)%Z ->
  (pow2 i <= q -> inject_Z (2 ^ (i - ex)) <= q / pow2 ex) /\
  (q <= pow2 i -> q / pow2 ex <= inject_Z (2 ^ (i - ex))) /\
  (- pow2 i <= q -> inject_Z (- 2 ^ (i - ex)) <= q / pow2 ex).
Proof.
  intros H. pose proof (pow2_pos ex) as P.
  assert (inject_Z (2 ^ (i - ex)) == pow2 i / pow2 ex) as E.
  { rewrite <- pow2_Z by lia. apply pow2_sub. }
  rewrite inject_Z_opp, E. repeat split; intros L.
  - apply Qle_shift_div_l; [exact P|].
    assert (pow2 i / pow2 ex * pow2 ex == pow2 i) as -> by (field; lra). exact L.
  - apply Qle_shift_div_r; [exact P|].
    assert (pow2 i / pow2 ex * pow2 ex == pow2 i) as -> by (field; lra). exact L.
  - apply Qle_shift_div_l; [exact P|].
    assert (- (pow2 i / pow2 ex) * pow2 ex == - pow2 i) as -> by (field; lra). exact L.
Qed.

Lemma rounded_le (q : Q) (i : Z) :
  (ulp_exponent q <= i)%Z -> q <= pow2 i -> rounded q <= pow2 i.
Proof.
  intros H L. unfold rounded. set (ex := ulp_exponent q) in *.
  pose proof (pow2_pos ex) as P.
  destruct (scaled_bounds q ex i H) as (_ & B & _).
  pose proof (nearest_even_le _ _ (B L)) as M.
  rewrite Zle_Qle in M.
  assert (pow2 i == inject_Z (2 ^ (i - ex)) * pow2 ex) as ->.
  { rewrite <- pow2_Z, <- pow2_add by lia. replace (i - ex + ex)%Z with i by lia. reflexivity. }
  apply Qmult_le_compat_r; [exact M | lra].
Qed.

Lemma rounded_ge (q : Q) (i : Z) :
  (ulp_exponent q <= i)%Z -> pow2 i <= q -> pow2 i <= rounded q.
Proof.
  intros H L. unfold rounded. set (ex := ulp_exponent q) in *.
  pose proof (pow2_pos ex) as P.
  destruct (scaled_bounds q ex i H) as (B & _ & _).
  pose proof (nearest_even_ge _ _ (B L)) as M.
  rewrite Zle_Qle in M.
  assert (pow2 i == inject_Z (2 ^ (i - ex)) * pow2 ex) as ->.
  { rewrite <- pow2_Z, <- pow2_add by lia. replace (i - ex + ex)%Z with i by lia. reflexivity. }
  apply Qmult_le_compat_r; [exact M | lra].
Qed.

Lemma rounded_ge_opp (q : Q) (i : Z) :
  (ulp_exponent q <= i)%Z -> - pow2 i <= q -> - pow2 i <= rounded q.
Proof.
  intros H L. unfold rounded. set (ex := ulp_exponent q) in *.
  pose proof (pow2_pos ex) as P.
  destruct (scaled_bounds q ex i H) as (_ & _ & B).
  pose proof (nearest_even_ge _ _ (B L)) as M.
  rewrite Zle_Qle, inject_Z_opp in M.
  assert (pow2 i == inject_Z (2 ^ (i - ex)) * pow2 ex) as ->.
  { rewrite <- pow2_Z, <- pow2_add by lia. replace (i - ex + ex)%Z with i by lia. reflexivity. }
  assert (- (inject_Z (2 ^ (i - ex)) * pow2 ex) == - inject_Z (2 ^ (i - ex)) * pow2 ex) as ->
    by ring.
  apply Qmult_le_compat_r; [exact M | lra].
Qed.

Lemma rounded_nonneg (q : Q) : 0 <= q -> 0 <= rounded q.
Proof.
  intros H. unfold rounded. pose proof (pow2_pos (ulp_exponent q)) as P.
  apply Qmult_le_0_compat; [|lra].
  change 0 with (inject_Z 0). rewrite <- Zle_Qle.
  apply nearest_even_ge. apply Qle_shift_div_l; [exact P|]. 
  change (inject_Z 0) with 0. lra.
Qed.

(** A rational below [2^j] in magnitude, [j] in the range of the normal
    exponents, rounds to a finite value at most [2^(j-25)] away. *)
Lemma round_finite (q : Q) (j : Z) :
  (-125 <= j <= 127)%Z -> Qabs q < pow2 j ->
  exists r, round q = Fin r /\ Qabs (r - q) <= pow2 (j - 25) /\
            Qabs r <= pow2 j /\ (0 <= q -> 0 <= r).
Proof.
  intros Hj H.
  destruct (Qeq_dec q 0) as [Z|NZ].
  - exists 0. unfold round.
    destruct (Qeq_bool q 0) eqn:E;
      [|exfalso; apply Qeq_bool_neq in E; contradiction].
    pose proof (pow2_pos (j - 25)). pose proof (pow2_pos j).
    split; [reflexivity|]. split; [rewrite Z; exact (Qlt_le_weak _ _ H0)|].
    split; [exact (Qlt_le_weak _ _ H1) | intros _; lra].
  - pose proof (ulp_exponent_le q j NZ H (proj1 Hj)) as Hex.
    pose proof (rounded_error q) as Err.
    assert (pow2 (ulp_exponent q - 1) <= pow2 (j - 25)) as Hp by (apply pow2_le; lia).
    apply Qabs_Qlt_condition in H. destruct H as [H1 H2].
    assert (Qabs (rounded q) <= pow2 j) as Hr.
    { apply Qabs_Qle_condition. split.
      - apply rounded_ge_opp; [lia | lra].
      - apply rounded_le; [lia | lra]. }
    exists (Qred (rounded q)). rewrite (round_unfold q NZ).
    assert (pow2 j < pow2 128) as Hlt by (apply pow2_lt; lia).
    destruct (Qle_bool (pow2 128) (Qabs (Qred (rounded q)))) eqn:O.
    { apply Qle_bool_iff in O. rewrite Qred_correct in O. lra. }
    split; [reflexivity|]. rewrite !Qred_correct.
    split; [lra|]. split; [exact Hr | apply rounded_nonneg].
Qed.

Lemma round_finite_nonneg (q : Q) (j : Z) :
  (-125 <= j <= 127)%Z -> 0 <= q -> q < pow2 j ->
  exists r, round q = Fin r /\ Qabs (r - q) <= pow2 (j - 25) /\
            r <= pow2 j /\ 0 <= r.
Proof.
  intros Hj H0 H.
  destruct (round_finite q j Hj) as (r & R & E & B & N).
  { rewrite Qabs_pos by exact H0. exact H. }
  exists r. split; [exact R|]. split; [exact E|].
  apply Qabs_Qle_condition in B. split; [lra | apply N; exact H0].
Qed.

Lemma round_nonneg (q : Q) :
  0 <= q -> round q = Inf false \/ exists r, round q = Fin r /\ 0 <= r.
Proof.
  intros H. destruct (Qeq_dec q 0) as [Z|NZ].
  - right. exists 0. unfold round.
    destruct (Qeq_bool q 0) eqn:E;
      [|exfalso; apply Qeq_bool_neq in E; contradiction].
    split; [reflexivity | lra].
  - rewrite (round_unfold q NZ). pose proof (rounded_nonneg q H) as N.
    destruct (Qle_bool _ _).
    + left. f_equal. unfold Qltb.
      destruct (Qle_bool 0 (Qred (rounded q))) eqn:E; [reflexivity|].
      exfalso. assert (Qle_bool 0 (Qred (rounded q)) = true); [|congruence].
      apply Qle_bool_iff. rewrite Qred_correct. exact N.
    + right. eexists. split; [reflexivity|]. rewrite Qred_correct. exact N.
Qed.

(** Rounding does not go below a power of two that the argument
    reaches. *)
Lemma round_ge_pow2 (q : Q) (j : Z) :
  (-149 <= j)%Z -> pow2 j <= q ->
  round q = Inf false \/ exists r, round q = Fin r /\ pow2 j <= r.
Proof.
  intros Hj H. pose proof (pow2_pos j) as P.
  assert (0 <= q) as N by lra.
  destruct (round_nonneg q N) as [I|(r & R & _)]; [left; exact I|].
  right. exists r. split; [exact R|].
  assert (~ q == 0) as NZ by lra.
  rewrite (round_unfold q NZ) in R.
  destruct (Qle_bool _ _); [discriminate|]. injection R as <-.
  rewrite Qred_correct.
  assert (pow2 j <= Qabs q) as HA by (rewrite Qabs_pos; lra).
  pose proof (Qlog2_ge (Qabs q) j (Qabs_pos_lt q NZ) HA) as Le.
  destruct (Qlog2_spec (Qabs q) (Qabs_pos_lt q NZ)) as [Lo _].
  assert (Qabs q == q) as EA by (apply Qabs_pos; lra).
  assert (pow2 (Qlog2 (Qabs q)) <= q) as Lo' by lra.
  destruct (Z_le_gt_dec (ulp_exponent q) j) as [C|C].
  - apply rounded_ge; assumption.
  - apply Qle_trans with (pow2 (Qlog2 (Qabs q))); [apply pow2_le; exact Le|].
    apply rounded_ge; [unfold ulp_exponent in *; lia | exact Lo'].
Qed.

End Binary32Facts.

(** The binary32 operations agree with the Standard Library's
    specification of IEEE 754 on every pair of [samples]. *)
Fact binary32_agrees_with_SpecFloat :
  forallb Binary32.agree Binary32.samples = true.
Proof. vm_compute. reflexivity. Qed.

(** ** The scheduler in binary32 *)

Section MachineMonad.
Import Binary32 Machine.
Local Open Scope machine_scope.

Lemma machine_bind_Some {A B : Type} (m : M A) (k : A -> M B)
    (w w1 w2 : World) (a : A) (b : B) (l1 l2 : list Event) :
  m w = Some (a, w1, l1) -> k a w1 = Some (b, w2, l2) ->
  bind m k w = Some (b, w2, l1 ++ l2).
Proof. intros H1 H2. unfold bind. rewrite H1, H2. reflexivity. Qed.

Lemma machine_countTicks_app (l1 l2 : list Event) :
  countTicks (l1 ++ l2) = (countTicks l1 + countTicks l2)%nat.
Proof.
  induction l1 as [|e l1 IH]; [reflexivity|].
  destruct e; simpl; rewrite ?IH; reflexivity.
Qed.

Lemma machine_while_S (fuel : nat) (cond : World -> bool) (body : M unit)
    (w : World) :
  while (S fuel) cond body w
  = if cond w then bind body (fun _ => while fuel cond body) w
    else Some (tt, w, []).
Proof.
  simpl. unfold bind at 1, gets. destruct (cond w); [|reflexivity].
  destruct (bind body _ w) as [[[[] w2] l2]|]; reflexivity.
Qed.

Lemma machine_bind_gets {A B : Type} (f : World -> A) (k : A -> M B)
    (w : World) :
  bind (gets f) k w = k (f w) w.
Proof.
  unfold bind, gets. destruct (k (f w) w) as [[[b w2] l2]|]; reflexivity.
Qed.

Lemma machine_bind_modify {B : Type} (f : World -> World) (k : unit -> M B)
    (w : World) :
  bind (modify f) k w = k tt (f w).
Proof.
  unfold bind, modify. destruct (k tt (f w)) as [[[b w2] l2]|]; reflexivity.
Qed.

Lemma machine_bind_emit {B : Type} (e : Event) (k : unit -> M B) (w : World) :
  bind (emit e) k w
  = match k tt w with
    | Some (b, w2, l) => Some (b, w2, e :: l)
    | None => None
    end.
Proof. reflexivity. Qed.

End MachineMonad.

Section MachineScheduler.
Import Binary32 Machine.
Local Open Scope machine_scope.
Context {build : Machine.Build}.
Variables (t h : Q) (k : Z).
Hypothesis HT : kGameUpdateTimeMS = Fin t.
Hypothesis HH : kGameUpdateMaxThreshold = Fin h.
Hypothesis Hk : (-126 <= k <= 126)%Z.
Hypothesis Hhk : h <= pow2 k.
Hypothesis Hu : pow2 (k - 24) < t.

Local Abbreviation u := (pow2 (k - 24)).

Lemma unit_pos : 0 < u.
Proof. apply pow2_pos. Qed.

Lemma threshold_lt : h < pow2 (k + 1).
Proof. pose proof (pow2_lt k (k + 1) ltac:(lia)). lra. Qed.

(** Rounding a non-negative rational: below [2^(k+1)] the result is finite
    and within [u]; from [2^(k+1)] on it stays there. *)
Lemma round_cases (x : Q) :
  0 <= x ->
  (x < pow2 (k + 1) /\
   exists r, round x = Fin r /\ 0 <= r /\ r <= x + u /\ x - u <= r) \/
  (pow2 (k + 1) <= x /\
   (round x = Inf false \/ exists r, round x = Fin r /\ pow2 (k + 1) <= r)).
Proof.
  intros H0. destruct (Qlt_le_dec x (pow2 (k + 1))) as [L|L].
  - left. split; [exact L|].
    destruct (round_finite x (k + 1)) as (r & R & E & _ & N); [lia | |].
    { rewrite Qabs_pos by exact H0. exact L. }
    replace (k + 1 - 25)%Z with (k - 24)%Z in E by lia.
    apply Qabs_Qle_condition in E.
    exists r. split; [exact R|]. split; [apply N; exact H0|]. split; lra.
  - right. split; [exact L|]. apply round_ge_pow2; [lia | exact L].
Qed.

Lemma sub_tick (a : Q) :
  t <= a -> a <= h ->
  exists a', fsub (Fin a) kGameUpdateTimeMS = Fin a' /\
             0 <= a' /\ a' <= a - t + u /\ a - t - u <= a'.
Proof.
  intros H1 H2. rewrite HT. unfold fsub, fopp, fadd.
  pose proof threshold_lt. pose proof unit_pos.
  destruct (round_cases (a + - t)) as [(_ & r & R & N & U & L)|(C & _)]; [lra | | lra].
  exists r. split; [exact R|]. split; [exact N|]. split; lra.
Qed.

Lemma min_threshold (y : float) (a : Q) :
  std_min y kGameUpdateMaxThreshold = Fin a -> a <= h.
Proof.
  rewrite HH. unfold std_min, flt.
  destruct y as [|[]|q]; simpl; try discriminate.
  - intros [= <-]. lra.
  - unfold Qltb. destruct (Qle_bool q h) eqn:E; simpl; intros [= <-].
    + apply Qle_bool_iff in E. exact E.
    + lra.
Qed.

Lemma min_threshold_fle (y : float) :
  fle kGameUpdateTimeMS (std_min y kGameUpdateMaxThreshold) = true ->
  exists a, std_min y kGameUpdateMaxThreshold = Fin a /\ t <= a /\ a <= h.
Proof.
  intros H.
  destruct (std_min y kGameUpdateMaxThreshold) as [|s|a] eqn:E.
  - rewrite HT in H. discriminate.
  - rewrite HT in H. destruct s; [discriminate|].
    exfalso. revert E. rewrite HH. unfold std_min, flt.
    destruct y as [|[]|q]; simpl; try discriminate.
    destruct (Qltb h q); discriminate.
  - exists a. split; [reflexivity|]. split; [|exact (min_threshold y a E)].
    rewrite HT in H. apply Qle_bool_iff in H. exact H.
Qed.

Section DrainLoop.
Variable get : World -> float.
Variable body : M unit.
Variable I : World -> Prop.
Variable L : list Event -> Prop.
Variable cnt : list Event -> nat.
Hypothesis L_nil : L [].
Hypothesis L_app : forall l1 l2, L l1 -> L l2 -> L (l1 ++ l2).
Hypothesis cnt_nil : cnt [] = 0%nat.
Hypothesis cnt_app : forall l1 l2, cnt (l1 ++ l2) = (cnt l1 + cnt l2)%nat.
Hypothesis body_spec : forall w, I w ->
  exists w' log, body w = Some (tt, w', log) /\
    get w' = fsub (get w) kGameUpdateTimeMS /\ I w' /\ L log /\ cnt log = 1%nat.

(** A loop [while (acc >= kGameUpdateTimeMS) { ...; acc -= kGameUpdateTimeMS; }]
    entered with [acc] at most the threshold returns; [acc] ends below one
    tick duration, and every iteration has taken one tick duration from
    it, give or take [u]. *)
Lemma while_drain (fuel : nat) : forall (w : World) (a : Q),
  I w -> get w = Fin a -> a <= h ->
  a < t + inject_Z (Z.of_nat fuel) * (t - u) ->
  exists w' log a',
    while (S fuel) (fun w => fle kGameUpdateTimeMS (get w)) body w
    = Some (tt, w', log) /\
    I w' /\ L log /\ get w' = Fin a' /\ a' < t /\ (0 <= a -> 0 <= a') /\
    a' <= a /\
    a' <= a - inject_Z (Z.of_nat (cnt log)) * t + inject_Z (Z.of_nat (cnt log)) * u /\
    a - inject_Z (Z.of_nat (cnt log)) * t - inject_Z (Z.of_nat (cnt log)) * u <= a'.
Proof.
  pose proof unit_pos as Up.
  induction fuel as [|fuel IH]; intros w a Hi Hg Hh Hf.
  - change (inject_Z (Z.of_nat 0)) with 0 in Hf.
    assert (fle kGameUpdateTimeMS (get w) = Qle_bool t a) as EC
      by (rewrite Hg, HT; reflexivity).
    exists w, [], a. rewrite machine_while_S. cbv beta. rewrite EC.
    destruct (Qle_bool t a) eqn:E; [apply Qle_bool_iff in E; lra|].
    rewrite cnt_nil. change (inject_Z (Z.of_nat 0)) with 0.
    repeat split; try assumption; try lra. 
  - assert (fle kGameUpdateTimeMS (get w) = Qle_bool t a) as EC
      by (rewrite Hg, HT; reflexivity).
    rewrite machine_while_S. cbv beta. rewrite EC.
    destruct (Qle_bool t a) eqn:E.
    + apply Qle_bool_iff in E.
      destruct (body_spec w Hi) as (w1 & log1 & B & G1 & I1 & L1 & C1).
      destruct (sub_tick a E Hh) as (a1 & S1 & N1 & U1 & Lo1).
      rewrite Hg, S1 in G1.
      assert (inject_Z (Z.of_nat (S fuel)) == inject_Z (Z.of_nat fuel) + 1) as EF.
      { rewrite Nat2Z.inj_succ. unfold Z.succ. rewrite inject_Z_plus. reflexivity. }
      destruct (IH w1 a1 I1 G1) as (w' & log & a' & W & I' & L' & G' & T' & N' & Le & U' & Lo');
        [lra | rewrite EF in Hf; nra |].
      exists w', (log1 ++ log), a'.
      split; [eapply machine_bind_Some; [exact B | exact W]|].
      rewrite cnt_app, C1.
      assert (inject_Z (Z.of_nat (1 + cnt log)) == 1 + inject_Z (Z.of_nat (cnt log))) as EN.
      { rewrite Nat2Z.inj_add, inject_Z_plus. reflexivity. }
      rewrite EN.
      repeat split; try assumption; try lra.
      * apply L_app; assumption.
    + exists w, [], a. rewrite cnt_nil. change (inject_Z (Z.of_nat 0)) with 0.
      assert (a < t) as Lt.
      { apply Qnot_le_lt. intros C. apply Qle_bool_iff in C. congruence. }
      repeat split; try assumption; try lra.
Qed.

(** The same loop entered right after the clamp of the accumulator,
    whatever the accumulator holds. *)
Lemma while_after_min (fuel : nat) (w : World) (y : float) :
  I w -> get w = std_min y kGameUpdateMaxThreshold ->
  h < t + inject_Z (Z.of_nat fuel) * (t - u) ->
  exists w' log,
    while (S fuel) (fun w => fle kGameUpdateTimeMS (get w)) body w
    = Some (tt, w', log) /\
    I w' /\ L log /\
    forall a, get w = Fin a ->
      exists a', get w' = Fin a' /\ a' < t /\ (0 <= a -> 0 <= a') /\ a' <= a /\
        a' <= a - inject_Z (Z.of_nat (cnt log)) * t
              + inject_Z (Z.of_nat (cnt log)) * u /\
        a - inject_Z (Z.of_nat (cnt log)) * t
          - inject_Z (Z.of_nat (cnt log)) * u <= a'.
Proof.
  intros Hi Hg Hf.
  destruct (fle kGameUpdateTimeMS (get w)) eqn:C.
  - rewrite Hg in C. destruct (min_threshold_fle y C) as (a & E & A1 & A2).
    rewrite <- Hg in E.
    destruct (while_drain fuel w a Hi E A2) as (w' & log & a' & W & R); [lra|].
    exists w', log. split; [exact W|].
    destruct R as (I' & L' & G' & R).
    split; [exact I'|]. split; [exact L'|].
    intros a0 E0. rewrite E in E0. injection E0 as <-.
    exists a'. split; [exact G' | exact R].
  - exists w, []. rewrite machine_while_S. cbv beta. rewrite C.
    split; [reflexivity|]. split; [exact Hi|]. split; [exact L_nil|].
    intros a E. exists a. rewrite cnt_nil. change (inject_Z (Z.of_nat 0)) with 0.
    rewrite E, HT in C. simpl in C.
    assert (a < t) as Lt.
    { apply Qnot_le_lt. intros C'. apply Qle_bool_iff in C'. congruence. }
    repeat split; try assumption; try lra.
Qed.

End DrainLoop.

Lemma machine_Tick_keeps (env : Env) (w : World) :
  _ticksAccumulator (fst (Tick env w)) = _ticksAccumulator w /\
  _realtimeAccumulator (fst (Tick env w)) = _realtimeAccumulator w /\
  _timeScale (fst (Tick env w)) = _timeScale w.
Proof. unfold Tick. destruct (GameIsNotPaused env); repeat split. Qed.

Lemma fixedTickStep_spec (env : Env) (s0 : float) (w : World) :
  _timeScale w = s0 ->
  exists w' log, fixedTickStep env w = Some (tt, w', log) /\
    _ticksAccumulator w' = fsub (_ticksAccumulator w) kGameUpdateTimeMS /\
    _timeScale w' = s0 /\ True /\ countTicks log = 1%nat.
Proof.
  intros Hs. destruct (machine_Tick_keeps env w) as (A & _ & S).
  exists (set_ticksAccumulator
            (fsub (_ticksAccumulator (fst (Tick env w))) kGameUpdateTimeMS)
            (fst (Tick env w))),
         [LogicalTick (snd (Tick env w))].
  split; [reflexivity|].
  unfold set_ticksAccumulator. cbn [_ticksAccumulator _timeScale countTicks].
  rewrite A, S. repeat split. exact Hs.
Qed.

Lemma variableTickStep_spec (env : Env) (s0 : float) (w : World) :
  _timeScale w = s0 ->
  exists w' log, variableTickStep env w = Some (tt, w', log) /\
    _ticksAccumulator w' = fsub (_ticksAccumulator w) kGameUpdateTimeMS /\
    _timeScale w' = s0 /\ True /\ countTicks log = 1%nat.
Proof.
  intros Hs. destruct (machine_Tick_keeps env w) as (A & _ & S).
  exists (set_ticksAccumulator
            (fsub (_ticksAccumulator (fst (Tick env w))) kGameUpdateTimeMS)
            (fst (Tick env w))),
         ((if ShouldDraw env then [TweenerPreTick] else [])
          ++ [LogicalTick (snd (Tick env w))]
          ++ (if ShouldDraw env then [TweenerPostTick] else [])).
  split; [unfold variableTickStep; destruct (ShouldDraw env); reflexivity|].
  unfold set_ticksAccumulator. cbn [_ticksAccumulator _timeScale].
  rewrite A, S. repeat split; [exact Hs|].
  destruct (ShouldDraw env); reflexivity.
Qed.

Lemma realTimeStep_spec (s0 A : float) (w : World) :
  _timeScale w = s0 /\ _ticksAccumulator w = A ->
  exists w' log, realTimeStep w = Some (tt, w', log) /\
    _realtimeAccumulator w' = fsub (_realtimeAccumulator w) kGameUpdateTimeMS /\
    (_timeScale w' = s0 /\ _ticksAccumulator w' = A) /\
    countTicks log = 0%nat /\ List.length log = 1%nat.
Proof.
  intros [Hs Ha]. eexists _, _. split; [reflexivity|]. simpl.
  repeat split; assumption.
Qed.

Section Fuel.
Variable fuel : nat.
Hypothesis Hfuel : h < t + inject_Z (Z.of_nat fuel) * (t - u).

Lemma UpdateTimeAccumulators_spec (deltaTime : float) (w : World) :
  exists w' log,
    UpdateTimeAccumulators (S fuel) deltaTime w = Some (tt, w', log) /\
    countTicks log = 0%nat /\
    _ticksAccumulator w'
    = std_min (fadd (_ticksAccumulator w) (fmul deltaTime (_timeScale w)))
        kGameUpdateMaxThreshold /\
    _timeScale w' = _timeScale w.
Proof.
  unfold UpdateTimeAccumulators.
  rewrite machine_bind_gets, machine_bind_modify, machine_bind_modify.
  match goal with |- context [while _ _ _ ?w2] => set (w1 := w2) end.
  destruct (while_after_min _realtimeAccumulator realTimeStep
              (fun w0 => _timeScale w0 = _timeScale w /\
                         _ticksAccumulator w0 = _ticksAccumulator w1)
              (fun log => countTicks log = 0%nat) (@List.length Event))
    with (fuel := fuel) (w := w1)
         (y := fadd (_realtimeAccumulator w) deltaTime)
    as (w' & log & W & (I1 & I2) & L' & _).
  - reflexivity.
  - intros l1 l2 E1 E2. rewrite machine_countTicks_app, E1, E2. reflexivity.
  - reflexivity.
  - intros l1 l2. apply List.length_app.
  - intros w0 Hw0. apply realTimeStep_spec. exact Hw0.
  - split; reflexivity.
  - reflexivity.
  - exact Hfuel.
  - exists w', log. split; [exact W|]. split; [exact L'|].
    split; [rewrite I2; reflexivity | exact I1].
Qed.


Lemma fixed_tail (env : Env) (w : World) :
  exists log,
    (emit ContextHandleInput ;; emit WindowUpdateAll ;;
     when (ShouldDraw env) Draw) w = Some (tt, w, log) /\
    countTicks log = 0%nat.
Proof. destruct (ShouldDraw env); eexists; split; reflexivity. Qed.

Lemma variable_tail (env : Env) (w : World) :
  exists log,
    (emit ContextHandleInput ;; emit WindowUpdateAll ;;
     when (ShouldDraw env)
       (acc <- gets _ticksAccumulator ;;
        let alpha := std_min (fdiv acc kGameUpdateTimeMS) (Fin 1) in
        emit (TweenerTween alpha) ;;
        Draw)) w = Some (tt, w, log) /\
    countTicks log = 0%nat.
Proof. destruct (ShouldDraw env); eexists; split; reflexivity. Qed.

Local Abbreviation drained := (Machine.drained t u).

Lemma RunFixedFrame_spec (env : Env) (deltaTime y : float) (w : World) :
  _ticksAccumulator w = std_min y kGameUpdateMaxThreshold ->
  exists w' log,
    RunFixedFrame (S fuel) env deltaTime w = Some (tt, w', log) /\
    _timeScale w' = _timeScale w /\ drained w w' log.
Proof.
  intros Hy. unfold RunFixedFrame.
  rewrite machine_bind_emit, machine_bind_gets.
  destruct (flt (_ticksAccumulator w) kGameUpdateTimeMS) eqn:C.
  - eexists w, _. split; [reflexivity|]. split; [reflexivity|].
    intros a Ha. exists a. rewrite Ha, HT in C. simpl in C.
    assert (a < t) as Lt.
    { apply Qnot_le_lt. intros C'. apply Qle_bool_iff in C'.
      unfold Qltb in C. rewrite C' in C. discriminate. }
    cbn [countTicks]. change (inject_Z (Z.of_nat 0)) with 0.
    repeat split; try assumption; try lra.
  - destruct (while_after_min _ticksAccumulator (fixedTickStep env)
                (fun w0 => _timeScale w0 = _timeScale w) (fun _ => True)
                countTicks)
      with (fuel := fuel) (w := w) (y := y)
      as (w1 & log1 & W & I1 & _ & B); try reflexivity; try exact Hy;
      try exact Hfuel; try exact Logic.I.
    { apply machine_countTicks_app. }
    { intros w0 Hw0. apply fixedTickStep_spec. exact Hw0. }
    destruct (fixed_tail env w1) as (logt & Tl & Ct).
    rewrite (machine_bind_Some _ _ _ _ _ _ _ _ _ W Tl).
    exists w1, (ProcessMessages :: log1 ++ logt).
    split; [reflexivity|]. split; [exact I1|].
    intros a Ha. destruct (B a Ha) as (a' & R).
    exists a'. cbn [countTicks]. rewrite machine_countTicks_app, Ct, Nat.add_0_r.
    exact R.
Qed.

Lemma RunVariableFrame_spec (env : Env) (deltaTime y : float) (w : World) :
  _ticksAccumulator w = std_min y kGameUpdateMaxThreshold ->
  exists w' log,
    RunVariableFrame (S fuel) env deltaTime w = Some (tt, w', log) /\
    _timeScale w' = _timeScale w /\ drained w w' log.
Proof.
  intros Hy. unfold RunVariableFrame.
  rewrite machine_bind_emit.
  destruct (while_after_min _ticksAccumulator (variableTickStep env)
              (fun w0 => _timeScale w0 = _timeScale w) (fun _ => True)
              countTicks)
    with (fuel := fuel) (w := w) (y := y)
    as (w1 & log1 & W & I1 & _ & B); try reflexivity; try exact Hy;
    try exact Hfuel; try exact Logic.I.
  { apply machine_countTicks_app. }
  { intros w0 Hw0. apply variableTickStep_spec. exact Hw0. }
  destruct (variable_tail env w1) as (logt & Tl & Ct).
  rewrite (machine_bind_Some _ _ _ _ _ _ _ _ _ W Tl).
  exists w1, (ProcessMessages :: log1 ++ logt).
  split; [reflexivity|]. split; [exact I1|].
  intros a Ha. destruct (B a Ha) as (a' & R).
  exists a'. cbn [countTicks]. rewrite machine_countTicks_app, Ct, Nat.add_0_r.
  exact R.
Qed.


Lemma min_clamps (r : Q) :
  h < r ->
  std_min (Fin r) kGameUpdateMaxThreshold = Fin h /\
  flt kGameUpdateMaxThreshold (Fin r) = true.
Proof.
  intros H. rewrite HH. unfold std_min, flt, Qltb.
  destruct (Qle_bool r h) eqn:E; [apply Qle_bool_iff in E; lra|].
  split; reflexivity.
Qed.

Lemma min_clamps_inf :
  std_min (Inf false) kGameUpdateMaxThreshold = Fin h /\
  flt kGameUpdateMaxThreshold (Inf false) = true.
Proof. rewrite HH. split; reflexivity. Qed.

Lemma min_keeps (r : Q) :
  r <= h ->
  std_min (Fin r) kGameUpdateMaxThreshold = Fin r /\
  flt kGameUpdateMaxThreshold (Fin r) = false.
Proof.
  intros H. rewrite HH. unfold std_min, flt, Qltb.
  apply Qle_bool_iff in H. rewrite H. split; reflexivity.
Qed.

(** The clamped addition of line 1086 on finite non-negative operands: the
    new accumulator is at most the exact sum plus [2 u], and at least the
    exact sum minus [2 u] when [std::min] returns the sum. *)
Lemma accumulate_spec (a dq s : Q) :
  0 <= a -> a <= h -> 0 <= dq -> 0 <= s ->
  exists a1,
    std_min (fadd (Fin a) (fmul (Fin dq) (Fin s))) kGameUpdateMaxThreshold
    = Fin a1 /\
    0 <= a1 /\ a1 <= h /\ a1 <= a + dq * s + 2 * u /\
    (flt kGameUpdateMaxThreshold (fadd (Fin a) (fmul (Fin dq) (Fin s))) = false ->
     a + dq * s - 2 * u <= a1).
Proof.
  intros Ha Hah Hd Hs.
  pose proof unit_pos as Up. pose proof threshold_lt as Ht.
  assert (0 <= dq * s) as Hp by (apply Qmult_le_0_compat; assumption).
  assert (0 <= h) as Hh by lra.
  unfold fmul.
  destruct (round_cases (dq * s) Hp)
    as [(Lp & p & Rp & Np & Upp & Lop)|(Cp & [Ip|(p & Rp & Gp)])].
  - rewrite Rp. unfold fadd.
    assert (0 <= a + p) as Hap by lra.
    destruct (round_cases (a + p) Hap)
      as [(Ls & r & Rs & Nr & Ur & Lor)|(Cs & [Is|(r & Rs & Gr)])].
    + rewrite Rs. destruct (Qlt_le_dec h r) as [C|C].
      * destruct (min_clamps r C) as [E1 E2]. rewrite E1, E2.
        exists h. repeat split; try lra; try discriminate.
      * destruct (min_keeps r C) as [E1 E2]. rewrite E1, E2.
        exists r. repeat split; try lra.
    + rewrite Is. destruct min_clamps_inf as [E1 E2]. rewrite E1, E2.
      exists h. repeat split; try lra; try discriminate.
    + rewrite Rs. assert (h < r) as C by lra.
      destruct (min_clamps r C) as [E1 E2]. rewrite E1, E2.
      exists h. repeat split; try lra; try discriminate.
  - rewrite Ip. unfold fadd. destruct min_clamps_inf as [E1 E2]. rewrite E1, E2.
    exists h. repeat split; try lra; try discriminate.
  - rewrite Rp. unfold fadd.
    assert (0 <= a + p) as Hap by lra.
    destruct (round_cases (a + p) Hap)
      as [(Ls & _)|(Cs & [Is|(r & Rs & Gr)])]; [lra | |].
    + rewrite Is. destruct min_clamps_inf as [E1 E2]. rewrite E1, E2.
      exists h. repeat split; try lra; try discriminate.
    + rewrite Rs. assert (h < r) as C by lra.
      destruct (min_clamps r C) as [E1 E2]. rewrite E1, E2.
      exists h. repeat split; try lra; try discriminate.
Qed.

Lemma switch_spec (env : Env) (w : World) :
  exists w1 log,
    when (negb (Bool.eqb (_variableFrame w) (ShouldRunVariableFrame env)))
      (modify (set_variableFrame (ShouldRunVariableFrame env)) ;;
       emit TweenerRestore ;;
       emit TweenerReset) w = Some (tt, w1, log) /\
    countTicks log = 0%nat /\
    _ticksAccumulator w1 = _ticksAccumulator w /\
    _timeScale w1 = _timeScale w.
Proof.
  destruct (negb (Bool.eqb (_variableFrame w) (ShouldRunVariableFrame env)));
    eexists _, _; (split; [reflexivity|]); repeat split.
Qed.

(** One poll. *)
Lemma RunFrame_spec (env : Env) (deltaTime : float) (w : World) :
  exists w' log,
    RunFrame (S fuel) env deltaTime w = Some (tt, w', log) /\
    _timeScale w' = _timeScale w /\
    forall a dq s,
      _ticksAccumulator w = Fin a -> deltaTime = Fin dq ->
      _timeScale w = Fin s ->
      0 <= a -> a <= h -> 0 <= dq -> 0 <= s ->
      exists a',
        _ticksAccumulator w' = Fin a' /\ 0 <= a' /\ a' <= h /\ a' < t /\
        a' <= a + dq * s - inject_Z (Z.of_nat (countTicks log)) * t
              + (2 + inject_Z (Z.of_nat (countTicks log))) * u /\
        (clamped deltaTime w = false ->
         a + dq * s - inject_Z (Z.of_nat (countTicks log)) * t
           - (2 + inject_Z (Z.of_nat (countTicks log))) * u <= a').
Proof.
  unfold RunFrame. rewrite machine_bind_gets.
  destruct (switch_spec env w) as (w1 & log1 & S1 & C1 & A1 & T1).
  destruct (UpdateTimeAccumulators_spec deltaTime w1)
    as (w2 & log2 & S2 & C2 & A2 & T2).
  assert (exists w' log3,
            (if ShouldRunVariableFrame env
             then RunVariableFrame (S fuel) env deltaTime
             else RunFixedFrame (S fuel) env deltaTime) w2
            = Some (tt, w', log3) /\
            _timeScale w' = _timeScale w2 /\ drained w2 w' log3)
    as (w' & log3 & S3 & T3 & D3).
  { destruct (ShouldRunVariableFrame env);
      [eapply RunVariableFrame_spec | eapply RunFixedFrame_spec]; exact A2. }
  exists w', (log1 ++ log2 ++ log3).
  split.
  { eapply machine_bind_Some; [exact S1|].
    eapply machine_bind_Some; [exact S2 | exact S3]. }
  split; [congruence|].
  intros a dq s Ea Ed Es Ha Hah Hd Hs.
  rewrite !machine_countTicks_app, C1, C2. cbn [Nat.add].
  rewrite A1, T1, Ea, Es, Ed in A2.
  destruct (accumulate_spec a dq s Ha Hah Hd Hs) as (a1 & M1 & N1 & H1 & U1 & L1).
  rewrite M1 in A2.
  destruct (D3 a1 A2) as (a' & E' & Lt & N' & Le & U' & L').
  exists a'. split; [exact E'|]. split; [apply N'; exact N1|].
  split; [lra|]. split; [exact Lt|]. split; [lra|].
  intros Cl. unfold clamped in Cl. rewrite Ea, Es, Ed in Cl.
  specialize (L1 Cl). lra.
Qed.


(** A sequence of polls. *)
Lemma RunFrames_spec (polls : list Poll) : forall (w : World) (a s : Q),
  _ticksAccumulator w = Fin a -> _timeScale w = Fin s ->
  0 <= a -> a <= h -> 0 <= s ->
  Forall (fun p => nonnegative (p_deltaTime p)) polls ->
  exists w' log a',
    RunFrames (S fuel) polls w = Some (tt, w', log) /\
    _ticksAccumulator w' = Fin a' /\ 0 <= a' /\ a' <= h /\
    (a < t \/ polls <> [] -> a' < t) /\
    a' <= a + sumDeltas polls * s - inject_Z (Z.of_nat (countTicks log)) * t
          + (2 * inject_Z (Z.of_nat (List.length polls))
             + inject_Z (Z.of_nat (countTicks log))) * u /\
    (unclamped (S fuel) polls w = true ->
     a + sumDeltas polls * s - inject_Z (Z.of_nat (countTicks log)) * t
       - (2 * inject_Z (Z.of_nat (List.length polls))
          + inject_Z (Z.of_nat (countTicks log))) * u <= a').
Proof.
  induction polls as [|p rest IH]; intros w a s Ea Es Ha Hah Hs Hd.
  - exists w, [], a. split; [reflexivity|]. split; [exact Ea|].
    cbn [sumDeltas fold_right countTicks List.length].
    change (inject_Z (Z.of_nat 0)) with 0.
    repeat split; try assumption; try lra.
    intros [C|C]; [exact C | contradiction].
  - apply List.Forall_cons_iff in Hd. destruct Hd as [Hp Hr].
    destruct (p_deltaTime p) as [| |dq] eqn:Ed; try contradiction.
    simpl in Hp.
    destruct (RunFrame_spec (p_env p) (Fin dq) w) as (w1 & log1 & S1 & T1 & B1).
    destruct (B1 a dq s Ea eq_refl Es Ha Hah Hp Hs)
      as (a1 & E1 & N1 & H1 & Lt1 & U1 & L1).
    rewrite Es in T1.
    destruct (IH w1 a1 s E1 T1 N1 H1 Hs Hr)
      as (w' & log2 & a' & S2 & E' & N' & H' & Lt' & U' & L').
    exists w', (log1 ++ log2), a'. split.
    { simpl. rewrite Ed. eapply machine_bind_Some; [exact S1 | exact S2]. }
    split; [exact E'|]. split; [exact N'|]. split; [exact H'|].
    split; [intros _; apply Lt'; left; exact Lt1|].
    rewrite machine_countTicks_app.
    assert (inject_Z (Z.of_nat (countTicks log1 + countTicks log2))
            == inject_Z (Z.of_nat (countTicks log1))
               + inject_Z (Z.of_nat (countTicks log2))) as ->.
    { rewrite Nat2Z.inj_add, inject_Z_plus. reflexivity. }
    assert (inject_Z (Z.of_nat (List.length (p :: rest)))
            == 1 + inject_Z (Z.of_nat (List.length rest))) as ->.
    { cbn [List.length]. rewrite Nat2Z.inj_succ. unfold Z.succ.
      rewrite inject_Z_plus. change (inject_Z 1) with 1. ring. }
    assert (sumDeltas (p :: rest) == dq + sumDeltas rest) as ->.
    { unfold sumDeltas. cbn [fold_right]. rewrite Ed. reflexivity. }
    split; [lra|].
    intros Un. cbn [unclamped] in Un. rewrite Ed in Un.
    apply andb_prop in Un. destruct Un as [Un1 Un2].
    apply negb_true_iff in Un1.
    unfold execM in Un2. rewrite S1 in Un2.
    specialize (L1 Un1). specialize (L' Un2). lra.
Qed.

End Fuel.

End MachineScheduler.

Lemma Qfloor_ge (z : Z) (x : Q) : inject_Z z <= x -> (z <= Qfloor x)%Z.
Proof. intros H. rewrite <- (Qfloor_Z z). apply Qfloor_resp_le. exact H. Qed.

Lemma Qfloor_lt (z : Z) (x : Q) : x < inject_Z z -> (Qfloor x < z)%Z.
Proof.
  intros H. pose proof (Qfloor_le x) as L. rewrite Zlt_Qlt. lra.
Qed.

(** C1.  The scheduler in binary32, over any sequence of polls with finite
    non-negative timer readings, in any mix of fixed and variable frames,
    started with an empty ticks accumulator at a constant finite
    non-negative time scale.  [u] is the error bound of one rounded
    operation on an accumulator ([2^(k-24)] for a threshold of at most
    [2^k]), and a run of [P] polls and [n] ticks makes [2 P + n] of them.
    The run returns; less than one tick duration is left; the number of
    ticks never exceeds [floor ((sum * timeScale + err) / tickDuration)];
    and when no poll is clamped it is at least
    [floor ((sum * timeScale - err) / tickDuration)], the remainder being
    the scaled time minus the ticks run, give or take [err]. *)
Theorem ticks_are_floor_up_to_rounding {build : Machine.Build}
    (t h s : Q) (k : Z) (fuel : nat) (polls : list Machine.Poll)
    (w : Machine.World) :
  Machine.kGameUpdateTimeMS = Binary32.Fin t ->
  Machine.kGameUpdateMaxThreshold = Binary32.Fin h ->
  0 <= h -> h <= Binary32.pow2 k -> (-126 <= k <= 126)%Z ->
  Binary32.pow2 (k - 24) < t ->
  (0 < fuel)%nat ->
  h < inject_Z (Z.of_nat fuel) * (t - Binary32.pow2 (k - 24)) ->
  Machine._timeScale w = Binary32.Fin s -> 0 <= s ->
  Machine._ticksAccumulator w = Binary32.Fin 0 ->
  Forall (fun p => Machine.nonnegative (Machine.p_deltaTime p)) polls ->
  let scaled := Machine.sumDeltas polls * s in
  exists w' log remainder,
    Machine.RunFrames fuel polls w = Some (tt, w', log) /\
    Machine._ticksAccumulator w' = Binary32.Fin remainder /\
    0 <= remainder /\ remainder < t /\
    let n := Z.of_nat (Machine.countTicks log) in
    let err := (2 * inject_Z (Z.of_nat (List.length polls)) + inject_Z n)
               * Binary32.pow2 (k - 24) in
    (n <= Qfloor ((scaled + err) / t))%Z /\
    (Machine.unclamped fuel polls w = true ->
     (Qfloor ((scaled - err) / t) <= n)%Z /\
     Qabs (remainder - (scaled - inject_Z n * t)) <= err).
Proof.
  intros HT HH Hh Hhk Hk Hu Hf0 Hf Es Hs Ea Hd scaled.
  pose proof (pow2_pos (k - 24)) as Up.
  destruct fuel as [|fuel]; [lia|].
  assert (h < t + inject_Z (Z.of_nat fuel) * (t - Binary32.pow2 (k - 24))) as Hf'.
  { rewrite Nat2Z.inj_succ in Hf. unfold Z.succ in Hf.
    rewrite inject_Z_plus in Hf. change (inject_Z 1) with 1 in Hf. lra. }
  destruct (RunFrames_spec t h k HT HH Hk Hhk Hu fuel Hf' polls w 0 s Ea Es)
    as (w' & log & a' & R & E' & N' & _ & Lt & U & L); [lra | exact Hh | exact Hs | exact Hd |].
  assert (0 < t) as Tpos by lra.
  exists w', log, a'. split; [exact R|]. split; [exact E'|].
  split; [exact N'|]. split; [apply Lt; left; exact Tpos|].
  intros n err. fold scaled in U, L.
  split.
  - apply Qfloor_ge. apply Qle_shift_div_l; [exact Tpos|].
    unfold err, n. lra.
  - intros Un. specialize (L Un). split.
    + assert (Qfloor ((scaled - err) / t) < n + 1)%Z; [|lia].
      apply Qfloor_lt. apply Qlt_shift_div_r; [exact Tpos|].
      rewrite inject_Z_plus. change (inject_Z 1) with 1.
      assert (a' < t) by (apply Lt; left; exact Tpos).
      unfold err, n. lra.
    + apply Qabs_Qle_condition. unfold err, n. split; lra.
Qed.

(** The scenario of spec 8: a tick of [0.025f] seconds, a threshold of one
    second (so [k = 0] and [u = 2^-24]), time scale 1, three polls of
    [0.01f] seconds. *)
Lemma ticks_are_floor_up_to_rounding_witness :
  let scaled :=
    Machine.sumDeltas (Machine.threePolls fixedEnv) * 1 in
  exists w' log remainder,
    Machine.RunFrames (build := Machine.exampleBuild) 41
      (Machine.threePolls fixedEnv) Machine.newContext = Some (tt, w', log) /\
    Machine._ticksAccumulator w' = Binary32.Fin remainder /\
    0 <= remainder /\ remainder < 13421773 # 536870912 /\
    let n := Z.of_nat (Machine.countTicks log) in
    let err := (2 * inject_Z (Z.of_nat 3) + inject_Z n)
               * Binary32.pow2 (0 - 24) in
    (n <= Qfloor ((scaled + err) / (13421773 # 536870912)))%Z /\
    (Machine.unclamped (build := Machine.exampleBuild) 41
       (Machine.threePolls fixedEnv) Machine.newContext = true ->
     (Qfloor ((scaled - err) / (13421773 # 536870912)) <= n)%Z /\
     Qabs (remainder - (scaled - inject_Z n * (13421773 # 536870912))) <= err).
Proof.
  apply (ticks_are_floor_up_to_rounding (build := Machine.exampleBuild)
           (13421773 # 536870912) 1 1 0 41 (Machine.threePolls fixedEnv)
           Machine.newContext).
  - reflexivity.
  - reflexivity.
  - discriminate.
  - discriminate.
  - lia.
  - reflexivity.
  - lia.
  - reflexivity.
  - reflexivity.
  - discriminate.
  - reflexivity.
  - repeat constructor; discriminate.
Defined.

(** In that scenario exactly one tick runs, in either mode, and
    [2684354 * 2^-29] seconds remain: 4.999999 ms. *)
Example three_polls_binary32 :
  forall env, env = fixedEnv \/ env = variableEnv ->
  exists w' log,
    Machine.RunFrames (build := Machine.exampleBuild) 41
      (Machine.threePolls env) Machine.newContext = Some (tt, w', log) /\
    Machine.countTicks log = 1%nat /\
    Machine._ticksAccumulator w' = Binary32.Fin (1342177 # 268435456).
Proof.
  intros env [-> | ->]; eexists _, _; (split; [vm_compute; reflexivity|]);
    split; reflexivity.
Qed.

(** C1, as stated, fails in binary32.  One poll of [0.2f] seconds, which is
    exactly eight times [0.025f], runs seven ticks; one poll of [0.65f]
    seconds runs 26 ticks where the quotient is below 26.  Neither poll is
    clamped. *)
Lemma ticks_differ_from_floor :
  (exists w' log,
     Machine.RunFrames (build := Machine.exampleBuild) 41
       [Machine.mkPoll fixedEnv (Binary32.Fin (13421773 # 67108864))]
       Machine.newContext = Some (tt, w', log) /\
     Machine.unclamped (build := Machine.exampleBuild) 41
       [Machine.mkPoll fixedEnv (Binary32.Fin (13421773 # 67108864))]
       Machine.newContext = true /\
     Machine.countTicks log = 7%nat /\
     Qfloor ((13421773 # 67108864) * 1 / (13421773 # 536870912)) = 8%Z /\
     Qfloor ((13421773 # 67108864) * 1 / (25 # 1000)) = 8%Z) /\
  (exists w' log,
     Machine.RunFrames (build := Machine.exampleBuild) 41
       [Machine.mkPoll fixedEnv (Binary32.Fin (5452595 # 8388608))]
       Machine.newContext = Some (tt, w', log) /\
     Machine.unclamped (build := Machine.exampleBuild) 41
       [Machine.mkPoll fixedEnv (Binary32.Fin (5452595 # 8388608))]
       Machine.newContext = true /\
     Machine.countTicks log = 26%nat /\
     Qfloor ((5452595 # 8388608) * 1 / (13421773 # 536870912)) = 25%Z /\
     Qfloor ((5452595 # 8388608) * 1 / (25 # 1000)) = 25%Z).
Proof.
  split; eexists _, _; (split; [vm_compute; reflexivity|]);
    repeat split; vm_compute; reflexivity.
Qed.

(** The decimals of the examples, rounded to binary32. *)
Example binary32_literals :
  Binary32.round (25 # 1000) = Binary32.Fin (13421773 # 536870912) /\
  Binary32.round (1 # 100) = Binary32.Fin (5368709 # 536870912) /\
  Binary32.round (1 # 10) = Binary32.Fin (13421773 # 134217728) /\
  Binary32.round (2 # 10) = Binary32.Fin (13421773 # 67108864) /\
  Binary32.round (65 # 100) = Binary32.Fin (5452595 # 8388608) /\
  Binary32.round (246 # 10000) = Binary32.Fin (825439 # 33554432).
Proof. vm_compute. repeat split. Qed.

(** ** The sleep of a fixed frame in binary32 *)

(** C7.  A fixed frame entered with a ticks accumulator below one tick
    duration processes the window messages, sleeps and returns: no tick, no
    input handling, no window update, no drawing, and the state is
    untouched.  The sleep is the binary32 product of the binary32 remainder
    and [1000.f] with its fractional part discarded.  For a non-negative
    accumulator and a tick duration of at most [2^j] seconds it exceeds the
    remaining time by at most [2^(j-13)] ms and falls short of it by less
    than a millisecond and [2^(j-13)] ms. *)
Theorem fixed_frame_sleeps_rounded {build : Machine.Build}
    (t : Q) (fuel : nat) (env : Env) (deltaTime : Binary32.float)
    (w : Machine.World) :
  Machine.kGameUpdateTimeMS = Binary32.Fin t ->
  Binary32.flt (Machine._ticksAccumulator w) Machine.kGameUpdateTimeMS = true ->
  let ms :=
    Binary32.static_cast_uint 32
      (Binary32.fmul
         (Binary32.fsub Machine.kGameUpdateTimeMS (Machine._ticksAccumulator w))
         (Binary32.Fin 1000)) in
  Machine.RunFixedFrame fuel env deltaTime w
  = Some (tt, w, [Machine.ProcessMessages; Machine.Sleep ms]) /\
  forall (a : Q) (j : Z),
    Machine._ticksAccumulator w = Binary32.Fin a -> 0 <= a ->
    t <= Binary32.pow2 j -> (-126 <= j <= 20)%Z ->
    let remaining := t - a in
    inject_Z ms <= remaining * 1000 + Binary32.pow2 (j - 13) /\
    remaining * 1000 - Binary32.pow2 (j - 13) < inject_Z ms + 1.
Proof.
  intros HT Hlt ms. split.
  { unfold Machine.RunFixedFrame.
    rewrite machine_bind_emit, machine_bind_gets, Hlt. reflexivity. }
  intros a j Ea Ha Htj Hj remaining.
  assert (a < t) as Lt.
  { rewrite Ea, HT in Hlt. simpl in Hlt. unfold Qltb in Hlt.
    apply Qnot_le_lt. intros C. apply Qle_bool_iff in C.
    rewrite C in Hlt. discriminate. }
  pose proof (pow2_lt j (j + 1) ltac:(lia)) as P1.
  destruct (round_finite_nonneg (t + - a) (j + 1)) as (r1 & R1 & E1 & B1 & N1);
    [lia | lra | lra |].
  replace (j + 1 - 25)%Z with (j - 24)%Z in E1 by lia.
  apply Qabs_Qle_condition in E1.
  assert (Binary32.pow2 (j + 11) == 1024 * Binary32.pow2 (j + 1)) as P11.
  { replace (j + 11)%Z with (j + 1 + 10)%Z by lia. rewrite pow2_add.
    change (Binary32.pow2 10) with 1024. ring. }
  assert (Binary32.pow2 (j - 14) == 1024 * Binary32.pow2 (j - 24)) as P14.
  { replace (j - 14)%Z with (j - 24 + 10)%Z by lia. rewrite pow2_add.
    change (Binary32.pow2 10) with 1024. ring. }
  assert (Binary32.pow2 (j - 13) == 2 * Binary32.pow2 (j - 14)) as P13.
  { replace (j - 13)%Z with (j - 14 + 1)%Z by lia. apply pow2_succ. }
  pose proof (pow2_pos (j - 24)) as Pp. pose proof (pow2_pos (j + 1)) as Pq.
  destruct (round_finite_nonneg (r1 * 1000) (j + 11)) as (r2 & R2 & E2 & B2 & N2);
    [lia | nra | nra |].
  replace (j + 11 - 25)%Z with (j - 14)%Z in E2 by lia.
  apply Qabs_Qle_condition in E2.
  assert (r2 < inject_Z (2 ^ 32)) as Hmax.
  { assert (Binary32.pow2 (j + 11) <= Binary32.pow2 31) as L by (apply pow2_le; lia).
    change (Binary32.pow2 31) with (inject_Z (2 ^ 31)) in L.
    assert (inject_Z (2 ^ 31) < inject_Z (2 ^ 32)) by reflexivity. lra. }
  assert (ms = Qfloor r2) as ->.
  { unfold ms. rewrite HT, Ea. unfold Binary32.fsub, Binary32.fopp, Binary32.fadd.
    rewrite R1. unfold Binary32.fmul. rewrite R2.
    unfold Binary32.static_cast_uint, wrap. rewrite (Qtruncate_nonneg _ N2).
    apply Z.mod_small. split.
    - change 0%Z with (Qfloor 0). apply Qfloor_resp_le. exact N2.
    - pose proof (Qfloor_le r2) as L. rewrite Zlt_Qlt. lra. }
  pose proof (Qfloor_le r2) as F1. pose proof (Qlt_floor r2) as F2.
  rewrite inject_Z_plus in F2. change (inject_Z 1) with 1 in F2.
  unfold remaining. split; lra.
Qed.

(** [0.01f] seconds accumulated against a tick of [0.025f]: a sleep of
    15 ms. *)
Lemma fixed_frame_sleeps_rounded_witness :
  Machine.RunFixedFrame (build := Machine.exampleBuild) 1 fixedEnv
    (Binary32.Fin 0)
    (Machine.set_ticksAccumulator (Binary32.Fin (5368709 # 536870912))
       Machine.newContext)
  = Some (tt,
          Machine.set_ticksAccumulator (Binary32.Fin (5368709 # 536870912))
            Machine.newContext,
          [Machine.ProcessMessages; Machine.Sleep 15]).
Proof.
  apply (fixed_frame_sleeps_rounded (build := Machine.exampleBuild)
           (13421773 # 536870912) 1 fixedEnv (Binary32.Fin 0)
           (Machine.set_ticksAccumulator (Binary32.Fin (5368709 # 536870912))
              Machine.newContext)).
  - reflexivity.
  - reflexivity.
Defined.

(** C7, as stated, fails.  The first poll of a fresh context, [0.0246f]
    seconds after the timer started, leaves 0.4 ms to wait and sleeps 0 ms.
    With [10737419 * 2^-30] seconds in the accumulator, less than 15 ms
    remain and the frame sleeps 15 ms. *)
Lemma sleep_is_not_the_remaining_time :
  (exists w' a,
     Machine.RunFrame (build := Machine.exampleBuild) 41 fixedEnv
       (Binary32.Fin (825439 # 33554432)) Machine.newContext
     = Some (tt, w', [Machine.ProcessMessages; Machine.Sleep 0]) /\
     Machine._ticksAccumulator w' = Binary32.Fin a /\
     0 < ((13421773 # 536870912) - a) * 1000) /\
  (let w := Machine.set_ticksAccumulator (Binary32.Fin (10737419 # 1073741824))
              Machine.newContext in
   Machine.RunFixedFrame (build := Machine.exampleBuild) 41 fixedEnv
     (Binary32.Fin 0) w
   = Some (tt, w, [Machine.ProcessMessages; Machine.Sleep 15]) /\
   ((13421773 # 536870912) - (10737419 # 1073741824)) * 1000 < 15).
Proof.
  split.
  - eexists _, _. split; [vm_compute; reflexivity|].
    split; [reflexivity | reflexivity].
  - split; [vm_compute; reflexivity | reflexivity].
Qed.


(** * Further facts *)

(** ** The time scale *)

(** X1.  [SetTimeScale] stores [std::clamp] of its argument, the bounds
    being finite and in order.  An argument that is not a NaN, the
    infinities included, is stored within the bounds; a NaN is stored as it
    is; a value within the bounds is stored as it is; setting the value
    just read changes nothing; and no other member is touched. *)
Theorem SetTimeScale_clamps {build : Machine.Build}
    (lo hi : Q) (newScale : Binary32.float) (w : Machine.World) :
  Machine.kGameMinTimeScale = Binary32.Fin lo ->
  Machine.kGameMaxTimeScale = Binary32.Fin hi ->
  lo <= hi ->
  let w' := Machine.SetTimeScale newScale w in
  (newScale <> Binary32.NaN ->
   Binary32.fle Machine.kGameMinTimeScale (Machine.GetTimeScale w') = true /\
   Binary32.fle (Machine.GetTimeScale w') Machine.kGameMaxTimeScale = true) /\
  (newScale = Binary32.NaN -> Machine.GetTimeScale w' = Binary32.NaN) /\
  (Binary32.fle Machine.kGameMinTimeScale newScale = true ->
   Binary32.fle newScale Machine.kGameMaxTimeScale = true ->
   Machine.GetTimeScale w' = newScale) /\
  Machine.SetTimeScale (Machine.GetTimeScale w') w' = w' /\
  Machine.set_timeScale (Machine._timeScale w) w' = w.
Proof.
  intros Hlo Hhi Hb w'.
  assert (Machine.set_timeScale (Machine._timeScale w) w' = w) as Hw
    by (destruct w; reflexivity).
  assert (forall c, Machine.GetTimeScale w' = c ->
            Binary32.std_clamp c (Binary32.Fin lo) (Binary32.Fin hi) = c ->
            Machine.SetTimeScale (Machine.GetTimeScale w') w' = w') as Hidem.
  { intros c Ec Hc. unfold Machine.SetTimeScale. rewrite Hlo, Hhi, Ec, Hc.
    unfold w', Machine.SetTimeScale, Machine.GetTimeScale in *.
    rewrite Hlo, Hhi in *. cbn in Ec. rewrite Ec. reflexivity. }
  assert (Qltb lo lo = false) as Ell by (apply Qltb_ge; lra).
  assert (Qltb hi hi = false) as Ehh by (apply Qltb_ge; lra).
  assert (Qltb hi lo = false) as Ehl by (apply Qltb_ge; exact Hb).
  assert (Qle_bool lo lo = true) as Fll by (apply Qle_bool_iff; lra).
  assert (Qle_bool hi hi = true) as Fhh by (apply Qle_bool_iff; lra).
  assert (Qle_bool lo hi = true) as Flh by (apply Qle_bool_iff; exact Hb).
  assert (Machine.GetTimeScale w'
          = Binary32.std_clamp newScale (Binary32.Fin lo) (Binary32.Fin hi)) as Eg.
  { unfold w', Machine.SetTimeScale, Machine.GetTimeScale.
    rewrite Hlo, Hhi. reflexivity. }
  rewrite Hlo, Hhi.
  split; [|split; [|split; [|split; [|exact Hw]]]].
  - intros Hn. rewrite Eg. unfold Binary32.std_clamp, Binary32.flt, Binary32.fle.
    destruct newScale as [|[]|q]; [contradiction | | |].
    + rewrite Fll, Flh. split; reflexivity.
    + cbn. rewrite Flh, Fhh. split; reflexivity.
    + destruct (Qltb q lo) eqn:E1; [rewrite Fll, Flh; split; reflexivity|].
      destruct (Qltb hi q) eqn:E2; [rewrite Flh, Fhh; split; reflexivity|].
      apply Qltb_ge in E1, E2. split; apply Qle_bool_iff; assumption.
  - intros ->. rewrite Eg. reflexivity.
  - intros H1 H2. rewrite Eg. unfold Binary32.std_clamp, Binary32.flt.
    destruct newScale as [|[]|q]; try discriminate. simpl in H1, H2.
    apply Qle_bool_iff in H1, H2.
    assert (Qltb q lo = false) as -> by (apply Qltb_ge; exact H1).
    assert (Qltb hi q = false) as -> by (apply Qltb_ge; exact H2).
    reflexivity.
  - apply (Hidem _ Eg). unfold Binary32.std_clamp, Binary32.flt.
    destruct newScale as [|[]|q].
    + reflexivity.
    + rewrite Ell, Ehl. reflexivity.
    + cbn. rewrite Ehl, Ehh. reflexivity.
    + destruct (Qltb q lo) eqn:E1; [rewrite Ell, Ehl; reflexivity|].
      destruct (Qltb hi q) eqn:E2; [rewrite Ehl, Ehh; reflexivity|].
      rewrite E1, E2. reflexivity.
Qed.

(** A request for ten times the normal speed is cut down to five; what a
    NaN leaves in [_timeScale] is a NaN. *)
Lemma SetTimeScale_clamps_witness :
  Machine.GetTimeScale
    (Machine.SetTimeScale (build := Machine.exampleBuild) (Binary32.Fin 10)
       Machine.newContext) = Binary32.Fin 5 /\
  Machine.GetTimeScale
    (Machine.SetTimeScale (build := Machine.exampleBuild) Binary32.NaN
       Machine.newContext) = Binary32.NaN.
Proof.
  split.
  - reflexivity.
  - destruct (SetTimeScale_clamps (build := Machine.exampleBuild)
                (13421773 # 134217728) 5 Binary32.NaN Machine.newContext)
      as (_ & H & _); [reflexivity | reflexivity | discriminate |].
    apply H. reflexivity.
Defined.

(** ** The shape of a frame *)

Section FrameShape.
Context {build : Build}.
Hypothesis Tpos : 0 < kGameUpdateTimeMS.






End FrameShape.





(** ** Nothing is rendered without a visible window *)

Section Hidden.
Context {build : Build}.

Ltac logs_step :=
  first
    [ apply logs_bind; [|intros ?]
    | apply logs_when
    | apply logs_while
    | apply logs_gets
    | apply logs_modify
    | apply logs_ret
    | apply logs_emit; split; reflexivity
    | apply logs_callTick; intros; split; reflexivity ].

Lemma logs_RunFrame_hidden (fuel : nat) (env : Env) (deltaTime : Q) :
  ShouldDraw env = false ->
  logs notRendering (RunFrame fuel env deltaTime).
Proof.
  intros Hd. unfold RunFrame, ShouldRunVariableFrame. rewrite Hd. cbn [negb].
  unfold UpdateTimeAccumulators, realTimeStep, incRealTimeTicks, RunFixedFrame,
    fixedTickStep, consumeTick.
  rewrite Hd. cbn [when].
  repeat logs_step.
  destruct (Qltb _ kGameUpdateTimeMS); repeat logs_step.
Qed.

Lemma logs_doWhileNotFinished_hidden (fuel : nat) (polls : list Poll) :
  Forall (fun p => ShouldDraw (p_env p) = false) polls ->
  logs notRendering (doWhileNotFinished fuel polls).
Proof.
  induction 1 as [|p rest Hp _ IH]; cbn [doWhileNotFinished].
  - apply logs_ret.
  - apply logs_bind; [apply logs_RunFrame_hidden; exact Hp|]. intros _.
    apply logs_bind; [apply logs_when, logs_modify|]. intros _.
    apply logs_bind; [apply logs_gets|]. intros finished.
    destruct (negb finished); [exact IH | apply logs_ret].
Qed.
End Hidden.

(** X4.  A game loop all of whose polls find the game headless or the
    window minimised never calls the drawing engine or the painter and
    never takes, closes or interpolates a tween sample: its log holds no
    [BeginDraw], [Paint], [EndDraw], [PreTick], [PostTick] or [Tween]. *)
Theorem hidden_window_never_renders {build : Build}
    (fuel : nat) (env0 : Env) (polls : list Poll) (w w' : World)
    (status : LoopStatus) (log : list Event) :
  Forall (fun p => ShouldDraw (p_env p) = false) polls ->
  RunGameLoop fuel env0 polls w = Some (status, w', log) ->
  Forall notRendering log.
Proof.
  intros Hp R. unfold RunGameLoop in R. rewrite !bind_modify in R.
  exact (logs_doWhileNotFinished_hidden fuel polls Hp _ _ _ _ R).
Qed.

(** A headless server that catches up two ticks and is then told to stop. *)
Lemma hidden_window_never_renders_witness :
  exists w' log,
    RunGameLoop (build := exampleBuild) 41 headlessEnv
      [mkPoll headlessEnv (60 # 1000) true] newContext
    = Some (Exited, w', log) /\
    countTicks log = 2%nat /\
    Forall notRendering log.
Proof.
  eexists _, _. split; [vm_compute; reflexivity|]. split; [reflexivity|].
  eapply (hidden_window_never_renders (build := exampleBuild) 41 headlessEnv
            [mkPoll headlessEnv (60 # 1000) true] newContext).
  - repeat constructor.
  - vm_compute. reflexivity.
Defined.

(** ** The globals a logical tick assigns *)

Section TickGlobals.
Context {build : Build}.




End TickGlobals.



(** ** The render mode does not reach the simulation *)

Section ModeIndependence.
Context {build : Build}.
Hypothesis Tpos : 0 < kGameUpdateTimeMS.

Lemma forgetMode_fields (a b : World) :
  forgetMode a = forgetMode b ->
  _ticksAccumulator a = _ticksAccumulator b /\
  _realtimeAccumulator a = _realtimeAccumulator b.
Proof.
  intros H. split.
  - exact (f_equal _ticksAccumulator H).
  - exact (f_equal _realtimeAccumulator H).
Qed.

Lemma forgetMode_switchMode (env : Env) (w : World) :
  forgetMode (switchMode env w) = forgetMode w.
Proof. unfold switchMode. destruct (modeChanged env w); reflexivity. Qed.

Lemma forgetMode_accumulate (deltaTime : Q) (a b : World) :
  forgetMode a = forgetMode b ->
  forgetMode (accumulate deltaTime a) = forgetMode (accumulate deltaTime b).
Proof.
  destruct a, b. unfold forgetMode, accumulate. cbn. intros H.
  injection H as -> -> -> -> -> -> -> -> ->. reflexivity.
Qed.

Lemma forgetMode_realTimeStep (a b : World) :
  forgetMode a = forgetMode b ->
  forgetMode (execM realTimeStep a) = forgetMode (execM realTimeStep b).
Proof.
  destruct a, b. unfold forgetMode. cbn. intros H.
  injection H as -> -> -> -> -> -> -> -> ->. reflexivity.
Qed.

Lemma forgetMode_tickStep (e1 e2 : Env) (a b : World) :
  sameSimulation e1 e2 ->
  forgetMode a = forgetMode b ->
  forgetMode (execM (tickStep e1) a) = forgetMode (execM (tickStep e2) b) /\
  ticksOf (logM (tickStep e1) a) = ticksOf (logM (tickStep e2) b).
Proof.
  intros (Hh & Hi & Hs & Hp) H. destruct a, b. unfold forgetMode in H. cbn in H.
  injection H as -> -> -> -> -> -> -> -> ->.
  unfold tickStep, execM, logM, variableTickStep, fixedTickStep, forgetMode.
  destruct (ShouldRunVariableFrame e1), (ShouldRunVariableFrame e2);
    try destruct (ShouldDraw e1); try destruct (ShouldDraw e2);
    cbn; rewrite Hh, Hi, Hs, Hp; destruct (GameIsNotPaused e2); split; reflexivity.
Qed.

Lemma ticksOf_app (l1 l2 : list Event) :
  ticksOf (l1 ++ l2) = ticksOf l1 ++ ticksOf l2.
Proof.
  induction l1 as [|e l1 IH]; [reflexivity|].
  destruct e; cbn [ticksOf app]; rewrite IH; reflexivity.
Qed.

Lemma iterSt_realTimeStep_forgetMode (n : nat) (a b : World) :
  forgetMode a = forgetMode b ->
  forgetMode (iterSt realTimeStep n a) = forgetMode (iterSt realTimeStep n b).
Proof.
  revert a b. induction n as [|n IH]; intros a b H; [exact H|].
  cbn [iterSt]. apply IH, forgetMode_realTimeStep, H.
Qed.

Lemma iter_tickStep_forgetMode (e1 e2 : Env) (n : nat) (a b : World) :
  sameSimulation e1 e2 ->
  forgetMode a = forgetMode b ->
  forgetMode (iterSt (tickStep e1) n a) = forgetMode (iterSt (tickStep e2) n b) /\
  ticksOf (iterLog (tickStep e1) n a) = ticksOf (iterLog (tickStep e2) n b).
Proof.
  intros Hs. revert a b. induction n as [|n IH]; intros a b H.
  - split; [exact H | reflexivity].
  - destruct (forgetMode_tickStep e1 e2 a b Hs H) as [H1 H2].
    destruct (IH _ _ H1) as [H3 H4].
    cbn [iterSt iterLog]. rewrite !ticksOf_app, H2, H4. split; [exact H3|reflexivity].
Qed.

Lemma ticksOf_iter_realTimeStep (n : nat) (w : World) :
  ticksOf (iterLog realTimeStep n w) = [].
Proof.
  revert w. induction n as [|n IH]; intros w; [reflexivity|].
  cbn [iterLog]. rewrite ticksOf_app, IH. reflexivity.
Qed.

Lemma ticksOf_frameLog (env : Env) (n : nat) (w : World) :
  (_ticksAccumulator w < kGameUpdateTimeMS -> n = O) ->
  ticksOf (switchLog env w) = [] /\
  ticksOf (frameLog env n w) = ticksOf (iterLog (tickStep env) n w).
Proof.
  intros Hn. split.
  { unfold switchLog. destruct (modeChanged env w); reflexivity. }
  unfold frameLog, tickStep. destruct (ShouldRunVariableFrame env).
  - rewrite !ticksOf_app. unfold tweenLog.
    destruct (ShouldDraw env); cbn [ticksOf app]; rewrite app_nil_r; reflexivity.
  - destruct (Qltb (_ticksAccumulator w) kGameUpdateTimeMS) eqn:E.
    + apply Qltb_lt in E. rewrite (Hn E). reflexivity.
    + rewrite !ticksOf_app. unfold drawLog.
      destruct (ShouldDraw env); cbn [ticksOf app]; rewrite app_nil_r; reflexivity.
Qed.

Lemma RunFrame_mode_independent (fuel : nat) (e1 e2 : Env) (deltaTime : Q)
    (w1 w2 : World) :
  enoughFuel fuel ->
  sameSimulation e1 e2 ->
  forgetMode w1 = forgetMode w2 ->
  exists w1' l1 w2' l2,
    RunFrame fuel e1 deltaTime w1 = Some (tt, w1', l1) /\
    RunFrame fuel e2 deltaTime w2 = Some (tt, w2', l2) /\
    forgetMode w1' = forgetMode w2' /\
    ticksOf l1 = ticksOf l2.
Proof.
  intros Hf Hs H.
  pose proof (RunFrame_eval Tpos fuel e1 deltaTime w1 Hf) as R1.
  pose proof (RunFrame_eval Tpos fuel e2 deltaTime w2 Hf) as R2.
  cbv zeta in R1, R2.
  set (a1 := accumulate deltaTime (switchMode e1 w1)) in *.
  set (a2 := accumulate deltaTime (switchMode e2 w2)) in *.
  assert (forgetMode a1 = forgetMode a2) as Ha.
  { apply forgetMode_accumulate. rewrite !forgetMode_switchMode. exact H. }
  destruct (forgetMode_fields _ _ Ha) as [_ Er]. rewrite <- Er in R2.
  set (nr := pendingTicks (_realtimeAccumulator a1)) in *.
  set (u1 := iterSt realTimeStep nr a1) in *.
  set (u2 := iterSt realTimeStep nr a2) in *.
  assert (forgetMode u1 = forgetMode u2) as Hu
    by (apply iterSt_realTimeStep_forgetMode; exact Ha).
  destruct (forgetMode_fields _ _ Hu) as [Et _]. rewrite <- Et in R2.
  set (n := pendingTicks (_ticksAccumulator u1)) in *.
  destruct (iter_tickStep_forgetMode e1 e2 n u1 u2 Hs Hu) as [Hw Hl].
  eexists _, _, _, _. split; [exact R1 | split; [exact R2 | split; [exact Hw|]]].
  destruct (ticksOf_frameLog e1 n u1) as [S1 F1].
  { intros L. apply (pendingTicks_small Tpos). exact L. }
  destruct (ticksOf_frameLog e2 n u2) as [S2 F2].
  { intros L. rewrite <- Et in L. apply (pendingTicks_small Tpos). exact L. }
  assert (ticksOf (switchLog e1 w1) = [] /\ ticksOf (switchLog e2 w2) = [])
    as [Z1 Z2].
  { unfold switchLog.
    destruct (modeChanged e1 w1), (modeChanged e2 w2); split; reflexivity. }
  rewrite !ticksOf_app, !ticksOf_iter_realTimeStep, Z1, Z2, F1, F2.
  cbn [app]. exact Hl.
Qed.
End ModeIndependence.

(** X6.  The render mode does not reach the simulation.  Two runs over
    polls with the same timer readings, whose environments differ at most in
    what selects the frame mode (window minimised, frame-rate cap, game
    speed), started from states that agree except for the recorded mode, run
    the same logical ticks with the same calls in the same order and end in
    states that agree except for the recorded mode. *)
Theorem render_mode_does_not_reach_simulation {build : Build}
    (fuel : nat) (polls1 polls2 : list Poll) (w1 w2 : World) :
  0 < kGameUpdateTimeMS ->
  enoughFuel fuel ->
  samePolls polls1 polls2 ->
  forgetMode w1 = forgetMode w2 ->
  exists w1' log1 w2' log2,
    RunFrames fuel polls1 w1 = Some (tt, w1', log1) /\
    RunFrames fuel polls2 w2 = Some (tt, w2', log2) /\
    forgetMode w1' = forgetMode w2' /\
    ticksOf log1 = ticksOf log2.
Proof.
  intros Tpos Hf Hp. revert w1 w2.
  induction Hp as [|p1 p2 r1 r2 [Hd Hs] _ IH]; intros w1 w2 H.
  - exists w1, [], w2, []. repeat split; [exact H].
  - destruct (RunFrame_mode_independent Tpos fuel (p_env p1) (p_env p2)
                (p_deltaTime p1) w1 w2 Hf Hs H)
      as (u1 & l1 & u2 & l2 & R1 & R2 & Hu & Hl).
    rewrite Hd in R2 at 1.
    destruct (IH u1 u2 Hu) as (v1 & m1 & v2 & m2 & S1 & S2 & Hv & Hm).
    exists v1, (l1 ++ m1), v2, (l2 ++ m2). cbn [RunFrames].
    split; [exact (bind_Some _ _ _ _ _ _ _ _ _ R1 S1)|].
    split; [exact (bind_Some _ _ _ _ _ _ _ _ _ R2 S2)|].
    split; [exact Hv|]. rewrite !ticksOf_app, Hl, Hm. reflexivity.
Qed.

(** The three polls of 10 ms, capped and uncapped. *)
Lemma render_mode_does_not_reach_simulation_witness :
  exists w1' log1 w2' log2,
    RunFrames (build := exampleBuild) 41 (threePolls fixedEnv) newContext
    = Some (tt, w1', log1) /\
    RunFrames (build := exampleBuild) 41 (threePolls variableEnv) newContext
    = Some (tt, w2', log2) /\
    forgetMode w1' = forgetMode w2' /\
    ticksOf log1 = ticksOf log2.
Proof.
  apply (render_mode_does_not_reach_simulation (build := exampleBuild) 41
           (threePolls fixedEnv) (threePolls variableEnv) newContext newContext).
  - reflexivity.
  - unfold enoughFuel. vm_compute. lia.
  - repeat constructor.
  - reflexivity.
Defined.

(** ** Objects with fallback images *)

Section FallbackFacts.
Variable getObjectEntryGroupCount : N -> N.
Variable loaded : gmap (N * N) Objects.LoadedObject.

Lemma scanGroup_true (objectType i : N) (remaining : nat) :
  Objects.scanGroup loaded objectType i remaining = true <->
  exists j obj,
    (i <= j)%N /\ (j < i + N.of_nat remaining)%N /\
    loaded !! (objectType, j) = Some obj /\
    Objects.UsesFallbackImages obj = true.
Proof.
  revert i. induction remaining as [|k IH]; intros i.
  - cbn. split; [discriminate | intros (j & obj & ? & ? & _); lia].
  - cbn [Objects.scanGroup].
    destruct (loaded !! (objectType, i)) as [obj|] eqn:E.
    + destruct (Objects.UsesFallbackImages obj) eqn:U.
      * split; [intros _ | reflexivity]. exists i, obj. repeat split; auto; lia.
      * rewrite IH. split; intros (j & o & H1 & H2 & H3 & H4).
        -- exists j, o. repeat split; auto; lia.
        -- exists j, o. repeat split; auto; [|lia].
           destruct (N.eq_dec i j) as [->|]; [congruence | lia].
    + rewrite IH. split; intros (j & o & H1 & H2 & H3 & H4).
      * exists j, o. repeat split; auto; lia.
      * exists j, o. repeat split; auto; [|lia].
        destruct (N.eq_dec i j) as [->|]; [congruence | lia].
Qed.

Lemma scanTypes_true (types : list N) :
  Objects.scanTypes getObjectEntryGroupCount loaded types = true <->
  exists objectType i obj,
    In objectType types /\
    (i < Objects.maxObjectsOfType getObjectEntryGroupCount objectType)%N /\
    loaded !! (objectType, i) = Some obj /\
    Objects.UsesFallbackImages obj = true.
Proof.
  induction types as [|t rest IH].
  - cbn. split; [discriminate | intros (? & ? & ? & [] & _)].
  - cbn [Objects.scanTypes].
    destruct (Objects.scanGroup loaded t 0
                (N.to_nat (Objects.maxObjectsOfType getObjectEntryGroupCount t)))
      eqn:E.
    + split; [intros _ | reflexivity].
      apply scanGroup_true in E. destruct E as (j & obj & _ & H2 & H3 & H4).
      exists t, j, obj. repeat split; auto; [left; reflexivity | lia].
    + rewrite IH. split.
      * intros (t' & i & obj & Hin & H). exists t', i, obj.
        split; [right; exact Hin | exact H].
      * intros (t' & i & obj & [<-|Hin] & H2 & H3 & H4).
        -- assert (Objects.scanGroup loaded t 0
                     (N.to_nat (Objects.maxObjectsOfType
                                  getObjectEntryGroupCount t)) = true) as C.
           { apply scanGroup_true. exists i, obj. repeat split; auto; lia. }
           congruence.
        -- exists t', i, obj. auto.
Qed.
End FallbackFacts.

(** X8.  [HasObjectsThatUseFallbackImages] answers true exactly when, for
    some object type of [getAllObjectTypes()], some index below that type's
    group count (as a [uint16_t]) holds a loaded object that uses fallback
    images.  Empty slots are skipped, and an object loaded at an index
    beyond the group count is never looked at. *)
Theorem HasObjectsThatUseFallbackImages_iff
    (getAllObjectTypes : list N) (getObjectEntryGroupCount : N -> N)
    (loaded : gmap (N * N) Objects.LoadedObject) :
  Objects.HasObjectsThatUseFallbackImages
    getAllObjectTypes getObjectEntryGroupCount loaded = true <->
  exists objectType i obj,
    In objectType getAllObjectTypes /\
    (i < getObjectEntryGroupCount objectType mod 2 ^ 16)%N /\
    loaded !! (objectType, i) = Some obj /\
    Objects.UsesFallbackImages obj = true.
Proof. apply scanTypes_true. Qed.

(** An object beyond the end of its group does not count. *)
Example fallback_beyond_group_ignored :
  Objects.HasObjectsThatUseFallbackImages Objects.exampleTypes
    Objects.exampleGroupCount Objects.exampleLoaded = true /\
  Objects.HasObjectsThatUseFallbackImages [0%N]
    Objects.exampleGroupCount Objects.exampleLoaded = false.
Proof. split; vm_compute; reflexivity. Qed.

(** ** The install directory *)

(** X9.  [GetOrPromptRCT2Path]: a custom data path is returned as it is,
    without probing any directory and without prompting.  Without one, the
    configured directory is probed only if it is not empty, the user is
    prompted exactly when it is empty or lacks the game data, and the
    "install directory must be specified" error is written exactly when
    that prompt fails -- in which case, and only then or when the path at
    hand is itself empty, the result is the empty string. *)
Theorem GetOrPromptRCT2Path_cases (e : InstallPath.PathEnv) :
  let result := fst (InstallPath.GetOrPromptRCT2Path e) in
  let calls := snd (InstallPath.GetOrPromptRCT2Path e) in
  let noCustom := InstallPath.gCustomRCT2DataPath e = EmptyString in
  let unusable :=
    InstallPath.RCT2Path e = EmptyString \/
    InstallPath.OriginalGameDataExists e (InstallPath.RCT2Path e) = false in
  (~ noCustom -> result = InstallPath.gCustomRCT2DataPath e /\ calls = []) /\
  (In InstallPath.CallConfigFindOrBrowseInstallDirectory calls <->
   noCustom /\ unusable) /\
  (In InstallPath.ErrorInstallDirectoryMustBeSpecified calls <->
   noCustom /\ unusable /\
   InstallPath.ConfigFindOrBrowseInstallDirectory e = false) /\
  (forall path, In (InstallPath.CallOriginalGameDataExists path) calls <->
   noCustom /\ path = InstallPath.RCT2Path e /\ path <> EmptyString) /\
  (In InstallPath.ErrorInstallDirectoryMustBeSpecified calls ->
   result = EmptyString) /\
  (noCustom -> ~ unusable -> result = InstallPath.RCT2Path e) /\
  (noCustom -> unusable ->
   InstallPath.ConfigFindOrBrowseInstallDirectory e = true ->
   result = InstallPath.RCT2PathAfterBrowse e).
Proof.
  unfold InstallPath.GetOrPromptRCT2Path.
  destruct (InstallPath.gCustomRCT2DataPath e) as [|c cs] eqn:Ec;
    cbn [InstallPath.isEmpty];
    [destruct (InstallPath.RCT2Path e) as [|p ps] eqn:Ep;
       cbn [InstallPath.isEmpty];
       [|destruct (InstallPath.OriginalGameDataExists e (String p ps)) eqn:Ex];
       destruct (InstallPath.ConfigFindOrBrowseInstallDirectory e) eqn:Eb|];
    cbn; intuition (congruence || discriminate).
Qed.

(** A configured directory without game data: one probe, one prompt, and
    the directory the user picked. *)
Example GetOrPromptRCT2Path_example :
  InstallPath.GetOrPromptRCT2Path InstallPath.exampleEnv
  = ("/games/rct2"%string,
     [InstallPath.CallOriginalGameDataExists "/old";
      InstallPath.CallConfigFindOrBrowseInstallDirectory]).
Proof. reflexivity. Qed.

(** ** Copying the original saved games *)

Section UserFilesFacts.
Variable PathCombine : string -> string -> string.
Variable PathGetDirectory : string -> string.

Lemma copiesOf_app (l1 l2 : list UserFiles.FileCall) :
  UserFiles.copiesOf (l1 ++ l2) = UserFiles.copiesOf l1 ++ UserFiles.copiesOf l2.
Proof.
  induction l1 as [|c l1 IH]; [reflexivity|].
  destruct c; cbn [UserFiles.copiesOf app]; rewrite IH; reflexivity.
Qed.

Lemma copyLoop_copies (dstRoot : string) (entries : list UserFiles.ScanEntry) :
  UserFiles.copiesOf (UserFiles.copyLoop PathCombine PathGetDirectory dstRoot entries)
  = map (fun e => (UserFiles.se_path e,
                   PathCombine dstRoot (UserFiles.se_pathRelative e), false))
      (List.filter (fun e => negb (UserFiles.se_exists e))
         (UserFiles.takeWhile UserFiles.se_createDirectory entries)).
Proof.
  induction entries as [|e rest IH]; [reflexivity|].
  cbn [UserFiles.copyLoop UserFiles.takeWhile].
  destruct (UserFiles.se_createDirectory e); cbn [negb]; [|reflexivity].
  cbn [List.filter]. rewrite !copiesOf_app, IH.
  destruct (UserFiles.se_exists e); cbn [negb]; [reflexivity|].
  destruct (UserFiles.se_copy e); reflexivity.
Qed.

Lemma copyLoop_break (dstRoot : string) (pre : list UserFiles.ScanEntry)
    (bad : UserFiles.ScanEntry) (post : list UserFiles.ScanEntry) :
  UserFiles.se_createDirectory bad = false ->
  UserFiles.copyLoop PathCombine PathGetDirectory dstRoot (pre ++ bad :: post)
  = UserFiles.copyLoop PathCombine PathGetDirectory dstRoot (pre ++ [bad]).
Proof.
  intros Hb. induction pre as [|e pre IH]; cbn [app UserFiles.copyLoop].
  - rewrite Hb. reflexivity.
  - destruct (UserFiles.se_createDirectory e); cbn [negb]; [|reflexivity].
    rewrite IH. reflexivity.
Qed.
End UserFilesFacts.

(** X10.  [CopyOriginalUserFilesOver(srcRoot, dstRoot, pattern)] never
    overwrites: the copies it attempts are exactly, in scan order, those of
    the scanned files whose destination does not exist yet, each with the
    overwrite flag off, up to the first file whose destination directory
    cannot be created.  That failure ends the scan: the files after it are
    not looked at.  A copy that fails does not end it. *)
Theorem CopyOriginalUserFilesOver_never_overwrites
    (PathCombine : string -> string -> string)
    (PathGetDirectory : string -> string)
    (PathScanDirectory : string -> list UserFiles.ScanEntry)
    (srcRoot dstRoot pattern : string) :
  let entries := PathScanDirectory (PathCombine srcRoot pattern) in
  let log :=
    UserFiles.CopyOriginalUserFilesOver_roots PathCombine PathGetDirectory
      PathScanDirectory srcRoot dstRoot pattern in
  UserFiles.copiesOf log
  = map (fun e => (UserFiles.se_path e,
                   PathCombine dstRoot (UserFiles.se_pathRelative e), false))
      (List.filter (fun e => negb (UserFiles.se_exists e))
         (UserFiles.takeWhile UserFiles.se_createDirectory entries)) /\
  (forall pre bad post,
     entries = pre ++ bad :: post ->
     UserFiles.se_createDirectory bad = false ->
     log = UserFiles.copyLoop PathCombine PathGetDirectory dstRoot (pre ++ [bad])).
Proof.
  intros entries log. split.
  - apply copyLoop_copies.
  - intros pre bad post E Hb. unfold log, UserFiles.CopyOriginalUserFilesOver_roots.
    fold entries. rewrite E. apply copyLoop_break. exact Hb.
Qed.

(** Four saved games: the second exists already, the directory of the third
    cannot be created.  Only the first is copied. *)
Lemma CopyOriginalUserFilesOver_never_overwrites_witness :
  UserFiles.copiesOf
    (UserFiles.CopyOriginalUserFilesOver_roots UserFiles.exampleCombine
       UserFiles.exampleGetDirectory (fun _ => UserFiles.exampleEntries)
       "rct2/save" "user/save" "*.sv6")
  = [("rct2/save/a.sv6"%string, "user/save/a.sv6"%string, false)] /\
  UserFiles.CopyOriginalUserFilesOver_roots UserFiles.exampleCombine
    UserFiles.exampleGetDirectory (fun _ => UserFiles.exampleEntries)
    "rct2/save" "user/save" "*.sv6"
  = UserFiles.copyLoop UserFiles.exampleCombine UserFiles.exampleGetDirectory
      "user/save" (firstn 3 UserFiles.exampleEntries).
Proof.
  destruct (CopyOriginalUserFilesOver_never_overwrites UserFiles.exampleCombine
              UserFiles.exampleGetDirectory (fun _ => UserFiles.exampleEntries)
              "rct2/save" "user/save" "*.sv6") as [H1 H2].
  split; [exact H1|].
  exact (H2 (firstn 2 UserFiles.exampleEntries)
            (UserFiles.mkScanEntry "rct2/save/c.sv6" "c.sv6" false false true) [UserFiles.mkScanEntry "rct2/save/d.sv6" "d.sv6" true false true] eq_refl eq_refl).
Defined.

(** X11.  [EnsureDirectoriesExist] tries to create every directory it is
    given, in order, whether or not earlier ones failed, and reports exactly
    the ones that failed: unlike the copy loop, a failure does not end it. *)
Theorem EnsureDirectoriesExist_tries_all
    (GetDirectoryPath : UserFiles.DIRBASE -> UserFiles.DIRID -> string)
    (PathCreateDirectory : string -> bool)
    (dirBase : UserFiles.DIRBASE) (dirIds : list UserFiles.DIRID) :
  let log :=
    UserFiles.EnsureDirectoriesExist GetDirectoryPath PathCreateDirectory
      dirBase dirIds in
  UserFiles.createdOf log = map (GetDirectoryPath dirBase) dirIds /\
  UserFiles.failedOf log
  = List.filter (fun path => negb (PathCreateDirectory path))
      (map (GetDirectoryPath dirBase) dirIds).
Proof.
  cbn zeta. induction dirIds as [|d rest [IH1 IH2]]; [split; reflexivity|].
  cbn [UserFiles.EnsureDirectoriesExist map List.filter].
  destruct (PathCreateDirectory (GetDirectoryPath dirBase d)); cbn [negb app];
    cbn [UserFiles.createdOf UserFiles.failedOf]; rewrite IH1, IH2;
    split; reflexivity.
Qed.

(** ** Loading a park *)

Section ParkLoadFacts.
Import ParkLoad.
Variable cfg : Config.
Variable o : Oracle.

Lemma adds_weaken {A : Type} (P P' : Call -> Prop) (m : L A) :
  (forall c, P c -> P' c) -> adds P m -> adds P' m.
Proof.
  intros HP Hm s. destruct (Hm s) as (evs & E & F).
  exists evs. split; [exact E|]. eapply Forall_impl; eauto.
Qed.

Lemma adds_ret {A : Type} (P : Call -> Prop) (a : A) : adds P (ret a).
Proof. intros s. exists []. cbn. rewrite app_nil_r. auto. Qed.

Lemma adds_throw {A : Type} (P : Call -> Prop) (e : Exception) :
  adds P (throw (A := A) e).
Proof. intros s. exists []. cbn. rewrite app_nil_r. auto. Qed.

Lemma adds_getFlag (P : Call -> Prop) : adds P getFlag.
Proof. intros s. exists []. cbn. rewrite app_nil_r. auto. Qed.

Lemma adds_setFlag (P : Call -> Prop) (b : bool) : adds P (setFlag b).
Proof. intros s. exists []. cbn. rewrite app_nil_r. auto. Qed.

Lemma adds_getMode (P : Call -> Prop) : adds P (getMode o).
Proof. intros s. exists []. cbn. rewrite app_nil_r. auto. Qed.

Lemma adds_emit (P : Call -> Prop) (c : Call) : P c -> adds P (emit c).
Proof. intros Hc s. exists [c]. cbn. auto. Qed.

Lemma adds_call (P : Call -> Prop) (c : Call) : P c -> adds P (call o c).
Proof.
  intros Hc s. exists [c]. unfold call.
  destruct (throws o (hist s) c); cbn; auto.
Qed.

Lemma adds_bind_val {A B : Type} (P : Call -> Prop) (R : A -> Prop)
    (m : L A) (k : A -> L B) :
  yields R m -> adds P m -> (forall a, R a -> adds P (k a)) ->
  adds P (bind m k).
Proof.
  intros Hy Hm Hk s. unfold bind.
  specialize (Hm s). specialize (Hy s).
  destruct (m s) as [[a|e] s1]; cbn in *.
  - destruct Hm as (ev1 & E1 & F1).
    destruct (Hk a (Hy a eq_refl) s1) as (ev2 & E2 & F2).
    exists (ev1 ++ ev2). rewrite E2, E1, app_assoc.
    split; [reflexivity|]. rewrite Forall_app. auto.
  - exact Hm.
Qed.

Lemma adds_bind {A B : Type} (P : Call -> Prop) (m : L A) (k : A -> L B) :
  adds P m -> (forall a, adds P (k a)) -> adds P (bind m k).
Proof.
  intros Hm Hk. apply (adds_bind_val P (fun _ => True)); auto.
  intros s a _. exact I.
Qed.

Lemma adds_getMode_bind {B : Type} (P : Call -> Prop)
    (k : NETWORK_MODE -> L B) :
  (forall h, adds P (k (networkMode o h))) -> adds P (bind (getMode o) k).
Proof. intros Hk s. unfold bind, getMode. apply Hk. Qed.

Lemma adds_when (P : Call -> Prop) (b : bool) (m : L unit) :
  adds P m -> adds P (when b m).
Proof. intros Hm. destruct b; [exact Hm|apply adds_ret]. Qed.

Lemma adds_tryCatch {A : Type} (P : Call -> Prop) (m : L A)
    (h : Exception -> L A) :
  adds P m -> (forall e, adds P (h e)) -> adds P (tryCatch m h).
Proof.
  intros Hm Hh s. unfold tryCatch. specialize (Hm s).
  destruct (m s) as [[a|e] s1]; cbn in *; [exact Hm|].
  destruct Hm as (ev1 & E1 & F1).
  destruct (Hh e s1) as (ev2 & E2 & F2).
  exists (ev1 ++ ev2). rewrite E2, E1, app_assoc.
  split; [reflexivity|]. rewrite Forall_app. auto.
Qed.

Lemma keeps_ret {A : Type} (a : A) : keeps (ret a).
Proof. intros s. reflexivity. Qed.

Lemma keeps_throw {A : Type} (e : Exception) : keeps (throw (A := A) e).
Proof. intros s. reflexivity. Qed.

Lemma keeps_getMode : keeps (getMode o).
Proof. intros s. reflexivity. Qed.

Lemma keeps_emit (c : Call) : keeps (emit c).
Proof. intros s. reflexivity. Qed.

Lemma keeps_call (c : Call) : keeps (call o c).
Proof.
  intros s. unfold call. destruct (throws o (hist s) c); reflexivity.
Qed.

Lemma keeps_bind {A B : Type} (m : L A) (k : A -> L B) :
  keeps m -> (forall a, keeps (k a)) -> keeps (bind m k).
Proof.
  intros Hm Hk s. unfold bind. specialize (Hm s).
  destruct (m s) as [[a|e] s1]; cbn in *; [|exact Hm].
  rewrite Hk. exact Hm.
Qed.

Lemma keeps_when (b : bool) (m : L unit) : keeps m -> keeps (when b m).
Proof. intros Hm. destruct b; [exact Hm|apply keeps_ret]. Qed.

Lemma throwsOnly_ret {A : Type} (Q : Exception -> Prop) (a : A) :
  throwsOnly Q (ret a).
Proof. intros s e H. discriminate H. Qed.

Lemma throwsOnly_emit (Q : Exception -> Prop) (c : Call) :
  throwsOnly Q (emit c).
Proof. intros s e H. discriminate H. Qed.

Lemma throwsOnly_getFlag (Q : Exception -> Prop) : throwsOnly Q getFlag.
Proof. intros s e H. discriminate H. Qed.

Lemma throwsOnly_setFlag (Q : Exception -> Prop) (b : bool) :
  throwsOnly Q (setFlag b).
Proof. intros s e H. discriminate H. Qed.

Lemma throwsOnly_getMode (Q : Exception -> Prop) : throwsOnly Q (getMode o).
Proof. intros s e H. discriminate H. Qed.

Lemma throwsOnly_throw {A : Type} (Q : Exception -> Prop) (e : Exception) :
  Q e -> throwsOnly Q (throw (A := A) e).
Proof. intros He s e' H. cbn in H. congruence. Qed.

Lemma throwsOnly_call (Q : Exception -> Prop) (c : Call) :
  (forall h e, throws o h c = Some e -> Q e) -> throwsOnly Q (call o c).
Proof.
  intros Hc s e. unfold call.
  destruct (throws o (hist s) c) as [e'|] eqn:E; cbn; intros H;
    [|discriminate H].
  injection H as <-. eapply Hc; eauto.
Qed.

Lemma throwsOnly_bind {A B : Type} (Q : Exception -> Prop) (m : L A)
    (k : A -> L B) :
  throwsOnly Q m -> (forall a, throwsOnly Q (k a)) ->
  throwsOnly Q (bind m k).
Proof.
  intros Hm Hk s e. unfold bind. specialize (Hm s).
  destruct (m s) as [[a|e'] s1]; cbn in *.
  - apply Hk.
  - intros H. injection H as <-. apply Hm. reflexivity.
Qed.

Lemma throwsOnly_when (Q : Exception -> Prop) (b : bool) (m : L unit) :
  throwsOnly Q m -> throwsOnly Q (when b m).
Proof. intros Hm. destruct b; [exact Hm|apply throwsOnly_ret]. Qed.

Lemma throwsOnly_tryCatch {A : Type} (Q Q' : Exception -> Prop) (m : L A)
    (h : Exception -> L A) :
  throwsOnly Q' m -> (forall e, Q' e -> throwsOnly Q (h e)) ->
  throwsOnly Q (tryCatch m h).
Proof.
  intros Hm Hh s e. unfold tryCatch. specialize (Hm s).
  destruct (m s) as [[a|e'] s1]; cbn in *.
  - intros H. discriminate H.
  - apply Hh. apply Hm. reflexivity.
Qed.

Lemma throwsOnly_finally {A : Type} (Q : Exception -> Prop) (m : L A)
    (c : Call) :
  throwsOnly Q m -> throwsOnly Q (finally m c).
Proof.
  intros Hm s e. unfold finally. specialize (Hm s).
  destruct (m s) as [r s1]; cbn in *. apply Hm.
Qed.

Lemma bind_assoc {A B C : Type} (m : L A) (k : A -> L B) (k' : B -> L C)
    (s : St) :
  bind (bind m k) k' s = bind m (fun a => bind (k a) k') s.
Proof. unfold bind. destruct (m s) as [[a|e] s1]; reflexivity. Qed.

Lemma bind_call {A : Type} (c : Call) (k : unit -> L A) (s : St) :
  bind (call o c) k s
  = match throws o (hist s) c with
    | Some e => (Thrown e, record c s)
    | None => k tt (record c s)
    end.
Proof. unfold bind, call. destruct (throws o (hist s) c); reflexivity. Qed.

Lemma call_first {A : Type} (P : Call -> Prop) (c : Call) (k : unit -> L A)
    (s : St) :
  adds P (k tt) ->
  exists evs,
    hist (snd (bind (call o c) k s)) = hist s ++ c :: evs /\ Forall P evs.
Proof.
  intros Hk. unfold bind, call.
  destruct (throws o (hist s) c).
  - exists []. cbn. auto.
  - destruct (Hk (record c s)) as (evs & E & F).
    exists evs. rewrite E. cbn. rewrite <- app_assoc. auto.
Qed.

(** The handlers only report; they ask for the title screen exactly when
    the local flag is set. *)
Lemma loadHandlers_spec (path : string) (e : Exception) (s : St) :
  exists evs,
    hist (snd (loadHandlers cfg o path e s)) = hist s ++ evs /\
    Forall (fun c => isReport c = true) evs /\
    (loadTitleScreenFirstOnFail s = false -> ~ In TitleLoad evs) /\
    (forall u, fst (loadHandlers cfg o path e s) = Normal u ->
       loadTitleScreenFirstOnFail s = true -> In TitleLoad evs).
Proof.
  destruct s as [h f]. destruct e as [k w].
  unfold loadHandlers, titleLoadIfRequested, bind, call, getFlag, when, ret,
    throw, record; cbn.
  destruct k, f; cbn;
    repeat match goal with
           | |- context [throws o ?h ?c] => destruct (throws o h c); cbn
           | |- context [(?a =? ?b)%Z] => destruct (a =? b)%Z; cbn
           end;
    rewrite <- ?app_assoc; cbn;
    (eexists; split; [reflexivity || (rewrite app_nil_r; reflexivity)|]);
    (split; [repeat constructor|]);
    (split; [intros ?; cbn; try discriminate; intuition discriminate|]);
    intros u Hu Hf; cbn; try discriminate; auto.
Qed.

Ltac adds_step :=
  first
    [ apply adds_ret | apply adds_throw | apply adds_getFlag
    | apply adds_setFlag | apply adds_getMode
    | apply adds_emit | apply adds_call | apply adds_when
    | apply adds_bind; [|intros ?]
    | match goal with
      | |- adds _ (if ?b then _ else _) => destruct b
      | |- adds _ (match ?x with _ => _ end) => destruct x
      end ].

Ltac keeps_step :=
  first
    [ apply keeps_ret | apply keeps_throw | apply keeps_getMode
    | apply keeps_emit | apply keeps_call | apply keeps_when
    | apply keeps_bind; [|intros ?]
    | match goal with
      | |- keeps (if ?b then _ else _) => destruct b
      | |- keeps (match ?x with _ => _ end) => destruct x
      end ].

Lemma classifyAndRead_adds (stream : Stream) (path : string) :
  adds (fun c => c <> TitleLoad /\ c <> GameUnloadScripts)
    (classifyAndRead cfg o stream path).
Proof.
  unfold classifyAndRead. repeat adds_step; split; discriminate.
Qed.

Lemma classifyAndRead_keeps (stream : Stream) (path : string) :
  keeps (classifyAndRead cfg o stream path).
Proof. unfold classifyAndRead. repeat keeps_step. Qed.

Lemma importPark_adds (P : Call -> Prop) (path : string)
    (result : ParkLoadResult) :
  (forall c, touchesPark c = true -> P c) ->
  adds P (importPark cfg o path result).
Proof.
  intros HP. unfold importPark. repeat adds_step; apply HP; reflexivity.
Qed.

Lemma importPark_keeps (path : string) (result : ParkLoadResult) :
  keeps (importPark cfg o path result).
Proof. unfold importPark. repeat keeps_step. Qed.

Lemma startPark_adds (P : Call -> Prop) (asScenario : bool)
    (info : ClassifiedFileInfo) :
  (forall c, touchesPark c = true -> P c) ->
  adds P (startPark cfg o asScenario info).
Proof.
  intros HP. unfold startPark. repeat adds_step; apply HP; reflexivity.
Qed.

Lemma startPark_keeps (asScenario : bool) (info : ClassifiedFileInfo) :
  keeps (startPark cfg o asScenario info).
Proof. unfold startPark. repeat keeps_step. Qed.

Lemma finishLoad_adds (result : ParkLoadResult) (sendMap : bool) :
  adds (fun c => c <> TitleLoad /\ c <> GameLoadInit /\ c <> ScenarioBegin
                 /\ c <> NetworkClose)
    (finishLoad cfg o result sendMap).
Proof.
  unfold finishLoad. repeat adds_step; repeat split; discriminate.
Qed.

Lemma finishLoad_keeps (result : ParkLoadResult) (sendMap : bool) :
  keeps (finishLoad cfg o result sendMap).
Proof. unfold finishLoad. repeat keeps_step. Qed.

Lemma yields_bind {A B : Type} (R : B -> Prop) (m : L A) (k : A -> L B) :
  (forall a, yields R (k a)) -> yields R (bind m k).
Proof.
  intros Hk s b. unfold bind. destruct (m s) as [[a|e] s1]; cbn.
  - apply Hk.
  - intros H. discriminate H.
Qed.

Lemma yields_ret {A : Type} (R : A -> Prop) (a : A) : R a -> yields R (ret a).
Proof. intros Ha s a' H. cbn in H. congruence. Qed.

Lemma loadBody_yields_true (stream : Stream) (path : string)
    (asScenario : bool) :
  yields (fun b => b = true) (loadBody cfg o stream path asScenario).
Proof.
  unfold loadBody. repeat (apply yields_bind; intros ?).
  apply yields_ret. reflexivity.
Qed.

Lemma afterRead_keeps (path : string) (asScenario : bool)
    (r : ClassifiedFileInfo * ParkLoadResult) :
  keeps
    (bind (importPark cfg o path (snd r))
       (fun _ => bind (startPark cfg o asScenario (fst r))
          (fun sendMap => bind (finishLoad cfg o (snd r) sendMap)
             (fun _ => ret true)))).
Proof.
  apply keeps_bind; [apply importPark_keeps|]. intros _.
  apply keeps_bind; [apply startPark_keeps|]. intros sendMap.
  apply keeps_bind; [apply finishLoad_keeps|]. intros _. apply keeps_ret.
Qed.

Lemma Forall_not_In (c : Call) (evs : list Call) :
  Forall (fun c' => c' <> c) evs -> ~ In c evs.
Proof. rewrite List.Forall_forall. intros H Hin. exact (H c Hin eq_refl). Qed.

Lemma bind_setFlag {A : Type} (b : bool) (k : unit -> L A) (s : St) :
  bind (setFlag b) k s = k tt (mkSt (hist s) b).
Proof. reflexivity. Qed.

Lemma bind_hist {A B : Type} (P : Call -> Prop) (m : L A) (k : A -> L B)
    (s : St) :
  (forall a, adds P (k a)) ->
  exists evs,
    hist (snd (bind m k s)) = hist (snd (m s)) ++ evs /\ Forall P evs.
Proof.
  intros Hk. unfold bind. destruct (m s) as [[a|e] s1]; cbn.
  - apply Hk.
  - exists []. rewrite app_nil_r. auto.
Qed.

Lemma importPark_first (path : string) (result : ParkLoadResult) (s : St) :
  exists evs,
    hist (snd (importPark cfg o path result s))
    = hist s ++ GameUnloadScripts :: evs /\
    Forall (fun c => c <> TitleLoad) evs.
Proof.
  unfold importPark. apply call_first. repeat adds_step; discriminate.
Qed.

(** Where the body stands when it throws: either the file has not been
    read yet and the flag is the caller's, or the import has begun and the
    flag is set. *)
Lemma loadBody_thrown (stream : Stream) (path : string) (asScenario : bool)
    (s s1 : St) (e : Exception) :
  loadBody cfg o stream path asScenario s = (Thrown e, s1) ->
  exists evs,
    hist s1 = hist s ++ evs /\ ~ In TitleLoad evs /\
    ((loadTitleScreenFirstOnFail s1 = loadTitleScreenFirstOnFail s /\
      ~ In GameUnloadScripts evs) \/
     (loadTitleScreenFirstOnFail s1 = true /\ In GameUnloadScripts evs)).
Proof.
  unfold loadBody. unfold bind at 1.
  pose proof (classifyAndRead_adds stream path s) as (ev1 & E1 & F1).
  pose proof (classifyAndRead_keeps stream path s) as K1.
  rewrite List.Forall_forall in F1.
  destruct (classifyAndRead cfg o stream path s) as [[r|e1] s0];
    cbn [fst snd] in *.
  - rewrite bind_setFlag.
    set (s0' := mkSt (hist s0) true). intros H.
    pose proof (afterRead_keeps path asScenario r s0') as K2.
    destruct (importPark_first path (snd r) s0') as (ev2 & E2 & F2).
    edestruct (bind_hist (fun c => c <> TitleLoad)
                 (importPark cfg o path (snd r))
                 (fun _ => bind (startPark cfg o asScenario (fst r))
                    (fun sendMap => bind (finishLoad cfg o (snd r) sendMap)
                       (fun _ => ret true))) s0') as (ev3 & E3 & F3).
    { intros _. apply adds_bind;
        [apply startPark_adds; intros c Hc E; subst c; discriminate|].
      intros sendMap. apply adds_bind; [|intros _; apply adds_ret].
      eapply adds_weaken; [|apply finishLoad_adds].
      intros c Hc. exact (proj1 Hc). }
    rewrite H in K2, E3. cbn in K2, E3.
    exists (ev1 ++ GameUnloadScripts :: ev2 ++ ev3).
    split.
    { rewrite E3, E2. cbn [hist s0']. rewrite E1.
      rewrite <- !app_assoc. reflexivity. }
    split.
    { rewrite in_app_iff. cbn. rewrite in_app_iff.
      intros [Hin|[Hin|[Hin|Hin]]].
      - exact (proj1 (F1 _ Hin) eq_refl).
      - discriminate Hin.
      - exact (Forall_not_In _ _ F2 Hin).
      - exact (Forall_not_In _ _ F3 Hin). }
    right. split; [exact K2|]. rewrite in_app_iff. right. left. reflexivity.
  - intros H. injection H as <- <-. exists ev1. split; [exact E1|].
    split; [intros Hin; exact (proj1 (F1 _ Hin) eq_refl)|].
    left. split; [exact K1|]. intros Hin. exact (proj2 (F1 _ Hin) eq_refl).
Qed.

Lemma classifyAndRead_rejected (stream : Stream) (path : string) (s : St) :
  accepted o stream = false ->
  exists e,
    classifyAndRead cfg o stream path s
    = (Thrown e, record (TryClassifyFile stream) s).
Proof.
  unfold accepted, classifyAndRead, bind, call. intros H.
  destruct (throws o (hist s) (TryClassifyFile stream)) as [e|];
    [eexists; reflexivity|].
  destruct (classified o stream) as [info|]; [|eexists; reflexivity].
  destruct (info_Type info); try discriminate H. eexists; reflexivity.
Qed.

Lemma LoadParkFromStream_unfold (stream : Stream) (path : string)
    (flag asScenario : bool) (s : St) :
  LoadParkFromStream cfg o stream path flag asScenario s
  = match loadBody cfg o stream path asScenario (mkSt (hist s) flag) with
    | (Thrown e, s1) =>
        match loadHandlers cfg o path e s1 with
        | (Normal _, s2) => (Normal false, s2)
        | (Thrown e', s2) => (Thrown e', s2)
        end
    | r => r
    end.
Proof.
  unfold LoadParkFromStream. rewrite bind_setFlag. unfold tryCatch.
  destruct (loadBody cfg o stream path asScenario (mkSt (hist s) flag))
    as [[b|e] s1]; [reflexivity|].
  unfold bind. destruct (loadHandlers cfg o path e s1) as [[u|e'] s2];
    reflexivity.
Qed.


Ltac run_calls :=
  unfold bind, call, emit, ret, throw, when, getMode, getFlag; cbn;
  repeat match goal with
         | |- context [throws o ?h ?c] =>
             destruct (throws o h c) eqn:?; cbn
         end.

(** The body up to the point of no return, when it does not throw. *)
Lemma classifyAndRead_Normal (stream : Stream) (path : string) (s s1 : St)
    (r : ClassifiedFileInfo * ParkLoadResult) :
  classifyAndRead cfg o stream path s = (Normal r, s1) ->
  exists info,
    classified o stream = Some info /\ accepted o stream = true /\
    r = (info, loadResult o) /\
    s1 = mkSt (hist s ++ [TryClassifyFile stream; importerFor cfg info;
                          LoadFromStream stream
                            (isScenario (info_Type info)) false path])
           (loadTitleScreenFirstOnFail s).
Proof.
  unfold classifyAndRead, accepted, importerFor.
  destruct (classified o stream) as [info|] eqn:Ec.
  - destruct (info_Type info) eqn:Et; cbn [isPark isSavedGame isScenario negb andb orb];
      try destruct (info_Version info <=? kFileTypeS4Cutoff cfg)%Z eqn:Ev;
      run_calls; intros H; try discriminate H; injection H as <- <-;
      exists info; rewrite Et, ?Ev; unfold record; cbn;
      rewrite <- !app_assoc; auto.
  - run_calls; intros H; discriminate H.
Qed.

Lemma importPark_Normal (path : string) (result : ParkLoadResult)
    (s s1 : St) (u : unit) :
  importPark cfg o path result s = (Normal u, s1) ->
  s1 = mkSt (hist s ++ [GameUnloadScripts;
                        LoadObjects (RequiredObjects result); Import;
                        Assign_gScenarioSavePath path;
                        Assign_gCurrentLoadedPath path;
                        Assign_gFirstTimeSaving true; GameFixSaveVars;
                        MapAnimationAutoCreate; EntityTweenerReset;
                        Assign_gScreenAge 0;
                        Assign_gLastAutoSaveUpdate (kAutosavePause cfg)])
         (loadTitleScreenFirstOnFail s).
Proof.
  unfold importPark. run_calls; intros H; try discriminate H.
  injection H as Hu Hs. rewrite <- Hs. unfold record; cbn. rewrite <- ?app_assoc. reflexivity.
Qed.

(** Which way the park is started. *)
Lemma startPark_Normal (asScenario : bool) (info : ClassifiedFileInfo)
    (s s1 : St) (sendMap : bool) :
  startPark cfg o asScenario info s = (Normal sendMap, s1) ->
  exists evs,
    hist s1 = hist s ++ evs /\
    (if negb asScenario
        && (isPark (info_Type info) || isSavedGame (info_Type info))
     then In GameLoadInit evs /\ ~ In ScenarioBegin evs
     else In ScenarioBegin evs /\ ~ In GameLoadInit evs).
Proof.
  unfold startPark.
  destruct (negb asScenario
            && (isPark (info_Type info) || isSavedGame (info_Type info)));
    destruct (DISABLE_NETWORK cfg);
    unfold bind, call, emit, ret, throw, when, getMode, getFlag; cbn;
    repeat match goal with
           | |- context [isClient ?m] => destruct (isClient m); cbn
           | |- context [throws o ?h ?c] =>
               destruct (throws o h c) eqn:?; cbn
           end;
    intros H; try discriminate H; injection H as _ <-;
    unfold record; cbn; rewrite <- ?app_assoc;
    (eexists; split; [reflexivity|]); cbn;
    (split; [tauto|intros Hin; decompose [or] Hin; discriminate || tauto]).
Qed.

Lemma finishLoad_first (result : ParkLoadResult) (sendMap : bool) (s : St) :
  exists evs,
    hist (snd (finishLoad cfg o result sendMap s))
    = hist s ++ PeepUpdateNames (ShowRealNamesOfGuests o) :: evs /\
    Forall (fun c => c <> TitleLoad /\ c <> GameLoadInit /\ c <> ScenarioBegin)
      evs.
Proof.
  unfold finishLoad. apply call_first.
  repeat adds_step; repeat split; discriminate.
Qed.

(** The calls of a body that runs to its end. *)
Lemma loadBody_Normal (stream : Stream) (path : string) (asScenario : bool)
    (s s1 : St) (b : bool) :
  loadBody cfg o stream path asScenario s = (Normal b, s1) ->
  exists info tail,
    classified o stream = Some info /\ accepted o stream = true /\
    hist s1
    = hist s
      ++ [TryClassifyFile stream; importerFor cfg info;
          LoadFromStream stream (isScenario (info_Type info)) false path;
          GameUnloadScripts;
          LoadObjects (RequiredObjects (loadResult o)); Import;
          Assign_gScenarioSavePath path; Assign_gCurrentLoadedPath path;
          Assign_gFirstTimeSaving true; GameFixSaveVars;
          MapAnimationAutoCreate; EntityTweenerReset; Assign_gScreenAge 0;
          Assign_gLastAutoSaveUpdate (kAutosavePause cfg)]
      ++ tail /\
    (if negb asScenario
        && (isPark (info_Type info) || isSavedGame (info_Type info))
     then In GameLoadInit tail /\ ~ In ScenarioBegin tail
     else In ScenarioBegin tail /\ ~ In GameLoadInit tail) /\
    In (PeepUpdateNames (ShowRealNamesOfGuests o)) tail /\
    ~ In TitleLoad tail.
Proof.
  unfold loadBody. unfold bind at 1.
  destruct (classifyAndRead cfg o stream path s) as [[r|e] sa] eqn:HA;
    [|intros H; discriminate H].
  destruct (classifyAndRead_Normal _ _ _ _ _ HA) as (info & Ec & Eacc & -> & ->).
  rewrite bind_setFlag. cbn [fst snd hist]. unfold bind at 1.
  match goal with
  | |- context [importPark cfg o path ?res ?st] =>
      destruct (importPark cfg o path res st) as [[u|e] sb] eqn:HI;
        [|intros H; discriminate H]
  end.
  apply importPark_Normal in HI. cbn [hist loadTitleScreenFirstOnFail] in HI.
  unfold bind at 1.
  destruct (startPark cfg o asScenario info sb) as [[sendMap|e] sc] eqn:HS;
    [|intros H; discriminate H].
  destruct (startPark_Normal _ _ _ _ _ HS) as (ev1 & E1 & Hstart).
  pose proof (startPark_adds (fun c => c <> TitleLoad) asScenario info) as HT.
  destruct (HT (fun c Hc E => ltac:(subst c; discriminate Hc)) sb)
    as (ev1' & E1' & F1').
  rewrite HS in E1'. cbn [snd] in E1'.
  assert (ev1' = ev1) as -> by (rewrite E1 in E1'; eapply app_inv_head; eauto).
  destruct (finishLoad_first (loadResult o) sendMap sc) as (ev2 & E2 & F2).
  unfold bind.
  destruct (finishLoad cfg o (loadResult o) sendMap sc) as [[u'|e] sd];
    [|intros H; discriminate H].
  cbn [snd] in E2. intros H. injection H as _ <-.
  exists info, (ev1 ++ PeepUpdateNames (ShowRealNamesOfGuests o) :: ev2).
  rewrite List.Forall_forall in F2.
  split; [exact Ec|]. split; [exact Eacc|]. split.
  { rewrite E2, E1, HI. cbn [hist]. rewrite <- !app_assoc. reflexivity. }
  split.
  { destruct (negb asScenario
              && (isPark (info_Type info) || isSavedGame (info_Type info)));
      destruct Hstart as [Hin Hnot]; (split; [apply in_or_app; auto|]);
      intros Hx; apply in_app_or in Hx; destruct Hx as [Hx|[Hx|Hx]];
      try discriminate Hx; try tauto;
      destruct (F2 _ Hx) as (? & ? & ?); congruence. }
  split; [apply in_or_app; right; left; reflexivity|].
  intros Hx. apply in_app_or in Hx. destruct Hx as [Hx|[Hx|Hx]].
  - exact (Forall_not_In _ _ F1' Hx).
  - discriminate Hx.
  - destruct (F2 _ Hx) as (? & ? & ?); congruence.
Qed.

Ltac throws_step :=
  first
    [ apply throwsOnly_ret | apply throwsOnly_emit | apply throwsOnly_getFlag
    | apply throwsOnly_setFlag | apply throwsOnly_getMode
    | apply throwsOnly_when
    | apply throwsOnly_bind; [|intros ?]
    | match goal with
      | |- throwsOnly _ (if ?b then _ else _) => destruct b
      | |- throwsOnly _ (match ?x with _ => _ end) => destruct x
      end ].

(** What can leave the body: what a call throws and, for a stream that is
    not accepted, the body's own [runtime_error]. *)
Lemma loadBody_throwsOnly (Q : Exception -> Prop) (stream : Stream)
    (path : string) (asScenario : bool) :
  (forall h c e, throws o h c = Some e -> Q e) ->
  (accepted o stream = false -> forall msg, Q (runtime_error msg)) ->
  throwsOnly Q (loadBody cfg o stream path asScenario).
Proof.
  intros Hc Hr.
  assert (forall c, throwsOnly Q (call o c)) as Hcall
    by (intros c; apply throwsOnly_call; intros h e; apply Hc).
  unfold loadBody. apply throwsOnly_bind.
  { unfold classifyAndRead, accepted in *.
    apply throwsOnly_bind; [apply Hcall|]. intros _.
    destruct (classified o stream) as [info|].
    - destruct (info_Type info); cbn [isPark isSavedGame isScenario negb andb orb] in *;
        try (apply throwsOnly_throw; apply Hr; reflexivity);
        repeat first [apply Hcall | throws_step].
    - apply throwsOnly_throw; apply Hr; reflexivity. }
  intros r. unfold importPark, startPark, finishLoad.
  repeat first [apply Hcall | throws_step].
Qed.

(** What can leave the handlers: what a reporting call throws and the
    exception at hand if no clause catches it. *)
Lemma loadHandlers_throwsOnly (Q : Exception -> Prop) (path : string)
    (e : Exception) :
  (forall h c e', isReport c = true -> throws o h c = Some e' -> Q e') ->
  (isStdException e = false -> Q e) ->
  throwsOnly Q (loadHandlers cfg o path e).
Proof.
  intros Hc He.
  assert (forall c, isReport c = true -> throwsOnly Q (call o c)) as Hcall
    by (intros c Hr; apply throwsOnly_call; intros h e'; apply Hc; exact Hr).
  unfold loadHandlers, titleLoadIfRequested, isStdException in *.
  destruct (kind e);
    try (apply throwsOnly_throw; apply He; reflexivity);
    repeat first [apply Hcall; reflexivity | throws_step].
Qed.

Lemma LoadParkFromStream_throwsOnly (Q : Exception -> Prop) (stream : Stream)
    (path : string) (flag asScenario : bool) :
  (forall h c e', isReport c = true -> throws o h c = Some e' -> Q e') ->
  (forall h c e', isReport c = false -> throws o h c = Some e' ->
     isStdException e' = false -> Q e') ->
  throwsOnly Q (LoadParkFromStream cfg o stream path flag asScenario).
Proof.
  intros Hrep Hother. unfold LoadParkFromStream.
  apply throwsOnly_bind; [apply throwsOnly_setFlag|]. intros _.
  apply (throwsOnly_tryCatch Q (fun e => isStdException e = false -> Q e)).
  - apply loadBody_throwsOnly.
    + intros h c e' Ht Hs. destruct (isReport c) eqn:Er; eauto.
    + intros _ msg Hs. discriminate Hs.
  - intros e He. apply throwsOnly_bind; [|intros _; apply throwsOnly_ret].
    apply loadHandlers_throwsOnly; auto.
Qed.

(** The local [sendMap] is set only for a server. *)
Lemma startPark_yields (asScenario : bool) (info : ClassifiedFileInfo) :
  yields (fun sendMap => sendMap = true ->
            DISABLE_NETWORK cfg = false /\
            exists h, networkMode o h = NETWORK_MODE_SERVER)
    (startPark cfg o asScenario info).
Proof.
  intros s b. unfold startPark.
  destruct (negb asScenario
            && (isPark (info_Type info) || isSavedGame (info_Type info)));
    destruct (DISABLE_NETWORK cfg);
    unfold bind, call, emit, ret, throw, when, getMode, getFlag; cbn;
    repeat match goal with
           | |- context [isClient ?m] => destruct (isClient m); cbn
           | |- context [throws o ?h ?c] =>
               destruct (throws o h c) eqn:?; cbn
           end;
    intros H; try discriminate H; injection H as <-; intros Hb;
    try discriminate Hb; (split; [reflexivity|]);
    match type of Hb with
    | isServer (networkMode o ?h) = true =>
        exists h; destruct (networkMode o h); try discriminate Hb; reflexivity
    end.
Qed.

Section Adds.
Variable P : Call -> Prop.
Hypothesis HP :
  forall c, isStreamCall c = true -> c <> ServerSendMap ->
    c <> NetworkClose -> P c.
Hypothesis HS :
  DISABLE_NETWORK cfg = false ->
  (exists h, networkMode o h = NETWORK_MODE_SERVER) -> P ServerSendMap.
Hypothesis HC :
  DISABLE_NETWORK cfg = false ->
  (exists h, networkMode o h = NETWORK_MODE_CLIENT) -> P NetworkClose.

Ltac plain := apply HP; [reflexivity|discriminate|discriminate].

Ltac adds_plain :=
  repeat first [ apply adds_call; plain | apply adds_emit; plain | adds_step ].

Lemma close_adds (h : list Call) :
  DISABLE_NETWORK cfg = false ->
  adds P (when (isClient (networkMode o h)) (call o NetworkClose)).
Proof.
  intros Ed. destruct (networkMode o h) eqn:Em; cbn; try apply adds_ret.
  apply adds_call. apply HC; eauto.
Qed.

Lemma startPark_adds_net (asScenario : bool) (info : ClassifiedFileInfo) :
  adds P (startPark cfg o asScenario info).
Proof.
  unfold startPark.
  destruct (negb asScenario
            && (isPark (info_Type info) || isSavedGame (info_Type info)));
    case_eq (DISABLE_NETWORK cfg); intros Ed;
    repeat first
      [ apply adds_getMode_bind; intros ?
      | apply close_adds; assumption
      | apply adds_call; plain
      | apply adds_ret
      | apply adds_bind; [|intros ?] ].
Qed.

Lemma finishLoad_adds_net (result : ParkLoadResult) (sendMap : bool) :
  (sendMap = true ->
   DISABLE_NETWORK cfg = false /\
   exists h, networkMode o h = NETWORK_MODE_SERVER) ->
  adds P (finishLoad cfg o result sendMap).
Proof.
  intros Hsm. unfold finishLoad.
  apply adds_bind; [apply adds_call; plain|]. intros _.
  apply adds_bind.
  { destruct sendMap; [|rewrite andb_false_r; apply adds_ret].
    destruct (Hsm eq_refl) as [Ed Hh]. rewrite Ed. cbn.
    apply adds_call. apply HS; assumption. }
  intros _. adds_plain.
Qed.

Lemma loadHandlers_adds (path : string) (e : Exception) :
  adds P (loadHandlers cfg o path e).
Proof. unfold loadHandlers, titleLoadIfRequested. adds_plain. Qed.

(** Everything [LoadParkFromStream] may call: none of the calls of
    [LoadParkFromFile], [ServerSendMap] only if the game is a server at
    some point, [NetworkClose] only if it is a client at some point. *)
Lemma LoadParkFromStream_adds (stream : Stream) (path : string)
    (flag asScenario : bool) :
  adds P (LoadParkFromStream cfg o stream path flag asScenario).
Proof.
  unfold LoadParkFromStream.
  apply adds_bind; [apply adds_setFlag|]. intros _.
  apply adds_tryCatch.
  - unfold loadBody.
    apply adds_bind; [unfold classifyAndRead; adds_plain|]. intros r.
    apply adds_bind; [apply adds_setFlag|]. intros _.
    apply adds_bind; [unfold importPark; adds_plain|]. intros _.
    apply (adds_bind_val P _ _ _ (startPark_yields asScenario (fst r)));
      [apply startPark_adds_net|].
    intros sendMap Hsm.
    apply adds_bind; [apply finishLoad_adds_net; exact Hsm|].
    intros _. apply adds_ret.
  - intros e. apply adds_bind; [apply loadHandlers_adds|].
    intros _. apply adds_ret.
Qed.

Lemma finally_hist {A : Type} (m : L A) (c : Call) (s : St) :
  hist (snd (finally m c s)) = hist (snd (m s)) ++ [c].
Proof. unfold finally. destruct (m s) as [r s1]. reflexivity. Qed.

(** What [LoadParkFromFile] adds between the registration for the crash
    report and its removal. *)
Lemma fileBody_adds (path : string) (flag asScenario : bool) :
  (forall c, isFileCall c = true ->
     (forall name path, c <> CrashRegisterAdditionalFile name path) ->
     (forall name, c <> CrashUnregisterAdditionalFile name) -> P c) ->
  adds P
    (tryCatch
       (if hasSeaExtension o path then
          bind (call o (DecryptSea path)) (fun _ =>
          bind (LoadParkFromStream cfg o (MemoryStream (seaData o path)) path
                  flag asScenario) (fun loaded =>
          if negb loaded
          then throw (runtime_error ".sea file may have been renamed.")
          else ret true))
        else
          bind (call o (OpenFileStream path)) (fun _ =>
          bind (LoadParkFromStream cfg o (FileStream path) path
                  flag asScenario) (fun loaded =>
          if negb loaded then ret false else ret true)))
       (fun e =>
          if isStdException e then
            bind (call o (ConsoleErrorWriteLine (what e))) (fun _ =>
            bind (when flag (call o TitleLoad)) (fun _ =>
            bind (call o (ShowError
                            STR_FAILED_TO_LOAD_FILE_CONTAINS_INVALID_DATA
                            STR_NONE [])) (fun _ =>
            ret false)))
          else throw e)).
Proof.
  intros HF.
  assert (forall c, isFileCall c = true ->
     (forall name path, c <> CrashRegisterAdditionalFile name path) ->
     (forall name, c <> CrashUnregisterAdditionalFile name) ->
     adds P (call o c)) as Hfile
    by (intros c H1 H2 H3; apply adds_call; auto).
  apply adds_tryCatch.
  - destruct (hasSeaExtension o path);
      (apply adds_bind; [apply Hfile; [reflexivity|discriminate|discriminate]|]);
      intros _;
      (apply adds_bind; [apply LoadParkFromStream_adds|]);
      intros loaded; destruct loaded; cbn; adds_plain.
  - intros e. adds_plain.
Qed.

Lemma LoadParkFromFile_hist (path : string) (flag asScenario : bool)
    (s : St) :
  (forall c, isFileCall c = true ->
     (forall name path, c <> CrashRegisterAdditionalFile name path) ->
     (forall name, c <> CrashUnregisterAdditionalFile name) -> P c) ->
  match throws o (hist s) (CrashRegisterAdditionalFile "load_park" path) with
  | Some e =>
      LoadParkFromFile cfg o path flag asScenario s
      = (Thrown e, record (CrashRegisterAdditionalFile "load_park" path) s)
  | None =>
      exists evs,
        hist (snd (LoadParkFromFile cfg o path flag asScenario s))
        = hist s ++ CrashRegisterAdditionalFile "load_park" path :: evs
                 ++ [CrashUnregisterAdditionalFile "load_park"] /\
        Forall P evs
  end.
Proof.
  intros HF. unfold LoadParkFromFile. rewrite bind_call.
  destruct (throws o (hist s) (CrashRegisterAdditionalFile "load_park" path));
    [reflexivity|].
  rewrite finally_hist.
  destruct (fileBody_adds path flag asScenario HF
              (record (CrashRegisterAdditionalFile "load_park" path) s))
    as (evs & E & F).
  exists evs. split; [|exact F].
  rewrite E. cbn. rewrite <- !app_assoc. reflexivity.
Qed.

Lemma LoadParkFromFile_adds (path : string) (flag asScenario : bool) :
  (forall c, isFileCall c = true -> P c) ->
  adds P (LoadParkFromFile cfg o path flag asScenario).
Proof.
  intros HF s.
  pose proof (LoadParkFromFile_hist path flag asScenario s
                (fun c Hc _ _ => HF c Hc)) as H.
  destruct (throws o (hist s) (CrashRegisterAdditionalFile "load_park" path)).
  - rewrite H. exists [CrashRegisterAdditionalFile "load_park" path].
    split; [reflexivity|]. constructor; [apply HF; reflexivity|constructor].
  - destruct H as (evs & E & F). eexists. split; [exact E|].
    constructor; [apply HF; reflexivity|].
    rewrite Forall_app. split; [exact F|].
    constructor; [apply HF; reflexivity|constructor].
Qed.

End Adds.

Section Quiet.
Hypothesis quiet : forall h c, throws o h c = None.

Lemma bind_call_quiet {A : Type} (c : Call) (k : unit -> L A) (s : St) :
  bind (call o c) k s = k tt (record c s).
Proof. rewrite bind_call, quiet. reflexivity. Qed.

(** A stream that is not accepted, when no call throws: the classifier,
    the title screen if requested, one line on the console. *)
Lemma LoadParkFromStream_rejected_quiet (stream : Stream) (path : string)
    (flag asScenario : bool) (s : St) :
  accepted o stream = false ->
  LoadParkFromStream cfg o stream path flag asScenario s
  = (Normal false,
     mkSt (hist s ++ TryClassifyFile stream
             :: (if flag then [TitleLoad] else [])
             ++ [ConsoleErrorWriteLine (rejection o stream)]) flag).
Proof.
  intros Hacc. rewrite LoadParkFromStream_unfold.
  unfold loadBody, classifyAndRead, accepted, rejection in *.
  rewrite !bind_assoc, bind_call_quiet.
  destruct (classified o stream) as [info|].
  - destruct (info_Type info); try discriminate Hacc;
      cbn [isPark isSavedGame isScenario negb andb];
      unfold loadHandlers, titleLoadIfRequested; cbn;
      destruct flag; unfold bind, getFlag, when, call, ret; cbn;
      repeat (rewrite quiet; cbn);
      unfold record; cbn; rewrite <- ?app_assoc; reflexivity.
  - unfold loadHandlers, titleLoadIfRequested; cbn;
      destruct flag; unfold bind, getFlag, when, call, ret; cbn;
      repeat (rewrite quiet; cbn);
      unfold record; cbn; rewrite <- ?app_assoc; reflexivity.
Qed.

Lemma LoadParkFromStream_quiet (stream : Stream) (path : string)
    (flag asScenario : bool) (s : St) :
  fst (LoadParkFromStream cfg o stream path flag asScenario s)
  = Normal (accepted o stream).
Proof.
  destruct (accepted o stream) eqn:Hacc;
    [|rewrite LoadParkFromStream_rejected_quiet by exact Hacc; reflexivity].
  rewrite LoadParkFromStream_unfold.
  pose proof (loadBody_throwsOnly (fun _ => False) stream path asScenario)
    as HT.
  pose proof (loadBody_yields_true stream path asScenario
                (mkSt (hist s) flag)) as HY.
  specialize (HT (fun h c e H => ltac:(rewrite quiet in H; discriminate H))
                (fun H => ltac:(rewrite Hacc in H; discriminate H))
                (mkSt (hist s) flag)).
  destruct (loadBody cfg o stream path asScenario (mkSt (hist s) flag))
    as [[b|e] s1]; cbn in *.
  - rewrite (HY b eq_refl). reflexivity.
  - destruct (HT e eq_refl).
Qed.

Lemma LoadParkFromFile_quiet (path : string) (flag asScenario : bool)
    (s : St) :
  fst (LoadParkFromFile cfg o path flag asScenario s)
  = Normal (accepted o (streamOf o path)).
Proof.
  unfold LoadParkFromFile, streamOf. rewrite bind_call_quiet.
  unfold finally, tryCatch.
  destruct (hasSeaExtension o path); rewrite bind_call_quiet;
    unfold bind at 1;
    match goal with
    | |- context [LoadParkFromStream cfg o ?st path flag asScenario ?s0] =>
        pose proof (LoadParkFromStream_quiet st path flag asScenario s0) as HQ;
        destruct (LoadParkFromStream cfg o st path flag asScenario s0)
          as [[b|e] s1]; cbn [fst] in HQ; [|discriminate HQ];
        injection HQ as ->; destruct (accepted o st)
    end; cbn; try reflexivity.
  unfold bind, when, call, ret. cbn. rewrite quiet.
  destruct flag; cbn; repeat (rewrite quiet; cbn); reflexivity.
Qed.

(** A file that is not accepted, when no call throws.  For a [.sea] file
    the failure is reported a second time. *)
Lemma LoadParkFromFile_rejected_quiet (path : string)
    (flag asScenario : bool) (s : St) :
  accepted o (streamOf o path) = false ->
  hist (snd (LoadParkFromFile cfg o path flag asScenario s))
  = hist s
    ++ [CrashRegisterAdditionalFile "load_park" path;
        if hasSeaExtension o path then DecryptSea path
        else OpenFileStream path;
        TryClassifyFile (streamOf o path)]
    ++ (if flag then [TitleLoad] else [])
    ++ [ConsoleErrorWriteLine (rejection o (streamOf o path))]
    ++ (if hasSeaExtension o path then
          [ConsoleErrorWriteLine ".sea file may have been renamed."]
          ++ (if flag then [TitleLoad] else [])
          ++ [ShowError STR_FAILED_TO_LOAD_FILE_CONTAINS_INVALID_DATA
                STR_NONE []]
        else [])
    ++ [CrashUnregisterAdditionalFile "load_park"].
Proof.
  unfold LoadParkFromFile, streamOf. rewrite bind_call_quiet.
  unfold finally, tryCatch.
  destruct (hasSeaExtension o path); intros Hacc; rewrite bind_call_quiet;
    unfold bind at 1;
    rewrite LoadParkFromStream_rejected_quiet by exact Hacc; cbn.
  - unfold bind, when, call, ret. cbn. rewrite quiet.
    destruct flag; cbn; repeat (rewrite quiet; cbn);
      rewrite <- ?app_assoc; reflexivity.
  - destruct flag; cbn; rewrite <- ?app_assoc; reflexivity.
Qed.

End Quiet.

Lemma loadBody_rejected (stream : Stream) (path : string)
    (asScenario : bool) (s : St) :
  accepted o stream = false ->
  exists e,
    loadBody cfg o stream path asScenario s
    = (Thrown e, record (TryClassifyFile stream) s).
Proof.
  intros Hacc. unfold loadBody. unfold bind at 1.
  destruct (classifyAndRead_rejected stream path s Hacc) as (e & ->).
  exists e. reflexivity.
Qed.

Lemma LoadParkFromStream_rejected (stream : Stream) (path : string)
    (flag asScenario : bool) (s : St) :
  accepted o stream = false ->
  fst (LoadParkFromStream cfg o stream path flag asScenario s)
  <> Normal true /\
  exists evs,
    hist (snd (LoadParkFromStream cfg o stream path flag asScenario s))
    = hist s ++ TryClassifyFile stream :: evs /\
    Forall (fun c => isReport c = true) evs.
Proof.
  intros Hacc. rewrite LoadParkFromStream_unfold.
  destruct (loadBody_rejected stream path asScenario (mkSt (hist s) flag)
              Hacc) as (e & ->).
  destruct (loadHandlers_spec path e
              (record (TryClassifyFile stream) (mkSt (hist s) flag)))
    as (evs & E & F & _).
  destruct (loadHandlers cfg o path e
              (record (TryClassifyFile stream) (mkSt (hist s) flag)))
    as [[u|e'] s2]; cbn [fst snd] in *;
    (split; [discriminate|]); exists evs;
    (split; [|exact F]); rewrite E; cbn; rewrite <- app_assoc;
    reflexivity.
Qed.

(** A [std::exception] leaves [LoadParkFromFile] only from the
    registration for the crash report, provided the reporting calls throw
    none. *)
Lemma LoadParkFromFile_thrown (path : string) (flag asScenario : bool)
    (s : St) (e : Exception) :
  (forall h c e', isReport c = true -> throws o h c = Some e' ->
     isStdException e' = false) ->
  fst (LoadParkFromFile cfg o path flag asScenario s) = Thrown e ->
  isStdException e = true ->
  throws o (hist s) (CrashRegisterAdditionalFile "load_park" path) = Some e.
Proof.
  intros Hrep. unfold LoadParkFromFile. rewrite bind_call.
  destruct (throws o (hist s) (CrashRegisterAdditionalFile "load_park" path))
    as [e0|]; [cbn; intros H _; congruence|].
  intros H Hstd. exfalso.
  assert (isStdException e = false) as Hns; [|congruence].
  match type of H with
  | fst (finally ?m ?c ?s0) = Thrown _ =>
      apply (fun HT : throwsOnly (fun e => isStdException e = false)
                        (finally m c) => HT s0 e H)
  end.
  apply throwsOnly_finally.
  apply (throwsOnly_tryCatch _ (fun _ => True)); [intros s0 e0 _; exact I|].
  intros e0 _. destruct (isStdException e0) eqn:E0;
    [|apply throwsOnly_throw; exact E0].
  repeat first
    [ apply throwsOnly_call; intros h e1; apply Hrep; reflexivity
    | throws_step ].
Qed.

(** The four stages of a body that runs to its end. *)
Lemma loadBody_Normal_inv (stream : Stream) (path : string)
    (asScenario : bool) (s s1 : St) (b : bool) :
  loadBody cfg o stream path asScenario s = (Normal b, s1) ->
  exists info sa sb sc sendMap u u',
    classifyAndRead cfg o stream path s = (Normal (info, loadResult o), sa) /\
    importPark cfg o path (loadResult o) (mkSt (hist sa) true)
    = (Normal u, sb) /\
    startPark cfg o asScenario info sb = (Normal sendMap, sc) /\
    finishLoad cfg o (loadResult o) sendMap sc = (Normal u', s1).
Proof.
  unfold loadBody. unfold bind at 1.
  destruct (classifyAndRead cfg o stream path s) as [[r|e] sa] eqn:HA;
    [|intros H; discriminate H].
  destruct (classifyAndRead_Normal _ _ _ _ _ HA) as (info & _ & _ & -> & _).
  rewrite bind_setFlag. cbn [fst snd]. unfold bind at 1.
  destruct (importPark cfg o path (loadResult o) (mkSt (hist sa) true))
    as [[u|e] sb] eqn:HI; [|intros H; discriminate H].
  unfold bind at 1.
  destruct (startPark cfg o asScenario info sb) as [[sendMap|e] sc] eqn:HS;
    [|intros H; discriminate H].
  unfold bind.
  destruct (finishLoad cfg o (loadResult o) sendMap sc) as [[u'|e] sd] eqn:HF;
    [|intros H; discriminate H].
  intros H. injection H as _ <-.
  exists info, sa, sb, sc, sendMap, u, u'. auto.
Qed.

Lemma startPark_Normal_server (asScenario : bool) (info : ClassifiedFileInfo)
    (s s1 : St) (sendMap : bool) :
  DISABLE_NETWORK cfg = false ->
  (forall h, networkMode o h = NETWORK_MODE_SERVER) ->
  startPark cfg o asScenario info s = (Normal sendMap, s1) ->
  sendMap = true.
Proof.
  intros Ed Hm. unfold startPark. rewrite Ed.
  destruct (negb asScenario
            && (isPark (info_Type info) || isSavedGame (info_Type info)));
    unfold bind, call, emit, ret, throw, when, getMode, getFlag; cbn;
    rewrite ?Hm; cbn;
    repeat match goal with
           | |- context [throws o ?h ?c] =>
               destruct (throws o h c) eqn:?; cbn
           end;
    rewrite ?Hm; cbn; intros H; try discriminate H; injection H as <-;
    reflexivity.
Qed.

Lemma startPark_Normal_client (asScenario : bool) (info : ClassifiedFileInfo)
    (s s1 : St) (sendMap : bool) :
  DISABLE_NETWORK cfg = false ->
  (forall h, ~ In NetworkClose h -> networkMode o h = NETWORK_MODE_CLIENT) ->
  ~ In NetworkClose (hist s) ->
  startPark cfg o asScenario info s = (Normal sendMap, s1) ->
  In NetworkClose (hist s1).
Proof.
  intros Ed Hm Hs. unfold startPark. rewrite Ed.
  assert (networkMode o (hist s) = NETWORK_MODE_CLIENT) as E0 by auto.
  assert (networkMode o (hist s ++ [ScenarioBegin]) = NETWORK_MODE_CLIENT)
    as E1.
  { apply Hm. rewrite in_app_iff. intros [H|[H|[]]]; [auto|discriminate H]. }
  destruct (negb asScenario
            && (isPark (info_Type info) || isSavedGame (info_Type info)));
    unfold bind, call, emit, ret, throw, when, getMode, getFlag; cbn;
    rewrite ?E0, ?E1; cbn;
    repeat match goal with
           | |- context [throws o ?h ?c] =>
               destruct (throws o h c) eqn:?; cbn
           end;
    rewrite ?E0, ?E1; cbn;
    repeat match goal with
           | |- context [throws o ?h ?c] =>
               destruct (throws o h c) eqn:?; cbn
           end;
    intros H; try discriminate H; injection H as _ <-; cbn;
    rewrite !in_app_iff; cbn; tauto.
Qed.

Lemma finishLoad_Normal_send (result : ParkLoadResult) (s s1 : St)
    (u : unit) :
  DISABLE_NETWORK cfg = false ->
  finishLoad cfg o result true s = (Normal u, s1) ->
  exists evs,
    hist s1
    = hist s ++ [PeepUpdateNames (ShowRealNamesOfGuests o); ServerSendMap]
      ++ evs.
Proof.
  intros Ed. unfold finishLoad. rewrite Ed. cbn [negb andb when].
  rewrite bind_call.
  destruct (throws o (hist s) (PeepUpdateNames (ShowRealNamesOfGuests o)));
    [intros H; discriminate H|].
  rewrite bind_call.
  destruct (throws o _ ServerSendMap); [intros H; discriminate H|].
  match goal with
  | |- ?k ?st = _ -> _ =>
      intros H;
      assert (adds (fun _ => True) k) as Ha
  end.
  { repeat adds_step; exact I. }
  destruct (Ha (record ServerSendMap
                  (record (PeepUpdateNames (ShowRealNamesOfGuests o)) s)))
    as (evs & E & _).
  rewrite H in E. cbn in E. exists evs. rewrite E.
  rewrite <- !app_assoc. reflexivity.
Qed.

Lemma finishLoad_hist (result : ParkLoadResult) (sendMap : bool) (s : St) :
  exists evs,
    hist (snd (finishLoad cfg o result sendMap s)) = hist s ++ evs.
Proof.
  destruct (finishLoad_adds result sendMap s) as (evs & E & _). eauto.
Qed.


(** *** The network calls of a load *)

Lemma split_at_call (c : Call) (e1 : list Call) :
  forall (e2 pre post : list Call),
  e1 ++ e2 = pre ++ c :: post ->
  (exists post1, e1 = pre ++ c :: post1 /\ post = post1 ++ e2) \/
  (exists pre2, pre = e1 ++ pre2 /\ e2 = pre2 ++ c :: post).
Proof.
  induction e1 as [|x e1 IH]; intros e2 pre post E.
  - right. exists pre. split; [reflexivity | exact E].
  - destruct pre as [|y pre]; cbn in E; injection E as -> E.
    + left. exists e1. split; [reflexivity | symmetry; exact E].
    + destruct (IH _ _ _ E) as [(post1 & -> & ->)|(pre2 & -> & ->)].
      * left. exists post1. split; reflexivity.
      * right. exists pre2. split; reflexivity.
Qed.

Lemma not_In_split (c : Call) (evs pre post : list Call) :
  ~ In c evs -> evs = pre ++ c :: post -> False.
Proof.
  intros H ->. apply H. apply List.in_or_app. right. left. reflexivity.
Qed.

Lemma guarded_plain (h evs : list Call) :
  Forall notNetwork evs -> guarded cfg o h evs.
Proof.
  intros F. rewrite List.Forall_forall in F.
  split; intros pre post E; exfalso;
    assert (In_c : In (nth (List.length pre) evs GameLoadInit) evs)
      by (apply List.nth_In; rewrite E, List.length_app; cbn; lia);
    specialize (F _ In_c); rewrite E, List.app_nth2, Nat.sub_diag in F by lia;
    cbn in F; destruct F as [F1 F2]; congruence.
Qed.

Lemma guarded_app (h e1 e2 : list Call) :
  guarded cfg o h e1 -> guarded cfg o (h ++ e1) e2 ->
  guarded cfg o h (e1 ++ e2).
Proof.
  intros [C1 S1] [C2 S2]. split; intros pre post E;
    destruct (split_at_call _ _ _ _ _ E) as [(post1 & E1 & _)|(pre2 & -> & E2)].
  - exact (C1 _ _ E1).
  - destruct (C2 _ _ E2) as [Hd Hm]. split; [exact Hd|].
    rewrite app_assoc. exact Hm.
  - exact (S1 _ _ E1).
  - destruct (S2 _ _ E2) as (Hd & before & after & -> & Hm).
    split; [exact Hd|]. exists (e1 ++ before), after.
    split; [rewrite app_assoc; reflexivity|].
    rewrite app_assoc. exact Hm.
Qed.

Lemma addsGuarded_plain {A : Type} (m : L A) :
  adds notNetwork m -> addsGuarded cfg o m.
Proof.
  intros H s. destruct (H s) as (evs & E & F).
  exists evs. split; [exact E | apply guarded_plain; exact F].
Qed.

Lemma addsGuarded_bind {A B : Type} (m : L A) (k : A -> L B) :
  addsGuarded cfg o m -> (forall a, addsGuarded cfg o (k a)) ->
  addsGuarded cfg o (bind m k).
Proof.
  intros Hm Hk s. unfold bind. specialize (Hm s).
  destruct (m s) as [[a|e] s1]; cbn in *; [|exact Hm].
  destruct Hm as (ev1 & E1 & G1).
  destruct (Hk a s1) as (ev2 & E2 & G2).
  exists (ev1 ++ ev2). rewrite E2, E1, app_assoc.
  split; [reflexivity|]. apply guarded_app; [exact G1|].
  rewrite <- E1. exact G2.
Qed.

Lemma addsGuarded_tryCatch {A : Type} (m : L A) (h : Exception -> L A) :
  addsGuarded cfg o m -> (forall e, addsGuarded cfg o (h e)) ->
  addsGuarded cfg o (tryCatch m h).
Proof.
  intros Hm Hh s. unfold tryCatch. specialize (Hm s).
  destruct (m s) as [[a|e] s1]; cbn in *; [exact Hm|].
  destruct Hm as (ev1 & E1 & G1).
  destruct (Hh e s1) as (ev2 & E2 & G2).
  exists (ev1 ++ ev2). rewrite E2, E1, app_assoc.
  split; [reflexivity|]. apply guarded_app; [exact G1|].
  rewrite <- E1. exact G2.
Qed.

Lemma addsGuarded_finally {A : Type} (m : L A) (c : Call) :
  notNetwork c -> addsGuarded cfg o m -> addsGuarded cfg o (finally m c).
Proof.
  intros Hc Hm s. rewrite finally_hist.
  destruct (Hm s) as (evs & E & G).
  exists (evs ++ [c]). rewrite E, app_assoc. split; [reflexivity|].
  apply guarded_app; [exact G|]. apply guarded_plain.
  constructor; [exact Hc | constructor].
Qed.

Ltac name_added :=
  match goal with
  | |- exists evs, ((hist ?s ++ ?a) ++ ?b) ++ ?c = hist ?s ++ evs /\ _ =>
      exists (a ++ b ++ c); split; [rewrite <- !app_assoc; reflexivity|]
  | |- exists evs, (hist ?s ++ ?a) ++ ?b = hist ?s ++ evs /\ _ =>
      exists (a ++ b); split; [rewrite <- !app_assoc; reflexivity|]
  | |- exists evs, hist ?s ++ ?a = hist ?s ++ evs /\ _ =>
      exists a; split; [reflexivity|]
  | |- exists evs, hist ?s = hist ?s ++ evs /\ _ =>
      exists []; split; [rewrite app_nil_r; reflexivity|]
  end.

Ltac split_cases E :=
  match type of E with
  | _ = ?pre ++ _ =>
      destruct pre as [|? [|? [|? [|? ?]]]]; cbn in E;
      try discriminate E; injection E; intros; subst; try discriminate
  end.

Lemma isClient_true (m : NETWORK_MODE) :
  isClient m = true -> m = NETWORK_MODE_CLIENT.
Proof. destruct m; intros H; try discriminate H; reflexivity. Qed.

Lemma isServer_true (m : NETWORK_MODE) :
  isServer m = true -> m = NETWORK_MODE_SERVER.
Proof. destruct m; intros H; try discriminate H; reflexivity. Qed.

(** What [startPark] adds: no [ServerSendMap]; [NetworkClose] only where
    the mode is CLIENT; and when it returns [true], the mode was SERVER at
    a point it went through. *)
Lemma startPark_guarded (asScenario : bool) (info : ClassifiedFileInfo)
    (s : St) :
  exists evs,
    hist (snd (startPark cfg o asScenario info s)) = hist s ++ evs /\
    ~ In ServerSendMap evs /\
    (forall pre post, evs = pre ++ NetworkClose :: post ->
       DISABLE_NETWORK cfg = false /\
       networkMode o (hist s ++ pre) = NETWORK_MODE_CLIENT) /\
    (fst (startPark cfg o asScenario info s) = Normal true ->
     DISABLE_NETWORK cfg = false /\
     exists before after, evs = before ++ after /\
       networkMode o (hist s ++ before) = NETWORK_MODE_SERVER).
Proof.
  unfold startPark.
  destruct (negb asScenario
            && (isPark (info_Type info) || isSavedGame (info_Type info)));
    case_eq (DISABLE_NETWORK cfg); intros Ed;
    unfold bind, call, emit, ret, throw, when, getMode; cbn;
    repeat match goal with
           | |- context [isClient ?m] => destruct (isClient m) eqn:?; cbn
           | |- context [throws o ?h ?c] =>
               destruct (throws o h c) eqn:?; cbn
           end;
    repeat match goal with
           | |- context [isServer ?m] => destruct (isServer m) eqn:?
           end;
    name_added;
    (split; [intros H; cbn in H; decompose [or] H;
             (discriminate || contradiction)|]);
    (split;
     [intros pre post E; split_cases E;
      (split; [reflexivity|]);
      rewrite ?app_nil_r, <- ?app_assoc;
      apply isClient_true; assumption
     |intros H; try discriminate H;
      (split; [reflexivity|]);
      repeat match goal with
             | Hs : isServer (networkMode o ?h) = true |- _ =>
                 apply isServer_true in Hs
             | Hc : isClient (networkMode o ?h) = true |- _ =>
                 apply isClient_true in Hc
             end;
      try congruence;
      match goal with
      | Hs : networkMode o ((hist s ++ ?a) ++ ?b) = NETWORK_MODE_SERVER |- _ =>
          exists (a ++ b), []; split;
          [rewrite app_nil_r; reflexivity
          |rewrite app_assoc; exact Hs]
      | Hs : networkMode o (hist s ++ ?a) = NETWORK_MODE_SERVER
        |- exists before after, ?a = _ /\ _ =>
          exists a, []; split; [rewrite app_nil_r; reflexivity | exact Hs]
      | Hs : networkMode o (hist s ++ ?a) = NETWORK_MODE_SERVER
        |- exists before after, ?a ++ ?b = _ /\ _ =>
          exists a, b; split; [reflexivity | exact Hs]
      end]).
Qed.

Ltac plain_net := split; discriminate.

Ltac adds_net :=
  repeat first [ apply adds_call; plain_net | apply adds_emit; plain_net
               | adds_step ].

(** What [finishLoad] adds: no [NetworkClose], and [ServerSendMap] only
    with networking compiled in and on [sendMap]. *)
Lemma finishLoad_adds_send (result : ParkLoadResult) (sendMap : bool) :
  adds (fun c => c <> NetworkClose /\
                 (c = ServerSendMap ->
                  sendMap = true /\ DISABLE_NETWORK cfg = false))
    (finishLoad cfg o result sendMap).
Proof.
  unfold finishLoad.
  apply adds_bind; [apply adds_call; split; [discriminate|intros E; discriminate E]|].
  intros _. apply adds_bind.
  { case_eq (DISABLE_NETWORK cfg); intros Ed; destruct sendMap; cbn;
      try apply adds_ret.
    apply adds_call. split; [discriminate|]. intros _. split; reflexivity. }
  intros _.
  repeat first
    [ apply adds_call; split; [discriminate|intros E; discriminate E]
    | adds_step ].
Qed.

Lemma startAndFinish_guarded (asScenario : bool) (info : ClassifiedFileInfo)
    (result : ParkLoadResult) :
  addsGuarded cfg o
    (bind (startPark cfg o asScenario info) (fun sendMap =>
     bind (finishLoad cfg o result sendMap) (fun _ => ret true))).
Proof.
  intros s. unfold bind at 1.
  destruct (startPark_guarded asScenario info s) as (ev1 & E1 & NS & C1 & V1).
  destruct (startPark cfg o asScenario info s) as [[sendMap|e] s1];
    cbn [fst snd] in *.
  - assert (adds (fun c => c <> NetworkClose /\
                   (c = ServerSendMap ->
                    sendMap = true /\ DISABLE_NETWORK cfg = false))
              (bind (finishLoad cfg o result sendMap) (fun _ => ret true)))
      as Ha.
    { apply adds_bind; [apply finishLoad_adds_send|]. intros _. apply adds_ret. }
    destruct (Ha s1) as (ev2 & E2 & F2).
    rewrite List.Forall_forall in F2.
    exists (ev1 ++ ev2). rewrite E2, E1, app_assoc. split; [reflexivity|].
    split; intros pre post E;
      destruct (split_at_call _ _ _ _ _ E) as [(post1 & E' & _)|(pre2 & -> & E')].
    + exact (C1 _ _ E').
    + exfalso. assert (In NetworkClose ev2) as Hin
        by (rewrite E'; apply List.in_or_app; right; left; reflexivity).
      exact (proj1 (F2 _ Hin) eq_refl).
    + exfalso. exact (not_In_split _ _ _ _ NS E').
    + assert (In ServerSendMap ev2) as Hin
        by (rewrite E'; apply List.in_or_app; right; left; reflexivity).
      destruct (proj2 (F2 _ Hin) eq_refl) as [-> Hd].
      destruct (V1 eq_refl) as (_ & before & after & -> & Hm).
      split; [exact Hd|]. exists before, (after ++ pre2).
      split; [rewrite app_assoc; reflexivity | exact Hm].
  - exists ev1. split; [exact E1|]. split; [exact C1|].
    intros pre post E. exfalso. exact (not_In_split _ _ _ _ NS E).
Qed.

Lemma LoadParkFromStream_guarded (stream : Stream) (path : string)
    (flag asScenario : bool) :
  addsGuarded cfg o (LoadParkFromStream cfg o stream path flag asScenario).
Proof.
  unfold LoadParkFromStream.
  apply addsGuarded_bind; [apply addsGuarded_plain, adds_setFlag|]. intros _.
  apply addsGuarded_tryCatch.
  - unfold loadBody.
    apply addsGuarded_bind;
      [apply addsGuarded_plain; unfold classifyAndRead; adds_net|].
    intros r.
    apply addsGuarded_bind; [apply addsGuarded_plain, adds_setFlag|]. intros _.
    apply addsGuarded_bind;
      [apply addsGuarded_plain; unfold importPark; adds_net|].
    intros _. apply startAndFinish_guarded.
  - intros e. apply addsGuarded_plain.
    apply adds_bind; [|intros _; apply adds_ret].
    unfold loadHandlers, titleLoadIfRequested. adds_net.
Qed.

Lemma LoadParkFromFile_guarded (path : string) (flag asScenario : bool) :
  addsGuarded cfg o (LoadParkFromFile cfg o path flag asScenario).
Proof.
  unfold LoadParkFromFile.
  apply addsGuarded_bind; [apply addsGuarded_plain, adds_call; plain_net|].
  intros _. apply addsGuarded_finally; [plain_net|].
  apply addsGuarded_tryCatch.
  - destruct (hasSeaExtension o path);
      (apply addsGuarded_bind;
       [apply addsGuarded_plain, adds_call; plain_net|]);
      intros _;
      (apply addsGuarded_bind; [apply LoadParkFromStream_guarded|]);
      intros loaded; apply addsGuarded_plain; destruct loaded; cbn; adds_net.
  - intros e. apply addsGuarded_plain. adds_net.
Qed.

End ParkLoadFacts.

(** X12.  When [LoadParkFromStream] returns false, it has called
    [TitleLoad] exactly in two cases: the caller asked for it, or the
    failure came after the file had been read (the import had begun with
    [GameUnloadScripts], so the park in memory may be corrupt) -- then
    whatever the caller asked. *)
Theorem failed_load_reloads_title (cfg : ParkLoad.Config)
    (o : ParkLoad.Oracle) (stream : ParkLoad.Stream) (path : string)
    (loadTitleScreenFirstOnFail asScenario : bool) (s : ParkLoad.St) :
  fst (ParkLoad.LoadParkFromStream cfg o stream path
         loadTitleScreenFirstOnFail asScenario s) = ParkLoad.Normal false ->
  exists evs,
    ParkLoad.hist
      (snd (ParkLoad.LoadParkFromStream cfg o stream path
              loadTitleScreenFirstOnFail asScenario s))
    = ParkLoad.hist s ++ evs /\
    (In ParkLoad.TitleLoad evs <->
     loadTitleScreenFirstOnFail = true \/ In ParkLoad.GameUnloadScripts evs).
Proof.
  rewrite LoadParkFromStream_unfold.
  set (s0 := ParkLoad.mkSt (ParkLoad.hist s) loadTitleScreenFirstOnFail).
  destruct (ParkLoad.loadBody cfg o stream path asScenario s0)
    as [[b|e] s1] eqn:HB.
  - cbn. intros Hb. injection Hb as ->.
    pose proof (loadBody_yields_true cfg o stream path asScenario s0 false) as Y.
    rewrite HB in Y. discriminate (Y eq_refl).
  - destruct (loadBody_thrown cfg o _ _ _ _ _ _ HB) as (ev1 & E1 & NT & Hflag).
    destruct (loadHandlers_spec cfg o path e s1) as (ev2 & E2 & F2 & Hno & Hyes).
    destruct (ParkLoad.loadHandlers cfg o path e s1) as [[u|e'] s2];
      cbn [fst snd] in *; [|discriminate].
    intros _. exists (ev1 ++ ev2). split.
    { rewrite E2, E1. cbn. rewrite app_assoc. reflexivity. }
    assert (~ In ParkLoad.GameUnloadScripts ev2) as NG.
    { intros Hin. rewrite List.Forall_forall in F2.
      specialize (F2 _ Hin). discriminate F2. }
    rewrite !in_app_iff.
    destruct Hflag as [[Hf NU]|[Hf IU]].
    + cbn in Hf.
      destruct loadTitleScreenFirstOnFail.
      * split; [auto|]. intros _. right. exact (Hyes u eq_refl Hf).
      * split.
        -- intros [Hin|Hin]; [tauto|]. exfalso. exact (Hno Hf Hin).
        -- intros [Hd|[Hi|Hi]]; [discriminate Hd|tauto|tauto].
    + split; [tauto|]. intros _. right. exact (Hyes u eq_refl Hf).
Qed.

(** The objects of a saved game are missing: the failure comes after the
    file has been read, and the title screen is loaded although the caller
    did not ask for it. *)
Lemma failed_load_reloads_title_witness :
  exists evs,
    ParkLoad.hist
      (snd (ParkLoad.LoadParkFromStream ParkLoad.exampleConfig
              ParkLoad.missingObjectsOracle (ParkLoad.FileStream "a.sv6")
              "a.sv6" false false ParkLoad.start))
    = ParkLoad.hist ParkLoad.start ++ evs /\
    (In ParkLoad.TitleLoad evs <->
     false = true \/ In ParkLoad.GameUnloadScripts evs).
Proof.
  apply (failed_load_reloads_title ParkLoad.exampleConfig
           ParkLoad.missingObjectsOracle (ParkLoad.FileStream "a.sv6")
           "a.sv6" false false ParkLoad.start).
  vm_compute. reflexivity.
Defined.

(** X13.  A load that returns true has made these calls, in this order:
    the classifier accepted the stream; the importer is the park-file
    importer for a park, the S4 importer for another file of a version up
    to [kFileTypeS4Cutoff] and the S6 importer above it; the file is read,
    the scripts are unloaded, the objects loaded, the park imported, the
    three path globals set, the save variables fixed, the map animations
    created, the tweener reset, [gScreenAge] and [gLastAutoSaveUpdate] set.
    After that the park is started with [GameLoadInit] if it is a park or
    saved game not loaded as a scenario, else with [ScenarioBegin] -- never
    both --, the guests are renamed, and the title screen is not loaded. *)
Theorem successful_load_trace (cfg : ParkLoad.Config) (o : ParkLoad.Oracle)
    (stream : ParkLoad.Stream) (path : string)
    (loadTitleScreenFirstOnFail asScenario : bool) (s : ParkLoad.St) :
  fst (ParkLoad.LoadParkFromStream cfg o stream path
         loadTitleScreenFirstOnFail asScenario s) = ParkLoad.Normal true ->
  exists info tail,
    ParkLoad.classified o stream = Some info /\
    ParkLoad.accepted o stream = true /\
    ParkLoad.hist
      (snd (ParkLoad.LoadParkFromStream cfg o stream path
              loadTitleScreenFirstOnFail asScenario s))
    = ParkLoad.hist s
      ++ [ParkLoad.TryClassifyFile stream; ParkLoad.importerFor cfg info;
          ParkLoad.LoadFromStream stream
            (ParkLoad.isScenario (ParkLoad.info_Type info)) false path;
          ParkLoad.GameUnloadScripts;
          ParkLoad.LoadObjects
            (ParkLoad.RequiredObjects (ParkLoad.loadResult o));
          ParkLoad.Import;
          ParkLoad.Assign_gScenarioSavePath path;
          ParkLoad.Assign_gCurrentLoadedPath path;
          ParkLoad.Assign_gFirstTimeSaving true;
          ParkLoad.GameFixSaveVars; ParkLoad.MapAnimationAutoCreate;
          ParkLoad.EntityTweenerReset; ParkLoad.Assign_gScreenAge 0;
          ParkLoad.Assign_gLastAutoSaveUpdate (ParkLoad.kAutosavePause cfg)]
      ++ tail /\
    (if negb asScenario
        && (ParkLoad.isPark (ParkLoad.info_Type info)
            || ParkLoad.isSavedGame (ParkLoad.info_Type info))
     then In ParkLoad.GameLoadInit tail /\ ~ In ParkLoad.ScenarioBegin tail
     else In ParkLoad.ScenarioBegin tail /\ ~ In ParkLoad.GameLoadInit tail) /\
    In (ParkLoad.PeepUpdateNames (ParkLoad.ShowRealNamesOfGuests o)) tail /\
    ~ In ParkLoad.TitleLoad tail.
Proof.
  rewrite LoadParkFromStream_unfold.
  destruct (ParkLoad.loadBody cfg o stream path asScenario
              (ParkLoad.mkSt (ParkLoad.hist s) loadTitleScreenFirstOnFail))
    as [[b|e] s1] eqn:HB.
  - intros _. cbn [snd]. exact (loadBody_Normal cfg o _ _ _ _ _ _ HB).
  - destruct (ParkLoad.loadHandlers cfg o path e s1) as [[u|e'] s2];
      intros H; discriminate H.
Qed.

(** A saved game of the RCT2 format loaded by a server: the S6 importer,
    [GameLoadInit], and the map is sent. *)
Lemma successful_load_trace_witness :
  exists info tail,
    ParkLoad.classified ParkLoad.quietOracle (ParkLoad.FileStream "a.sv6")
    = Some info /\
    ParkLoad.accepted ParkLoad.quietOracle (ParkLoad.FileStream "a.sv6")
    = true /\
    ParkLoad.hist
      (snd (ParkLoad.LoadParkFromStream ParkLoad.exampleConfig
              ParkLoad.quietOracle (ParkLoad.FileStream "a.sv6") "a.sv6"
              false false ParkLoad.start))
    = ParkLoad.hist ParkLoad.start
      ++ [ParkLoad.TryClassifyFile (ParkLoad.FileStream "a.sv6");
          ParkLoad.importerFor ParkLoad.exampleConfig info;
          ParkLoad.LoadFromStream (ParkLoad.FileStream "a.sv6")
            (ParkLoad.isScenario (ParkLoad.info_Type info)) false "a.sv6";
          ParkLoad.GameUnloadScripts;
          ParkLoad.LoadObjects
            (ParkLoad.RequiredObjects
               (ParkLoad.loadResult ParkLoad.quietOracle));
          ParkLoad.Import;
          ParkLoad.Assign_gScenarioSavePath "a.sv6";
          ParkLoad.Assign_gCurrentLoadedPath "a.sv6";
          ParkLoad.Assign_gFirstTimeSaving true;
          ParkLoad.GameFixSaveVars; ParkLoad.MapAnimationAutoCreate;
          ParkLoad.EntityTweenerReset; ParkLoad.Assign_gScreenAge 0;
          ParkLoad.Assign_gLastAutoSaveUpdate
            (ParkLoad.kAutosavePause ParkLoad.exampleConfig)]
      ++ tail /\
    (if negb false
        && (ParkLoad.isPark (ParkLoad.info_Type info)
            || ParkLoad.isSavedGame (ParkLoad.info_Type info))
     then In ParkLoad.GameLoadInit tail /\ ~ In ParkLoad.ScenarioBegin tail
     else In ParkLoad.ScenarioBegin tail /\ ~ In ParkLoad.GameLoadInit tail) /\
    In (ParkLoad.PeepUpdateNames
          (ParkLoad.ShowRealNamesOfGuests ParkLoad.quietOracle)) tail /\
    ~ In ParkLoad.TitleLoad tail.
Proof.
  apply (successful_load_trace ParkLoad.exampleConfig ParkLoad.quietOracle
           (ParkLoad.FileStream "a.sv6") "a.sv6" false false ParkLoad.start).
  vm_compute. reflexivity.
Defined.

(** The whole run of that example. *)
Example successful_load_example :
  ParkLoad.hist
    (snd (ParkLoad.LoadParkFromFile ParkLoad.exampleConfig
            ParkLoad.quietOracle "a.sv6" false false ParkLoad.start))
  = [ParkLoad.CrashRegisterAdditionalFile "load_park" "a.sv6";
     ParkLoad.OpenFileStream "a.sv6";
     ParkLoad.TryClassifyFile (ParkLoad.FileStream "a.sv6");
     ParkLoad.ParkImporter_CreateS6;
     ParkLoad.LoadFromStream (ParkLoad.FileStream "a.sv6") false false "a.sv6";
     ParkLoad.GameUnloadScripts; ParkLoad.LoadObjects []; ParkLoad.Import;
     ParkLoad.Assign_gScenarioSavePath "a.sv6";
     ParkLoad.Assign_gCurrentLoadedPath "a.sv6";
     ParkLoad.Assign_gFirstTimeSaving true; ParkLoad.GameFixSaveVars;
     ParkLoad.MapAnimationAutoCreate; ParkLoad.EntityTweenerReset;
     ParkLoad.Assign_gScreenAge 0; ParkLoad.Assign_gLastAutoSaveUpdate 0;
     ParkLoad.GameLoadInit; ParkLoad.PeepUpdateNames true;
     ParkLoad.ServerSendMap;
     ParkLoad.CrashUnregisterAdditionalFile "load_park"].
Proof. vm_compute. reflexivity. Qed.

(** X14.  When no call throws, both loaders return normally, and they
    return true exactly when the classifier accepts the stream as a park, a
    saved game or a scenario. *)
Theorem load_result_when_nothing_throws (cfg : ParkLoad.Config)
    (o : ParkLoad.Oracle) (stream : ParkLoad.Stream) (path : string)
    (loadTitleScreenOnFail asScenario : bool) (s : ParkLoad.St) :
  (forall h c, ParkLoad.throws o h c = None) ->
  fst (ParkLoad.LoadParkFromStream cfg o stream path loadTitleScreenOnFail
         asScenario s)
  = ParkLoad.Normal (ParkLoad.accepted o stream) /\
  fst (ParkLoad.LoadParkFromFile cfg o path loadTitleScreenOnFail
         asScenario s)
  = ParkLoad.Normal (ParkLoad.accepted o (ParkLoad.streamOf o path)).
Proof.
  intros quiet. split.
  - apply LoadParkFromStream_quiet. exact quiet.
  - apply LoadParkFromFile_quiet. exact quiet.
Qed.

Lemma load_result_when_nothing_throws_witness :
  fst (ParkLoad.LoadParkFromStream ParkLoad.exampleConfig
         ParkLoad.quietOracle (ParkLoad.FileStream "a.sv6") "a.sv6" false
         false ParkLoad.start)
  = ParkLoad.Normal
      (ParkLoad.accepted ParkLoad.quietOracle (ParkLoad.FileStream "a.sv6")) /\
  fst (ParkLoad.LoadParkFromFile ParkLoad.exampleConfig ParkLoad.quietOracle
         "a.sv6" false false ParkLoad.start)
  = ParkLoad.Normal
      (ParkLoad.accepted ParkLoad.quietOracle
         (ParkLoad.streamOf ParkLoad.quietOracle "a.sv6")).
Proof.
  apply (load_result_when_nothing_throws ParkLoad.exampleConfig
           ParkLoad.quietOracle (ParkLoad.FileStream "a.sv6") "a.sv6" false
           false ParkLoad.start).
  intros h c. reflexivity.
Defined.

(** X15.  Loading a park touches the network only as the mode allows.
    Among the calls that [LoadParkFromStream], and [LoadParkFromFile], add
    to the calls made before, [NetworkClose] is made only with networking
    compiled in and with the mode, read at the very point of the call,
    being CLIENT; [ServerSendMap] is made only with networking compiled in
    and after a point of this same run at which the mode was SERVER. *)
Theorem network_calls_need_the_mode (cfg : ParkLoad.Config)
    (o : ParkLoad.Oracle) (stream : ParkLoad.Stream) (path : string)
    (loadTitleScreenOnFail asScenario : bool) (s : ParkLoad.St) :
  (exists evs,
     ParkLoad.hist
       (snd (ParkLoad.LoadParkFromStream cfg o stream path
               loadTitleScreenOnFail asScenario s))
     = ParkLoad.hist s ++ evs /\
     ParkLoad.guarded cfg o (ParkLoad.hist s) evs) /\
  (exists evs,
     ParkLoad.hist
       (snd (ParkLoad.LoadParkFromFile cfg o path loadTitleScreenOnFail
               asScenario s))
     = ParkLoad.hist s ++ evs /\
     ParkLoad.guarded cfg o (ParkLoad.hist s) evs).
Proof.
  split.
  - apply LoadParkFromStream_guarded.
  - apply LoadParkFromFile_guarded.
Qed.

(** X16.  The registration of the park file for the crash report is always
    undone.  If the registration itself throws, [LoadParkFromFile] makes no
    other call.  Otherwise, whatever happens then -- success, a handled
    failure or an exception that goes on to the caller --, the calls of
    [LoadParkFromFile] begin with the registration, end with its removal,
    and contain neither of them in between. *)
Theorem crash_registration_always_undone (cfg : ParkLoad.Config)
    (o : ParkLoad.Oracle) (path : string)
    (loadTitleScreenOnFail asScenario : bool) (s : ParkLoad.St) :
  match ParkLoad.throws o (ParkLoad.hist s)
          (ParkLoad.CrashRegisterAdditionalFile "load_park" path) with
  | Some e =>
      ParkLoad.LoadParkFromFile cfg o path loadTitleScreenOnFail asScenario s
      = (ParkLoad.Thrown e,
         ParkLoad.record
           (ParkLoad.CrashRegisterAdditionalFile "load_park" path) s)
  | None =>
      exists evs,
        ParkLoad.hist
          (snd (ParkLoad.LoadParkFromFile cfg o path loadTitleScreenOnFail
                  asScenario s))
        = ParkLoad.hist s
          ++ ParkLoad.CrashRegisterAdditionalFile "load_park" path :: evs
          ++ [ParkLoad.CrashUnregisterAdditionalFile "load_park"] /\
        Forall (fun c =>
                  (forall name file,
                     c <> ParkLoad.CrashRegisterAdditionalFile name file) /\
                  (forall name,
                     c <> ParkLoad.CrashUnregisterAdditionalFile name)) evs
  end.
Proof.
  apply (LoadParkFromFile_hist cfg o
           (fun c =>
              (forall name file,
                 c <> ParkLoad.CrashRegisterAdditionalFile name file) /\
              (forall name,
                 c <> ParkLoad.CrashUnregisterAdditionalFile name))).
  - intros c Hc _ _. destruct c; try discriminate Hc;
      split; intros; discriminate.
  - intros _ _. split; intros; discriminate.
  - intros _ _. split; intros; discriminate.
  - intros c _ H1 H2. split; assumption.
Qed.

(** X17.  If the reporting calls (console, title screen, error window,
    object-error window) throw no [std::exception], then no
    [std::exception] leaves [LoadParkFromStream], whatever the other calls
    throw; and one leaves [LoadParkFromFile] only if the registration for
    the crash report, which precedes the [try] block, threw it. *)
Theorem std_exceptions_do_not_escape (cfg : ParkLoad.Config)
    (o : ParkLoad.Oracle) (stream : ParkLoad.Stream) (path : string)
    (loadTitleScreenOnFail asScenario : bool) (s : ParkLoad.St)
    (e : ParkLoad.Exception) :
  (forall h c e', ParkLoad.isReport c = true ->
     ParkLoad.throws o h c = Some e' ->
     ParkLoad.isStdException e' = false) ->
  (fst (ParkLoad.LoadParkFromStream cfg o stream path loadTitleScreenOnFail
          asScenario s) = ParkLoad.Thrown e ->
   ParkLoad.isStdException e = false) /\
  (fst (ParkLoad.LoadParkFromFile cfg o path loadTitleScreenOnFail
          asScenario s) = ParkLoad.Thrown e ->
   ParkLoad.isStdException e = true ->
   ParkLoad.throws o (ParkLoad.hist s)
     (ParkLoad.CrashRegisterAdditionalFile "load_park" path) = Some e).
Proof.
  intros Hrep. split.
  - apply (LoadParkFromStream_throwsOnly cfg o
             (fun e => ParkLoad.isStdException e = false)).
    + exact Hrep.
    + intros h c e' _ _ H. exact H.
  - apply LoadParkFromFile_thrown. exact Hrep.
Qed.

(** The objects are missing, and the reporting calls do not throw: no
    exception leaves either function. *)
Lemma std_exceptions_do_not_escape_witness :
  (fst (ParkLoad.LoadParkFromStream ParkLoad.exampleConfig
          ParkLoad.missingObjectsOracle (ParkLoad.FileStream "a.sv6")
          "a.sv6" false false ParkLoad.start)
   = ParkLoad.Thrown (ParkLoad.runtime_error "x") ->
   ParkLoad.isStdException (ParkLoad.runtime_error "x") = false) /\
  (fst (ParkLoad.LoadParkFromFile ParkLoad.exampleConfig
          ParkLoad.missingObjectsOracle "a.sv6" false false ParkLoad.start)
   = ParkLoad.Thrown (ParkLoad.runtime_error "x") ->
   ParkLoad.isStdException (ParkLoad.runtime_error "x") = true ->
   ParkLoad.throws ParkLoad.missingObjectsOracle
     (ParkLoad.hist ParkLoad.start)
     (ParkLoad.CrashRegisterAdditionalFile "load_park" "a.sv6")
   = Some (ParkLoad.runtime_error "x")).
Proof.
  apply (std_exceptions_do_not_escape ParkLoad.exampleConfig
           ParkLoad.missingObjectsOracle (ParkLoad.FileStream "a.sv6")
           "a.sv6" false false ParkLoad.start (ParkLoad.runtime_error "x")).
  intros h c e' Hc. destruct c; try discriminate Hc; intros H; discriminate H.
Defined.

(** X18.  A stream that the classifier does not accept as a park, a saved
    game or a scenario is only reported: [LoadParkFromStream] does not
    return true, and after the classifier it makes reporting calls only --
    no importer is created, nothing is read or imported, no global is
    assigned, the network is left alone. *)
Theorem rejected_stream_only_reported (cfg : ParkLoad.Config)
    (o : ParkLoad.Oracle) (stream : ParkLoad.Stream) (path : string)
    (loadTitleScreenFirstOnFail asScenario : bool) (s : ParkLoad.St) :
  ParkLoad.accepted o stream = false ->
  fst (ParkLoad.LoadParkFromStream cfg o stream path
         loadTitleScreenFirstOnFail asScenario s)
  <> ParkLoad.Normal true /\
  exists evs,
    ParkLoad.hist
      (snd (ParkLoad.LoadParkFromStream cfg o stream path
              loadTitleScreenFirstOnFail asScenario s))
    = ParkLoad.hist s ++ ParkLoad.TryClassifyFile stream :: evs /\
    Forall (fun c => ParkLoad.isReport c = true) evs.
Proof. apply LoadParkFromStream_rejected. Qed.

Lemma rejected_stream_only_reported_witness :
  fst (ParkLoad.LoadParkFromStream ParkLoad.exampleConfig
         ParkLoad.unknownSeaOracle (ParkLoad.MemoryStream [1; 2; 3]%Z)
         "a.sea" true false ParkLoad.start)
  <> ParkLoad.Normal true /\
  exists evs,
    ParkLoad.hist
      (snd (ParkLoad.LoadParkFromStream ParkLoad.exampleConfig
              ParkLoad.unknownSeaOracle (ParkLoad.MemoryStream [1; 2; 3]%Z)
              "a.sea" true false ParkLoad.start))
    = ParkLoad.hist ParkLoad.start
      ++ ParkLoad.TryClassifyFile (ParkLoad.MemoryStream [1; 2; 3]%Z) :: evs /\
    Forall (fun c => ParkLoad.isReport c = true) evs.
Proof.
  apply (rejected_stream_only_reported ParkLoad.exampleConfig
           ParkLoad.unknownSeaOracle (ParkLoad.MemoryStream [1; 2; 3]%Z)
           "a.sea" true false ParkLoad.start).
  reflexivity.
Defined.

(** X19.  A file that the classifier does not accept, when no call throws.
    For an ordinary file the whole report is one line on the console (and
    the title screen if requested): no error window is shown.  For a [.sea]
    file [LoadParkFromFile] reports the failure a second time: another line
    on the console, the title screen once more if requested, and the
    "invalid data" error window.  Both return false. *)
Theorem rejected_file_report (cfg : ParkLoad.Config) (o : ParkLoad.Oracle)
    (path : string) (loadTitleScreenOnFail asScenario : bool)
    (s : ParkLoad.St) :
  (forall h c, ParkLoad.throws o h c = None) ->
  ParkLoad.accepted o (ParkLoad.streamOf o path) = false ->
  fst (ParkLoad.LoadParkFromFile cfg o path loadTitleScreenOnFail
         asScenario s) = ParkLoad.Normal false /\
  ParkLoad.hist
    (snd (ParkLoad.LoadParkFromFile cfg o path loadTitleScreenOnFail
            asScenario s))
  = ParkLoad.hist s
    ++ [ParkLoad.CrashRegisterAdditionalFile "load_park" path;
        if ParkLoad.hasSeaExtension o path then ParkLoad.DecryptSea path
        else ParkLoad.OpenFileStream path;
        ParkLoad.TryClassifyFile (ParkLoad.streamOf o path)]
    ++ (if loadTitleScreenOnFail then [ParkLoad.TitleLoad] else [])
    ++ [ParkLoad.ConsoleErrorWriteLine
          (ParkLoad.rejection o (ParkLoad.streamOf o path))]
    ++ (if ParkLoad.hasSeaExtension o path then
          [ParkLoad.ConsoleErrorWriteLine ".sea file may have been renamed."]
          ++ (if loadTitleScreenOnFail then [ParkLoad.TitleLoad] else [])
          ++ [ParkLoad.ShowError
                ParkLoad.STR_FAILED_TO_LOAD_FILE_CONTAINS_INVALID_DATA
                ParkLoad.STR_NONE []]
        else [])
    ++ [ParkLoad.CrashUnregisterAdditionalFile "load_park"].
Proof.
  intros quiet Hacc. split.
  - rewrite LoadParkFromFile_quiet by exact quiet. rewrite Hacc. reflexivity.
  - apply LoadParkFromFile_rejected_quiet; assumption.
Qed.

(** An unrecognised [.sea] file with the title screen requested: the title
    screen is loaded twice. *)
Lemma rejected_file_report_witness :
  fst (ParkLoad.LoadParkFromFile ParkLoad.exampleConfig
         ParkLoad.unknownSeaOracle "a.sea" true false ParkLoad.start)
  = ParkLoad.Normal false /\
  ParkLoad.hist
    (snd (ParkLoad.LoadParkFromFile ParkLoad.exampleConfig
            ParkLoad.unknownSeaOracle "a.sea" true false ParkLoad.start))
  = [ParkLoad.CrashRegisterAdditionalFile "load_park" "a.sea";
     ParkLoad.DecryptSea "a.sea";
     ParkLoad.TryClassifyFile (ParkLoad.MemoryStream [1; 2; 3]%Z);
     ParkLoad.TitleLoad;
     ParkLoad.ConsoleErrorWriteLine "Unable to detect file type";
     ParkLoad.ConsoleErrorWriteLine ".sea file may have been renamed.";
     ParkLoad.TitleLoad;
     ParkLoad.ShowError
       ParkLoad.STR_FAILED_TO_LOAD_FILE_CONTAINS_INVALID_DATA
       ParkLoad.STR_NONE [];
     ParkLoad.CrashUnregisterAdditionalFile "load_park"].
Proof.
  apply (rejected_file_report ParkLoad.exampleConfig
           ParkLoad.unknownSeaOracle "a.sea" true false ParkLoad.start).
  - intros h c. reflexivity.
  - reflexivity.
Defined.

(** X20.  With networking compiled in, a load that returns true tells the
    other side.  If the game is a server throughout, the new map is sent to
    the clients, immediately after the guests have been renamed.  If the
    game is a client for as long as its connection has not been closed,
    the connection is closed. *)
Theorem successful_load_informs_the_network (cfg : ParkLoad.Config)
    (o : ParkLoad.Oracle) (stream : ParkLoad.Stream) (path : string)
    (loadTitleScreenFirstOnFail asScenario : bool) (s : ParkLoad.St) :
  ParkLoad.DISABLE_NETWORK cfg = false ->
  fst (ParkLoad.LoadParkFromStream cfg o stream path
         loadTitleScreenFirstOnFail asScenario s) = ParkLoad.Normal true ->
  let calls :=
    ParkLoad.hist
      (snd (ParkLoad.LoadParkFromStream cfg o stream path
              loadTitleScreenFirstOnFail asScenario s)) in
  ((forall h, ParkLoad.networkMode o h = ParkLoad.NETWORK_MODE_SERVER) ->
   exists before after,
     calls
     = ParkLoad.hist s ++ before
       ++ [ParkLoad.PeepUpdateNames (ParkLoad.ShowRealNamesOfGuests o);
           ParkLoad.ServerSendMap]
       ++ after) /\
  ((forall h, ~ In ParkLoad.NetworkClose h ->
      ParkLoad.networkMode o h = ParkLoad.NETWORK_MODE_CLIENT) ->
   ~ In ParkLoad.NetworkClose (ParkLoad.hist s) ->
   In ParkLoad.NetworkClose calls).
Proof.
  intros Ed. rewrite LoadParkFromStream_unfold.
  destruct (ParkLoad.loadBody cfg o stream path asScenario
              (ParkLoad.mkSt (ParkLoad.hist s) loadTitleScreenFirstOnFail))
    as [[b|e] s1] eqn:HB.
  2:{ destruct (ParkLoad.loadHandlers cfg o path e s1) as [[u|e'] s2];
        intros H; discriminate H. }
  intros _. cbn [snd]. cbv zeta.
  destruct (loadBody_Normal_inv cfg o _ _ _ _ _ _ HB)
    as (info & sa & sb & sc & sendMap & u & u' & HA & HI & HS & HF).
  destruct (classifyAndRead_Normal cfg o _ _ _ _ _ HA)
    as (info' & _ & _ & _ & Esa).
  apply importPark_Normal in HI. rewrite Esa in HI.
  cbn [ParkLoad.hist ParkLoad.loadTitleScreenFirstOnFail] in HI.
  split.
  - intros Hm.
    pose proof (startPark_Normal_server cfg o _ _ _ _ _ Ed Hm HS) as ->.
    destruct (startPark_Normal cfg o _ _ _ _ _ HS) as (ev1 & E1 & _).
    destruct (finishLoad_Normal_send cfg o _ _ _ _ Ed HF) as (ev2 & E2).
    rewrite E2, E1, HI. cbn [ParkLoad.hist]. rewrite <- !app_assoc.
    match goal with
    | |- exists before after, _ ++ ?x ++ ?y ++ ev1 ++ _ = _ =>
        exists (x ++ y ++ ev1), ev2
    end.
    rewrite <- !app_assoc. reflexivity.
  - intros Hm Hs.
    assert (~ In ParkLoad.NetworkClose (ParkLoad.hist sb)) as Hsb.
    { rewrite HI. cbn [ParkLoad.hist]. rewrite !in_app_iff. cbn.
      intros H. decompose [or] H; try discriminate; try tauto.
      match goal with
      | E : ParkLoad.importerFor _ _ = _ |- _ =>
          unfold ParkLoad.importerFor in E;
          destruct (ParkLoad.isPark _); [discriminate E|];
          destruct (_ <=? _)%Z; discriminate E
      end. }
    pose proof (startPark_Normal_client cfg o _ _ _ _ _ Ed Hm Hsb HS) as Hin.
    destruct (finishLoad_hist cfg o (ParkLoad.loadResult o) sendMap sc)
      as (ev2 & E2).
    rewrite HF in E2. cbn [snd] in E2. rewrite E2.
    apply in_or_app. left. exact Hin.
Qed.

(** A server loads a saved game: the map is sent. *)
Lemma successful_load_informs_the_network_witness :
  exists before after,
    ParkLoad.hist
      (snd (ParkLoad.LoadParkFromStream ParkLoad.exampleConfig
              ParkLoad.quietOracle (ParkLoad.FileStream "a.sv6") "a.sv6"
              false false ParkLoad.start))
    = ParkLoad.hist ParkLoad.start ++ before
      ++ [ParkLoad.PeepUpdateNames
            (ParkLoad.ShowRealNamesOfGuests ParkLoad.quietOracle);
          ParkLoad.ServerSendMap]
      ++ after.
Proof.
  refine (proj1 (successful_load_informs_the_network ParkLoad.exampleConfig
                   ParkLoad.quietOracle (ParkLoad.FileStream "a.sv6")
                   "a.sv6" false false ParkLoad.start eq_refl _)
            (fun h => eq_refl)).
  vm_compute. reflexivity.
Defined.

(** ** Launching the game *)

Section LaunchFacts.
Import ParkLoad.
Import Launcher.
Variable cfg : Config.
Variable o : Oracle.
Variable g : LaunchEnv.

Ltac adds_step :=
  first
    [ apply adds_ret | apply adds_throw | apply adds_getFlag
    | apply adds_setFlag | apply adds_getMode
    | apply adds_emit | apply adds_call | apply adds_when
    | apply adds_bind; [|intros ?]
    | apply adds_tryCatch; [|intros ?]
    | match goal with
      | |- adds _ (if ?b then _ else _) => destruct b
      | |- adds _ (match ?x with _ => _ end) => destruct x
      end ].

Lemma since_app (s s' : St) (evs : list Call) :
  hist s' = hist s ++ evs -> since s s' = evs.
Proof.
  intros E. unfold since. rewrite E.
  rewrite skipn_app, skipn_all, Nat.sub_diag. reflexivity.
Qed.

Lemma adds_since {A : Type} (P : Call -> Prop) (m : L A) (s : St) :
  adds P m ->
  hist (snd (m s)) = hist s ++ since s (snd (m s)) /\
  Forall P (since s (snd (m s))).
Proof.
  intros Hm. destruct (Hm s) as (evs & E & F).
  rewrite (since_app _ _ _ E). auto.
Qed.

Lemma LoadParkFromStream_any (stream : Stream) (path : string)
    (flag asScenario : bool) :
  adds (fun c => isStreamCall c = true)
    (LoadParkFromStream cfg o stream path flag asScenario).
Proof.
  apply LoadParkFromStream_adds; [intros c Hc _ _; exact Hc| |];
    intros _ _; reflexivity.
Qed.

Lemma importerFor_stream (info : ClassifiedFileInfo) :
  isStreamCall (importerFor cfg info) = true /\
  importerFor cfg info <> TitleLoad.
Proof.
  unfold importerFor. destruct (isPark (info_Type info));
    [|destruct (info_Version info <=? kFileTypeS4Cutoff cfg)%Z];
    split; (reflexivity || discriminate).
Qed.

(** With the title screen requested, [LoadParkFromStream] has loaded it
    exactly when it returns false. *)
Lemma LoadParkFromStream_title (stream : Stream) (path : string)
    (asScenario : bool) (s : St) (b : bool) :
  fst (LoadParkFromStream cfg o stream path true asScenario s) = Normal b ->
  (In TitleLoad
     (since s (snd (LoadParkFromStream cfg o stream path true asScenario s)))
   <-> b = false).
Proof.
  rewrite LoadParkFromStream_unfold.
  set (s0 := mkSt (hist s) true).
  destruct (loadBody cfg o stream path asScenario s0) as [[b0|e] s1] eqn:HB.
  - cbn [fst snd]. intros Hb. injection Hb as ->.
    pose proof (loadBody_yields_true cfg o stream path asScenario s0 b) as Y.
    rewrite HB in Y. rewrite (Y eq_refl).
    destruct (loadBody_Normal cfg o _ _ _ _ _ _ HB)
      as (info & tail & _ & _ & E & _ & _ & NT).
    cbn [hist s0] in E. rewrite (since_app _ _ _ E).
    split; [|intros H; discriminate H].
    intros Hin. exfalso. apply in_app_or in Hin. destruct Hin as [Hin|Hin];
      [|exact (NT Hin)].
    destruct (importerFor_stream info) as [_ Hi].
    cbn in Hin. decompose [or] Hin; try discriminate; try tauto;
      congruence.
  - destruct (loadBody_thrown cfg o _ _ _ _ _ _ HB) as (ev1 & E1 & NT & Hflag).
    destruct (loadHandlers_spec cfg o path e s1)
      as (ev2 & E2 & F2 & Hno & Hyes).
    assert (loadTitleScreenFirstOnFail s1 = true) as Hf
      by (destruct Hflag as [[Hf _]|[Hf _]]; exact Hf).
    destruct (loadHandlers cfg o path e s1) as [[u|e'] s2];
      cbn [fst snd] in *; [|intros H; discriminate H].
    intros Hb. injection Hb as <-.
    assert (hist s2 = hist s ++ (ev1 ++ ev2)) as E
      by (rewrite E2, E1; cbn; rewrite app_assoc; reflexivity).
    rewrite (since_app _ _ _ E). split; [reflexivity|]. intros _.
    apply in_or_app. right. exact (Hyes u eq_refl Hf).
Qed.

Lemma finally_eq {A : Type} (m : L A) (c : Call) (s : St) :
  finally m c s = (fst (m s), record c (snd (m s))).
Proof. unfold finally. destruct (m s); reflexivity. Qed.

(** The handler of [LoadParkFromFile], entered with the title screen
    requested. *)
Lemma fileHandler_Normal (e : Exception) (s s' : St) (b : bool) :
  (if isStdException e then
     bind (call o (ConsoleErrorWriteLine (what e))) (fun _ =>
     bind (when true (call o TitleLoad)) (fun _ =>
     bind (call o (ShowError STR_FAILED_TO_LOAD_FILE_CONTAINS_INVALID_DATA
                     STR_NONE [])) (fun _ =>
     ret false)))
   else throw e) s = (Normal b, s') ->
  b = false /\
  hist s'
  = hist s ++ [ConsoleErrorWriteLine (what e); TitleLoad;
               ShowError STR_FAILED_TO_LOAD_FILE_CONTAINS_INVALID_DATA
                 STR_NONE []].
Proof.
  destruct (isStdException e); [|intros H; discriminate H].
  cbn [when]. rewrite !bind_call.
  repeat match goal with
         | |- context [throws o ?h ?c] =>
             destruct (throws o h c); [intros H; discriminate H|]
         end.
  intros H. injection H as <- <-. split; [reflexivity|].
  cbn. rewrite <- !app_assoc. reflexivity.
Qed.

Lemma tryCatch_Normal {A : Type} (m : L A) (h : Exception -> L A)
    (s s' : St) (a : A) :
  tryCatch m h s = (Normal a, s') ->
  m s = (Normal a, s') \/
  exists e s1, m s = (Thrown e, s1) /\ h e s1 = (Normal a, s').
Proof.
  unfold tryCatch. destruct (m s) as [[a'|e] s1]; intros H.
  - left. exact H.
  - right. eauto.
Qed.

(** The [try] block of [LoadParkFromFile] when it runs to its end. *)
Lemma fileBody_Normal (c : Call) (stream : Stream) (path : string)
    (asScenario : bool) (K : bool -> L bool) (s s' : St) (b : bool) :
  c <> TitleLoad ->
  (forall loaded s0 b0 s0',
     K loaded s0 = (Normal b0, s0') -> b0 = loaded /\ s0' = s0) ->
  bind (call o c) (fun _ =>
    bind (LoadParkFromStream cfg o stream path true asScenario) K) s
  = (Normal b, s') ->
  exists evs,
    hist s' = hist s ++ evs /\ (In TitleLoad evs <-> b = false).
Proof.
  intros Hc HK. rewrite bind_call.
  destruct (throws o (hist s) c); [intros H; discriminate H|].
  unfold bind. set (s2 := record c s).
  pose proof (LoadParkFromStream_title stream path asScenario s2) as HT.
  destruct (adds_since _ _ s2
              (LoadParkFromStream_any stream path true asScenario))
    as [E2 _].
  destruct (LoadParkFromStream cfg o stream path true asScenario s2)
    as [[loaded|e] s3]; cbn [fst snd] in *; [|intros H; discriminate H].
  intros H. destruct (HK _ _ _ _ H) as [-> ->].
  exists (c :: since s2 s3). split.
  - rewrite E2. cbn. rewrite <- app_assoc. reflexivity.
  - rewrite <- (HT loaded eq_refl). cbn. split; [|tauto].
    intros [E|Hin]; [congruence|exact Hin].
Qed.

Lemma fileBody_hist (c : Call) (stream : Stream) (path : string)
    (asScenario : bool) (K : bool -> L bool) :
  (forall loaded, adds (fun _ => True) (K loaded)) ->
  adds (fun _ => True)
    (bind (call o c) (fun _ =>
       bind (LoadParkFromStream cfg o stream path true asScenario) K)).
Proof.
  intros HK. apply adds_bind; [apply adds_call; exact I|]. intros _.
  apply adds_bind; [|exact HK].
  eapply adds_weaken; [|apply LoadParkFromStream_any]. intros c' _. exact I.
Qed.

(** With the title screen requested, [LoadParkFromFile] has loaded it
    exactly when it returns false. *)
Lemma LoadParkFromFile_title (path : string) (asScenario : bool) (s : St)
    (b : bool) :
  fst (LoadParkFromFile cfg o path true asScenario s) = Normal b ->
  (In TitleLoad
     (since s (snd (LoadParkFromFile cfg o path true asScenario s)))
   <-> b = false).
Proof.
  unfold LoadParkFromFile. rewrite bind_call.
  destruct (throws o (hist s) (CrashRegisterAdditionalFile "load_park" path));
    [intros H; discriminate H|].
  rewrite finally_eq. cbn [fst snd].
  set (s1 := record (CrashRegisterAdditionalFile "load_park" path) s).
  match goal with
  | |- fst (?m s1) = _ -> _ => destruct (m s1) as [r s'] eqn:HI
  end.
  cbn [fst snd]. intros ->.
  assert (exists evs, hist s' = hist s1 ++ evs /\
                      (In TitleLoad evs <-> b = false)) as (evs & E & HT).
  { apply tryCatch_Normal in HI. destruct HI as [HB|(e & s2 & HB & HH)].
    - destruct (hasSeaExtension o path);
        (eapply fileBody_Normal; [| |exact HB]; [discriminate|]);
        intros loaded s0 b0 s0'; destruct loaded; cbn; intros H;
        try discriminate H; injection H as <- <-; auto.
    - destruct (fileHandler_Normal _ _ _ _ HH) as [-> E4].
      assert (exists ev1, hist s2 = hist s1 ++ ev1) as (ev1 & E1).
      { destruct (hasSeaExtension o path);
          match type of HB with
          | ?m s1 = _ =>
              assert (adds (fun _ => True) m) as Ha
                by (apply fileBody_hist; intros loaded; destruct loaded;
                    cbn; (apply adds_ret || apply adds_throw));
              destruct (Ha s1) as (ev1 & E1 & _); rewrite HB in E1;
              exists ev1; exact E1
          end. }
      eexists. split; [rewrite E4, E1, <- app_assoc; reflexivity|].
      split; [reflexivity|]. intros _.
      rewrite in_app_iff. cbn. tauto. }
  rewrite (since_app s _
             (CrashRegisterAdditionalFile "load_park" path :: evs
              ++ [CrashUnregisterAdditionalFile "load_park"]))
    by (cbn; rewrite E; cbn; rewrite <- !app_assoc; reflexivity).
  rewrite <- HT. cbn. rewrite in_app_iff. cbn.
  split; [|tauto]. intros H. decompose [or] H; try discriminate; tauto.
Qed.

Lemma emit_first {A : Type} (P : Call -> Prop) (c : Call) (k : unit -> L A)
    (s : St) :
  adds P (k tt) ->
  exists evs,
    hist (snd (bind (emit c) k s)) = hist s ++ c :: evs /\ Forall P evs.
Proof.
  intros Hk. unfold bind, emit.
  destruct (Hk (record c s)) as (evs & E & F).
  exists evs. rewrite E. cbn. rewrite <- app_assoc. auto.
Qed.

(** Once the park is loaded: the screen flags first, then only the calls
    that start the server or the scripts. *)
Lemma startLoadedPark_first (port : Z) (s : St) :
  exists evs,
    hist (snd (startLoadedPark cfg o g port s))
    = hist s ++ Assign_gScreenFlags (SCREEN_FLAGS_PLAYING g) :: evs /\
    Forall (fun c => isStartCall c = true) evs.
Proof.
  unfold startLoadedPark. apply emit_first. unfold defaultPort.
  repeat adds_step; reflexivity.
Qed.

Lemma DownloadPark_adds (url : string) :
  adds (fun c => c <> TitleLoad /\ isStartCall c = false)
    (DownloadPark o g url).
Proof.
  unfold DownloadPark. repeat adds_step; split; (discriminate || reflexivity).
Qed.

Lemma isStreamCall_notStart (c : Call) :
  isStreamCall c = true -> isStartCall c = false.
Proof. destruct c; cbn; intros H; (reflexivity || discriminate H). Qed.

Lemma isFileCall_notStart (c : Call) :
  isFileCall c = true -> isStartCall c = false.
Proof. destruct c; cbn; intros H; (reflexivity || discriminate H). Qed.

Lemma LoadParkFromStream_notStart (stream : Stream) (path : string)
    (flag asScenario : bool) :
  adds (fun c => isStartCall c = false)
    (LoadParkFromStream cfg o stream path flag asScenario).
Proof.
  eapply adds_weaken; [|apply LoadParkFromStream_any].
  exact isStreamCall_notStart.
Qed.

Lemma LoadParkFromFile_notStart (path : string) (flag asScenario : bool) :
  adds (fun c => isStartCall c = false)
    (LoadParkFromFile cfg o path flag asScenario).
Proof.
  apply LoadParkFromFile_adds.
  - intros c Hc _ _. apply isStreamCall_notStart. exact Hc.
  - intros _ _. reflexivity.
  - intros _ _. reflexivity.
  - exact isFileCall_notStart.
Qed.

Lemma since_step (s s1 s2 : St) (e1 e2 : list Call) :
  hist s1 = hist s ++ e1 -> hist s2 = hist s1 ++ e2 ->
  since s s2 = e1 ++ e2 /\ hist s2 = hist s ++ since s s2.
Proof.
  intros E1 E2.
  assert (hist s2 = hist s ++ (e1 ++ e2)) as E
    by (rewrite E2, E1, <- app_assoc; reflexivity).
  rewrite (since_app _ _ _ E). auto.
Qed.

Lemma since_refl (s : St) : since s s = [] /\ hist s = hist s ++ since s s.
Proof.
  assert (hist s = hist s ++ []) as E by (rewrite app_nil_r; reflexivity).
  rewrite (since_app _ _ _ E). auto.
Qed.

Lemma Forall_start_notTitle (evs : list Call) :
  Forall (fun c => isStartCall c = true) evs -> ~ In TitleLoad evs.
Proof.
  rewrite List.Forall_forall. intros F Hin. specialize (F _ Hin).
  discriminate F.
Qed.

(** The handler around [LoadParkFromFile] in [Launch]. *)
Lemma launchHandler_Normal (path : string) (e : Exception) (s s' : St)
    (b : bool) :
  (if isStdException e then
     bind (call o (ConsoleErrorWriteLine ("Failed to load '" ++ path ++ "'")%string))
       (fun _ =>
     bind (call o (ConsoleErrorWriteLine (what e))) (fun _ =>
     bind (call o TitleLoad) (fun _ => ret false)))
   else throw e) s = (Normal b, s') ->
  b = false /\
  hist s'
  = hist s ++ [ConsoleErrorWriteLine ("Failed to load '" ++ path ++ "'")%string;
               ConsoleErrorWriteLine (what e); TitleLoad].
Proof.
  destruct (isStdException e); [|intros H; discriminate H].
  rewrite !bind_call.
  repeat match goal with
         | |- context [throws o ?h ?c] =>
             destruct (throws o h c); [intros H; discriminate H|]
         end.
  intros H. injection H as <- <-. split; [reflexivity|].
  cbn. rewrite <- !app_assoc. reflexivity.
Qed.

(** [case StartupAction::Open] ends either in the game or on the title
    screen. *)
Lemma openPark_outcome (port port' : Z) (s s' : St) :
  openPark cfg o g port s = (Normal port', s') ->
  hist s' = hist s ++ since s s' /\
  ((In (Assign_gScreenFlags (SCREEN_FLAGS_PLAYING g)) (since s s') /\
    ~ In TitleLoad (since s s')) \/
   (In TitleLoad (since s s') /\
    Forall (fun c => isStartCall c = false) (since s s') /\ port' = port)).
Proof.
  assert (forall s1 ev1,
            hist s1 = hist s ++ ev1 -> ~ In TitleLoad ev1 ->
            startLoadedPark cfg o g port s1 = (Normal port', s') ->
            hist s' = hist s ++ since s s' /\
            In (Assign_gScreenFlags (SCREEN_FLAGS_PLAYING g)) (since s s') /\
            ~ In TitleLoad (since s s')) as Hstart.
  { intros s1 ev1 E1 N1 H.
    destruct (startLoadedPark_first port s1) as (ev2 & E2 & F2).
    rewrite H in E2. cbn [snd] in E2.
    destruct (since_step _ _ _ _ _ E1 E2) as [-> Eh].
    split; [rewrite E2, E1, <- app_assoc; reflexivity|].
    rewrite !in_app_iff. cbn. split; [tauto|].
    intros [Hin|[Hin|Hin]];
      [exact (N1 Hin)|discriminate Hin|exact (Forall_start_notTitle _ F2 Hin)]. }
  unfold openPark.
  destruct (contains "://" (gOpenRCT2StartupActionPath g)).
  - destruct (DISABLE_HTTP g).
    + intros H. destruct (since_refl s) as [_ E0].
      destruct (Hstart s [] ltac:(rewrite app_nil_r; reflexivity)
                  ltac:(intros []) H) as (E & H1 & H2).
      split; [exact E|]. left. auto.
    + unfold bind at 1.
      destruct (adds_since _ _ s
                  (DownloadPark_adds (gOpenRCT2StartupActionPath g)))
        as [E1 F1].
      destruct (DownloadPark o g (gOpenRCT2StartupActionPath g) s)
        as [[data|e] s1]; cbn [fst snd] in *; [|intros H; discriminate H].
      assert (~ In TitleLoad (since s s1)) as N1.
      { rewrite List.Forall_forall in F1. intros Hin.
        exact (proj1 (F1 _ Hin) eq_refl). }
      assert (Forall (fun c => isStartCall c = false) (since s s1)) as S1.
      { eapply List.Forall_impl; [|exact F1]. intros c Hc. exact (proj2 Hc). }
      destruct data as [|d data]; cbn [isNil].
      * rewrite bind_call.
        destruct (throws o (hist s1) TitleLoad); [intros H; discriminate H|].
        intros H. injection H as <- <-.
        destruct (since_step s s1 (record TitleLoad s1) _ [TitleLoad] E1
                    eq_refl) as [-> Eh].
        split; [exact Eh|]. right.
        split; [apply in_or_app; right; left; reflexivity|].
        split; [|reflexivity].
        rewrite Forall_app. split; [exact S1|repeat constructor].
      * unfold bind at 1.
        pose proof (LoadParkFromStream_title (MemoryStream (d :: data))
                      (gOpenRCT2StartupActionPath g) false s1) as HT.
        destruct (adds_since _ _ s1
                    (LoadParkFromStream_notStart (MemoryStream (d :: data))
                       (gOpenRCT2StartupActionPath g) true false))
          as [E2 F2].
        destruct (LoadParkFromStream cfg o (MemoryStream (d :: data))
                    (gOpenRCT2StartupActionPath g) true false s1)
          as [[loaded|e] s2]; cbn [fst snd] in *; [|intros H; discriminate H].
        specialize (HT loaded eq_refl).
        destruct (since_step _ _ _ _ _ E1 E2) as [E12 Eh12].
        destruct loaded; cbn [negb].
        -- intros H.
           destruct (Hstart s2 _ Eh12) as (E & H1 & H2);
             [|exact H|split; [exact E|left; auto]].
           rewrite E12, in_app_iff. intros [Hin|Hin]; [exact (N1 Hin)|].
           apply HT in Hin. discriminate Hin.
        -- rewrite !bind_call.
           repeat match goal with
                  | |- context [throws o ?h ?c] =>
                      destruct (throws o h c); [intros H; discriminate H|]
                  end.
           intros H. injection H as <- <-.
           match goal with
           | |- context [since s ?st] =>
               destruct (since_step s s2 st _
                           [ConsoleErrorWriteLine
                              ("Failed to load '"
                               ++ gOpenRCT2StartupActionPath g ++ "'")%string;
                            TitleLoad] Eh12
                           ltac:(cbn; rewrite <- app_assoc; reflexivity))
                 as [-> Eh]
           end.
           split; [exact Eh|]. right.
           split; [apply in_or_app; right; right; left; reflexivity|].
           split; [|reflexivity].
           rewrite E12, !Forall_app. repeat split; auto; repeat constructor.
  - unfold bind at 1.
    match goal with
    | |- context [tryCatch ?m ?h s] =>
        destruct (tryCatch m h s) as [[loaded|e] s1] eqn:HT
    end; [|intros H; discriminate H].
    destruct (adds_since _ _ s
                (LoadParkFromFile_notStart (gOpenRCT2StartupActionPath g)
                   true false)) as [E1 F1].
    pose proof (LoadParkFromFile_title (gOpenRCT2StartupActionPath g)
                  false s) as HL.
    apply tryCatch_Normal in HT. destruct HT as [HB|(e & s2 & HB & HH)].
    + rewrite HB in E1, F1, HL. cbn [fst snd] in *.
      specialize (HL loaded eq_refl).
      destruct loaded; cbn [negb].
      * intros H.
        destruct (Hstart s1 _ E1) as (E & H1 & H2);
          [|exact H|split; [exact E|left; auto]].
        intros Hin. apply HL in Hin. discriminate Hin.
      * intros H. injection H as <- <-.
        split; [exact E1|]. right.
        split; [apply HL; reflexivity|]. auto.
    + rewrite HB in E1, F1. cbn [fst snd] in *.
      destruct (launchHandler_Normal _ _ _ _ _ HH) as [-> E2].
      cbn [negb]. intros H. injection H as <- <-.
      destruct (since_step _ _ _ _ _ E1 E2) as [-> Eh].
      split; [exact Eh|]. right.
      split; [apply in_or_app; right; right; right; left; reflexivity|].
      split; [|reflexivity].
      rewrite Forall_app. split; [exact F1|repeat constructor].
Qed.

Lemma bindL_ret {A B : Type} (a : A) (k : A -> L B) (s : St) :
  bind (ret a) k s = k a s.
Proof. reflexivity. Qed.

Lemma bindL_emit {A : Type} (c : Call) (k : unit -> L A) (s : St) :
  bind (emit c) k s = k tt (record c s).
Proof. reflexivity. Qed.

Lemma startLoadedPark_port (port : Z) :
  yields (fun p => p = port \/ isServer (gNetworkStart g) = true)
    (startLoadedPark cfg o g port).
Proof.
  unfold startLoadedPark. apply yields_bind. intros _.
  destruct (negb (DISABLE_NETWORK cfg) && isServer (gNetworkStart g)) eqn:E.
  - apply andb_true_iff in E. destruct E as [_ E].
    intros s p _. right. exact E.
  - repeat (apply yields_bind; intros ?). apply yields_ret. left. reflexivity.
Qed.

Lemma openPark_port (port : Z) :
  yields (fun p => p = port \/ isServer (gNetworkStart g) = true)
    (openPark cfg o g port).
Proof.
  unfold openPark.
  destruct (contains "://" (gOpenRCT2StartupActionPath g)).
  - destruct (DISABLE_HTTP g); [apply startLoadedPark_port|].
    apply yields_bind. intros data. destruct (isNil data).
    + apply yields_bind. intros _. apply yields_ret. left. reflexivity.
    + apply yields_bind. intros loaded. destruct loaded; cbn [negb].
      * apply startLoadedPark_port.
      * repeat (apply yields_bind; intros ?). apply yields_ret. left.
        reflexivity.
  - apply yields_bind. intros loaded. destruct loaded; cbn [negb].
    + apply startLoadedPark_port.
    + apply yields_ret. left. reflexivity.
Qed.

Lemma runStartupAction_port (action : StartupAction) :
  yields (fun p => p = gNetworkStartPort g
                   \/ isServer (gNetworkStart g) = true)
    (runStartupAction cfg o g action).
Proof.
  unfold runStartupAction. destruct action;
    try apply openPark_port;
    repeat (apply yields_bind; intros ?); apply yields_ret; left; reflexivity.
Qed.

(** The stages of a launch that reaches its end. *)
Lemma Launch_Normal_inv (s s' : St) (u : unit) :
  Launch cfg o g s = (Normal u, s') ->
  exists s1 port s2,
    hist s1 = hist s ++ launchPrologue g /\
    runStartupAction cfg o g (normalisedAction g) s1 = (Normal port, s2) /\
    hist s' = hist s2 ++ launchEpilogue cfg g.
Proof.
  unfold Launch, launchPrologue, startupAction.
  assert (forall (k : unit -> L unit) s0,
            bind (when (negb (versionCheckFutureValid g))
                    (call o AsyncVersionCheck)) k s0 = (Normal u, s') ->
            k tt (mkSt (hist s0
                        ++ (if versionCheckFutureValid g then []
                            else [AsyncVersionCheck]))
                    (loadTitleScreenFirstOnFail s0)) = (Normal u, s'))
    as Hasync.
  { intros k s0. destruct (versionCheckFutureValid g); cbn [negb when].
    - rewrite bindL_ret, app_nil_r. destruct s0; exact (fun H => H).
    - rewrite bind_call. destruct (throws o (hist s0) AsyncVersionCheck);
        [intros H; discriminate H|exact (fun H => H)]. }
  intros H. apply Hasync in H. rewrite bindL_emit in H.
  set (s0 := record (Assign_gIntroState IntroState_None) _) in H.
  assert (exists s1,
            hist s1
            = hist s0
              ++ (if gOpenRCT2Headless g then
                    if isOpen (gOpenRCT2StartupAction g) then []
                    else [Assign_gOpenRCT2StartupAction StartupAction_None]
                  else if isTitle (gOpenRCT2StartupAction g) && PlayIntro g
                  then [Assign_gOpenRCT2StartupAction StartupAction_Intro]
                  else []) /\
            bind (runStartupAction cfg o g (normalisedAction g))
              (fun port =>
                 bind (connectClient cfg o g port) (fun _ =>
                 bind (call o StdInOutConsoleStart) (fun _ =>
                 call o RunGameLoopCall))) s1 = (Normal u, s'))
    as (s1 & E1 & H1).
  { unfold normalisedAction. revert H.
    destruct (gOpenRCT2Headless g).
    - destruct (gOpenRCT2StartupAction g); cbn [isOpen negb];
        rewrite ?bind_assoc, ?bindL_emit, ?bindL_ret; intros H;
        eexists; (split; [|exact H]); cbn; rewrite ?app_nil_r; reflexivity.
    - destruct (isTitle (gOpenRCT2StartupAction g) && PlayIntro g);
        rewrite ?bind_assoc, ?bindL_emit, ?bindL_ret; intros H;
        eexists; (split; [|exact H]); cbn; rewrite ?app_nil_r; reflexivity. }
  clear H. unfold bind at 1 in H1.
  pose proof (runStartupAction_port (normalisedAction g) s1) as Hport.
  destruct (runStartupAction cfg o g (normalisedAction g) s1)
    as [[port|e] s2] eqn:HR; [|discriminate H1].
  specialize (Hport port eq_refl).
  exists s1, port, s2. split.
  { rewrite E1. subst s0. cbn. rewrite <- !app_assoc. reflexivity. }
  split; [exact HR|].
  revert H1. unfold connectClient, launchEpilogue, defaultPort.
  destruct (negb (DISABLE_NETWORK cfg) && isClient (gNetworkStart g)) eqn:Ec.
  - assert (port = gNetworkStartPort g) as ->.
    { destruct Hport as [Hp|Hs]; [exact Hp|].
      apply andb_true_iff in Ec. destruct Ec as [_ Ec].
      destruct (gNetworkStart g); discriminate. }
    destruct (gNetworkStartPort g =? 0)%Z;
      rewrite ?bind_assoc, ?bindL_emit, ?bindL_ret, !bind_call;
      repeat match goal with
             | |- context [throws o ?h ?c] =>
                 destruct (throws o h c); [intros H; discriminate H|]
             end;
      unfold call;
      repeat match goal with
             | |- context [throws o ?h ?c] =>
                 destruct (throws o h c); [intros H; discriminate H|]
             end;
      intros H; injection H as Hu Hs; rewrite <- Hs; cbn; rewrite <- ?app_assoc; reflexivity.
  - rewrite bindL_ret, bind_call.
    destruct (throws o (hist s2) StdInOutConsoleStart);
      [intros H; discriminate H|].
    unfold call.
    match goal with
    | |- context [throws o ?h ?c] =>
        destruct (throws o h c); [intros H; discriminate H|]
    end.
    intros H; injection H as Hu Hs; rewrite <- Hs; cbn; rewrite <- ?app_assoc; reflexivity.
Qed.

(** The actions that load no park. *)
Lemma runStartupAction_simple (action : StartupAction) (s s' : St)
    (port : Z) :
  action <> StartupAction_Open ->
  runStartupAction cfg o g action s = (Normal port, s') ->
  hist s' = hist s ++ simpleAction g action.
Proof.
  intros Ha. unfold runStartupAction, simpleAction.
  destruct action; try contradiction;
    try destruct (isEmpty (gOpenRCT2StartupActionPath g));
    try destruct (EditorLoadLandscapeResult g (gOpenRCT2StartupActionPath g));
    cbn [negb];
    rewrite ?bind_assoc, ?bindL_emit, ?bind_call;
    repeat match goal with
           | |- context [throws o ?h ?c] =>
               destruct (throws o h c); [intros H; discriminate H|]
           end;
    rewrite ?bindL_ret, ?bind_call;
    repeat match goal with
           | |- context [throws o ?h ?c] =>
               destruct (throws o h c); [intros H; discriminate H|]
           end;
    rewrite ?bindL_ret;
    intros H; injection H as _ <-; cbn; rewrite <- ?app_assoc, ?app_nil_r;
    reflexivity.
Qed.

Lemma isStreamCall_notEpilogue (c : Call) :
  isStreamCall c = true -> isEpilogueCall c = false.
Proof. destruct c; cbn; intros H; (reflexivity || discriminate H). Qed.

Lemma isFileCall_notEpilogue (c : Call) :
  isFileCall c = true -> isEpilogueCall c = false.
Proof. destruct c; cbn; intros H; (reflexivity || discriminate H). Qed.

(** The [switch] makes none of the calls with which [Launch] ends. *)
Lemma runStartupAction_adds (action : StartupAction) :
  adds (fun c => isEpilogueCall c = false)
    (runStartupAction cfg o g action).
Proof.
  assert (forall stream path flag asScenario,
            adds (fun c => isEpilogueCall c = false)
              (LoadParkFromStream cfg o stream path flag asScenario)) as HS.
  { intros. eapply adds_weaken; [|apply LoadParkFromStream_any].
    exact isStreamCall_notEpilogue. }
  assert (forall path flag asScenario,
            adds (fun c => isEpilogueCall c = false)
              (LoadParkFromFile cfg o path flag asScenario)) as HF.
  { intros. apply LoadParkFromFile_adds.
    - intros c Hc _ _. apply isStreamCall_notEpilogue. exact Hc.
    - intros _ _. reflexivity.
    - intros _ _. reflexivity.
    - exact isFileCall_notEpilogue. }
  assert (forall port,
            adds (fun c => isEpilogueCall c = false)
              (startLoadedPark cfg o g port)) as HP.
  { intros port. unfold startLoadedPark, defaultPort.
    repeat adds_step; reflexivity. }
  unfold runStartupAction, openPark, DownloadPark.
  destruct action;
    repeat first [ apply HS | apply HF | apply HP | adds_step ];
    reflexivity.
Qed.

End LaunchFacts.

(** X21.  A launch whose startup action, as the [switch] sees it, is not
    [Open], and which reaches its end, makes exactly these calls: the
    version check unless one is under way, [gIntroState = None], the
    rewritten startup action if it was rewritten; then for [Intro] the
    publisher intro and the title screen, for [Title] the title screen, for
    [Edit] the editor (with the title screen if the landscape cannot be
    loaded), for anything else nothing; then the client connection if the
    game starts as a client, the console and the game loop.  The action the
    [switch] sees is [None] or [Open] in headless mode -- so a headless game
    never shows the intro, the title screen or the editor here -- and
    [Intro] in place of [Title] when the intro is to be played. *)
Theorem launch_without_park (cfg : ParkLoad.Config) (o : ParkLoad.Oracle)
    (g : Launcher.LaunchEnv) (s : ParkLoad.St) (u : unit) :
  Launcher.normalisedAction g <> ParkLoad.StartupAction_Open ->
  fst (Launcher.Launch cfg o g s) = ParkLoad.Normal u ->
  ParkLoad.since s (snd (Launcher.Launch cfg o g s))
  = Launcher.launchPrologue g
    ++ Launcher.simpleAction g (Launcher.normalisedAction g)
    ++ Launcher.launchEpilogue cfg g.
Proof.
  intros Ha. destruct (Launcher.Launch cfg o g s) as [r s'] eqn:HL.
  cbn [fst snd]. intros ->.
  destruct (Launch_Normal_inv cfg o g _ _ _ HL)
    as (s1 & port & s2 & E1 & HR & E2).
  apply (runStartupAction_simple cfg o g _ _ _ _ Ha) in HR.
  apply since_app. rewrite E2, HR, E1, <- !app_assoc. reflexivity.
Qed.

(** A desktop game that starts with the title screen and plays the
    intro. *)
Lemma launch_without_park_witness :
  ParkLoad.since ParkLoad.start
    (snd (Launcher.Launch ParkLoad.exampleConfig ParkLoad.quietOracle
            Launcher.desktopEnv ParkLoad.start))
  = [ParkLoad.AsyncVersionCheck;
     ParkLoad.Assign_gIntroState IntroState_None;
     ParkLoad.Assign_gOpenRCT2StartupAction ParkLoad.StartupAction_Intro;
     ParkLoad.Assign_gIntroState IntroState_PublisherBegin;
     ParkLoad.TitleLoad;
     ParkLoad.StdInOutConsoleStart; ParkLoad.RunGameLoopCall].
Proof.
  refine (launch_without_park ParkLoad.exampleConfig ParkLoad.quietOracle
            Launcher.desktopEnv ParkLoad.start tt _ _).
  - discriminate.
  - reflexivity.
Defined.

(** X22.  A launch with the startup action [Open] that reaches its end
    ends either in the game or on the title screen, never both and never
    neither: [gScreenFlags] is set to [SCREEN_FLAGS_PLAYING] exactly when
    [TitleLoad] has not been called.  This holds for a file and for a URL,
    whether the load returns false or throws a [std::exception].  And when
    the title screen has been loaded, nothing has been started: no scripts,
    no map notification, no server, no password. *)
Theorem launch_open_ends_in_game_or_title (cfg : ParkLoad.Config)
    (o : ParkLoad.Oracle) (g : Launcher.LaunchEnv) (s : ParkLoad.St)
    (u : unit) :
  Launcher.normalisedAction g = ParkLoad.StartupAction_Open ->
  fst (Launcher.Launch cfg o g s) = ParkLoad.Normal u ->
  let calls := ParkLoad.since s (snd (Launcher.Launch cfg o g s)) in
  (In (ParkLoad.Assign_gScreenFlags (Launcher.SCREEN_FLAGS_PLAYING g)) calls
   <-> ~ In ParkLoad.TitleLoad calls) /\
  (In ParkLoad.TitleLoad calls ->
   ~ In ParkLoad.GameLoadScripts calls /\
   ~ In ParkLoad.GameNotifyMapChanged calls /\
   (forall port address,
      ~ In (ParkLoad.NetworkBeginServer port address) calls) /\
   (forall password, ~ In (ParkLoad.NetworkSetPassword password) calls)).
Proof.
  intros Ha. destruct (Launcher.Launch cfg o g s) as [r s'] eqn:HL.
  cbn [fst snd]. intros ->. cbv zeta.
  destruct (Launch_Normal_inv cfg o g _ _ _ HL)
    as (s1 & port & s2 & E1 & HR & E2).
  rewrite Ha in HR. cbn [Launcher.runStartupAction] in HR.
  destruct (openPark_outcome cfg o g _ _ _ _ HR) as [E12 Hout].
  assert (ParkLoad.since s s'
          = Launcher.launchPrologue g ++ ParkLoad.since s1 s2
            ++ Launcher.launchEpilogue cfg g) as ->.
  { apply since_app. rewrite E2, E12, E1, <- !app_assoc. reflexivity. }
  assert (forall c, Launcher.isStartCall c = true \/ c = ParkLoad.TitleLoad ->
            c <> ParkLoad.Assign_gNetworkStartPort (Launcher.DefaultPort g) ->
            In c (Launcher.launchPrologue g ++ ParkLoad.since s1 s2
                  ++ Launcher.launchEpilogue cfg g) ->
            In c (ParkLoad.since s1 s2)) as Hmid.
  { intros c Hc Hn. rewrite !in_app_iff.
    unfold Launcher.launchPrologue, Launcher.launchEpilogue.
    destruct (Launcher.versionCheckFutureValid g),
      (Launcher.gOpenRCT2Headless g),
      (Launcher.isOpen (Launcher.gOpenRCT2StartupAction g)),
      (Launcher.isTitle (Launcher.gOpenRCT2StartupAction g)
       && Launcher.PlayIntro g),
      (negb (ParkLoad.DISABLE_NETWORK cfg)
       && ParkLoad.isClient (Launcher.gNetworkStart g)),
      (Launcher.gNetworkStartPort g =? 0)%Z; cbn;
      intros H; decompose [or] H; subst; try tauto;
      try (destruct Hc as [Hc|Hc]; discriminate Hc);
      try congruence. }
  assert (forall c, In c (ParkLoad.since s1 s2) ->
            In c (Launcher.launchPrologue g ++ ParkLoad.since s1 s2
                  ++ Launcher.launchEpilogue cfg g)) as Hin
    by (intros c H; rewrite !in_app_iff; tauto).
  destruct Hout as [[HP NT]|(HT & NS & _)].
  - split.
    + split; [|intros _; apply Hin; exact HP].
      intros _ H. apply NT. apply Hmid; [right; reflexivity|discriminate|exact H].
    + intros H. exfalso. apply NT.
      apply Hmid; [right; reflexivity|discriminate|exact H].
  - rewrite List.Forall_forall in NS.
    assert (forall c, Launcher.isStartCall c = true ->
              c <> ParkLoad.Assign_gNetworkStartPort (Launcher.DefaultPort g) ->
              ~ In c (Launcher.launchPrologue g ++ ParkLoad.since s1 s2
                      ++ Launcher.launchEpilogue cfg g)) as Hno.
    { intros c Hc Hn H. apply Hmid in H; [|left; exact Hc|exact Hn].
      specialize (NS _ H). congruence. }
    split.
    + split; [|intros H; exfalso; apply H; apply Hin; exact HT].
      intros H _. revert H. apply Hno; [reflexivity|discriminate].
    + intros _. repeat split; intros; apply Hno;
        (reflexivity || discriminate).
Qed.

(** A headless server opens a saved game: it ends in the game, with the
    server begun on the default port. *)
Example launch_server_example :
  ParkLoad.since ParkLoad.start
    (snd (Launcher.Launch ParkLoad.exampleConfig ParkLoad.quietOracle
            Launcher.serverEnv ParkLoad.start))
  = [ParkLoad.AsyncVersionCheck;
     ParkLoad.Assign_gIntroState IntroState_None;
     ParkLoad.CrashRegisterAdditionalFile "load_park" "a.sv6";
     ParkLoad.OpenFileStream "a.sv6";
     ParkLoad.TryClassifyFile (ParkLoad.FileStream "a.sv6");
     ParkLoad.ParkImporter_CreateS6;
     ParkLoad.LoadFromStream (ParkLoad.FileStream "a.sv6") false false "a.sv6";
     ParkLoad.GameUnloadScripts; ParkLoad.LoadObjects []; ParkLoad.Import;
     ParkLoad.Assign_gScenarioSavePath "a.sv6";
     ParkLoad.Assign_gCurrentLoadedPath "a.sv6";
     ParkLoad.Assign_gFirstTimeSaving true; ParkLoad.GameFixSaveVars;
     ParkLoad.MapAnimationAutoCreate; ParkLoad.EntityTweenerReset;
     ParkLoad.Assign_gScreenAge 0; ParkLoad.Assign_gLastAutoSaveUpdate 0;
     ParkLoad.GameLoadInit; ParkLoad.PeepUpdateNames true;
     ParkLoad.ServerSendMap;
     ParkLoad.CrashUnregisterAdditionalFile "load_park";
     ParkLoad.Assign_gScreenFlags 0;
     ParkLoad.Assign_gNetworkStartPort 11753;
     ParkLoad.Assign_gNetworkStartAddress "0.0.0.0";
     ParkLoad.NetworkSetPassword "secret";
     ParkLoad.NetworkBeginServer 11753 "0.0.0.0";
     ParkLoad.StdInOutConsoleStart; ParkLoad.RunGameLoopCall].
Proof. vm_compute. reflexivity. Qed.

Lemma launch_open_ends_in_game_or_title_witness :
  let calls :=
    ParkLoad.since ParkLoad.start
      (snd (Launcher.Launch ParkLoad.exampleConfig ParkLoad.quietOracle
              Launcher.serverEnv ParkLoad.start)) in
  (In (ParkLoad.Assign_gScreenFlags
         (Launcher.SCREEN_FLAGS_PLAYING Launcher.serverEnv)) calls
   <-> ~ In ParkLoad.TitleLoad calls) /\
  (In ParkLoad.TitleLoad calls ->
   ~ In ParkLoad.GameLoadScripts calls /\
   ~ In ParkLoad.GameNotifyMapChanged calls /\
   (forall port address,
      ~ In (ParkLoad.NetworkBeginServer port address) calls) /\
   (forall password, ~ In (ParkLoad.NetworkSetPassword password) calls)).
Proof.
  refine (launch_open_ends_in_game_or_title ParkLoad.exampleConfig
            ParkLoad.quietOracle Launcher.serverEnv ParkLoad.start tt _ _).
  - reflexivity.
  - vm_compute. reflexivity.
Defined.

(** X23.  A launch that reaches its end enters the game loop exactly once,
    as its last call, right after starting the console; if the game starts
    as a client (and networking is compiled in) the connection is begun
    just before, once, to [gNetworkStartHost] on [gNetworkStartPort], or on
    the configured default port if that is 0 -- whatever the startup action
    was and however it went. *)
Theorem launch_ends_in_game_loop (cfg : ParkLoad.Config)
    (o : ParkLoad.Oracle) (g : Launcher.LaunchEnv) (s : ParkLoad.St)
    (u : unit) :
  fst (Launcher.Launch cfg o g s) = ParkLoad.Normal u ->
  exists before,
    ParkLoad.since s (snd (Launcher.Launch cfg o g s))
    = before ++ Launcher.launchEpilogue cfg g /\
    Forall (fun c => Launcher.isEpilogueCall c = false) before.
Proof.
  destruct (Launcher.Launch cfg o g s) as [r s'] eqn:HL.
  cbn [fst snd]. intros ->.
  destruct (Launch_Normal_inv cfg o g _ _ _ HL)
    as (s1 & port & s2 & E1 & HR & E2).
  destruct (runStartupAction_adds cfg o g (Launcher.normalisedAction g) s1)
    as (evs & E12 & F12).
  rewrite HR in E12. cbn [snd] in E12.
  exists (Launcher.launchPrologue g ++ evs). split.
  - apply since_app. rewrite E2, E12, E1, <- !app_assoc. reflexivity.
  - rewrite Forall_app. split; [|exact F12].
    unfold Launcher.launchPrologue.
    destruct (Launcher.versionCheckFutureValid g),
      (Launcher.gOpenRCT2Headless g),
      (Launcher.isOpen (Launcher.gOpenRCT2StartupAction g)),
      (Launcher.isTitle (Launcher.gOpenRCT2StartupAction g)
       && Launcher.PlayIntro g); repeat constructor.
Qed.

Lemma launch_ends_in_game_loop_witness :
  exists before,
    ParkLoad.since ParkLoad.start
      (snd (Launcher.Launch ParkLoad.exampleConfig ParkLoad.quietOracle
              Launcher.serverEnv ParkLoad.start))
    = before ++ Launcher.launchEpilogue ParkLoad.exampleConfig
                  Launcher.serverEnv /\
    Forall (fun c => Launcher.isEpilogueCall c = false) before.
Proof.
  refine (launch_ends_in_game_loop ParkLoad.exampleConfig
            ParkLoad.quietOracle Launcher.serverEnv ParkLoad.start tt _).
  vm_compute. reflexivity.
Defined.

(** X24.  [DownloadPark] asks the server exactly once.  It returns data
    that is not empty only if the request did not throw and the status was
    OK; the data is then the body of the response and nothing is written to
    the console.  A [std::exception] of the request, like a bad status, is
    written to the console and turned into empty data: the only
    [std::exception] that can leave the function is one thrown by that
    write. *)
Theorem DownloadPark_result (o : ParkLoad.Oracle) (g : Launcher.LaunchEnv)
    (url : string) (s : ParkLoad.St) :
  let r := Launcher.DownloadPark o g url s in
  let calls := ParkLoad.since s (snd r) in
  (exists rest,
     calls = ParkLoad.HttpDo url :: rest /\
     Forall (fun c => exists text, c = ParkLoad.ConsoleErrorWriteLine text)
       rest) /\
  (forall data,
     fst r = ParkLoad.Normal data -> data <> [] ->
     ParkLoad.throws o (ParkLoad.hist s) (ParkLoad.HttpDo url) = None /\
     Launcher.httpStatusOk g url = true /\
     data = Launcher.httpBody g url /\
     calls = [ParkLoad.HttpDo url]) /\
  (forall e,
     fst r = ParkLoad.Thrown e -> ParkLoad.isStdException e = true ->
     exists text,
       ParkLoad.throws o (ParkLoad.hist s ++ [ParkLoad.HttpDo url])
         (ParkLoad.ConsoleErrorWriteLine text) = Some e).
Proof.
  cbv zeta. unfold Launcher.DownloadPark, ParkLoad.bind, ParkLoad.tryCatch,
    ParkLoad.call, ParkLoad.throw, ParkLoad.ret.
  destruct (ParkLoad.throws o (ParkLoad.hist s) (ParkLoad.HttpDo url))
    as [e0|] eqn:E0; cbn.
  - destruct (ParkLoad.isStdException e0) eqn:Es; cbn.
    + match goal with
      | |- context [ParkLoad.throws o ?h ?c] =>
          destruct (ParkLoad.throws o h c) as [e1|] eqn:E1
      end; cbn;
        (erewrite since_app by (cbn; rewrite <- ?app_assoc; reflexivity));
        (split; [eexists; split; [reflexivity|]; repeat constructor; eauto|]);
        (split; [intros data H; try discriminate H; injection H as <-;
                 intros Hn; contradiction|]);
        intros e H Hs; try discriminate H; injection H as <-; eauto.
    + (erewrite since_app by (cbn; rewrite <- ?app_assoc; reflexivity)).
      split; [eexists; split; [reflexivity|constructor]|].
      split; [intros data H; discriminate H|].
      intros e H Hs. injection H as <-. congruence.
  - destruct (Launcher.httpStatusOk g url) eqn:Eok; cbn.
    + (erewrite since_app by (cbn; rewrite <- ?app_assoc; reflexivity)).
      split; [eexists; split; [reflexivity|constructor]|].
      split; [|intros e H; discriminate H].
      intros data H _. injection H as <-. auto.
    + match goal with
      | |- context [ParkLoad.throws o ?h ?c] =>
          destruct (ParkLoad.throws o h c) as [e1|] eqn:E1
      end; cbn;
        (erewrite since_app by (cbn; rewrite <- ?app_assoc; reflexivity));
        (split; [eexists; split; [reflexivity|]; repeat constructor; eauto|]);
        (split; [intros data H; try discriminate H; injection H as <-;
                 intros Hn; contradiction|]);
        intros e H Hs; try discriminate H; injection H as <-; eauto.
Qed.

(** ** The drawing engine *)

(** X25.  [InitialiseDrawingEngine].  With asserts compiled in and an
    engine already stored, the assertion fails and nothing is done.
    Otherwise, if the configured engine can be created and initialised it
    is stored, the configuration is left alone, nothing is saved, and the
    last call is [WindowCheckAllValidZoom].  If it cannot and it is the
    software engine, the process exits with code -1 and the engine type
    [None].  If it cannot and it is another engine, the configuration is
    switched to the software engine and saved, and [DrawingEngineInit] is
    called with the variables as [fallbackState] gives them, this function
    having stored no engine; whether the function returns, and what is in
    the variables then, is what [DrawingEngineInit] answers, and
    [WindowCheckAllValidZoom] follows only if it returns. *)
Theorem drawing_engine_fallback (env : Drawing.DrawEnv)
    (st : Drawing.DrawState) :
  let type := Drawing.gConfigGeneral_DrawingEngine st in
  let asserted := negb (Drawing.NDEBUG env) && Drawing._drawingEngine st in
  let out := fst (fst (Drawing.InitialiseDrawingEngine env st)) in
  let st' := snd (fst (Drawing.InitialiseDrawingEngine env st)) in
  let log := snd (Drawing.InitialiseDrawingEngine env st) in
  (asserted = true ->
   out = Drawing.AssertionFailed /\ st' = st /\ log = []) /\
  (asserted = false -> Drawing.usable env type = true ->
   out = Drawing.Returned /\
   st' = Drawing.mkDrawState type true type /\
   List.last log (Drawing.Exit 0) = Drawing.WindowCheckAllValidZoom /\
   ~ In Drawing.ConfigSaveDefault log /\ ~ In Drawing.DrawingEngineInit log) /\
  (asserted = false -> Drawing.usable env type = false ->
   type = Drawing.DrawingEngine_Software ->
   out = Drawing.Exited /\
   st' = Drawing.mkDrawState Drawing.DrawingEngine_None
           (Drawing._drawingEngine st) type /\
   List.last log Drawing.WindowCheckAllValidZoom = Drawing.Exit (-1) /\
   ~ In Drawing.ConfigSaveDefault log /\ ~ In Drawing.DrawingEngineInit log) /\
  (asserted = false -> Drawing.usable env type = false ->
   type <> Drawing.DrawingEngine_Software ->
   (out, st')
   = Drawing.onDrawingEngineInit env (Drawing.fallbackState type st) /\
   exists before text,
     log = before
           ++ [Drawing.LogError text; Drawing.ConfigSaveDefault;
               Drawing.DrawingEngineInit]
           ++ match out with
              | Drawing.Returned => [Drawing.WindowCheckAllValidZoom]
              | _ => []
              end /\
     ~ In Drawing.ConfigSaveDefault before /\
     ~ In Drawing.DrawingEngineInit before /\
     ~ In Drawing.WindowCheckAllValidZoom before).
Proof.
  cbv zeta. unfold Drawing.InitialiseDrawingEngine, Drawing.usable.
  destruct st as [t e c]. cbn [Drawing.gConfigGeneral_DrawingEngine
    Drawing._drawingEngine Drawing._drawingEngineType].
  assert (forall before fatal fallback,
            c <> Drawing.DrawingEngine_Software ->
            ~ In Drawing.ConfigSaveDefault before ->
            ~ In Drawing.DrawingEngineInit before ->
            ~ In Drawing.WindowCheckAllValidZoom before ->
            let r := Drawing.giveUp env c (Drawing.mkDrawState t e c) before
                       fatal fallback in
            (fst (fst r), snd (fst r))
            = Drawing.onDrawingEngineInit env
                (Drawing.fallbackState c (Drawing.mkDrawState t e c)) /\
            exists before' text,
              snd r = before'
                      ++ [Drawing.LogError text; Drawing.ConfigSaveDefault;
                          Drawing.DrawingEngineInit]
                      ++ match fst (fst r) with
                         | Drawing.Returned => [Drawing.WindowCheckAllValidZoom]
                         | _ => []
                         end /\
              ~ In Drawing.ConfigSaveDefault before' /\
              ~ In Drawing.DrawingEngineInit before' /\
              ~ In Drawing.WindowCheckAllValidZoom before') as Hfall.
  { intros before fatal fallback Hc H1 H2 H3 r. unfold r, Drawing.giveUp.
    assert (Drawing.isSoftware c = false) as ->
      by (destruct c; try reflexivity; contradiction).
    destruct (Drawing.onDrawingEngineInit env _) as [[] st2];
      cbn [fst snd]; (split; [reflexivity|]);
      exists before, fallback; (split; [reflexivity|]); auto. }
  assert (forall before fatal fallback,
            ~ In Drawing.ConfigSaveDefault before ->
            ~ In Drawing.DrawingEngineInit before ->
            let r := Drawing.giveUp env Drawing.DrawingEngine_Software
                       (Drawing.mkDrawState t e Drawing.DrawingEngine_Software)
                       before fatal fallback in
            fst (fst r) = Drawing.Exited /\
            snd (fst r)
            = Drawing.mkDrawState Drawing.DrawingEngine_None e
                Drawing.DrawingEngine_Software /\
            List.last (snd r) Drawing.WindowCheckAllValidZoom
            = Drawing.Exit (-1) /\
            ~ In Drawing.ConfigSaveDefault (snd r) /\
            ~ In Drawing.DrawingEngineInit (snd r)) as Hexit.
  { intros before fatal fallback H1 H2. cbn.
    split; [reflexivity|]. split; [reflexivity|].
    split; [apply List.last_last with (l := before ++ [Drawing.LogFatal fatal])
              (a := Drawing.Exit (-1)) (d := Drawing.WindowCheckAllValidZoom)
            || (replace (before ++ [Drawing.LogFatal fatal; Drawing.Exit (-1)])
                  with ((before ++ [Drawing.LogFatal fatal]) ++ [Drawing.Exit (-1)])
                  by (rewrite <- app_assoc; reflexivity);
                apply List.last_last)|].
    split; intros Hin; apply List.in_app_or in Hin;
      destruct Hin as [Hin|[Hin|[Hin|[]]]]; try discriminate Hin;
      auto. }
  destruct (negb (Drawing.NDEBUG env) && e) eqn:Ea.
  { cbn. repeat split; intros; try discriminate; auto. }
  split; [intros H; discriminate H|].
  destruct (Drawing.Create env c) eqn:Ec; cbn [negb andb].
  2:{ split; [intros _ H; discriminate H|].
      split.
      - intros _ _ ->. apply Hexit; intros [H|[]]; discriminate H.
      - intros _ _ Hc. apply Hfall; [exact Hc| | |];
          intros [H|[]]; discriminate H. }
  destruct (Drawing.InitialiseThrows env) as [what|] eqn:Ei.
  { split; [intros _ H; discriminate H|].
    split.
    - intros _ _ ->. apply Hexit; intros [H|[H|[H|[]]]]; discriminate H.
    - intros _ _ Hc. apply Hfall; [exact Hc| | |];
        intros [H|[H|[H|[]]]]; discriminate H. }
  destruct (Drawing.SetVSyncThrows env) as [what|] eqn:Es.
  { split; [intros _ H; discriminate H|].
    split.
    - intros _ _ ->. apply Hexit; intros [H|[H|[H|[H|[]]]]]; discriminate H.
    - intros _ _ Hc. apply Hfall; [exact Hc| | |];
        intros [H|[H|[H|[H|[]]]]]; discriminate H. }
  cbn. split.
  - intros _ _. repeat split;
      intros [H|[H|[H|[H|[]]]]]; discriminate H.
  - split; intros _ H; discriminate H.
Qed.
